(** * Huffman block compressor (lib/compress/huf_compress.c)

    A shallow embedding of the table builder, the table serializer and the
    block compressor, and the properties of the specification proved (or
    refuted) on it. *)

From Stdlib Require Import ZArith List Lia Bool Permutation.
Import ListNotations.
Local Open Scope Z_scope.

(** ** Machine integers

    Values are kept in [Z]; every C conversion is written out. *)

Definition U32 (x : Z) : Z := x mod 2^32.
Definition U16 (x : Z) : Z := x mod 2^16.
Definition BYTE (x : Z) : Z := x mod 2^8.
Definition size_t (x : Z) : Z := x mod 2^64.
(** [int]: two's complement on 32 bits. *)
Definition S32 (x : Z) : Z := (x + 2^31) mod 2^32 - 2^31.

(** ** Constants of huf.h *)

(** Modelled from the spec: huf.h is not part of the sources; the spec gives
    [L_max = 12], [L_default = 11], [symbol_max = 255] and
    [block_size_max = 128 KiB]. *)
Definition HUF_TABLELOG_MAX : Z := 12.
Definition HUF_TABLELOG_DEFAULT : Z := 11.
Definition HUF_SYMBOLVALUE_MAX : Z := 255.
Definition HUF_BLOCKSIZE_MAX : Z := 128 * 1024.
Definition STARTNODE : Z := HUF_SYMBOLVALUE_MAX + 1.
(** Number of elements of [huffNodeTable]. *)
Definition huffNodeTable_len : Z := 2 * HUF_SYMBOLVALUE_MAX + 1 + 1.

(** ** Results

    A C function of this file either completes, returns [ERROR(e)], or has
    no defined behaviour (an access outside an object, a shift by too many
    bits, a loop that runs out of the fuel the model gives it). *)

Inductive ERR_code : Type :=
| GENERIC
| maxSymbolValue_tooLarge
| maxSymbolValue_tooSmall
| tableLog_tooLarge
| dstSize_tooSmall
| srcSize_wrong
| corruption_detected.

Inductive outcome (A : Type) : Type :=
| Ret (a : A)
| Err (e : ERR_code)
| Undef.
Arguments Ret {A} a.
Arguments Err {A} e.
Arguments Undef {A}.

Definition bind {A B : Type} (m : outcome A) (k : A -> outcome B) : outcome B :=
  match m with
  | Ret a => k a
  | Err e => Err e
  | Undef => Undef
  end.

Notation "x <- m ;; k" := (bind m (fun x => k))
  (at level 61, m at next level, right associativity).
Notation "' pat <- m ;; k" := (bind m (fun x => match x with pat => k end))
  (at level 61, pat pattern, m at next level, right associativity).

(** Loops.  [for_up k i body] runs [body i], [body (i+1)], ... [k] times;
    [for_down] counts downwards; [while_loop] runs [body] as long as [cond]
    holds, and is undefined when the fuel does not suffice. *)

Fixpoint for_up {St : Type} (k : nat) (i : Z) (body : Z -> St -> outcome St) (s : St)
  : outcome St :=
  match k with
  | O => Ret s
  | S k' => s' <- body i s ;; for_up k' (i + 1) body s'
  end.

Fixpoint for_down {St : Type} (k : nat) (i : Z) (body : Z -> St -> outcome St) (s : St)
  : outcome St :=
  match k with
  | O => Ret s
  | S k' => s' <- body i s ;; for_down k' (i - 1) body s'
  end.

Fixpoint while_loop {St : Type} (fuel : nat) (cond : St -> outcome bool)
  (body : St -> outcome St) (s : St) : outcome St :=
  match fuel with
  | O => Undef
  | S fuel' =>
      b <- cond s ;;
      if b then s' <- body s ;; while_loop fuel' cond body s' else Ret s
  end.

(** ** Arrays

    An array is a function from indices to values together with the bounds
    the C object has; reads and writes outside the bounds are undefined. *)

Definition upd {A : Type} (a : Z -> A) (i : Z) (v : A) : Z -> A :=
  fun j => if j =? i then v else a j.

Definition aget {A : Type} (lo hi : Z) (a : Z -> A) (i : Z) : outcome A :=
  if (lo <=? i) && (i <=? hi) then Ret (a i) else Undef.

Definition aset {A : Type} (lo hi : Z) (a : Z -> A) (i : Z) (v : A)
  : outcome (Z -> A) :=
  if (lo <=? i) && (i <=? hi) then Ret (upd a i v) else Undef.

(** [count] is a vector of [U32]; reading past its end is undefined. *)
Definition count_get (count : list Z) (n : Z) : outcome Z :=
  if 0 <=? n then
    match nth_error count (Z.to_nat n) with
    | Some c => Ret c
    | None => Undef
    end
  else Undef.

(** Modelled from the spec: bitstream.h is not part of the sources;
    [BIT_highbit32 v] is the position of the highest set bit,
    [floor (log2 v)], and has no defined value at 0. *)
Definition BIT_highbit32 (v : Z) : outcome Z :=
  if 0 <? v then Ret (Z.log2 v) else Undef.

(** [1 << k] on [int]; undefined unless [0 <= k < 31]. *)
Definition shl1 (k : Z) : outcome Z :=
  if (0 <=? k) && (k <? 31) then Ret (Z.shiftl 1 k) else Undef.

(** ** Data *)

Record HUF_CElt : Type := mkCElt { val : Z; nbBits : Z }.

(** The fields [count] and [nbBits] of the C struct are [n_count] and
    [n_nbBits] here. *)
Record nodeElt : Type := mkNode { n_count : Z; parent : Z; byte : Z; n_nbBits : Z }.

Definition set_count (e : nodeElt) (c : Z) : nodeElt :=
  mkNode c (parent e) (byte e) (n_nbBits e).
Definition set_parent (e : nodeElt) (p : Z) : nodeElt :=
  mkNode (n_count e) p (byte e) (n_nbBits e).
Definition set_byte (e : nodeElt) (b : Z) : nodeElt :=
  mkNode (n_count e) (parent e) b (n_nbBits e).
Definition set_nbBits (e : nodeElt) (b : Z) : nodeElt :=
  mkNode (n_count e) (parent e) (byte e) b.

(** The node table is indexed as the code indexes [huffNode = huffNode0 + 1]:
    index [-1] is [huffNode0[0]], the last element is [huffNode[510]]. *)
Definition nodeTable : Type := Z -> nodeElt.
Definition node_lo : Z := -1.
Definition node_hi : Z := huffNodeTable_len - 2.

Definition rd (t : nodeTable) (i : Z) : outcome nodeElt := aget node_lo node_hi t i.
Definition wr (t : nodeTable) (i : Z) (e : nodeElt) : outcome nodeTable :=
  aset node_lo node_hi t i e.

(** [memset (huffNode0, 0, sizeof (huffNodeTable))] *)
Definition zero_node : nodeElt := mkNode 0 0 0 0.
Definition zero_table : nodeTable := fun _ => zero_node.

(** ** HUF_sort *)

Record rankPos : Type := mkRankPos { base : Z; current : Z }.

Definition rank_get (rank : Z -> rankPos) (r : Z) : outcome rankPos := aget 0 31 rank r.
Definition rank_set (rank : Z -> rankPos) (r : Z) (v : rankPos) : outcome (Z -> rankPos) :=
  aset 0 31 rank r v.

(** First loop: [rank[BIT_highbit32 (count[n] + 1)].base++]. *)
Definition sort_count_ranks (count : list Z) (n : Z) (rank : Z -> rankPos)
  : outcome (Z -> rankPos) :=
  c <- count_get count n ;;
  r <- BIT_highbit32 (U32 (c + 1)) ;;
  e <- rank_get rank r ;;
  rank_set rank r (mkRankPos (U32 (base e + 1)) (current e)).

(** Second loop: [rank[n-1].base += rank[n].base]. *)
Definition sort_accumulate (n : Z) (rank : Z -> rankPos) : outcome (Z -> rankPos) :=
  e <- rank_get rank n ;;
  e' <- rank_get rank (n - 1) ;;
  rank_set rank (n - 1) (mkRankPos (U32 (base e' + base e)) (current e')).

(** Third loop: [rank[n].current = rank[n].base]. *)
Definition sort_set_current (n : Z) (rank : Z -> rankPos) : outcome (Z -> rankPos) :=
  e <- rank_get rank n ;;
  rank_set rank n (mkRankPos (base e) (base e)).

(** The insertion loop: while [pos > rank[r].base] and
    [c > huffNode[pos-1].count], move the element up. *)
Definition sort_shift_cond (b c : Z) (s : nodeTable * Z) : outcome bool :=
  let '(t, pos) := s in
  if b <? pos then e <- rd t (U32 (pos - 1)) ;; Ret (n_count e <? c) else Ret false.

Definition sort_shift_body (s : nodeTable * Z) : outcome (nodeTable * Z) :=
  let '(t, pos) := s in
  e <- rd t (U32 (pos - 1)) ;;
  t' <- wr t pos e ;;
  Ret (t', U32 (pos - 1)).

Definition sort_insert (count : list Z) (n : Z) (s : nodeTable * (Z -> rankPos))
  : outcome (nodeTable * (Z -> rankPos)) :=
  let '(t, rank) := s in
  c <- count_get count n ;;
  h <- BIT_highbit32 (U32 (c + 1)) ;;
  let r := U32 (h + 1) in
  e <- rank_get rank r ;;
  let pos := current e in
  rank' <- rank_set rank r (mkRankPos (base e) (U32 (current e + 1))) ;;
  '(t1, pos1) <- while_loop (S (Z.to_nat pos)) (sort_shift_cond (base e) c)
                   sort_shift_body (t, pos) ;;
  e1 <- rd t1 pos1 ;;
  t2 <- wr t1 pos1 (set_count e1 c) ;;
  e2 <- rd t2 pos1 ;;
  t3 <- wr t2 pos1 (set_byte e2 (BYTE n)) ;;
  Ret (t3, rank').

Definition zero_rank : Z -> rankPos := fun _ => mkRankPos 0 0.

Definition HUF_sort (huffNode : nodeTable) (count : list Z) (maxSymbolValue : Z)
  : outcome nodeTable :=
  let k := Z.to_nat (maxSymbolValue + 1) in
  rank1 <- for_up k 0 (sort_count_ranks count) zero_rank ;;
  rank2 <- for_down 30 30 sort_accumulate rank1 ;;
  rank3 <- for_up 32 0 sort_set_current rank2 ;;
  '(t, _) <- for_up k 0 (sort_insert count) (huffNode, rank3) ;;
  Ret t.

(** ** HUF_setMaxHeight *)

Definition noSymbol : Z := 0xF0F0F0F0.

(** [U32 rankLast[HUF_TABLELOG_MAX+2]] *)
Definition rl_get (rankLast : Z -> Z) (i : Z) : outcome Z :=
  aget 0 (HUF_TABLELOG_MAX + 1) rankLast i.
Definition rl_set (rankLast : Z -> Z) (i v : Z) : outcome (Z -> Z) :=
  aset 0 (HUF_TABLELOG_MAX + 1) rankLast i v.

(** State of the clamping loop: the table, [totalCost] and [n]. *)
Definition clamp_cond (maxNbBits : Z) (s : nodeTable * Z * Z) : outcome bool :=
  let '(t, _, n) := s in
  e <- rd t n ;; Ret (maxNbBits <? n_nbBits e).

Definition clamp_body (largestBits maxNbBits baseCost : Z) (s : nodeTable * Z * Z)
  : outcome (nodeTable * Z * Z) :=
  let '(t, totalCost, n) := s in
  e <- rd t n ;;
  sh <- shl1 (U32 (largestBits - n_nbBits e)) ;;
  let totalCost' := S32 (totalCost + U32 (baseCost - sh)) in
  e' <- rd t n ;;
  t' <- wr t n (set_nbBits e' (BYTE maxNbBits)) ;;
  Ret (t', totalCost', U32 (n - 1)).

(** [while (huffNode[n].nbBits == maxNbBits) n--;] *)
Definition skip_cond (t : nodeTable) (maxNbBits : Z) (n : Z) : outcome bool :=
  e <- rd t n ;; Ret (n_nbBits e =? maxNbBits).
Definition skip_body (n : Z) : outcome Z := Ret (U32 (n - 1)).

(** Position of the last (smallest) symbol of every rank. *)
Definition rankLast_body (t : nodeTable) (maxNbBits : Z) (pos : Z) (s : Z * (Z -> Z))
  : outcome (Z * (Z -> Z)) :=
  let '(currentNbBits, rankLast) := s in
  e <- rd t pos ;;
  if currentNbBits <=? n_nbBits e then Ret s
  else
    rankLast' <- rl_set rankLast (U32 (maxNbBits - n_nbBits e)) (U32 pos) ;;
    Ret (n_nbBits e, rankLast').

(** The [for ( ; nBitsToDecrease > 1; nBitsToDecrease--)] search. *)
Fixpoint scan_ranks (fuel : nat) (t : nodeTable) (rankLast : Z -> Z)
  (nBitsToDecrease : Z) : outcome Z :=
  match fuel with
  | O => Undef
  | S fuel' =>
      if 1 <? nBitsToDecrease then
        highPos <- rl_get rankLast nBitsToDecrease ;;
        lowPos <- rl_get rankLast (U32 (nBitsToDecrease - 1)) ;;
        if highPos =? noSymbol then
          scan_ranks fuel' t rankLast (U32 (nBitsToDecrease - 1))
        else if lowPos =? noSymbol then Ret nBitsToDecrease
        else
          eh <- rd t highPos ;;
          el <- rd t lowPos ;;
          let highTotal := n_count eh in
          let lowTotal := U32 (2 * n_count el) in
          if highTotal <=? lowTotal then Ret nBitsToDecrease
          else scan_ranks fuel' t rankLast (U32 (nBitsToDecrease - 1))
      else Ret nBitsToDecrease
  end.

(** [while ((nBitsToDecrease<=HUF_TABLELOG_MAX) && (rankLast[nBitsToDecrease] == noSymbol))] *)
Definition bump_cond (rankLast : Z -> Z) (nBitsToDecrease : Z) : outcome bool :=
  if nBitsToDecrease <=? HUF_TABLELOG_MAX then
    p <- rl_get rankLast nBitsToDecrease ;; Ret (p =? noSymbol)
  else Ret false.
Definition bump_body (nBitsToDecrease : Z) : outcome Z := Ret (U32 (nBitsToDecrease + 1)).

(** State of the repayment loop: the table, [totalCost] and [rankLast]. *)
Definition repay_cond (s : nodeTable * Z * (Z -> Z)) : outcome bool :=
  let '(_, totalCost, _) := s in Ret (0 <? totalCost).

Definition repay_body (maxNbBits : Z) (s : nodeTable * Z * (Z -> Z))
  : outcome (nodeTable * Z * (Z -> Z)) :=
  let '(t, totalCost, rankLast) := s in
  h <- BIT_highbit32 (U32 totalCost) ;;
  let d0 := U32 (h + 1) in
  d1 <- scan_ranks (Z.to_nat d0) t rankLast d0 ;;
  d <- while_loop 16 (bump_cond rankLast) bump_body d1 ;;
  sh <- shl1 (U32 (d - 1)) ;;
  let totalCost' := S32 (totalCost - sh) in
  lo <- rl_get rankLast (U32 (d - 1)) ;;
  hi <- rl_get rankLast d ;;
  rankLast1 <- (if lo =? noSymbol then rl_set rankLast (U32 (d - 1)) hi
                else Ret rankLast) ;;
  p <- rl_get rankLast1 d ;;
  e <- rd t p ;;
  t' <- wr t p (set_nbBits e (BYTE (n_nbBits e + 1))) ;;
  p' <- rl_get rankLast1 d ;;
  if p' =? 0 then
    rankLast2 <- rl_set rankLast1 d noSymbol ;;
    Ret (t', totalCost', rankLast2)
  else
    rankLast2 <- rl_set rankLast1 d (U32 (p' - 1)) ;;
    q <- rl_get rankLast2 d ;;
    e' <- rd t' q ;;
    if negb (n_nbBits e' =? U32 (maxNbBits - d)) then
      rankLast3 <- rl_set rankLast2 d noSymbol ;;
      Ret (t', totalCost', rankLast3)
    else Ret (t', totalCost', rankLast2).

(** State of the overshoot loop: the table, [totalCost], [n] and [rankLast]. *)
Definition overshoot_cond (s : nodeTable * Z * Z * (Z -> Z)) : outcome bool :=
  let '(_, totalCost, _, _) := s in Ret (totalCost <? 0).

Definition overshoot_body (maxNbBits : Z) (s : nodeTable * Z * Z * (Z -> Z))
  : outcome (nodeTable * Z * Z * (Z -> Z)) :=
  let '(t, totalCost, n, rankLast) := s in
  r1 <- rl_get rankLast 1 ;;
  if r1 =? noSymbol then
    n' <- while_loop (S (S (Z.to_nat n))) (skip_cond t maxNbBits) skip_body n ;;
    e <- rd t (U32 (n' + 1)) ;;
    t' <- wr t (U32 (n' + 1)) (set_nbBits e (BYTE (n_nbBits e - 1))) ;;
    rankLast' <- rl_set rankLast 1 (U32 (n' + 1)) ;;
    Ret (t', S32 (totalCost + 1), n', rankLast')
  else
    e <- rd t (U32 (r1 + 1)) ;;
    t' <- wr t (U32 (r1 + 1)) (set_nbBits e (BYTE (n_nbBits e - 1))) ;;
    rankLast' <- rl_set rankLast 1 (U32 (r1 + 1)) ;;
    Ret (t', S32 (totalCost + 1), n, rankLast').

Definition HUF_setMaxHeight (huffNode : nodeTable) (lastNonNull maxNbBits : Z)
  : outcome (nodeTable * Z) :=
  e <- rd huffNode lastNonNull ;;
  let largestBits := n_nbBits e in
  if largestBits <=? maxNbBits then Ret (huffNode, largestBits)
  else
    sh <- shl1 (U32 (largestBits - maxNbBits)) ;;
    let baseCost := U32 sh in
    '(t1, totalCost1, n1) <-
       while_loop (S (S (Z.to_nat lastNonNull))) (clamp_cond maxNbBits)
         (clamp_body largestBits maxNbBits baseCost) (huffNode, 0, lastNonNull) ;;
    n2 <- while_loop (S (S (Z.to_nat n1))) (skip_cond t1 maxNbBits) skip_body n1 ;;
    (* renorm totalCost *)
    _ <- shl1 (U32 (largestBits - maxNbBits)) ;;
    let totalCost2 := Z.shiftr totalCost1 (U32 (largestBits - maxNbBits)) in
    (* repay normalized cost *)
    let pos := S32 n2 in
    '(_, rankLast) <-
       for_down (Z.to_nat (pos + 1)) pos (rankLast_body t1 maxNbBits)
         (maxNbBits, fun _ => noSymbol) ;;
    '(t3, totalCost3, rankLast3) <-
       while_loop (S (Z.to_nat totalCost2)) repay_cond (repay_body maxNbBits)
         (t1, totalCost2, rankLast) ;;
    '(t4, _, _, _) <-
       while_loop (S (Z.to_nat (- totalCost3))) overshoot_cond
         (overshoot_body maxNbBits) (t3, totalCost3, n2, rankLast3) ;;
    Ret (t4, maxNbBits).

(** ** HUF_buildCTable_wksp *)

Definition HUF_CTable : Type := Z -> HUF_CElt.
Definition set_val (e : HUF_CElt) (v : Z) : HUF_CElt := mkCElt v (nbBits e).
Definition set_bits (e : HUF_CElt) (b : Z) : HUF_CElt := mkCElt (val e) b.

(** [sizeof (nodeElt)] is 8: a [U32], a [U16] and two [BYTE]s. *)
Definition sizeof_huffNodeTable : Z := huffNodeTable_len * 8.

(** [while (huffNode[nonNullRank].count == 0) nonNullRank--;] *)
Definition nonNull_cond (t : nodeTable) (nonNullRank : Z) : outcome bool :=
  e <- rd t nonNullRank ;; Ret (n_count e =? 0).

(** [lowS-- ] or [lowN++], whichever holds the smaller count. *)
Definition pick_lowest (t : nodeTable) (lowS lowN : Z) : outcome (Z * Z * Z) :=
  es <- rd t lowS ;;
  en <- rd t lowN ;;
  if n_count es <? n_count en then Ret (U32 lowS, S32 (lowS - 1), lowN)
  else Ret (U32 lowN, lowS, S32 (lowN + 1)).

(** State of the parent-creation loop: table, [lowS], [lowN], [nodeNb]. *)
Definition parents_cond (nodeRoot : Z) (s : nodeTable * Z * Z * Z) : outcome bool :=
  let '(_, _, _, nodeNb) := s in Ret (nodeNb <=? nodeRoot).

Definition parents_body (s : nodeTable * Z * Z * Z) : outcome (nodeTable * Z * Z * Z) :=
  let '(t, lowS, lowN, nodeNb) := s in
  '(n1, lowS1, lowN1) <- pick_lowest t lowS lowN ;;
  '(n2, lowS2, lowN2) <- pick_lowest t lowS1 lowN1 ;;
  e1 <- rd t n1 ;;
  e2 <- rd t n2 ;;
  e <- rd t nodeNb ;;
  t1 <- wr t nodeNb (set_count e (U32 (n_count e1 + n_count e2))) ;;
  e2' <- rd t1 n2 ;;
  t2 <- wr t1 n2 (set_parent e2' nodeNb) ;;
  e1' <- rd t2 n1 ;;
  t3 <- wr t2 n1 (set_parent e1' (parent (set_parent e2' nodeNb))) ;;
  Ret (t3, lowS2, lowN2, U16 (nodeNb + 1)).

(** [huffNode[n].nbBits = huffNode[ huffNode[n].parent ].nbBits + 1] *)
Definition depth_body (n : Z) (t : nodeTable) : outcome nodeTable :=
  e <- rd t n ;;
  p <- rd t (parent e) ;;
  wr t n (set_nbBits e (BYTE (n_nbBits p + 1))).

Definition init_future (n : Z) (t : nodeTable) : outcome nodeTable :=
  e <- rd t n ;; wr t n (set_count e (U32 (2^30))).

(** [U16 nbPerRank[HUF_TABLELOG_MAX+1]], [U16 valPerRank[HUF_TABLELOG_MAX+1]] *)
Definition pr_get (a : Z -> Z) (i : Z) : outcome Z := aget 0 HUF_TABLELOG_MAX a i.
Definition pr_set (a : Z -> Z) (i v : Z) : outcome (Z -> Z) := aset 0 HUF_TABLELOG_MAX a i v.

Definition count_rank_body (t : nodeTable) (n : Z) (nbPerRank : Z -> Z)
  : outcome (Z -> Z) :=
  e <- rd t n ;;
  c <- pr_get nbPerRank (n_nbBits e) ;;
  pr_set nbPerRank (n_nbBits e) (U16 (c + 1)).

(** Starting value of every rank; state: [valPerRank] and [min]. *)
Definition start_val_body (nbPerRank : Z -> Z) (n : Z) (s : (Z -> Z) * Z)
  : outcome ((Z -> Z) * Z) :=
  let '(valPerRank, min) := s in
  valPerRank' <- pr_set valPerRank n min ;;
  c <- pr_get nbPerRank n ;;
  Ret (valPerRank', Z.shiftr (U16 (min + c)) 1).

(** The table has [maxSymbolValue + 1] elements. *)
Definition tree_get (maxSymbolValue : Z) (tree : HUF_CTable) (i : Z) : outcome HUF_CElt :=
  aget 0 maxSymbolValue tree i.
Definition tree_set (maxSymbolValue : Z) (tree : HUF_CTable) (i : Z) (e : HUF_CElt)
  : outcome HUF_CTable :=
  aset 0 maxSymbolValue tree i e.

Definition push_bits_body (maxSymbolValue : Z) (t : nodeTable) (n : Z) (tree : HUF_CTable)
  : outcome HUF_CTable :=
  e <- rd t n ;;
  c <- tree_get maxSymbolValue tree (byte e) ;;
  tree_set maxSymbolValue tree (byte e) (set_bits c (n_nbBits e)).

Definition assign_val_body (maxSymbolValue : Z) (n : Z) (s : HUF_CTable * (Z -> Z))
  : outcome (HUF_CTable * (Z -> Z)) :=
  let '(tree, valPerRank) := s in
  c <- tree_get maxSymbolValue tree n ;;
  v <- pr_get valPerRank (nbBits c) ;;
  valPerRank' <- pr_set valPerRank (nbBits c) (U16 (v + 1)) ;;
  tree' <- tree_set maxSymbolValue tree n (set_val c v) ;;
  Ret (tree', valPerRank').

(** The tree of unlimited height: everything up to the call of
    [HUF_setMaxHeight].  Returns the node table and [nonNullRank]. *)
Definition HUF_buildTree (count : list Z) (maxSymbolValue : Z) : outcome (nodeTable * Z) :=
  let huffNode0 := zero_table in
  (* sort, decreasing order *)
  t0 <- HUF_sort huffNode0 count maxSymbolValue ;;
  (* init for parents *)
  nonNullRank <- while_loop (S (S (Z.to_nat maxSymbolValue))) (nonNull_cond t0)
                   skip_body maxSymbolValue ;;
  let nodeNb := STARTNODE in
  let lowS := S32 nonNullRank in
  let nodeRoot := U32 (nodeNb + lowS - 1) in
  let lowN := nodeNb in
  es <- rd t0 lowS ;;
  es1 <- rd t0 (lowS - 1) ;;
  e <- rd t0 nodeNb ;;
  t1 <- wr t0 nodeNb (set_count e (U32 (n_count es + n_count es1))) ;;
  e1 <- rd t1 (lowS - 1) ;;
  t2 <- wr t1 (lowS - 1) (set_parent e1 nodeNb) ;;
  e2 <- rd t2 lowS ;;
  t3 <- wr t2 lowS (set_parent e2 (parent (set_parent e1 nodeNb))) ;;
  let nodeNb := U16 (nodeNb + 1) in
  let lowS := S32 (lowS - 2) in
  t4 <- for_up (Z.to_nat (nodeRoot - nodeNb + 1)) nodeNb init_future t3 ;;
  e0 <- rd t4 (-1) ;;
  t5 <- wr t4 (-1) (set_count e0 (U32 (2^31))) ;;   (* fake entry, strong barrier *)
  (* create parents *)
  '(t6, _, _, _) <- while_loop (S (Z.to_nat (nodeRoot - nodeNb + 1)))
                      (parents_cond nodeRoot) parents_body (t5, lowS, lowN, nodeNb) ;;
  (* distribute weights (unlimited tree height) *)
  er <- rd t6 nodeRoot ;;
  t7 <- wr t6 nodeRoot (set_nbBits er 0) ;;
  t8 <- for_down (Z.to_nat (U32 (nodeRoot - 1) - STARTNODE + 1)) (U32 (nodeRoot - 1))
          depth_body t7 ;;
  t9 <- for_up (Z.to_nat (nonNullRank + 1)) 0 depth_body t8 ;;
  Ret (t9, nonNullRank).

(** Fill the result into [tree] (val, nbBits). *)
Definition HUF_fillCTable (tree : HUF_CTable) (huffNode : nodeTable)
  (maxSymbolValue nonNullRank maxNbBits : Z) : outcome HUF_CTable :=
  let nbPerRank0 : Z -> Z := fun _ => 0 in
  let valPerRank0 : Z -> Z := fun _ => 0 in
  if HUF_TABLELOG_MAX <? maxNbBits then Err GENERIC   (* check fit into table *)
  else
    nbPerRank <- for_up (Z.to_nat (nonNullRank + 1)) 0 (count_rank_body huffNode)
                   nbPerRank0 ;;
    '(valPerRank, _) <- for_down (Z.to_nat maxNbBits) maxNbBits
                          (start_val_body nbPerRank) (valPerRank0, 0) ;;
    tree1 <- for_up (Z.to_nat (maxSymbolValue + 1)) 0
               (push_bits_body maxSymbolValue huffNode) tree ;;
    '(tree2, _) <- for_up (Z.to_nat (maxSymbolValue + 1)) 0
                     (assign_val_body maxSymbolValue) (tree1, valPerRank) ;;
    Ret tree2.

Definition HUF_buildCTable_wksp (tree : HUF_CTable) (count : list Z)
  (maxSymbolValue maxNbBits wkspSize : Z) : outcome (HUF_CTable * Z) :=
  (* safety checks *)
  if wkspSize <? sizeof_huffNodeTable then Err GENERIC
  else
    let maxNbBits := if maxNbBits =? 0 then HUF_TABLELOG_DEFAULT else maxNbBits in
    if HUF_SYMBOLVALUE_MAX <? maxSymbolValue then Err GENERIC
    else
      '(huffNode, nonNullRank) <- HUF_buildTree count maxSymbolValue ;;
      (* enforce maxTableLog *)
      '(huffNode', maxNbBits') <- HUF_setMaxHeight huffNode nonNullRank maxNbBits ;;
      tree' <- HUF_fillCTable tree huffNode' maxSymbolValue nonNullRank maxNbBits' ;;
      Ret (tree', maxNbBits').

(** [HUF_buildCTable]: the same with a node table on the stack. *)
Definition HUF_buildCTable (tree : HUF_CTable) (count : list Z) (maxSymbolValue maxNbBits : Z)
  : outcome (HUF_CTable * Z) :=
  HUF_buildCTable_wksp tree count maxSymbolValue maxNbBits sizeof_huffNodeTable.

(** The code lengths of a table, symbols [0 .. maxSymbolValue]. *)
Definition lengths_of (tree : HUF_CTable) (maxSymbolValue : Z) : list Z :=
  map (fun s => nbBits (tree (Z.of_nat s))) (seq 0 (Z.to_nat (maxSymbolValue + 1))).
Definition values_of (tree : HUF_CTable) (maxSymbolValue : Z) : list Z :=
  map (fun s => val (tree (Z.of_nat s))) (seq 0 (Z.to_nat (maxSymbolValue + 1))).

Definition zero_CTable : HUF_CTable := fun _ => mkCElt 0 0.

(** ** Cost estimate and validation of a table *)

(** [nbBits += CTable[s].nbBits * count[s]] is a 32-bit product added to a
    [size_t]; the result is [nbBits >> 3]. *)
Definition estimate_body (CTable : HUF_CTable) (count : list Z) (s : Z) (nbBits_acc : Z)
  : outcome Z :=
  c <- count_get count s ;;
  Ret (size_t (nbBits_acc + U32 (nbBits (CTable s) * c))).

Definition HUF_estimateCompressedSize (CTable : HUF_CTable) (count : list Z)
  (maxSymbolValue : Z) : outcome Z :=
  nbBits_acc <- for_up (Z.to_nat (maxSymbolValue + 1)) 0 (estimate_body CTable count) 0 ;;
  Ret (Z.shiftr nbBits_acc 3).

Definition validate_body (CTable : HUF_CTable) (count : list Z) (s : Z) (bad : bool)
  : outcome bool :=
  c <- count_get count s ;;
  Ret (bad || (negb (c =? 0) && (nbBits (CTable s) =? 0))).

Definition HUF_validateCTable (CTable : HUF_CTable) (count : list Z) (maxSymbolValue : Z)
  : outcome bool :=
  bad <- for_up (Z.to_nat (maxSymbolValue + 1)) 0 (validate_body CTable count) false ;;
  Ret (negb bad).

(** ** Serialization of a table *)

(** Bytes of a buffer as a list; [store buf off bytes] writes [bytes] at
    offset [off]. *)
Definition store (buf : list Z) (off : Z) (bytes : list Z) : list Z :=
  firstn (Z.to_nat off) buf ++ bytes
    ++ skipn (Z.to_nat off + length bytes) buf.

Definition MAX_FSE_TABLELOG_FOR_HUFF_HEADER : Z := 6.

(** The collaborators of this file live in other files (fse_compress.c,
    entropy_common.c, huf_compress_impl.h); they are the fields of a class,
    and everything below that calls them is parameterised by an instance.
    A function that returns the size of what it wrote returns the bytes. *)
Class Collaborators : Type := {
  FSE_norm : Type;
  FSE_CTable : Type;
  (** [FSE_count_simple]: the histogram, the largest symbol and the largest count. *)
  FSE_count_simple : list Z -> Z -> outcome (list Z * Z * Z);
  FSE_optimalTableLog : Z -> Z -> Z -> Z;
  FSE_normalizeCount : Z -> list Z -> Z -> Z -> outcome FSE_norm;
  FSE_writeNCount : Z -> FSE_norm -> Z -> Z -> outcome (list Z);
  FSE_buildCTable_wksp : FSE_norm -> Z -> Z -> outcome FSE_CTable;
  FSE_compress_usingCTable : Z -> list Z -> FSE_CTable -> outcome (list Z);
  (** [FSE_decompress_wksp maxOut src]: the decoded symbols. *)
  FSE_decompress_wksp : Z -> list Z -> outcome (list Z);
  (** [FSE_count_wksp maxSymbolValue src]: the histogram [count], the largest
      symbol present and the largest count. *)
  FSE_count_wksp : Z -> list Z -> outcome (list Z * Z * Z);
  FSE_optimalTableLog_internal : Z -> Z -> Z -> Z -> Z;
  (** The bitstream writers of huf_compress_impl.h:
      [f dstSize src CTable] is the bytes written, none meaning 0. *)
  HUF_compress1X_usingCTable_internal_default : Z -> list Z -> HUF_CTable -> outcome (list Z);
  HUF_compress4X_usingCTable_internal_default : Z -> list Z -> HUF_CTable -> outcome (list Z)
}.

Section Serialization.

Context {ext : Collaborators}.

(** [HUF_compressWeights]: the size and the bytes written. *)
Definition HUF_compressWeights (dstSize : Z) (weightTable : list Z) (wtSize : Z)
  : outcome (Z * list Z) :=
  let maxSymbolValue := HUF_TABLELOG_MAX in
  let tableLog := MAX_FSE_TABLELOG_FOR_HUFF_HEADER in
  (* init conditions *)
  if wtSize <=? 1 then Ret (0, [])   (* Not compressible *)
  else
    (* Scan input and build symbol stats *)
    '(count, maxSymbolValue, maxCount) <- FSE_count_simple weightTable maxSymbolValue ;;
    if maxCount =? wtSize then Ret (1, [])   (* only a single symbol in src : rle *)
    else if maxCount =? 1 then Ret (0, [])   (* each symbol present maximum once *)
    else
      let tableLog := FSE_optimalTableLog tableLog wtSize maxSymbolValue in
      norm <- FSE_normalizeCount tableLog count wtSize maxSymbolValue ;;
      (* Write table description header *)
      hdr <- FSE_writeNCount dstSize norm maxSymbolValue tableLog ;;
      let hSize := Z.of_nat (length hdr) in
      (* Compress *)
      ct <- FSE_buildCTable_wksp norm maxSymbolValue tableLog ;;
      payload <- FSE_compress_usingCTable (dstSize - hSize) weightTable ct ;;
      let cSize := Z.of_nat (length payload) in
      if cSize =? 0 then Ret (0, hdr)   (* not enough space for compressed data *)
      else Ret (hSize + cSize, hdr ++ payload).

(** [BYTE bitsToWeight[HUF_TABLELOG_MAX + 1]]; only the entries
    [0 .. huffLog] are written, reading another one is undefined. *)
Definition bitsToWeight_init (huffLog : Z) (n : Z) (a : Z -> Z) : outcome (Z -> Z) :=
  aset 0 HUF_TABLELOG_MAX a n (BYTE (huffLog + 1 - n)).

Definition weight_body (CTable : HUF_CTable) (huffLog : Z) (bitsToWeight : Z -> Z) (n : Z)
  (huffWeight : list Z) : outcome (list Z) :=
  w <- aget 0 (Z.min huffLog HUF_TABLELOG_MAX) bitsToWeight (nbBits (CTable n)) ;;
  Ret (huffWeight ++ [w]).

(** [op[(n/2)+1] = (BYTE)((huffWeight[n] << 4) + huffWeight[n+1])], where
    [huffWeight[maxSymbolValue]] has been set to 0. *)
Fixpoint pack_weights (huffWeight : list Z) : list Z :=
  match huffWeight with
  | [] => []
  | [a] => [BYTE (Z.shiftl a 4 + 0)]
  | a :: b :: rest => BYTE (Z.shiftl a 4 + b) :: pack_weights rest
  end.

(** [HUF_writeCTable]: the size and the bytes written to [dst]. *)
Definition HUF_writeCTable (maxDstSize : Z) (CTable : HUF_CTable)
  (maxSymbolValue huffLog : Z) : outcome (Z * list Z) :=
  (* check conditions *)
  if HUF_SYMBOLVALUE_MAX <? maxSymbolValue then Err maxSymbolValue_tooLarge
  else
    (* convert to weight *)
    bitsToWeight <- for_up (Z.to_nat huffLog) 1 (bitsToWeight_init huffLog)
                      (upd (fun _ => 0) 0 0) ;;
    huffWeight <- for_up (Z.to_nat maxSymbolValue) 0
                    (weight_body CTable huffLog bitsToWeight) [] ;;
    (* attempt weights compression by FSE *)
    '(hSize, payload) <- HUF_compressWeights (size_t (maxDstSize - 1)) huffWeight
                           maxSymbolValue ;;
    if (1 <? hSize) && (hSize <? maxSymbolValue / 2) then   (* FSE compressed *)
      if maxDstSize <? hSize + 1 then Undef
      else Ret (hSize + 1, BYTE hSize :: payload)
    else
      (* write raw values as 4-bits (max : 15) *)
      if (256 - 128) <? maxSymbolValue then Err GENERIC
      else if maxDstSize <? (maxSymbolValue + 1) / 2 + 1 then Err dstSize_tooSmall
      else
        Ret ((maxSymbolValue + 1) / 2 + 1,
             BYTE (128 + U32 (maxSymbolValue - 1)) :: pack_weights huffWeight).

(** What [HUF_compressWeights] has written to its destination when it
    returns, whatever it returns: nothing before [FSE_writeNCount], the table
    description once [FSE_writeNCount] has returned it, followed by the
    compressed weights once [FSE_compress_usingCTable] has returned them.
    The function may return 0 or an error with these bytes in place.  A
    collaborator that fails or has no room is taken to have written
    nothing: what it writes then is not decided in this file. *)
Definition HUF_compressWeights_written (dstSize : Z) (weightTable : list Z) (wtSize : Z)
  : list Z :=
  let maxSymbolValue := HUF_TABLELOG_MAX in
  let tableLog := MAX_FSE_TABLELOG_FOR_HUFF_HEADER in
  if wtSize <=? 1 then []
  else
    match FSE_count_simple weightTable maxSymbolValue with
    | Ret (count, maxSymbolValue, maxCount) =>
        if maxCount =? wtSize then []
        else if maxCount =? 1 then []
        else
          let tableLog := FSE_optimalTableLog tableLog wtSize maxSymbolValue in
          match FSE_normalizeCount tableLog count wtSize maxSymbolValue with
          | Ret norm =>
              match FSE_writeNCount dstSize norm maxSymbolValue tableLog with
              | Ret hdr =>
                  let hSize := Z.of_nat (length hdr) in
                  match FSE_buildCTable_wksp norm maxSymbolValue tableLog with
                  | Ret ct =>
                      match FSE_compress_usingCTable (dstSize - hSize) weightTable ct with
                      | Ret payload => hdr ++ payload
                      | _ => hdr
                      end
                  | _ => hdr
                  end
              | _ => []
              end
          | _ => []
          end
    | _ => []
    end.

(** What the call [HUF_compressWeights(op+1, maxDstSize-1, ...)] of
    [HUF_writeCTable] has written at [dst + 1] when [HUF_writeCTable]
    returns: these bytes stay behind the header when the compressed weights
    are not accepted. *)
Definition HUF_writeCTable_scratch (maxDstSize : Z) (CTable : HUF_CTable)
  (maxSymbolValue huffLog : Z) : list Z :=
  if HUF_SYMBOLVALUE_MAX <? maxSymbolValue then []
  else
    match (bitsToWeight <- for_up (Z.to_nat huffLog) 1 (bitsToWeight_init huffLog)
                             (upd (fun _ => 0) 0 0) ;;
           for_up (Z.to_nat maxSymbolValue) 0
             (weight_body CTable huffLog bitsToWeight) []) with
    | Ret huffWeight =>
        HUF_compressWeights_written (size_t (maxDstSize - 1)) huffWeight maxSymbolValue
    | _ => []
    end.

(** Modelled from the spec: [HUF_readStats] (entropy_common.c) is not part of
    the sources.  From sections 4.F and 6 of the spec: the first byte tells the
    two encodings apart, [0..127] being the size of an FSE-compressed payload
    and [128..255] a raw header for [byte - 128 + 1] transmitted weights, two
    per byte, the even-indexed one in the high nibble.  The weight of the
    last symbol is not transmitted; it completes the Kraft sum of the
    transmitted weights, where a symbol of weight [w > 0] counts for
    [2^w] and an absent symbol (weight 0) for nothing: with [partial] the sum
    and [P] the smallest power of two above it, [P - partial] has to be a
    power of two and the last weight is its logarithm; the table log [L] is
    the one with [P = 2^(L+1)].  The result is the weights (the last one
    included), the number of symbols, the table log and the number of bytes
    read. *)
Definition unpack_weights (payload : list Z) : list Z :=
  flat_map (fun b => [Z.shiftr b 4; Z.land b 15]) payload.

Definition weight_sum (huffWeight : list Z) : Z :=
  fold_right (fun w acc => (if 0 <? w then 2 ^ w else 0) + acc) 0 huffWeight.

Definition HUF_readStats (hwSize : Z) (src : list Z)
  : outcome (list Z * Z * Z * Z) :=
  match src with
  | [] => Err srcSize_wrong
  | first :: rest =>
      '(transmitted, iSize) <-
         (if 128 <=? first then
            let oSize := first - 127 in
            let iSize := (oSize + 1) / 2 in
            if Z.of_nat (length src) <? iSize + 1 then Err srcSize_wrong
            else if hwSize <=? oSize then Err corruption_detected
            else Ret (firstn (Z.to_nat oSize)
                        (unpack_weights (firstn (Z.to_nat iSize) rest)), iSize)
          else
            let iSize := first in
            if Z.of_nat (length src) <? iSize + 1 then Err srcSize_wrong
            else
              w <- FSE_decompress_wksp (hwSize - 1) (firstn (Z.to_nat iSize) rest) ;;
              Ret (w, iSize)) ;;
      let partial := weight_sum transmitted in
      if partial =? 0 then Err corruption_detected
      else
        let tableLog := Z.log2 partial in
        let P := 2 ^ (tableLog + 1) in
        let lastWeight := Z.log2 (P - partial) in
        if negb (2 ^ lastWeight =? P - partial) then Err corruption_detected
        else if HUF_TABLELOG_MAX <? tableLog then Err corruption_detected
        else
          Ret (transmitted ++ [lastWeight], Z.of_nat (length transmitted) + 1,
               tableLog, iSize + 1)
  end.

(** [U16 nbPerRank[HUF_TABLELOG_MAX+2]], [U16 valPerRank[HUF_TABLELOG_MAX+2]] *)
Definition pr2_get (a : Z -> Z) (i : Z) : outcome Z := aget 0 (HUF_TABLELOG_MAX + 1) a i.
Definition pr2_set (a : Z -> Z) (i v : Z) : outcome (Z -> Z) :=
  aset 0 (HUF_TABLELOG_MAX + 1) a i v.

Definition read_bits_body (maxSymbolValue tableLog : Z) (huffWeight : list Z) (n : Z)
  (tree : HUF_CTable) : outcome HUF_CTable :=
  w <- count_get huffWeight n ;;
  c <- tree_get maxSymbolValue tree n ;;
  tree_set maxSymbolValue tree n (set_bits c (BYTE (tableLog + 1 - w))).

Definition read_count_body (maxSymbolValue : Z) (tree : HUF_CTable) (n : Z)
  (nbPerRank : Z -> Z) : outcome (Z -> Z) :=
  c <- tree_get maxSymbolValue tree n ;;
  k <- pr2_get nbPerRank (nbBits c) ;;
  pr2_set nbPerRank (nbBits c) (U16 (k + 1)).

Definition read_start_body (nbPerRank : Z -> Z) (n : Z) (s : (Z -> Z) * Z)
  : outcome ((Z -> Z) * Z) :=
  let '(valPerRank, min) := s in
  valPerRank' <- pr2_set valPerRank n min ;;
  c <- pr2_get nbPerRank n ;;
  Ret (valPerRank', Z.shiftr (U16 (min + c)) 1).

Definition read_val_body (maxSymbolValue : Z) (n : Z) (s : HUF_CTable * (Z -> Z))
  : outcome (HUF_CTable * (Z -> Z)) :=
  let '(tree, valPerRank) := s in
  c <- tree_get maxSymbolValue tree n ;;
  v <- pr2_get valPerRank (nbBits c) ;;
  valPerRank' <- pr2_set valPerRank (nbBits c) (U16 (v + 1)) ;;
  tree' <- tree_set maxSymbolValue tree n (set_val c v) ;;
  Ret (tree', valPerRank').

(** [HUF_readCTable]: the table, the new [*maxSymbolValuePtr] and the number
    of bytes read.  (The base values [rankVal] the code prepares are not used
    by the rest of the function and are left out.) *)
Definition HUF_readCTable (CTable0 : HUF_CTable) (maxSymbolValue : Z) (src : list Z)
  : outcome (HUF_CTable * Z * Z) :=
  (* get symbol weights *)
  '(huffWeight, nbSymbols, tableLog, readSize) <-
     HUF_readStats (HUF_SYMBOLVALUE_MAX + 1) src ;;
  (* check result *)
  if HUF_TABLELOG_MAX <? tableLog then Err tableLog_tooLarge
  else if U32 (maxSymbolValue + 1) <? nbSymbols then Err maxSymbolValue_tooSmall
  else
    (* fill nbBits *)
    tree1 <- for_up (Z.to_nat nbSymbols) 0
               (read_bits_body maxSymbolValue tableLog huffWeight) CTable0 ;;
    (* fill val *)
    nbPerRank <- for_up (Z.to_nat nbSymbols) 0 (read_count_body maxSymbolValue tree1)
                   (fun _ => 0) ;;
    valPerRank0 <- pr2_set (fun _ => 0) (tableLog + 1) 0 ;;   (* for w==0 *)
    '(valPerRank, _) <- for_down (Z.to_nat tableLog) tableLog
                          (read_start_body nbPerRank) (valPerRank0, 0) ;;
    '(tree2, _) <- for_up (Z.to_nat nbSymbols) 0 (read_val_body maxSymbolValue)
                     (tree1, valPerRank) ;;
    Ret (tree2, nbSymbols - 1, readSize).

End Serialization.

(** ** The block compressor *)

Inductive HUF_repeat : Type :=
| HUF_repeat_none    (* cannot use the previous table *)
| HUF_repeat_check   (* can use the previous table, but it must be checked *)
| HUF_repeat_valid.  (* can use the previous table and it is assumed valid *)

(** What a [size_t]-returning entry point returns: a size or [ERROR(e)]. *)
Inductive ret_code : Type :=
| Size (n : Z)
| ERROR (e : ERR_code).

(** What a call leaves behind: the destination buffer, the persisted table
    ([oldHufTable], a null pointer being [None]) and the repeat state
    ([repeat], likewise). *)
Record HUF_state : Type := mkState {
  st_dst : list Z;
  st_table : option HUF_CTable;
  st_repeat : option HUF_repeat
}.

Definition sizeof_count : Z := 4 * (HUF_SYMBOLVALUE_MAX + 1).
Definition sizeof_CTable : Z := 4 * (HUF_SYMBOLVALUE_MAX + 1).

Section Block.

Context {ext : Collaborators}.

Definition HUF_optimalTableLog (maxTableLog srcSize maxSymbolValue : Z) : Z :=
  FSE_optimalTableLog_internal maxTableLog srcSize maxSymbolValue 1.

(** Without [DYNAMIC_BMI2] the [bmi2] argument is ignored. *)
Definition HUF_compress1X_usingCTable_internal (dstSize : Z) (src : list Z)
  (CTable : HUF_CTable) : outcome (list Z) :=
  HUF_compress1X_usingCTable_internal_default dstSize src CTable.

Definition HUF_compress4X_usingCTable_internal (dstSize : Z) (src : list Z)
  (CTable : HUF_CTable) : outcome (list Z) :=
  HUF_compress4X_usingCTable_internal_default dstSize src CTable.

(** [HUF_compressCTable_internal]: [op] is the offset of the write position
    from [ostart]; a null [CTable] cannot be read. *)
Definition HUF_compressCTable_internal (dst : list Z) (op : Z) (src : list Z)
  (singleStream : bool) (CTable : option HUF_CTable) : outcome (ret_code * list Z) :=
  let dstSize := Z.of_nat (length dst) in
  let srcSize := Z.of_nat (length src) in
  match CTable with
  | None => Undef
  | Some CTable =>
      match (if singleStream
             then HUF_compress1X_usingCTable_internal (dstSize - op) src CTable
             else HUF_compress4X_usingCTable_internal (dstSize - op) src CTable) with
      | Undef => Undef
      | Err e => Ret (ERROR e, dst)
      | Ret bytes =>
          let cSize := Z.of_nat (length bytes) in
          if cSize =? 0 then Ret (Size 0, dst)   (* uncompressible *)
          else
            let dst' := store dst op bytes in
            let op' := op + cSize in
            (* check compressibility *)
            if size_t (srcSize - 1) <=? op' then Ret (Size 0, dst')
            else Ret (Size op', dst')
      end
  end.

Definition is_repeat (repeat : option HUF_repeat) (r : HUF_repeat) : bool :=
  match repeat, r with
  | Some HUF_repeat_none, HUF_repeat_none => true
  | Some HUF_repeat_check, HUF_repeat_check => true
  | Some HUF_repeat_valid, HUF_repeat_valid => true
  | _, _ => false
  end.

(** [repeat && *repeat != HUF_repeat_none] *)
Definition repeat_usable (repeat : option HUF_repeat) : bool :=
  match repeat with
  | Some HUF_repeat_check | Some HUF_repeat_valid => true
  | _ => false
  end.

(** [if (repeat && *repeat == HUF_repeat_check
        && !HUF_validateCTable(oldHufTable, count, maxSymbolValue))
      *repeat = HUF_repeat_none;]: the repeat state after it. *)
Definition check_previous (oldHufTable : option HUF_CTable) (repeat : option HUF_repeat)
  (count : list Z) (maxSymbolValue : Z) : outcome (option HUF_repeat) :=
  if is_repeat repeat HUF_repeat_check then
    match oldHufTable with
    | None => Undef
    | Some old =>
        ok <- HUF_validateCTable old count maxSymbolValue ;;
        Ret (if ok then repeat else Some HUF_repeat_none)
    end
  else Ret repeat.

(** [repeat && *repeat != HUF_repeat_none
     && (oldSize <= hSize + newSize || hSize + 12 >= srcSize)] *)
Definition previous_is_beneficial (oldHufTable : option HUF_CTable)
  (repeat : option HUF_repeat) (CTable : HUF_CTable) (count : list Z)
  (maxSymbolValue hSize srcSize : Z) : outcome bool :=
  if repeat_usable repeat then
    match oldHufTable with
    | None => Undef
    | Some old =>
        oldSize <- HUF_estimateCompressedSize old count maxSymbolValue ;;
        newSize <- HUF_estimateCompressedSize CTable count maxSymbolValue ;;
        Ret ((oldSize <=? hSize + newSize) || (srcSize <=? hSize + 12))
    end
  else Ret false.

(** The end of a call that goes through [HUF_compressCTable_internal]. *)
Definition finish (r : outcome (ret_code * list Z)) (table : option HUF_CTable)
  (repeat : option HUF_repeat) : outcome (ret_code * HUF_state) :=
  '(code, dst') <- r ;; Ret (code, mkState dst' table repeat).

(** [HUF_compress_internal].  The sizes [dstSize] and [srcSize] are the
    lengths of the buffers; the result is the returned code and the state
    the call leaves behind. *)
Definition HUF_compress_internal (dst src : list Z) (maxSymbolValue huffLog : Z)
  (singleStream : bool) (wkspSize : Z) (oldHufTable : option HUF_CTable)
  (repeat : option HUF_repeat) (preferRepeat : bool)
  : outcome (ret_code * HUF_state) :=
  let dstSize := Z.of_nat (length dst) in
  let srcSize := Z.of_nat (length src) in
  let st0 := mkState dst oldHufTable repeat in
  (* checks & inits *)
  if wkspSize <? sizeof_huffNodeTable + sizeof_count + sizeof_CTable
  then Ret (ERROR GENERIC, st0)
  else if srcSize =? 0 then Ret (Size 0, st0)   (* Uncompressed *)
  else if dstSize =? 0 then Ret (Size 0, st0)   (* cannot fit within dst budget *)
  else if HUF_BLOCKSIZE_MAX <? srcSize then Ret (ERROR srcSize_wrong, st0)
  else if HUF_TABLELOG_MAX <? huffLog then Ret (ERROR tableLog_tooLarge, st0)
  else
    let maxSymbolValue := if maxSymbolValue =? 0 then HUF_SYMBOLVALUE_MAX
                          else maxSymbolValue in
    let huffLog := if huffLog =? 0 then HUF_TABLELOG_DEFAULT else huffLog in
    let wkspSize := wkspSize - sizeof_count - sizeof_CTable in
    (* Heuristic : if the old table needs no check, use it for small inputs *)
    if preferRepeat && is_repeat repeat HUF_repeat_valid then
      finish (HUF_compressCTable_internal dst 0 src singleStream oldHufTable)
        oldHufTable repeat
    else
      (* Scan input and build symbol stats *)
      match FSE_count_wksp maxSymbolValue src with
      | Undef => Undef
      | Err e => Ret (ERROR e, st0)
      | Ret (count, maxSymbolValue, largest) =>
          if largest =? srcSize then   (* single symbol, rle *)
            Ret (Size 1, mkState (store dst 0 [nth 0 src 0]) oldHufTable repeat)
          else if largest <=? Z.shiftr srcSize 7 + 1 then
            Ret (Size 0, st0)   (* Fast heuristic : not compressible enough *)
          else
            (* Check validity of previous table *)
            repeat1 <- check_previous oldHufTable repeat count maxSymbolValue ;;
            (* Heuristic : use existing table for small inputs *)
            if preferRepeat && repeat_usable repeat1 then
              finish (HUF_compressCTable_internal dst 0 src singleStream oldHufTable)
                oldHufTable repeat1
            else
              (* Build Huffman Tree *)
              let huffLog := HUF_optimalTableLog huffLog srcSize maxSymbolValue in
              match HUF_buildCTable_wksp zero_CTable count maxSymbolValue huffLog
                      wkspSize with
              | Undef => Undef
              | Err e => Ret (ERROR e, mkState dst oldHufTable repeat1)
              | Ret (CTable, maxBits) =>
                  let huffLog := U32 maxBits in
                  (* Zero the unused symbols so we can check it for validity *)
                  let CTable : HUF_CTable :=
                    fun s => if s <=? maxSymbolValue then CTable s else mkCElt 0 0 in
                  (* Write table description header; the attempt to compress
                     the weights writes at [dst + 1], within [dstSize - 1]
                     bytes, whether or not its result is kept *)
                  let scratch := HUF_writeCTable_scratch dstSize CTable maxSymbolValue
                                   huffLog in
                  if dstSize - 1 <? Z.of_nat (length scratch) then Undef
                  else
                  let dst0 := store dst 1 scratch in
                  match HUF_writeCTable dstSize CTable maxSymbolValue huffLog with
                  | Undef => Undef
                  | Err e => Ret (ERROR e, mkState dst0 oldHufTable repeat1)
                  | Ret (hSize, header) =>
                      let dst1 := store dst0 0 header in
                      (* Check if using the previous table will be beneficial *)
                      reuse <- previous_is_beneficial oldHufTable repeat1 CTable count
                                 maxSymbolValue hSize srcSize ;;
                      if reuse then
                        finish (HUF_compressCTable_internal dst1 0 src singleStream
                                  oldHufTable) oldHufTable repeat1
                      else
                        (* Use the new table *)
                        if srcSize <=? hSize + 12 then
                          Ret (Size 0, mkState dst1 oldHufTable repeat1)
                        else
                          let repeat2 := match repeat1 with
                                         | Some _ => Some HUF_repeat_none
                                         | None => None
                                         end in
                          let table2 := match oldHufTable with
                                        | Some _ => Some CTable   (* Save the new table *)
                                        | None => None
                                        end in
                          finish (HUF_compressCTable_internal dst1 hSize src
                                    singleStream (Some CTable)) table2 repeat2
                  end
              end
      end.

Definition HUF_compress1X_repeat (dst src : list Z) (maxSymbolValue huffLog wkspSize : Z)
  (hufTable : option HUF_CTable) (repeat : option HUF_repeat) (preferRepeat : bool) :=
  HUF_compress_internal dst src maxSymbolValue huffLog true wkspSize hufTable repeat
    preferRepeat.

Definition HUF_compress4X_repeat (dst src : list Z) (maxSymbolValue huffLog wkspSize : Z)
  (hufTable : option HUF_CTable) (repeat : option HUF_repeat) (preferRepeat : bool) :=
  HUF_compress_internal dst src maxSymbolValue huffLog false wkspSize hufTable repeat
    preferRepeat.

(** [HUF_compress1X_wksp], [HUF_compress4X_wksp]: no previous table and no
    repeat state (both null pointers), [preferRepeat = 0]. *)
Definition HUF_compress1X_wksp (dst src : list Z) (maxSymbolValue huffLog wkspSize : Z) :=
  HUF_compress_internal dst src maxSymbolValue huffLog true wkspSize None None false.

Definition HUF_compress4X_wksp (dst src : list Z) (maxSymbolValue huffLog wkspSize : Z) :=
  HUF_compress_internal dst src maxSymbolValue huffLog false wkspSize None None false.

End Block.

(** ** Stand-ins for the collaborators

    To run the model on concrete inputs the collaborators need an
    implementation.  The histogram is computed as the real one is; the FSE
    coder never finds room for its output, so that weights are always written
    raw; a bitstream writer refuses a destination of less than 8 bytes and
    otherwise writes one byte for every 8 source bytes, plus one. *)

Definition occurrences (src : list Z) (s : Z) : Z :=
  Z.of_nat (count_occ Z.eq_dec src s).

Definition histogram (maxSymbolValue : Z) (src : list Z) : list Z :=
  map (fun s => occurrences src (Z.of_nat s)) (seq 0 (Z.to_nat (maxSymbolValue + 1))).

Definition last_nonzero (count : list Z) : Z :=
  fold_left (fun acc sc => if snd sc =? 0 then acc else fst sc)
    (combine (map Z.of_nat (seq 0 (length count))) count) 0.

Definition largest_count (count : list Z) : Z := fold_right Z.max 0 count.

Definition simple_count (maxSymbolValue : Z) (src : list Z) : outcome (list Z * Z * Z) :=
  let count := histogram maxSymbolValue src in
  Ret (count, last_nonzero count, largest_count count).

Definition simple_writer (dstSize : Z) (src : list Z) (CTable : HUF_CTable)
  : outcome (list Z) :=
  if dstSize <? 8 then Ret []
  else Ret (repeat 0 (S (length src / 8))).

#[local] Instance simple_ext : Collaborators := {|
  FSE_norm := unit;
  FSE_CTable := unit;
  FSE_count_simple := fun src maxSymbolValue => simple_count maxSymbolValue src;
  FSE_optimalTableLog := fun maxTableLog _ _ => maxTableLog;
  FSE_normalizeCount := fun _ _ _ _ => Ret tt;
  FSE_writeNCount := fun _ _ _ _ => Ret [];
  FSE_buildCTable_wksp := fun _ _ _ => Ret tt;
  FSE_compress_usingCTable := fun _ _ _ => Ret [];
  FSE_decompress_wksp := fun _ _ => Err corruption_detected;
  FSE_count_wksp := simple_count;
  FSE_optimalTableLog_internal := fun maxTableLog _ _ _ => maxTableLog;
  HUF_compress1X_usingCTable_internal_default := simple_writer;
  HUF_compress4X_usingCTable_internal_default := simple_writer
|}.

(** The same stand-ins with a bitstream writer that never writes more than
    the capacity it is given: it writes nothing when its output does not
    fit. *)
Definition bounded_writer (dstSize : Z) (src : list Z) (CTable : HUF_CTable)
  : outcome (list Z) :=
  if dstSize <? Z.of_nat (S (length src / 8)) then Ret []
  else Ret (repeat 0 (S (length src / 8))).

Definition bounded_ext : Collaborators := {|
  FSE_norm := unit;
  FSE_CTable := unit;
  FSE_count_simple := fun src maxSymbolValue => simple_count maxSymbolValue src;
  FSE_optimalTableLog := fun maxTableLog _ _ => maxTableLog;
  FSE_normalizeCount := fun _ _ _ _ => Ret tt;
  FSE_writeNCount := fun _ _ _ _ => Ret [];
  FSE_buildCTable_wksp := fun _ _ _ => Ret tt;
  FSE_compress_usingCTable := fun _ _ _ => Ret [];
  FSE_decompress_wksp := fun _ _ => Err corruption_detected;
  FSE_count_wksp := simple_count;
  FSE_optimalTableLog_internal := fun maxTableLog _ _ _ => maxTableLog;
  HUF_compress1X_usingCTable_internal_default := bounded_writer;
  HUF_compress4X_usingCTable_internal_default := bounded_writer
|}.

(** A table given by its code lengths, with values 0. *)
Definition table_of_lengths (l : list Z) : HUF_CTable :=
  fun s => mkCElt 0 (if 0 <=? s then nth (Z.to_nat s) l 0 else 0).

(** A table given by its values and code lengths. *)
Definition table_of_list (l : list (Z * Z)) : HUF_CTable :=
  fun s => let e := if 0 <=? s then nth (Z.to_nat s) l (0, 0) else (0, 0) in
           mkCElt (fst e) (snd e).

(** ** Notions of the specification *)

(** [zsum f k i] is [f i + f (i+1) + ... + f (i+k-1)]. *)
Fixpoint zsum (f : Z -> Z) (k : nat) (i : Z) : Z :=
  match k with
  | O => 0
  | S k' => f i + zsum f k' (i + 1)
  end.

(** [count[s]], 0 outside of the vector. *)
Definition count_at (count : list Z) (s : Z) : Z :=
  if 0 <=? s then nth (Z.to_nat s) count 0 else 0.

(** The number of bits the symbols counted by [count] take under a table,
    [sum over s <= maxSymbolValue of CTable[s].nbBits * count[s]]. *)
Definition weighted_length (CTable : HUF_CTable) (count : list Z) (maxSymbolValue : Z) : Z :=
  zsum (fun s => nbBits (CTable s) * count_at count s) (Z.to_nat (maxSymbolValue + 1)) 0.

(** [zmap f k i] is the list [f i; f (i+1); ...; f (i+k-1)]. *)
Fixpoint zmap {A : Type} (f : Z -> A) (k : nat) (i : Z) : list A :=
  match k with
  | O => []
  | S k' => f i :: zmap f k' (i + 1)
  end.

(** The weight of a code length under a table log [L] (section 3). *)
Definition weight_of (L n : Z) : Z := if n =? 0 then 0 else L + 1 - n.

(** The Kraft sum of the code lengths of the symbols [0 .. M], as an integer
    with denominator [2^L]; a symbol of length 0 is absent. *)
Definition kraft_term (L n : Z) : Z := if n =? 0 then 0 else 2 ^ (L - n).
Definition kraft_sum (CTable : HUF_CTable) (M L : Z) : Z :=
  zsum (fun s => kraft_term L (nbBits (CTable s))) (Z.to_nat (M + 1)) 0.

(** Canonical values as section 4.D assigns them: [nb_per_rank r] symbols
    have length [r]; the first value of the longest rank [L] is 0, the
    first value of rank [r] is [(first (r+1) + nb_per_rank (r+1)) >> 1]
    ([rank_start nb L k] is the first value of rank [L - k]); within a rank
    the values go up with the symbols. *)
Definition rank_indicator (CTable : HUF_CTable) (r s : Z) : Z :=
  if nbBits (CTable s) =? r then 1 else 0.
Definition nb_per_rank (CTable : HUF_CTable) (M r : Z) : Z :=
  zsum (rank_indicator CTable r) (Z.to_nat (M + 1)) 0.
Fixpoint rank_start (nb : Z -> Z) (L : Z) (k : nat) : Z :=
  match k with
  | O => 0
  | S k' => (rank_start nb L k' + nb (L - Z.of_nat k')) / 2
  end.
Definition canonical_val (CTable : HUF_CTable) (M L s : Z) : Z :=
  rank_start (nb_per_rank CTable M) L (Z.to_nat (L - nbBits (CTable s)))
  + zsum (rank_indicator CTable (nbBits (CTable s))) (Z.to_nat s) 0.

(** A valid table for the symbols [0 .. M] and the table log [L]: the
    lengths are at most [L] (invariant 3), they satisfy Kraft equality
    (invariant 1), [M] is the largest symbol in use, and the values are
    canonical (invariant 4, in the form of section 4.D).  Invariant 5 follows
    from invariant 3; invariant 2 is about the counts, which a table does not
    carry. *)
Record valid_table (CTable : HUF_CTable) (M L : Z) : Prop := {
  vt_log : 1 <= L <= HUF_TABLELOG_MAX;
  vt_max : 1 <= M <= HUF_SYMBOLVALUE_MAX;
  vt_lengths : forall s, 0 <= s <= M -> 0 <= nbBits (CTable s) <= L;
  vt_kraft : kraft_sum CTable M L = 2 ^ L;
  vt_last : nbBits (CTable M) <> 0;
  vt_canonical : forall s, 0 <= s <= M -> nbBits (CTable s) <> 0 ->
                           val (CTable s) = canonical_val CTable M L s
}.

(** The weights of the symbols [0 .. k-1] of a table. *)
Definition weights_of (CTable : HUF_CTable) (L : Z) (k : nat) : list Z :=
  zmap (fun s => weight_of L (nbBits (CTable s))) k 0.

(** Values that fit in 4 bits. *)
Definition nibbles (w : list Z) : Prop := forall x, In x w -> 0 <= x < 16.

(** What the roundtrip of a table needs of the FSE coder: weights that
    [HUF_compressWeights] has compressed to more than one byte are decoded
    from these bytes. *)
Definition FSE_roundtrip {ext : Collaborators} : Prop :=
  forall dstSize weights h payload,
    HUF_compressWeights dstSize weights (Z.of_nat (length weights)) = Ret (h, payload) ->
    1 < h ->
    FSE_decompress_wksp HUF_SYMBOLVALUE_MAX payload = Ret weights.

(** The workspace is large enough for the histogram, the table and the nodes. *)
Definition wksp_ok (wkspSize : Z) : Prop :=
  sizeof_huffNodeTable + sizeof_count + sizeof_CTable <= wkspSize.

(** ** Tactics *)

(** Decide the comparisons of the goal that [lia] can decide. *)
Ltac zbool :=
  repeat match goal with
  | |- context [?a <? ?b] =>
      first [ replace (a <? b) with true by (symmetry; apply Z.ltb_lt; lia)
            | replace (a <? b) with false by (symmetry; apply Z.ltb_ge; lia) ]
  | |- context [?a <=? ?b] =>
      first [ replace (a <=? b) with true by (symmetry; apply Z.leb_le; lia)
            | replace (a <=? b) with false by (symmetry; apply Z.leb_gt; lia) ]
  | |- context [?a =? ?b] =>
      first [ replace (a =? b) with true by (symmetry; apply Z.eqb_eq; lia)
            | replace (a =? b) with false by (symmetry; apply Z.eqb_neq; lia) ]
  end.

(** ** Notions used to verify the table builder *)

Definition indicator (b : bool) : Z := if b then 1 else 0.

(** A count vector for the symbols [0 .. M]: the counts of a block of at
    most [HUF_BLOCKSIZE_MAX] bytes (section 3). *)
Record valid_count (count : list Z) (M : Z) : Prop := {
  vc_max : 0 <= M <= HUF_SYMBOLVALUE_MAX;
  vc_length : Z.of_nat (length count) = M + 1;
  vc_nonneg : forall s, 0 <= s <= M -> 0 <= count_at count s;
  vc_total : zsum (count_at count) (Z.to_nat (M + 1)) 0 <= HUF_BLOCKSIZE_MAX
}.

(** The number of symbols that occur. *)
Definition nb_present (count : list Z) (M : Z) : Z :=
  zsum (fun s => indicator (negb (count_at count s =? 0))) (Z.to_nat (M + 1)) 0.

(** *** Sorting *)

(** The bucket of a symbol, [BIT_highbit32 (count + 1)]; the number of
    symbols of a bucket, of a bucket or a higher one, and of a bucket among
    the symbols below [n]. *)
Definition bucket (count : list Z) (s : Z) : Z := Z.log2 (count_at count s + 1).
Definition bucket_size (count : list Z) (M h : Z) : Z :=
  zsum (fun s => indicator (bucket count s =? h)) (Z.to_nat (M + 1)) 0.
Definition bucket_base (count : list Z) (M r : Z) : Z :=
  zsum (fun s => indicator (r <=? bucket count s)) (Z.to_nat (M + 1)) 0.
Definition placed (count : list Z) (h n : Z) : Z :=
  zsum (fun s => indicator (bucket count s =? h)) (Z.to_nat n) 0.

(** The node of a symbol after sorting. *)
Definition leaf_of (count : list Z) (s : Z) : nodeElt := mkNode (count_at count s) 0 s 0.

(** The table while the symbols below [n] are in place: the bucket [h]
    fills the cells from [bucket_base (h+1)] on, in decreasing order of
    count; the other cells are as [memset] left them. *)
Definition in_bucket_cells (count : list Z) (M n h i : Z) : Prop :=
  0 <= h <= 30 /\ bucket_base count M (h + 1) <= i < bucket_base count M (h + 1) + placed count h n.

Record sort_inv (count : list Z) (M n : Z) (t : nodeTable) (rank : Z -> rankPos) : Prop := {
  si_base : forall r, 1 <= r <= 31 -> base (rank r) = bucket_base count M r;
  si_current : forall r, 1 <= r <= 31 ->
                 current (rank r) = bucket_base count M r + placed count (r - 1) n;
  si_cells : forall h i, in_bucket_cells count M n h i ->
               t i = leaf_of count (byte (t i)) /\ 0 <= byte (t i) < n
               /\ bucket count (byte (t i)) = h;
  si_free : forall i, (forall h, ~ in_bucket_cells count M n h i) -> t i = zero_node;
  si_distinct : forall h i h' i', in_bucket_cells count M n h i ->
                  in_bucket_cells count M n h' i' ->
                  byte (t i) = byte (t i') -> i = i';
  si_sorted : forall h i j, in_bucket_cells count M n h i -> in_bucket_cells count M n h j ->
                i <= j -> n_count (t j) <= n_count (t i)
}.

(** The table after sorting: the cells [0 .. M] hold the symbols, each
    once, in decreasing order of count. *)
Record sorted_table (count : list Z) (M : Z) (t : nodeTable) : Prop := {
  st_cells : forall i, 0 <= i <= M -> t i = leaf_of count (byte (t i)) /\ 0 <= byte (t i) <= M;
  st_free : forall i, ~ 0 <= i <= M -> t i = zero_node;
  st_distinct : forall i j, 0 <= i <= M -> 0 <= j <= M -> byte (t i) = byte (t j) -> i = j;
  st_sorted : forall i j, 0 <= i <= j -> j <= M -> n_count (t j) <= n_count (t i)
}.

(** *** Building the tree *)

Section TreeNotions.

(** The sorted table, the rank of the last symbol that occurs, and the
    size of the block. *)
Variable t0 : nodeTable.
Variable K : Z.
Variable total : Z.

(** While the parents are created, [lowS] walks down the leaves and [lowN]
    up the internal nodes: the leaves above [lowS] and the internal nodes
    below [lowN] have a parent, the others are to be picked. *)
Definition consumed (lowS lowN x : Z) : Prop := lowS < x <= K \/ 256 <= x < lowN.
Definition available (lowS lowN nodeNb y : Z) : Prop := 0 <= y <= lowS \/ lowN <= y < nodeNb.

Definition avail_sum (t : nodeTable) (lowS lowN nodeNb : Z) : Z :=
  zsum (fun i => n_count (t i)) (Z.to_nat (lowS + 1)) 0
  + zsum (fun j => n_count (t j)) (Z.to_nat (nodeNb - lowN)) lowN.

(** The invariant of the loop that creates the parents; [ch1 p] and [ch2 p]
    are the two nodes that were picked for the parent [p]. *)
Record parents_inv (ch1 ch2 : Z -> Z) (t : nodeTable) (lowS lowN nodeNb : Z) : Prop := {
  pi_nodeNb : 257 <= nodeNb <= 256 + K;
  pi_lowS : -1 <= lowS <= K - 2;
  pi_lowN : 256 <= lowN < nodeNb;
  pi_balance : (K - lowS) + (lowN - 256) = 2 * (nodeNb - 256);
  pi_count : forall x, 0 <= x <= 255 -> n_count (t x) = n_count (t0 x);
  pi_sentinel : n_count (t (-1)) = 2^31;
  pi_future : forall j, nodeNb <= j <= 255 + K -> n_count (t j) = 2^30;
  pi_nbBits : forall x, n_nbBits (t x) = 0;
  pi_byte : forall x, byte (t x) = byte (t0 x);
  pi_parent_todo : forall x, ~ consumed lowS lowN x -> parent (t x) = 0;
  pi_ch_distinct : forall p, 256 <= p < nodeNb -> ch1 p <> ch2 p;
  pi_ch_consumed : forall p, 256 <= p < nodeNb ->
                     consumed lowS lowN (ch1 p) /\ consumed lowS lowN (ch2 p);
  pi_ch_parent : forall p, 256 <= p < nodeNb ->
                   parent (t (ch1 p)) = p /\ parent (t (ch2 p)) = p;
  pi_ch_count : forall p, 256 <= p < nodeNb ->
                  n_count (t p) = n_count (t (ch1 p)) + n_count (t (ch2 p));
  pi_ch_only : forall x, consumed lowS lowN x ->
                 256 <= parent (t x) < nodeNb
                 /\ (x = ch1 (parent (t x)) \/ x = ch2 (parent (t x)));
  pi_ch_below : forall p, 256 <= p < nodeNb -> ch1 p < p /\ ch2 p < p;
  pi_leaf_mono : forall i i', lowS < i -> i <= i' -> i' <= K ->
                   parent (t i') <= parent (t i);
  pi_int_mono : forall j j', 256 <= j -> j <= j' -> j' < lowN ->
                  parent (t j) <= parent (t j');
  pi_avail : avail_sum t lowS lowN nodeNb = total;
  pi_positive : forall x, consumed lowS lowN x \/ available lowS lowN nodeNb x ->
                  1 <= n_count (t x);
  pi_order : forall x y, consumed lowS lowN x -> available lowS lowN nodeNb y ->
               n_count (t x) <= n_count (t y);
  pi_int_sorted : forall j j', 256 <= j -> j <= j' -> j' < nodeNb ->
                    n_count (t j) <= n_count (t j');
  pi_uncle : forall q, 256 <= q < nodeNb ->
      (256 <= ch1 q ->
       n_count (t (ch1 (ch1 q))) <= n_count (t (ch2 q))
       /\ n_count (t (ch2 (ch1 q))) <= n_count (t (ch2 q)))
      /\ (256 <= ch2 q ->
          n_count (t (ch1 (ch2 q))) <= n_count (t (ch1 q))
          /\ n_count (t (ch2 (ch2 q))) <= n_count (t (ch1 q)))
}.

End TreeNotions.

(** *** The depths *)

(** The nodes of the tree but the root, which is the node [255 + K]. *)
Definition below_root (K x : Z) : Prop := 0 <= x <= K \/ 256 <= x < 255 + K.

(** While the depths are assigned: the nodes that are [done] are one level
    below their parent, the others are still at 0; nothing else changes. *)
Record depth_inv (t6 : nodeTable) (done : Z -> Prop) (t : nodeTable) : Prop := {
  di_same : forall x, n_count (t x) = n_count (t6 x) /\ parent (t x) = parent (t6 x)
                      /\ byte (t x) = byte (t6 x);
  di_done : forall x, done x -> n_nbBits (t x) = BYTE (n_nbBits (t (parent (t6 x))) + 1);
  di_todo : forall x, ~ done x -> n_nbBits (t x) = 0
}.

(** The Fibonacci numbers, which bound the depth of a tree by its total count. *)
Fixpoint fib (n : nat) : Z :=
  match n with
  | O => 0
  | S m => match m with
           | O => 1
           | S k => fib m + fib k
           end
  end.

(** The nodes of the tree whose parent is the node [m] or a later one, among
    the nodes below [m]: the leaves of the tree cut at [m].  [frontier_sum]
    is their Kraft sum, with the denominator [2^24]. *)
Definition in_tree (K x : Z) : bool :=
  ((0 <=? x) && (x <=? K)) || ((256 <=? x) && (x <=? 255 + K)).
Definition frontier (t6 : nodeTable) (K m x : Z) : bool :=
  in_tree K x && (x <? m) && ((m <=? parent (t6 x)) || (x =? 255 + K)).
Definition frontier_sum (t6 t9 : nodeTable) (K m : Z) : Z :=
  zsum (fun x => if frontier t6 K m x then 2^(24 - n_nbBits (t9 x)) else 0) 512 0.

(** The node table when [HUF_buildTree] returns: the symbols in decreasing
    order of count, the [K + 1] symbols that occur first, with their depth
    in a tree that satisfies Kraft equality (denominator [2^24]). *)
Record built_tree (count : list Z) (M K : Z) (t : nodeTable) : Prop := {
  bt_K : 1 <= K <= M /\ K + 1 = nb_present count M;
  bt_cells : forall i, 0 <= i <= M ->
               n_count (t i) = count_at count (byte (t i)) /\ 0 <= byte (t i) <= M;
  bt_distinct : forall i j, 0 <= i <= M -> 0 <= j <= M -> byte (t i) = byte (t j) -> i = j;
  bt_sorted : forall i j, 0 <= i -> i <= j -> j <= M -> n_count (t j) <= n_count (t i);
  bt_present : forall i, 0 <= i <= M -> (1 <= n_count (t i) <-> i <= K);
  bt_absent : forall i, K < i <= M -> n_nbBits (t i) = 0;
  bt_depth : forall i, 0 <= i <= K -> 1 <= n_nbBits (t i) <= 24;
  bt_mono : forall i j, 0 <= i -> i <= j -> j <= K -> n_nbBits (t i) <= n_nbBits (t j);
  bt_kraft : zsum (fun i => 2^(24 - n_nbBits (t i))) (Z.to_nat (K + 1)) 0 = 2^24
}.

(** *** Limiting the height *)

(** The Kraft sum of the lengths [nb] of the leaves [0 .. K], with the
    denominator [2^D]. *)
Definition kraft_at (nb : Z -> Z) (K D : Z) : Z :=
  zsum (fun i => 2^(D - nb i)) (Z.to_nat (K + 1)) 0.

(** The lengths of the leaves of a table. *)
Definition nbf (t : nodeTable) : Z -> Z := fun i => n_nbBits (t i).

(** [HUF_setMaxHeight] changes the lengths of the leaves and nothing else. *)
Record same_nodes (t0 t : nodeTable) (K : Z) : Prop := {
  sn_fields : forall x, n_count (t x) = n_count (t0 x) /\ parent (t x) = parent (t0 x)
                        /\ byte (t x) = byte (t0 x);
  sn_outside : forall x, ~ 0 <= x <= K -> n_nbBits (t x) = n_nbBits (t0 x)
}.

(** [rankLast[d]] is the last leaf of length [L - d] among the leaves above
    [lo], or [noSymbol] when there is none. *)
Definition rank_last_ok (nb : Z -> Z) (K L lo : Z) (rankLast : Z -> Z) : Prop :=
  forall d, 1 <= d <= 12 ->
    (rankLast d = noSymbol /\ forall i, lo < i <= K -> nb i <> L - d)
    \/ (lo < rankLast d <= K /\ nb (rankLast d) = L - d
        /\ forall i, rankLast d < i <= K -> nb i <> L - d).

(** The lengths while the cost [T] is repaid: the leaves up to [m] are
    shorter than [L], the others have the length [L]; the Kraft sum exceeds
    [2^L] by [T]. *)
Record lengths_inv (nb : Z -> Z) (K L m T : Z) : Prop := {
  li_m : -1 <= m <= K;
  li_low : forall i, 0 <= i <= m -> 1 <= nb i < L;
  li_high : forall i, m < i <= K -> nb i = L;
  li_mono : forall i j, 0 <= i -> i <= j -> j <= K -> nb i <= nb j;
  li_kraft : kraft_at nb K L = 2^L + T
}.

(** The table when [HUF_setMaxHeight] returns [L]. *)
Record length_limited (t0 t : nodeTable) (K L : Z) : Prop := {
  ll_same : same_nodes t0 t K;
  ll_range : forall i, 0 <= i <= K -> 1 <= n_nbBits (t i) <= L;
  ll_mono : forall i j, 0 <= i -> i <= j -> j <= K -> n_nbBits (t i) <= n_nbBits (t j);
  ll_kraft : kraft_at (nbf t) K L = 2^L
}.

(** The state while the cost is repaid: [n2] is the variable [n] of the
    code, [m] the last leaf that is shorter than [L]. *)
Record repay_inv (t0 t : nodeTable) (K L n2 m T : Z) (rl : Z -> Z) : Prop := {
  ri_same : same_nodes t0 t K;
  ri_len : lengths_inv (nbf t) K L m T;
  ri_n : m <= n2 <= K;
  ri_rank : rank_last_ok (nbf t) K L (-1) rl;
  ri_pos : 0 < T -> T < K - m;
  ri_neg : T <= 0 -> 0 <= K - m + T /\ (T < 0 -> 0 <= m)
}.

(** The state while an overshoot is corrected: [rankLast[1]], when it is
    set, is the last leaf that is shorter than [L]. *)
Record over_inv (t0 t : nodeTable) (K L m T n : Z) (rl : Z -> Z) : Prop := {
  oi_same : same_nodes t0 t K;
  oi_len : lengths_inv (nbf t) K L m T;
  oi_T : T <= 0;
  oi_count : 0 <= K - m + T;
  oi_short : T < 0 -> 0 <= m;
  oi_rank : (rl 1 = noSymbol /\ m <= n <= K) \/ (rl 1 = m /\ 0 <= m)
}.

(** *** Filling the table *)

(** The number of leaves of length [r]. *)
Definition rank_count (t : nodeTable) (K r : Z) : Z :=
  zsum (fun i => indicator (nbf t i =? r)) (Z.to_nat (K + 1)) 0.

(** The table [HUF_buildCTable_wksp] returns with the table log [L]: a
    symbol that does not occur has the length 0, the others a length
    between 1 and [L]; the lengths satisfy Kraft equality, a symbol that
    occurs more often than another has no longer code, and the values are
    the canonical ones. *)
Record built_table (count : list Z) (M L : Z) (tree : HUF_CTable) : Prop := {
  tb_absent : forall s, 0 <= s <= M -> count_at count s = 0 -> nbBits (tree s) = 0;
  tb_present : forall s, 0 <= s <= M -> 0 < count_at count s -> 1 <= nbBits (tree s) <= L;
  tb_kraft : kraft_sum tree M L = 2^L;
  tb_mono : forall a b, 0 <= a <= M -> 0 <= b <= M ->
              0 < count_at count b -> count_at count b < count_at count a ->
              nbBits (tree a) <= nbBits (tree b);
  tb_canonical : forall s, 0 <= s <= M -> nbBits (tree s) <> 0 ->
                   val (tree s) = canonical_val tree M L s
}.

(** The limit [HUF_buildCTable_wksp] works with: 0 stands for the default. *)
Definition effective_log (maxNbBits : Z) : Z :=
  if maxNbBits =? 0 then HUF_TABLELOG_DEFAULT else maxNbBits.

(** *** The block compressor *)

(** The table [HUF_compress_internal] works with once it has zeroed the
    entries of the symbols above [maxSymbolValue]. *)
Definition zero_unused (maxSymbolValue : Z) (CTable : HUF_CTable) : HUF_CTable :=
  fun s => if s <=? maxSymbolValue then CTable s else mkCElt 0 0.

(** What [HUF_compress_internal] uses when its arguments are 0. *)
Definition effective_symbol (maxSymbolValue : Z) : Z :=
  if maxSymbolValue =? 0 then HUF_SYMBOLVALUE_MAX else maxSymbolValue.

(** The bitstream writer a call selects. *)
Definition stream_writer {ext : Collaborators} (singleStream : bool)
  : Z -> list Z -> HUF_CTable -> outcome (list Z) :=
  if singleStream then HUF_compress1X_usingCTable_internal
  else HUF_compress4X_usingCTable_internal.

(** A bitstream writer respects the capacity it is given. *)
Definition writer_bounded (w : Z -> list Z -> HUF_CTable -> outcome (list Z)) : Prop :=
  forall dstSize src CTable bytes,
    0 <= dstSize ->
    w dstSize src CTable = Ret bytes -> Z.of_nat (length bytes) <= dstSize.

(** What a call returns and what it leaves in the destination buffer. *)
Definition observed (r : outcome (ret_code * HUF_state)) : outcome (ret_code * list Z) :=
  '(code, st) <- r ;; Ret (code, st_dst st).

(** *** The paths of a call *)

Section CallPaths.

Context {ext : Collaborators}.

Variables dst src : list Z.
Variables maxSymbolValue huffLog wkspSize : Z.

(** A call gets as far as the check of the previous table: its arguments
    pass the guards, the previous table is not taken at once (that takes
    [preferRepeat] and the state [valid]), and the histogram [count], with the
    largest symbol [M] and the largest count [largest], is neither that of one
    repeated byte nor too flat. *)
Record reaches_check (repeat : option HUF_repeat) (preferRepeat : bool)
  (count : list Z) (M largest : Z) : Prop := {
  rc_wksp : wksp_ok wkspSize;
  rc_src : src <> [];
  rc_dst : dst <> [];
  rc_size : Z.of_nat (length src) <= HUF_BLOCKSIZE_MAX;
  rc_log : huffLog <= HUF_TABLELOG_MAX;
  rc_fast : preferRepeat && is_repeat repeat HUF_repeat_valid = false;
  rc_count : FSE_count_wksp (effective_symbol maxSymbolValue) src = Ret (count, M, largest);
  rc_rle : largest <> Z.of_nat (length src);
  rc_flat : Z.shiftr (Z.of_nat (length src)) 7 + 1 < largest
}.

(** The call builds the table [CTable] for the histogram and writes its
    header, of [hSize] bytes, while the attempt to compress the weights stays
    inside the [dstSize - 1] bytes it is given. *)
Definition builds_table (count : list Z) (M : Z) (CTable : HUF_CTable) (hSize : Z)
  (header : list Z) : Prop :=
  exists tree maxBits,
    HUF_buildCTable_wksp zero_CTable count M
      (HUF_optimalTableLog (effective_log huffLog) (Z.of_nat (length src)) M)
      (wkspSize - sizeof_count - sizeof_CTable) = Ret (tree, maxBits)
    /\ CTable = zero_unused M tree
    /\ HUF_writeCTable (Z.of_nat (length dst)) CTable M (U32 maxBits) = Ret (hSize, header)
    /\ Z.of_nat (length (HUF_writeCTable_scratch (Z.of_nat (length dst)) CTable M
                           (U32 maxBits))) <= Z.of_nat (length dst) - 1.

End CallPaths.

(** *** The claims on the table builder *)

(** The Kraft sum over the symbols that occur, as an integer with the
    denominator [2^L]: the sum of [2^(L - nbBits[s])] over the symbols [s]
    with [count[s] > 0]. *)
Definition kraft_present (count : list Z) (tree : HUF_CTable) (M L : Z) : Z :=
  zsum (fun s => if count_at count s =? 0 then 0 else 2 ^ (L - nbBits (tree s)))
    (Z.to_nat (M + 1)) 0.

(** * Reasoning about the loops *)

Lemma bind_Ret {A B : Type} (m : outcome A) (k : A -> outcome B) (b : B) :
  bind m k = Ret b -> exists a, m = Ret a /\ k a = Ret b.
Proof. destruct m; simpl; intros E; try discriminate. eauto. Qed.

Lemma bind_eq {A B : Type} (m : outcome A) (a : A) (k : A -> outcome B) :
  m = Ret a -> bind m k = k a.
Proof. intros ->. reflexivity. Qed.

Lemma bind_ret {A B : Type} (a : A) (k : A -> outcome B) : bind (Ret a) k = k a.
Proof. reflexivity. Qed.

Lemma for_up_inv {St : Type} (I : Z -> St -> Prop) (body : Z -> St -> outcome St) :
  forall (k : nat) (i : Z) (s : St),
    I i s ->
    (forall j s', i <= j < i + Z.of_nat k -> I j s' ->
                  exists s'', body j s' = Ret s'' /\ I (j + 1) s'') ->
    exists s', for_up k i body s = Ret s' /\ I (i + Z.of_nat k) s'.
Proof.
  induction k as [|k IH]; intros i s Hi Hstep.
  - exists s. split; [reflexivity|]. now replace (i + Z.of_nat 0) with i by lia.
  - destruct (Hstep i s) as (s1 & E1 & I1); [lia | assumption |].
    destruct (IH (i + 1) s1 I1) as (s2 & E2 & I2).
    + intros j s' Hj. apply Hstep. lia.
    + exists s2. split.
      * simpl. rewrite E1. simpl. exact E2.
      * now replace (i + Z.of_nat (S k)) with (i + 1 + Z.of_nat k) by lia.
Qed.

Lemma for_down_inv {St : Type} (I : Z -> St -> Prop) (body : Z -> St -> outcome St) :
  forall (k : nat) (i : Z) (s : St),
    I i s ->
    (forall j s', i - Z.of_nat k < j <= i -> I j s' ->
                  exists s'', body j s' = Ret s'' /\ I (j - 1) s'') ->
    exists s', for_down k i body s = Ret s' /\ I (i - Z.of_nat k) s'.
Proof.
  induction k as [|k IH]; intros i s Hi Hstep.
  - exists s. split; [reflexivity|]. now replace (i - Z.of_nat 0) with i by lia.
  - destruct (Hstep i s) as (s1 & E1 & I1); [lia | assumption |].
    destruct (IH (i - 1) s1 I1) as (s2 & E2 & I2).
    + intros j s' Hj. apply Hstep. lia.
    + exists s2. split.
      * simpl. rewrite E1. simpl. exact E2.
      * now replace (i - Z.of_nat (S k)) with (i - 1 - Z.of_nat k) by lia.
Qed.

(** A loop with invariant [I] and a measure [m] that every round decreases
    ends, if the fuel exceeds the measure, in a state where the invariant
    holds and the condition does not. *)
Lemma while_loop_inv {St : Type} (I : St -> Prop) (m : St -> Z)
  (cond : St -> outcome bool) (body : St -> outcome St) :
  (forall s, I s -> 0 <= m s) ->
  (forall s, I s -> exists b, cond s = Ret b /\
      (b = true -> exists s', body s = Ret s' /\ I s' /\ m s' < m s)) ->
  forall (fuel : nat) (s : St),
    I s -> m s < Z.of_nat fuel ->
    exists s', while_loop fuel cond body s = Ret s' /\ I s' /\ cond s' = Ret false.
Proof.
  intros Hm Hstep. induction fuel as [|fuel IH]; intros s Hi Hf.
  - specialize (Hm s Hi). lia.
  - destruct (Hstep s Hi) as (b & Ec & Hb). simpl. rewrite Ec. simpl.
    destruct b.
    + destruct (Hb eq_refl) as (s1 & E1 & I1 & M1). rewrite E1. simpl.
      apply IH; [assumption|]. specialize (Hm s1 I1). lia.
    + exists s. auto.
Qed.

(** * Conversions that do not wrap *)

Lemma U32_small (x : Z) : 0 <= x < 4294967296 -> U32 x = x.
Proof. intros H. unfold U32. apply Z.mod_small. change (2^32) with 4294967296. lia. Qed.

Lemma U16_small (x : Z) : 0 <= x < 65536 -> U16 x = x.
Proof. intros H. unfold U16. apply Z.mod_small. change (2^16) with 65536. lia. Qed.

Lemma BYTE_small (x : Z) : 0 <= x < 256 -> BYTE x = x.
Proof. intros H. unfold BYTE. apply Z.mod_small. change (2^8) with 256. lia. Qed.

Lemma S32_small (x : Z) : -2147483648 <= x < 2147483648 -> S32 x = x.
Proof.
  intros H. unfold S32. change (2^31) with 2147483648. change (2^32) with 4294967296.
  rewrite Z.mod_small by lia. lia.
Qed.

Lemma size_t_small (x : Z) : 0 <= x < 18446744073709551616 -> size_t x = x.
Proof. intros H. unfold size_t. apply Z.mod_small. change (2^64) with 18446744073709551616. lia. Qed.

(** * Arrays, sums and lists over ranges *)

Lemma upd_same {A : Type} (a : Z -> A) (i : Z) (v : A) : upd a i v i = v.
Proof. unfold upd. now rewrite Z.eqb_refl. Qed.

Lemma upd_other {A : Type} (a : Z -> A) (i j : Z) (v : A) : j <> i -> upd a i v j = a j.
Proof. intros H. unfold upd. now rewrite (proj2 (Z.eqb_neq j i) H). Qed.

Lemma aget_in {A : Type} (lo hi : Z) (a : Z -> A) (i : Z) :
  lo <= i <= hi -> aget lo hi a i = Ret (a i).
Proof.
  intros H. unfold aget.
  now rewrite (proj2 (Z.leb_le lo i)), (proj2 (Z.leb_le i hi)) by lia.
Qed.

Lemma aset_in {A : Type} (lo hi : Z) (a : Z -> A) (i : Z) (v : A) :
  lo <= i <= hi -> aset lo hi a i v = Ret (upd a i v).
Proof.
  intros H. unfold aset.
  now rewrite (proj2 (Z.leb_le lo i)), (proj2 (Z.leb_le i hi)) by lia.
Qed.

Lemma count_get_at (count : list Z) (s : Z) :
  0 <= s < Z.of_nat (length count) -> count_get count s = Ret (count_at count s).
Proof.
  intros Hs. unfold count_get, count_at.
  replace (0 <=? s) with true by (symmetry; apply Z.leb_le; lia).
  destruct (nth_error count (Z.to_nat s)) eqn:E.
  - now rewrite (nth_error_nth _ _ _ E).
  - apply nth_error_None in E. lia.
Qed.

Lemma zsum_ext (f g : Z -> Z) :
  forall k i, (forall j, i <= j < i + Z.of_nat k -> f j = g j) -> zsum f k i = zsum g k i.
Proof.
  induction k as [|k IH]; intros i H; [reflexivity|].
  simpl. rewrite (H i) by lia. rewrite (IH (i + 1)); [reflexivity|].
  intros j Hj. apply H. lia.
Qed.

Lemma zsum_bounds (f : Z -> Z) (B : Z) :
  forall k i, (forall j, i <= j < i + Z.of_nat k -> 0 <= f j <= B) ->
              0 <= zsum f k i <= Z.of_nat k * B.
Proof.
  induction k as [|k IH]; intros i H; [simpl; lia|].
  cbn [zsum]. specialize (H i ltac:(lia)) as Hi.
  specialize (IH (i + 1)) as IH'. 
  assert (0 <= zsum f k (i + 1) <= Z.of_nat k * B) by (apply IH'; intros j Hj; apply H; lia).
  nia.
Qed.

Lemma zsum_snoc (f : Z -> Z) :
  forall k i, zsum f (S k) i = zsum f k i + f (i + Z.of_nat k).
Proof.
  induction k as [|k IH]; intros i.
  - cbn [zsum]. replace (i + Z.of_nat 0) with i by lia. lia.
  - change (zsum f (S (S k)) i) with (f i + zsum f (S k) (i + 1)).
    rewrite IH. cbn [zsum]. replace (i + 1 + Z.of_nat k) with (i + Z.of_nat (S k)) by lia.
    lia.
Qed.

Lemma zsum_app (f : Z -> Z) :
  forall k1 k2 i, zsum f (k1 + k2) i = zsum f k1 i + zsum f k2 (i + Z.of_nat k1).
Proof.
  induction k1 as [|k1 IH]; intros k2 i.
  - simpl. now rewrite Z.add_0_r.
  - cbn [zsum Nat.add]. rewrite IH.
    replace (i + 1 + Z.of_nat k1) with (i + Z.of_nat (S k1)) by lia. lia.
Qed.

Lemma zsum_nonneg (f : Z -> Z) :
  forall k i, (forall j, i <= j < i + Z.of_nat k -> 0 <= f j) -> 0 <= zsum f k i.
Proof.
  induction k as [|k IH]; intros i H; [simpl; lia|].
  cbn [zsum]. specialize (H i ltac:(lia)) as Hi.
  assert (0 <= zsum f k (i + 1)) by (apply IH; intros j Hj; apply H; lia). lia.
Qed.

Lemma zsum_zero (f : Z -> Z) :
  forall k i, (forall j, i <= j < i + Z.of_nat k -> f j = 0) -> zsum f k i = 0.
Proof.
  induction k as [|k IH]; intros i H; [reflexivity|].
  cbn [zsum]. rewrite (H i) by lia. rewrite IH; [reflexivity|].
  intros j Hj. apply H. lia.
Qed.

Lemma zsum_const (c : Z) : forall k i, zsum (fun _ => c) k i = Z.of_nat k * c.
Proof. induction k as [|k IH]; intros i; [reflexivity|]. cbn [zsum]. rewrite IH. lia. Qed.

Lemma zsum_scale (f : Z -> Z) (c : Z) :
  forall k i, zsum (fun j => c * f j) k i = c * zsum f k i.
Proof.
  induction k as [|k IH]; intros i; [simpl; lia|].
  cbn [zsum]. rewrite IH. lia.
Qed.

Lemma zsum_plus (f g : Z -> Z) :
  forall k i, zsum (fun j => f j + g j) k i = zsum f k i + zsum g k i.
Proof.
  induction k as [|k IH]; intros i; [reflexivity|].
  cbn [zsum]. rewrite IH. lia.
Qed.

(** Changing the function at one index of the range. *)
Lemma zsum_upd (f g : Z -> Z) (p : Z) :
  forall k i, i <= p < i + Z.of_nat k ->
              (forall j, i <= j < i + Z.of_nat k -> j <> p -> g j = f j) ->
              zsum g k i = zsum f k i - f p + g p.
Proof.
  induction k as [|k IH]; intros i Hp H; [lia|].
  cbn [zsum]. destruct (Z.eq_dec i p) as [->|Hne].
  - rewrite (zsum_ext g f); [lia|]. intros j Hj. apply H; lia.
  - rewrite (H i) by lia. rewrite IH; [lia | lia |].
    intros j Hj Hjp. apply H; lia.
Qed.

Lemma zmap_length {A : Type} (f : Z -> A) : forall k i, length (zmap f k i) = k.
Proof. induction k as [|k IH]; intros i; simpl; [reflexivity | now rewrite IH]. Qed.

Lemma zmap_snoc {A : Type} (f : Z -> A) :
  forall k i, zmap f (S k) i = zmap f k i ++ [f (i + Z.of_nat k)].
Proof.
  induction k as [|k IH]; intros i.
  - simpl. now rewrite Z.add_0_r.
  - change (zmap f (S (S k)) i) with (f i :: zmap f (S k) (i + 1)).
    rewrite IH. cbn [zmap app].
    now replace (i + 1 + Z.of_nat k) with (i + Z.of_nat (S k)) by lia.
Qed.

Lemma zmap_nth {A : Type} (f : Z -> A) (d : A) :
  forall k i n, (n < k)%nat -> nth n (zmap f k i) d = f (i + Z.of_nat n).
Proof.
  induction k as [|k IH]; intros i n Hn; [lia|].
  destruct n as [|n]; cbn [zmap nth].
  - now rewrite Z.add_0_r.
  - rewrite IH by lia. f_equal. lia.
Qed.

Lemma zmap_ext {A : Type} (f g : Z -> A) :
  forall k i, (forall j, i <= j < i + Z.of_nat k -> f j = g j) -> zmap f k i = zmap g k i.
Proof.
  induction k as [|k IH]; intros i H; [reflexivity|].
  cbn [zmap]. rewrite (H i) by lia. f_equal. apply IH. intros j Hj. apply H. lia.
Qed.

Lemma count_at_zmap (f : Z -> Z) (k : nat) (s : Z) :
  0 <= s < Z.of_nat k -> count_at (zmap f k 0) s = f s.
Proof.
  intros H. unfold count_at.
  rewrite (proj2 (Z.leb_le 0 s)) by lia.
  rewrite zmap_nth by lia. f_equal. lia.
Qed.

Lemma count_get_zmap (f : Z -> Z) (k : nat) (s : Z) :
  0 <= s < Z.of_nat k -> count_get (zmap f k 0) s = Ret (f s).
Proof.
  intros H. rewrite count_get_at by (rewrite zmap_length; lia).
  now rewrite count_at_zmap.
Qed.

Lemma zsum_term_le (f : Z -> Z) :
  forall k i x, (forall j, i <= j < i + Z.of_nat k -> 0 <= f j) ->
                i <= x < i + Z.of_nat k -> f x <= zsum f k i.
Proof.
  induction k as [|k IH]; intros i x Hf Hx; [lia|].
  cbn [zsum]. destruct (Z.eq_dec x i) as [->|Hne].
  - assert (0 <= zsum f k (i + 1)) by (apply zsum_nonneg; intros j Hj; apply Hf; lia). lia.
  - specialize (IH (i + 1) x ltac:(intros j Hj; apply Hf; lia) ltac:(lia)).
    specialize (Hf i ltac:(lia)). lia.
Qed.

Lemma zsum_delta (p v : Z) :
  forall k i, i <= p < i + Z.of_nat k -> zsum (fun x => if x =? p then v else 0) k i = v.
Proof.
  intros k i H.
  rewrite (zsum_upd (fun _ => 0) (fun x => if x =? p then v else 0) p k i H).
  - rewrite zsum_zero by reflexivity. rewrite Z.eqb_refl. lia.
  - intros j _ Hj. destruct (Z.eqb_spec j p); [contradiction | reflexivity].
Qed.

(** * The block compressor: guards and decisions *)

Lemma length_pos {A : Type} (l : list A) : l <> [] -> 0 < Z.of_nat (length l).
Proof. destruct l; [congruence | simpl; lia]. Qed.

Lemma store_head (dst : list Z) (b : Z) : dst <> [] -> store dst 0 [b] = b :: tl dst.
Proof. destruct dst; [congruence | reflexivity]. Qed.

Section Guards.

Context {ext : Collaborators}.

(** C10: with a workspace that is large enough, a source that is not empty
    and a destination of size 0, [HUF_compress_internal] returns 0, not an
    error, whatever the other arguments are and before any collaborator (the
    histogram, the table builder) is called; nothing is changed. *)
Theorem C10_empty_dst_returns_zero :
  forall src maxSymbolValue huffLog singleStream wkspSize oldHufTable repeat preferRepeat,
    wksp_ok wkspSize ->
    src <> [] ->
    HUF_compress_internal [] src maxSymbolValue huffLog singleStream wkspSize
      oldHufTable repeat preferRepeat
    = Ret (Size 0, mkState [] oldHufTable repeat).
Proof.
  intros src M L ss wk old rep pref Hw Hs.
  unfold wksp_ok in Hw. apply length_pos in Hs.
  unfold HUF_compress_internal. simpl length. zbool. reflexivity.
Qed.

(** C7 (as amended): a requested cap above [HUF_TABLELOG_MAX = 12] is not
    clamped: when the earlier guards pass, the call fails with
    [tableLog_tooLarge] and changes nothing. *)
Theorem C7_large_huffLog_rejected :
  forall dst src maxSymbolValue huffLog singleStream wkspSize oldHufTable repeat preferRepeat,
    wksp_ok wkspSize ->
    src <> [] -> dst <> [] ->
    Z.of_nat (length src) <= HUF_BLOCKSIZE_MAX ->
    HUF_TABLELOG_MAX < huffLog ->
    HUF_compress_internal dst src maxSymbolValue huffLog singleStream wkspSize
      oldHufTable repeat preferRepeat
    = Ret (ERROR tableLog_tooLarge, mkState dst oldHufTable repeat).
Proof.
  intros dst src M L ss wk old rep pref Hw Hs Hd Hb HL.
  unfold wksp_ok in Hw. apply length_pos in Hs. apply length_pos in Hd.
  unfold HUF_compress_internal. zbool. reflexivity.
Qed.

(** C8 (as amended): when the guards pass (workspace, a destination that is
    not empty, a source of at most [HUF_BLOCKSIZE_MAX] bytes, a cap of at
    most 12), the call does not take the shortcut of a previous table that
    is preferred and valid, and the histogram reports a largest count equal
    to the size of the source, all of whose bytes are [b], the call returns 1
    and changes one byte of the destination, the first one, to [b]. *)
Theorem C8_single_symbol_rle :
  forall dst src maxSymbolValue huffLog singleStream wkspSize oldHufTable repeat preferRepeat
         count maxSymbolValue' b,
    wksp_ok wkspSize ->
    src <> [] -> dst <> [] ->
    Z.of_nat (length src) <= HUF_BLOCKSIZE_MAX ->
    huffLog <= HUF_TABLELOG_MAX ->
    preferRepeat && is_repeat repeat HUF_repeat_valid = false ->
    (forall x, In x src -> x = b) ->
    FSE_count_wksp (if maxSymbolValue =? 0 then HUF_SYMBOLVALUE_MAX else maxSymbolValue) src
      = Ret (count, maxSymbolValue', Z.of_nat (length src)) ->
    HUF_compress_internal dst src maxSymbolValue huffLog singleStream wkspSize
      oldHufTable repeat preferRepeat
    = Ret (Size 1, mkState (b :: tl dst) oldHufTable repeat).
Proof.
  intros dst src M L ss wk old rep pref cnt M' b Hw Hs Hd Hb HL Hfast Hall Hcount.
  unfold wksp_ok in Hw.
  assert (Hb0 : nth 0 src 0 = b).
  { destruct src as [|x src']; [congruence|]. simpl. apply Hall. now left. }
  pose proof (length_pos _ Hs) as Hs'. pose proof (length_pos _ Hd) as Hd'.
  unfold HUF_compress_internal. zbool. rewrite Hfast, Hcount.
  rewrite Z.eqb_refl, Hb0, store_head by assumption. reflexivity.
Qed.

End Guards.

Lemma C10_witness :
  HUF_compress_internal (ext := simple_ext) [] [65] 255 11 true 8192 None None false
  = Ret (Size 0, mkState [] None None).
Proof.
  apply C10_empty_dst_returns_zero; [unfold wksp_ok; vm_compute; discriminate | discriminate].
Defined.

Lemma C7_witness :
  HUF_compress_internal (ext := simple_ext) [0] [65; 66] 255 13 true 8192 None None false
  = Ret (ERROR tableLog_tooLarge, mkState [0] None None).
Proof.
  apply C7_large_huffLog_rejected;
    [unfold wksp_ok; vm_compute; discriminate | discriminate | discriminate
    | vm_compute; discriminate | reflexivity ].
Defined.

(** C7, as stated, fails: with a cap of 13 the call fails, with the cap 12 it
    would be clamped to it compresses. *)
Lemma C7_counterexample :
  let src := List.repeat 0 16 ++ List.repeat 1 4 in
  let dst := List.repeat 0 30 in
  HUF_compress_internal (ext := simple_ext) dst src 255 13 true 8192 None None false
    = Ret (ERROR tableLog_tooLarge, mkState dst None None)
  /\ HUF_compress_internal (ext := simple_ext) dst src 255 12 true 8192 None None false
    = Ret (Size 5, mkState (128 :: 16 :: 0 :: 0 :: 0 :: List.repeat 0 25) None None).
Proof. split; vm_compute; reflexivity. Qed.

Lemma C8_witness :
  HUF_compress_internal (ext := simple_ext) [0; 0] [65; 65; 65] 255 11 true 8192 None None false
  = Ret (Size 1, mkState [65; 0] None None).
Proof.
  apply (C8_single_symbol_rle (ext := simple_ext) [0; 0] [65; 65; 65] 255 11 true 8192 None None
           false (histogram 255 [65; 65; 65]) 65 65);
    [ unfold wksp_ok; vm_compute; discriminate | discriminate | discriminate
    | vm_compute; discriminate | vm_compute; discriminate | reflexivity
    | simpl; intuition congruence | vm_compute; reflexivity ].
Defined.

(** C8, as stated, fails: a source of identical bytes does not give 1 when
    the destination is empty (0), when the cap is above 12 (an error), or
    when a previous table is preferred and valid (what the bitstream writer
    makes of it, here 3 bytes). *)
Lemma C8_counterexample :
  let src := List.repeat 65 16 in
  HUF_compress_internal (ext := simple_ext) [] src 255 11 true 8192 None None false
    = Ret (Size 0, mkState [] None None)
  /\ HUF_compress_internal (ext := simple_ext) [0] src 255 13 true 8192 None None false
    = Ret (ERROR tableLog_tooLarge, mkState [0] None None)
  /\ exists st,
      HUF_compress_internal (ext := simple_ext) (List.repeat 9 10) src 255 11 true 8192
        (Some (table_of_lengths (List.repeat 8 256))) (Some HUF_repeat_valid) true
      = Ret (Size 3, st).
Proof.
  split; [vm_compute; reflexivity|]. split; [vm_compute; reflexivity|].
  eexists. vm_compute. reflexivity.
Qed.

(** * The header of a serialized table *)

Section Header.

Context {ext : Collaborators}.

Lemma HUF_compressWeights_length (dstSize : Z) (w : list Z) (wtSize h : Z) (bytes : list Z) :
  HUF_compressWeights dstSize w wtSize = Ret (h, bytes) ->
  1 < h -> Z.of_nat (length bytes) = h.
Proof.
  unfold HUF_compressWeights. intros H Hh.
  destruct (wtSize <=? 1); [injection H as <- <-; lia|].
  apply bind_Ret in H as ([[count M] maxCount] & _ & H).
  destruct (maxCount =? wtSize); [injection H as <- <-; lia|].
  destruct (maxCount =? 1); [injection H as <- <-; lia|].
  apply bind_Ret in H as (norm & _ & H).
  apply bind_Ret in H as (hdr & _ & H).
  apply bind_Ret in H as (ct & _ & H).
  apply bind_Ret in H as (payload & _ & H).
  destruct (Z.of_nat (length payload) =? 0); injection H as <- <-; [lia|].
  rewrite length_app. lia.
Qed.

(** C5: for a code table, whose largest symbol is [maxSymbolValue >= 1]
    (a table for the symbol 0 alone is no prefix code), whenever
    [HUF_writeCTable] writes a
    header, with [h] the size [HUF_compressWeights] returns for the weights,
    either [1 < h < maxSymbolValue/2] and the header is the byte [h], which
    lies in [[0,127]], followed by the [h] bytes of the compressed weights, or
    that condition fails and the header is the byte
    [128 + (maxSymbolValue-1)], which lies in [[128,255]], followed by the
    weights packed two per byte. *)
Theorem C5_header_selection :
  forall maxDstSize CTable maxSymbolValue huffLog n bytes,
    1 <= maxSymbolValue ->
    HUF_writeCTable maxDstSize CTable maxSymbolValue huffLog = Ret (n, bytes) ->
    exists huffWeight h payload,
      HUF_compressWeights (size_t (maxDstSize - 1)) huffWeight maxSymbolValue
        = Ret (h, payload) /\
      ((1 < h < maxSymbolValue / 2 /\
        bytes = h :: payload /\ Z.of_nat (length payload) = h /\ n = h + 1 /\
        0 <= h <= 127)
       \/
       (~ (1 < h < maxSymbolValue / 2) /\
        bytes = (128 + (maxSymbolValue - 1)) :: pack_weights huffWeight /\
        n = (maxSymbolValue + 1) / 2 + 1 /\
        128 <= 128 + (maxSymbolValue - 1) <= 255)).
Proof.
  intros maxDst T M L n bytes HM H.
  unfold HUF_writeCTable in H.
  destruct (HUF_SYMBOLVALUE_MAX <? M) eqn:HM'; [discriminate|].
  apply Z.ltb_ge in HM'. unfold HUF_SYMBOLVALUE_MAX in HM'.
  apply bind_Ret in H as (b2w & _ & H).
  apply bind_Ret in H as (w & _ & H).
  apply bind_Ret in H as ([h payload] & Hcw & H).
  exists w, h, payload. split; [exact Hcw|].
  destruct ((1 <? h) && (h <? M / 2)) eqn:Hsel.
  - apply andb_prop in Hsel as [H1 H2].
    apply Z.ltb_lt in H1. apply Z.ltb_lt in H2.
    destruct (maxDst <? h + 1); [discriminate|].
    assert (M / 2 < 128) by (apply Z.div_lt_upper_bound; lia).
    rewrite BYTE_small in H by lia.
    injection H as <- <-. left.
    split; [lia|]. split; [reflexivity|].
    split; [eapply HUF_compressWeights_length; eauto|]. lia.
  - destruct (256 - 128 <? M) eqn:Hraw; [discriminate|].
    apply Z.ltb_ge in Hraw.
    destruct (maxDst <? (M + 1) / 2 + 1); [discriminate|].
    rewrite U32_small in H by lia. rewrite BYTE_small in H by lia.
    injection H as <- <-. right.
    split.
    + intros [H1 H2]. apply andb_false_iff in Hsel as [Hsel | Hsel].
      * apply Z.ltb_ge in Hsel. lia.
      * apply Z.ltb_ge in Hsel. lia.
    + split; [reflexivity | lia].
Qed.

End Header.

Lemma C5_witness :
  exists huffWeight h payload,
    HUF_compressWeights (ext := simple_ext) (size_t (10 - 1)) huffWeight 3 = Ret (h, payload) /\
    ((1 < h < 3 / 2 /\
      [130; 50; 16] = h :: payload /\ Z.of_nat (length payload) = h /\ 3 = h + 1 /\
      0 <= h <= 127)
     \/
     (~ (1 < h < 3 / 2) /\
      [130; 50; 16] = (128 + (3 - 1)) :: pack_weights huffWeight /\
      3 = (3 + 1) / 2 + 1 /\
      128 <= 128 + (3 - 1) <= 255)).
Proof.
  apply (C5_header_selection (ext := simple_ext) 10 (table_of_lengths [1; 2; 3; 3]) 3 3 3
           [130; 50; 16]); [lia | vm_compute; reflexivity].
Defined.

(** * The destination buffer *)

Lemma store_length (buf : list Z) (off : Z) (bytes : list Z) :
  0 <= off -> off + Z.of_nat (length bytes) <= Z.of_nat (length buf) ->
  length (store buf off bytes) = length buf.
Proof.
  intros H0 H1. unfold store. rewrite !length_app, length_firstn, length_skipn. lia.
Qed.

Lemma store_prefix (buf : list Z) (off : Z) (bytes : list Z) :
  0 <= off <= Z.of_nat (length buf) ->
  firstn (Z.to_nat (off + Z.of_nat (length bytes))) (store buf off bytes)
  = firstn (Z.to_nat off) buf ++ bytes.
Proof.
  intros H. unfold store.
  assert (E : length (firstn (Z.to_nat off) buf) = Z.to_nat off)
    by (rewrite length_firstn; lia).
  replace (Z.to_nat (off + Z.of_nat (length bytes)))
    with (length (firstn (Z.to_nat off) buf) + length bytes)%nat by lia.
  rewrite firstn_app_2. f_equal.
  rewrite <- (Nat.add_0_r (length bytes)) at 1. rewrite firstn_app_2.
  now rewrite firstn_O, app_nil_r.
Qed.

(** ** The size of a serialized table *)

Lemma weight_loop_length (CTable : HUF_CTable) (L : Z) (b2w : Z -> Z) :
  forall k i acc w,
    for_up k i (weight_body CTable L b2w) acc = Ret w ->
    length w = (length acc + k)%nat.
Proof.
  induction k as [|k IH]; intros i acc w H.
  - injection H as <-. lia.
  - cbn [for_up] in H. apply bind_Ret in H as (acc' & Hb & H).
    unfold weight_body in Hb. apply bind_Ret in Hb as (x & _ & Hb). injection Hb as <-.
    apply IH in H. rewrite H, length_app. simpl. lia.
Qed.

Lemma pack_weights_length (w : list Z) :
  length (pack_weights w) = Nat.div2 (S (length w)).
Proof.
  enough (H : length (pack_weights w) = Nat.div2 (S (length w))
              /\ forall a, length (pack_weights (a :: w)) = Nat.div2 (S (S (length w))))
    by apply H.
  induction w as [|b w [IH1 IH2]].
  - split; [reflexivity | intros a; reflexivity].
  - split; [apply IH2|]. intros a. cbn [pack_weights length]. rewrite IH1. reflexivity.
Qed.

Section Sizes.

Context {ext : Collaborators}.

Lemma HUF_writeCTable_size (maxDstSize : Z) (CTable : HUF_CTable) (M L n : Z)
  (bytes : list Z) :
  0 <= M ->
  HUF_writeCTable maxDstSize CTable M L = Ret (n, bytes) ->
  n = Z.of_nat (length bytes) /\ 1 <= n <= maxDstSize /\ n <= (M + 1) / 2 + 1.
Proof.
  intros HM H. unfold HUF_writeCTable in H.
  assert (Hhalf : M / 2 <= (M + 1) / 2) by (apply Z.div_le_mono; lia).
  destruct (HUF_SYMBOLVALUE_MAX <? M); [discriminate|].
  apply bind_Ret in H as (b2w & _ & H).
  apply bind_Ret in H as (w & Hw & H).
  apply bind_Ret in H as ([h payload] & Hcw & H).
  apply weight_loop_length in Hw. simpl in Hw.
  destruct ((1 <? h) && (h <? M / 2)) eqn:Hsel.
  - apply andb_prop in Hsel as [H1 H2]. apply Z.ltb_lt in H1. apply Z.ltb_lt in H2.
    destruct (maxDstSize <? h + 1) eqn:Hd; [discriminate|]. apply Z.ltb_ge in Hd.
    injection H as <- <-.
    pose proof (HUF_compressWeights_length _ _ _ _ _ Hcw H1). simpl length. lia.
  - destruct (256 - 128 <? M); [discriminate|].
    destruct (maxDstSize <? (M + 1) / 2 + 1) eqn:Hd; [discriminate|]. apply Z.ltb_ge in Hd.
    injection H as <- <-.
    simpl length. rewrite pack_weights_length, Hw.
    replace (Z.of_nat (S (Nat.div2 (S (Z.to_nat M))))) with
      (Z.of_nat (Nat.div2 (S (Z.to_nat M))) + 1) by lia.
    rewrite Nat.div2_div, Nat2Z.inj_div. change (Z.of_nat 2) with 2.
    replace (Z.of_nat (S (Z.to_nat M))) with (M + 1) by lia.
    assert (0 <= (M + 1) / 2) by (apply Z.div_pos; lia). lia.
Qed.

(** [HUF_buildCTable_wksp] reads the cell [maxSymbolValue] of the node
    table first: with a negative [maxSymbolValue] it does not return. *)
Lemma HUF_buildCTable_wksp_nonneg (tree : HUF_CTable) (count : list Z) (M L wksp : Z)
  (r : HUF_CTable * Z) :
  HUF_buildCTable_wksp tree count M L wksp = Ret r -> 0 <= M.
Proof.
  unfold HUF_buildCTable_wksp. intros H.
  destruct (wksp <? sizeof_huffNodeTable); [discriminate|].
  destruct (HUF_SYMBOLVALUE_MAX <? M); [discriminate|].
  apply bind_Ret in H as ([t K] & Hbt & _).
  destruct (Z_lt_le_dec M 0) as [Hneg|]; [exfalso | assumption].
  unfold HUF_buildTree in Hbt.
  apply bind_Ret in Hbt as (t0 & Hsort & Hbt).
  apply bind_Ret in Hbt as (nn & Hloop & _).
  destruct (Z.eq_dec M (-1)) as [->|Hne].
  - vm_compute in Hsort. injection Hsort as <-. vm_compute in Hloop. discriminate.
  - replace (Z.to_nat M) with 0%nat in Hloop by lia.
    cbn [while_loop] in Hloop. unfold nonNull_cond, rd, aget, node_lo in Hloop.
    replace (-1 <=? M) with false in Hloop by (symmetry; apply Z.leb_gt; lia).
    discriminate.
Qed.

End Sizes.

Section Header.

Context {ext : Collaborators}.

(** The buffer once the attempt to compress the weights has written
    [scratch] at [dst + 1] and the header has been written at [dst]. *)
Lemma header_written (dst scratch : list Z) (CTable : HUF_CTable) (M L hSize : Z)
  (header : list Z) :
  0 <= M ->
  Z.of_nat (length scratch) <= Z.of_nat (length dst) - 1 ->
  HUF_writeCTable (Z.of_nat (length dst)) CTable M L = Ret (hSize, header) ->
  hSize = Z.of_nat (length header)
  /\ 1 <= hSize <= Z.of_nat (length dst)
  /\ length (store dst 1 scratch) = length dst
  /\ length (store (store dst 1 scratch) 0 header) = length dst
  /\ firstn (Z.to_nat hSize) (store (store dst 1 scratch) 0 header) = header.
Proof.
  intros HM Hs H. destruct (HUF_writeCTable_size _ _ _ _ _ _ HM H) as (E & Hn & _).
  assert (E1 : length (store dst 1 scratch) = length dst) by (apply store_length; lia).
  split; [exact E|]. split; [exact Hn|]. split; [exact E1|]. split.
  - rewrite store_length; [exact E1 | lia | rewrite E1; lia].
  - rewrite E. rewrite <- (Z.add_0_l (Z.of_nat (length header))).
    rewrite store_prefix by lia. reflexivity.
Qed.

End Header.

Lemma check_previous_cases (old : option HUF_CTable) (rep : option HUF_repeat)
  (count : list Z) (M : Z) (r : option HUF_repeat) :
  check_previous old rep count M = Ret r ->
  r = rep \/ rep = Some HUF_repeat_check /\ r = Some HUF_repeat_none.
Proof.
  unfold check_previous. intros H.
  destruct (is_repeat rep HUF_repeat_check) eqn:Hc.
  - destruct old as [old|]; [|discriminate].
    apply bind_Ret in H as (ok & _ & H). injection H as <-.
    destruct ok; [now left | right]. split; [|reflexivity].
    destruct rep as [[| |]|]; try discriminate Hc. reflexivity.
  - injection H as <-. now left.
Qed.

Section StateChanges.

Context {ext : Collaborators}.

(** A call that has got as far as the check of the previous table, seen
    from there. *)
Lemma call_from_check (dst src : list Z) (M L : Z) (ss : bool) (wk : Z)
  (old : option HUF_CTable) (rep : option HUF_repeat) (pref : bool)
  (count : list Z) (M' largest : Z) (rep1 : option HUF_repeat) :
  reaches_check dst src M L wk rep pref count M' largest ->
  check_previous old rep count M' = Ret rep1 ->
  HUF_compress_internal dst src M L ss wk old rep pref
  = if pref && repeat_usable rep1
    then finish (HUF_compressCTable_internal dst 0 src ss old) old rep1
    else
      match HUF_buildCTable_wksp zero_CTable count M'
              (HUF_optimalTableLog (effective_log L) (Z.of_nat (length src)) M')
              (wk - sizeof_count - sizeof_CTable) with
      | Undef => Undef
      | Err e => Ret (ERROR e, mkState dst old rep1)
      | Ret (tree, maxBits) =>
          let CTable := zero_unused M' tree in
          let scratch := HUF_writeCTable_scratch (Z.of_nat (length dst)) CTable M'
                           (U32 maxBits) in
          if Z.of_nat (length dst) - 1 <? Z.of_nat (length scratch) then Undef
          else
            match HUF_writeCTable (Z.of_nat (length dst)) CTable M' (U32 maxBits) with
            | Undef => Undef
            | Err e => Ret (ERROR e, mkState (store dst 1 scratch) old rep1)
            | Ret (hSize, header) =>
                let dst1 := store (store dst 1 scratch) 0 header in
                reuse <- previous_is_beneficial old rep1 CTable count M' hSize
                           (Z.of_nat (length src)) ;;
                if reuse
                then finish (HUF_compressCTable_internal dst1 0 src ss old) old rep1
                else if Z.of_nat (length src) <=? hSize + 12
                     then Ret (Size 0, mkState dst1 old rep1)
                     else finish (HUF_compressCTable_internal dst1 hSize src ss
                                    (Some CTable))
                            (option_map (fun _ => CTable) old)
                            (option_map (fun _ => HUF_repeat_none) rep1)
            end
      end.
Proof.
  intros [Hw Hs Hd Hb HL Hfast Hcount Hrle Hflat] Hchk.
  unfold wksp_ok in Hw. pose proof (length_pos _ Hs). pose proof (length_pos _ Hd).
  unfold HUF_compress_internal. cbv zeta.
  rewrite (proj2 (Z.ltb_ge _ _)) by lia.
  rewrite (proj2 (Z.eqb_neq _ _)) by lia.
  rewrite (proj2 (Z.eqb_neq _ _)) by lia.
  rewrite (proj2 (Z.ltb_ge _ _)) by lia.
  rewrite (proj2 (Z.ltb_ge _ _)) by lia.
  rewrite Hfast. fold (effective_symbol M). rewrite Hcount.
  rewrite (proj2 (Z.eqb_neq _ _)) by exact Hrle.
  rewrite (proj2 (Z.leb_gt _ _)) by exact Hflat.
  rewrite (bind_eq _ _ _ Hchk).
  reflexivity.
Qed.

(** C9 (as amended), in three parts, for every call of
    [HUF_compress_internal].

    Nothing else changes: a call that returns leaves the table as it was and
    the repeat state as it was or gone from [check] to [none], unless it has
    taken the path of the new table.

    The downgrade: on a call that gets as far as the check of the previous
    table, with the state [check] and a table that [HUF_validateCTable]
    refuses, every return, whatever its code, leaves the state [none].

    The new table: on a call that gets as far as that check, does not take
    the previous table, builds a table and writes its header, with
    [hSize + 12 < srcSize], the call ends as [HUF_compressCTable_internal]
    does for the new table after its header, be it with a size, with 0 or
    with an error, and in each case the new table and the state [none] have
    been stored where there was something to store them in. *)
Theorem C9_state_after_call :
  forall dst src maxSymbolValue huffLog singleStream wkspSize oldHufTable repeat preferRepeat,
    (forall code st,
        HUF_compress_internal dst src maxSymbolValue huffLog singleStream wkspSize
          oldHufTable repeat preferRepeat = Ret (code, st) ->
        (st_table st = oldHufTable /\
         (st_repeat st = repeat \/
          (repeat = Some HUF_repeat_check /\ st_repeat st = Some HUF_repeat_none)))
        \/
        (exists CTable hSize dst1,
            hSize + 12 < Z.of_nat (length src) /\
            st_table st = option_map (fun _ => CTable) oldHufTable /\
            st_repeat st = option_map (fun _ => HUF_repeat_none) repeat /\
            HUF_compressCTable_internal dst1 hSize src singleStream (Some CTable)
              = Ret (code, st_dst st)))
    /\
    (forall count M largest,
        reaches_check dst src maxSymbolValue huffLog wkspSize repeat preferRepeat
          count M largest ->
        (forall old code st,
            oldHufTable = Some old ->
            repeat = Some HUF_repeat_check ->
            HUF_validateCTable old count M = Ret false ->
            HUF_compress_internal dst src maxSymbolValue huffLog singleStream wkspSize
              oldHufTable repeat preferRepeat = Ret (code, st) ->
            st_repeat st = Some HUF_repeat_none)
        /\
        (forall repeat1 CTable hSize header,
            check_previous oldHufTable repeat count M = Ret repeat1 ->
            preferRepeat && repeat_usable repeat1 = false ->
            builds_table dst src huffLog wkspSize count M CTable hSize header ->
            previous_is_beneficial oldHufTable repeat1 CTable count M hSize
              (Z.of_nat (length src)) = Ret false ->
            hSize + 12 < Z.of_nat (length src) ->
            exists dst1,
              length dst1 = length dst /\
              HUF_compress_internal dst src maxSymbolValue huffLog singleStream wkspSize
                oldHufTable repeat preferRepeat
              = finish (HUF_compressCTable_internal dst1 hSize src singleStream
                          (Some CTable))
                  (option_map (fun _ => CTable) oldHufTable)
                  (option_map (fun _ => HUF_repeat_none) repeat))).
Proof.
  intros dst src M L ss wk old rep pref. split.
  - (* nothing else changes *)
    intros code st H.
    unfold HUF_compress_internal in H.
    destruct (wk <? _); [injection H as <- <-; left; split; [reflexivity | now left]|].
    destruct (Z.of_nat (length src) =? 0);
      [injection H as <- <-; left; split; [reflexivity | now left]|].
    destruct (Z.of_nat (length dst) =? 0);
      [injection H as <- <-; left; split; [reflexivity | now left]|].
    destruct (HUF_BLOCKSIZE_MAX <? _);
      [injection H as <- <-; left; split; [reflexivity | now left]|].
    destruct (HUF_TABLELOG_MAX <? L);
      [injection H as <- <-; left; split; [reflexivity | now left]|].
    destruct (pref && is_repeat rep HUF_repeat_valid).
    + unfold finish in H. apply bind_Ret in H as ((c & d) & _ & H).
      injection H as <- <-. left. split; [reflexivity | now left].
    + destruct (FSE_count_wksp _ src) as [[[count M'] largest]| |]; try discriminate;
        [| injection H as <- <-; left; split; [reflexivity | now left]].
      destruct (largest =? _);
        [injection H as <- <-; left; split; [reflexivity | now left]|].
      destruct (largest <=? _);
        [injection H as <- <-; left; split; [reflexivity | now left]|].
      apply bind_Ret in H as (repeat1 & Hchk & H).
      assert (Hrep : repeat1 = rep
                     \/ rep = Some HUF_repeat_check /\ repeat1 = Some HUF_repeat_none).
      { apply check_previous_cases in Hchk. exact Hchk. }
      destruct (pref && repeat_usable repeat1).
      { unfold finish in H. apply bind_Ret in H as ((c & d) & _ & H).
        injection H as <- <-. left. split; [reflexivity | exact Hrep]. }
      destruct (HUF_buildCTable_wksp _ _ _ _ _) as [[T maxBits]| |]; try discriminate;
        [| injection H as <- <-; left; split; [reflexivity | exact Hrep]].
      cbv zeta in H. destruct (_ <? _); [discriminate|].
      destruct (HUF_writeCTable _ _ _ _) as [[hSize header]| |]; try discriminate;
        [| injection H as <- <-; left; split; [reflexivity | exact Hrep]].
      apply bind_Ret in H as (reuse & Hreuse & H).
      destruct reuse.
      { unfold finish in H. apply bind_Ret in H as ((c & d) & _ & H).
        injection H as <- <-. left. split; [reflexivity | exact Hrep]. }
      destruct (Z.of_nat (length src) <=? hSize + 12) eqn:Hsz.
      { injection H as <- <-. left. split; [reflexivity | exact Hrep]. }
      unfold finish in H. apply bind_Ret in H as ((c & d) & Hemit & H).
      injection H as <- <-. right.
      match type of Hemit with
      | HUF_compressCTable_internal ?d _ _ _ (Some ?t) = _ => exists t, hSize, d
      end.
      split; [apply Z.leb_gt; exact Hsz|].
      split; [destruct old; reflexivity|].
      split; [| exact Hemit].
      simpl. destruct Hrep as [-> | [-> ->]]; [destruct rep|]; reflexivity.
  - intros count M' largest Hreach. split.
    + (* the downgrade *)
      intros T code st -> -> Hval H.
      assert (Hchk : check_previous (Some T) (Some HUF_repeat_check) count M'
                     = Ret (Some HUF_repeat_none)).
      { unfold check_previous. cbn [is_repeat]. rewrite (bind_eq _ _ _ Hval). reflexivity. }
      rewrite (call_from_check _ _ _ _ _ _ _ _ _ _ _ _ _ Hreach Hchk) in H.
      rewrite andb_false_r in H.
      destruct (HUF_buildCTable_wksp _ _ _ _ _) as [[tree maxBits]| |]; try discriminate;
        [| injection H as <- <-; reflexivity].
      cbv zeta in H. destruct (_ <? _); [discriminate|].
      destruct (HUF_writeCTable _ _ _ _) as [[hSize header]| |]; try discriminate;
        [| injection H as <- <-; reflexivity].
      apply bind_Ret in H as (reuse & _ & H).
      destruct reuse.
      { unfold finish in H. apply bind_Ret in H as ((c & d) & _ & H).
        injection H as <- <-. reflexivity. }
      destruct (_ <=? _); [injection H as <- <-; reflexivity|].
      unfold finish in H. apply bind_Ret in H as ((c & d) & _ & H).
      injection H as <- <-. reflexivity.
    + (* the new table *)
      intros rep1 CTable hSize header Hchk Hpref (tree & maxBits & Hb & -> & Hw & Hfit)
        Hreuse Hsz.
      pose proof (HUF_buildCTable_wksp_nonneg _ _ _ _ _ _ Hb) as HM'.
      destruct (header_written _ _ _ _ _ _ _ HM' Hfit Hw) as (_ & _ & _ & Hlen & _).
      exists (store (store dst 1
                       (HUF_writeCTable_scratch (Z.of_nat (length dst))
                          (zero_unused M' tree) M' (U32 maxBits))) 0 header).
      split; [exact Hlen|].
      rewrite (call_from_check _ _ _ _ _ _ _ _ _ _ _ _ _ Hreach Hchk).
      rewrite Hpref, Hb. cbv zeta.
      rewrite (proj2 (Z.ltb_ge _ _)) by lia.
      rewrite Hw. rewrite (bind_eq _ _ _ Hreuse). cbv beta iota.
      rewrite (proj2 (Z.leb_gt _ _)) by exact Hsz.
      f_equal.
      destruct (check_previous_cases _ _ _ _ _ Hchk) as [-> | [-> ->]]; reflexivity.
Qed.

End StateChanges.

(** The two calls of the counterexample below: one whose previous table
    fails the check and which then fails, one that stores its new table and
    then returns 0. *)
Lemma C9_witness :
  let dst := List.repeat 9 9 in
  let src := List.repeat 0 16 ++ List.repeat 1 4 in
  let old := table_of_lengths [8; 8] in
  let bad := table_of_lengths [1; 0] in
  let CTable := zero_unused 1
                  (match HUF_buildCTable_wksp zero_CTable (histogram 255 src) 1 11
                           (8192 - sizeof_count - sizeof_CTable) with
                   | Ret (t, _) => t
                   | _ => zero_CTable
                   end) in
  (exists st,
      HUF_compress_internal (ext := simple_ext) [9] src 255 0 true 8192
        (Some bad) (Some HUF_repeat_check) false = Ret (ERROR dstSize_tooSmall, st)
      /\ st_repeat st = Some HUF_repeat_none)
  /\ exists dst1,
       length dst1 = length dst /\
       HUF_compress_internal (ext := simple_ext) dst src 255 0 true 8192
         (Some old) (Some HUF_repeat_check) false
       = finish (HUF_compressCTable_internal (ext := simple_ext) dst1 2 src true
                   (Some CTable))
           (option_map (fun _ => CTable) (Some old))
           (option_map (fun _ => HUF_repeat_none) (Some HUF_repeat_check)).
Proof.
  cbv zeta.
  assert (Hreach : forall dst rep,
             dst <> [] ->
             reaches_check (ext := simple_ext) dst (List.repeat 0 16 ++ List.repeat 1 4)
               255 0 8192 rep false
               (histogram 255 (List.repeat 0 16 ++ List.repeat 1 4)) 1 16).
  { intros dst rep Hd. constructor.
    - unfold wksp_ok. vm_compute. discriminate.
    - discriminate.
    - exact Hd.
    - vm_compute. discriminate.
    - vm_compute. discriminate.
    - reflexivity.
    - vm_compute. reflexivity.
    - vm_compute. discriminate.
    - vm_compute. reflexivity. }
  split.
  - exists (mkState [9] (Some (table_of_lengths [1; 0])) (Some HUF_repeat_none)).
    split; [vm_compute; reflexivity|].
    apply (proj1 (proj2 (C9_state_after_call (ext := simple_ext) [9]
                           (List.repeat 0 16 ++ List.repeat 1 4) 255 0 true 8192
                           (Some (table_of_lengths [1; 0])) (Some HUF_repeat_check) false)
                    _ 1 16 (Hreach [9] _ ltac:(discriminate)))
             (table_of_lengths [1; 0]) (ERROR dstSize_tooSmall)).
    + reflexivity.
    + reflexivity.
    + vm_compute. reflexivity.
    + vm_compute. reflexivity.
  - apply (proj2 (proj2 (C9_state_after_call (ext := simple_ext) (List.repeat 9 9)
                           (List.repeat 0 16 ++ List.repeat 1 4) 255 0 true 8192
                           (Some (table_of_lengths [8; 8])) (Some HUF_repeat_check) false)
                    _ 1 16 (Hreach (List.repeat 9 9) _ ltac:(discriminate)))
             (Some HUF_repeat_check) _ 2 [128; 16]).
    + vm_compute. reflexivity.
    + reflexivity.
    + eexists. exists 1. split; [vm_compute; reflexivity|].
      split; [reflexivity|]. split; [vm_compute; reflexivity|].
      vm_compute. discriminate.
    + vm_compute. reflexivity.
    + vm_compute. reflexivity.
Defined.

(** C9, as stated, fails.  First call: the previous table needs a check and
    passes it, the new table is cheaper and its header fits; the new table
    and the state [none] are stored, then the bitstream writer finds no room
    and the call returns 0.  Second call: the previous table fails the
    check, the state goes to [none], then the header does not fit and the
    call returns an error. *)
Lemma C9_counterexample :
  (exists st T,
      HUF_compress_internal (ext := simple_ext) (List.repeat 9 9)
        (List.repeat 0 16 ++ List.repeat 1 4) 255 0 true 8192
        (Some (table_of_lengths [8; 8])) (Some HUF_repeat_check) false
      = Ret (Size 0, st)
      /\ st_repeat st = Some HUF_repeat_none
      /\ st_table st = Some T /\ nbBits (T 0) = 1
      /\ nbBits (table_of_lengths [8; 8] 0) = 8)
  /\
  (exists st,
      HUF_compress_internal (ext := simple_ext) [9]
        (List.repeat 0 16 ++ List.repeat 1 4) 255 0 true 8192
        (Some (table_of_lengths [1; 0])) (Some HUF_repeat_check) false
      = Ret (ERROR dstSize_tooSmall, st)
      /\ st_repeat st = Some HUF_repeat_none).
Proof.
  split.
  - eexists. eexists. split; [vm_compute; reflexivity|].
    simpl. split; [reflexivity|]. split; [reflexivity|]. split; reflexivity.
  - eexists. split; [vm_compute; reflexivity | reflexivity].
Qed.

(** * The cost estimate *)

Lemma estimate_loop (CTable : HUF_CTable) (count : list Z) :
  forall k i acc,
    0 <= i -> i + Z.of_nat k <= Z.of_nat (length count) ->
    (forall s, i <= s < i + Z.of_nat k -> 0 <= nbBits (CTable s) * count_at count s < 2^32) ->
    0 <= acc ->
    acc + Z.of_nat k * 2^32 < 2^64 ->
    for_up k i (estimate_body CTable count) acc
    = Ret (acc + zsum (fun s => nbBits (CTable s) * count_at count s) k i).
Proof.
  induction k as [|k IH]; intros i acc Hi Hlen Hterm Hacc Hsum.
  - simpl. now rewrite Z.add_0_r.
  - cbn [for_up zsum]. unfold estimate_body at 1.
    rewrite count_get_at by lia. cbn [bind].
    pose proof (Hterm i ltac:(lia)) as Ht.
    unfold U32, size_t. rewrite (Z.mod_small (nbBits (CTable i) * _)) by lia.
    rewrite Z.mod_small by lia.
    rewrite IH; try lia.
    + f_equal. lia.
    + intros s Hs. apply Hterm. lia.
Qed.

Lemma HUF_estimateCompressedSize_spec (CTable : HUF_CTable) (count : list Z) (M : Z) :
  0 <= M <= HUF_SYMBOLVALUE_MAX ->
  M < Z.of_nat (length count) ->
  (forall s, 0 <= s <= M -> 0 <= nbBits (CTable s) * count_at count s < 2^32) ->
  HUF_estimateCompressedSize CTable count M = Ret (weighted_length CTable count M / 8).
Proof.
  intros HM Hlen Hterm. unfold HUF_estimateCompressedSize, weighted_length.
  unfold HUF_SYMBOLVALUE_MAX in HM.
  rewrite estimate_loop; try lia.
  - cbn [bind]. rewrite Z.shiftr_div_pow2 by lia. reflexivity.
  - intros s Hs. apply Hterm. lia.
Qed.

Section Decisions.

Context {ext : Collaborators}.

(** C6 (as amended): on a call that gets as far as the check of the
    previous table and keeps a usable state for it, the previous table is
    used at once when [preferRepeat] is set, before any table is built and
    whatever the estimates.  When [preferRepeat] is not set, the call
    builds the new table and writes its header ([hSize] bytes), and the cost
    of a table is estimated in bytes, as
    [(sum over s of CTable[s].nbBits * count[s]) / 8] rounded down: the
    previous table is used, with the block written from the start of the
    destination and not after the header, exactly when
    [oldSize <= hSize + newSize] or [hSize + 12 >= srcSize] for these
    estimates; otherwise the new table is stored and used after its header.
    What the destination holds where the block is not written is left
    open. *)
Theorem C6_previous_table_decision :
  forall dst src maxSymbolValue huffLog singleStream wkspSize oldHufTable repeat preferRepeat
         count M largest repeat1,
    let srcSize := Z.of_nat (length src) in
    reaches_check dst src maxSymbolValue huffLog wkspSize repeat preferRepeat
      count M largest ->
    check_previous (Some oldHufTable) repeat count M = Ret repeat1 ->
    repeat_usable repeat1 = true ->
    (preferRepeat = true ->
     HUF_compress_internal dst src maxSymbolValue huffLog singleStream wkspSize
       (Some oldHufTable) repeat preferRepeat
     = finish (HUF_compressCTable_internal dst 0 src singleStream (Some oldHufTable))
         (Some oldHufTable) repeat1)
    /\
    (preferRepeat = false ->
     forall CTable hSize header,
       let oldSize := weighted_length oldHufTable count M / 8 in
       let newSize := weighted_length CTable count M / 8 in
       builds_table dst src huffLog wkspSize count M CTable hSize header ->
       M <= HUF_SYMBOLVALUE_MAX ->
       M < Z.of_nat (length count) ->
       (forall s, 0 <= s <= M ->
                  0 <= count_at count s <= HUF_BLOCKSIZE_MAX /\
                  0 <= nbBits (oldHufTable s) <= 255 /\ 0 <= nbBits (CTable s) <= 255) ->
       exists dst1,
         length dst1 = length dst /\
         HUF_compress_internal dst src maxSymbolValue huffLog singleStream wkspSize
           (Some oldHufTable) repeat preferRepeat
         = if (oldSize <=? hSize + newSize) || (srcSize <=? hSize + 12)
           then finish (HUF_compressCTable_internal dst1 0 src singleStream
                          (Some oldHufTable)) (Some oldHufTable) repeat1
           else finish (HUF_compressCTable_internal dst1 hSize src singleStream
                          (Some CTable)) (Some CTable) (Some HUF_repeat_none)).
Proof.
  intros dst src M0 L ss wk oldT rep pref count M largest rep1 srcSize Hreach Hchk Huse.
  pose proof (call_from_check dst src M0 L ss wk (Some oldT) rep pref count M largest rep1
                Hreach Hchk) as Hcall.
  split.
  - intros ->. rewrite Hcall, Huse. reflexivity.
  - intros -> CTable hSize header oldSize newSize (tree & maxBits & Hb & -> & Hw & Hfit)
      HM Hlen Hrange.
    pose proof (HUF_buildCTable_wksp_nonneg _ _ _ _ _ _ Hb) as HM'.
    destruct (header_written _ _ _ _ _ _ _ HM' Hfit Hw) as (_ & _ & _ & Hl & _).
    exists (store (store dst 1
                     (HUF_writeCTable_scratch (Z.of_nat (length dst))
                        (zero_unused M tree) M (U32 maxBits))) 0 header).
    split; [exact Hl|].
    rewrite Hcall. cbn [andb]. rewrite Hb. cbv zeta.
    rewrite (proj2 (Z.ltb_ge _ _)) by lia.
    rewrite Hw.
    unfold previous_is_beneficial. rewrite Huse.
    assert (Hold : HUF_estimateCompressedSize oldT count M = Ret oldSize).
    { apply HUF_estimateCompressedSize_spec; [lia | exact Hlen |].
      intros s Hs'. destruct (Hrange s Hs') as (Hc & Ho & _).
      unfold HUF_BLOCKSIZE_MAX in Hc. nia. }
    assert (Hnew : HUF_estimateCompressedSize (zero_unused M tree) count M = Ret newSize).
    { apply HUF_estimateCompressedSize_spec; [lia | exact Hlen |].
      intros s Hs'. destruct (Hrange s Hs') as (Hc & _ & Hn).
      unfold HUF_BLOCKSIZE_MAX in Hc. nia. }
    rewrite (bind_eq _ _ _ Hold). rewrite (bind_eq _ _ _ Hnew). rewrite bind_ret.
    fold srcSize.
    destruct ((oldSize <=? hSize + newSize) || (srcSize <=? hSize + 12)) eqn:Hdec;
      [reflexivity|].
    apply orb_false_elim in Hdec as [_ Hsz]. rewrite Hsz.
    destruct rep1 as [r|]; [reflexivity | discriminate Huse].
Qed.

End Decisions.

(** C6, as stated, fails, in two ways.  The estimate is not the number of
    bits (3, not 28, for the previous table with lengths 1 and 3 and counts 16
    and 4), and with estimates in bits the previous table would not be taken
    in the first call below ([28 > 2 + 20], and [2 + 12 < 20]), while the code
    takes it: it returns with the repeat state still [check] and the stream,
    not the header, at the start of the destination.  And with [preferRepeat]
    set the previous table is taken without any comparison: in the second
    call its estimate is 20 bytes (160 bits) against a header of 2 bytes and
    2 bytes (20 bits) for the new table, and [2 + 12 < 20]. *)
Lemma C6_counterexample :
  (HUF_estimateCompressedSize (table_of_lengths [1; 3]) [16; 4] 1 = Ret 3
   /\ weighted_length (table_of_lengths [1; 3]) [16; 4] 1 = 28
   /\ weighted_length (table_of_lengths [1; 1]) [16; 4] 1 = 20
   /\ exists st,
       HUF_compress_internal (ext := simple_ext) (List.repeat 9 30)
         (List.repeat 0 16 ++ List.repeat 1 4) 255 0 true 8192
         (Some (table_of_lengths [1; 3])) (Some HUF_repeat_check) false
       = Ret (Size 3, st)
       /\ st_repeat st = Some HUF_repeat_check
       /\ firstn 2 (st_dst st) = [0; 0])
  /\
  (HUF_estimateCompressedSize (table_of_lengths [8; 8]) [16; 4] 1 = Ret 20
   /\ weighted_length (table_of_lengths [8; 8]) [16; 4] 1 = 160
   /\ HUF_estimateCompressedSize (table_of_lengths [1; 1]) [16; 4] 1 = Ret 2
   /\ HUF_writeCTable (ext := simple_ext) 30 (table_of_lengths [1; 1]) 1 1
      = Ret (2, [128; 16])
   /\ exists st,
       HUF_compress_internal (ext := simple_ext) (List.repeat 9 30)
         (List.repeat 0 16 ++ List.repeat 1 4) 255 0 true 8192
         (Some (table_of_lengths [8; 8])) (Some HUF_repeat_check) true
       = Ret (Size 3, st)
       /\ st_repeat st = Some HUF_repeat_check
       /\ firstn 3 (st_dst st) = [0; 0; 0]).
Proof.
  split.
  - split; [reflexivity|]. split; [reflexivity|]. split; [reflexivity|].
    eexists. split; [vm_compute; reflexivity|]. split; reflexivity.
  - split; [reflexivity|]. split; [reflexivity|]. split; [reflexivity|].
    split; [vm_compute; reflexivity|].
    eexists. split; [vm_compute; reflexivity|]. split; reflexivity.
Qed.

Lemma C6_witness :
  let dst := List.repeat 9 30 in
  let src := List.repeat 0 16 ++ List.repeat 1 4 in
  let old := table_of_lengths [1; 3] in
  let count := histogram 255 src in
  let CTable := zero_unused 1
                  (match HUF_buildCTable_wksp zero_CTable count 1 11
                           (8192 - sizeof_count - sizeof_CTable) with
                   | Ret (t, _) => t
                   | _ => zero_CTable
                   end) in
  HUF_compress_internal (ext := simple_ext) dst src 255 0 true 8192
    (Some old) (Some HUF_repeat_check) true
  = finish (HUF_compressCTable_internal (ext := simple_ext) dst 0 src true (Some old))
      (Some old) (Some HUF_repeat_check)
  /\ exists dst1,
       length dst1 = length dst /\
       HUF_compress_internal (ext := simple_ext) dst src 255 0 true 8192
         (Some old) (Some HUF_repeat_check) false
       = if (weighted_length old count 1 / 8 <=? 2 + weighted_length CTable count 1 / 8)
            || (Z.of_nat (length src) <=? 2 + 12)
         then finish (HUF_compressCTable_internal (ext := simple_ext) dst1 0 src true
                        (Some old)) (Some old) (Some HUF_repeat_check)
         else finish (HUF_compressCTable_internal (ext := simple_ext) dst1 2 src true
                        (Some CTable)) (Some CTable) (Some HUF_repeat_none).
Proof.
  cbv zeta.
  assert (Hreach : forall pref,
             reaches_check (ext := simple_ext) (List.repeat 9 30)
               (List.repeat 0 16 ++ List.repeat 1 4) 255 0 8192 (Some HUF_repeat_check) pref
               (histogram 255 (List.repeat 0 16 ++ List.repeat 1 4)) 1 16).
  { intros pref. constructor.
    - unfold wksp_ok. vm_compute. discriminate.
    - discriminate.
    - discriminate.
    - vm_compute. discriminate.
    - vm_compute. discriminate.
    - apply andb_false_r.
    - vm_compute. reflexivity.
    - vm_compute. discriminate.
    - vm_compute. reflexivity. }
  assert (Hchk : check_previous (Some (table_of_lengths [1; 3])) (Some HUF_repeat_check)
                   (histogram 255 (List.repeat 0 16 ++ List.repeat 1 4)) 1
                 = Ret (Some HUF_repeat_check)) by (vm_compute; reflexivity).
  split.
  - apply (proj1 (C6_previous_table_decision (ext := simple_ext) (List.repeat 9 30)
                    (List.repeat 0 16 ++ List.repeat 1 4) 255 0 true 8192
                    (table_of_lengths [1; 3]) (Some HUF_repeat_check) true _ 1 16
                    (Some HUF_repeat_check) (Hreach true) Hchk eq_refl) eq_refl).
  - apply (proj2 (C6_previous_table_decision (ext := simple_ext) (List.repeat 9 30)
                    (List.repeat 0 16 ++ List.repeat 1 4) 255 0 true 8192
                    (table_of_lengths [1; 3]) (Some HUF_repeat_check) false _ 1 16
                    (Some HUF_repeat_check) (Hreach false) Hchk eq_refl) eq_refl
             _ 2 [128; 16]).
    + eexists. exists 1. split; [vm_compute; reflexivity|].
      split; [reflexivity|]. split; [vm_compute; reflexivity|].
      vm_compute. discriminate.
    + vm_compute. discriminate.
    + vm_compute. reflexivity.
    + intros s Hs. assert (Hs' : s = 0 \/ s = 1) by lia.
      destruct Hs' as [-> | ->]; vm_compute; repeat split; discriminate.
Defined.

(** * Roundtrip of a table through its serialized form *)

(** ** The weights that are written *)

Lemma bitsToWeight_loop (L : Z) :
  0 <= L <= HUF_TABLELOG_MAX ->
  exists b2w,
    for_up (Z.to_nat L) 1 (bitsToWeight_init L) (upd (fun _ => 0) 0 0) = Ret b2w
    /\ forall n, 0 <= n <= L -> b2w n = weight_of L n.
Proof.
  intros HL. unfold HUF_TABLELOG_MAX in HL.
  destruct (for_up_inv
              (fun j a => a 0 = 0 /\ forall n, 1 <= n < j -> a n = L + 1 - n)
              (bitsToWeight_init L) (Z.to_nat L) 1 (upd (fun _ => 0) 0 0))
    as (b2w & E & I0 & I1).
  - split; [reflexivity | intros; lia].
  - intros j a Hj (Ha0 & Ha). unfold bitsToWeight_init.
    rewrite aset_in by (unfold HUF_TABLELOG_MAX; lia).
    eexists. split; [reflexivity|]. split.
    + rewrite upd_other by lia. exact Ha0.
    + intros n Hn. destruct (Z.eq_dec n j) as [->|Hne].
      * rewrite upd_same. apply BYTE_small. lia.
      * rewrite upd_other by assumption. apply Ha. lia.
  - exists b2w. split; [exact E|]. intros n Hn. unfold weight_of.
    destruct (Z.eqb_spec n 0) as [->|Hn0]; [exact I0|]. apply I1. lia.
Qed.

Lemma weight_loop (CTable : HUF_CTable) (L : Z) (b2w : Z -> Z) :
  0 <= L <= HUF_TABLELOG_MAX ->
  (forall n, 0 <= n <= L -> b2w n = weight_of L n) ->
  forall k i acc,
    (forall s, i <= s < i + Z.of_nat k -> 0 <= nbBits (CTable s) <= L) ->
    for_up k i (weight_body CTable L b2w) acc
    = Ret (acc ++ zmap (fun s => weight_of L (nbBits (CTable s))) k i).
Proof.
  intros HL Hb. induction k as [|k IH]; intros i acc Hr.
  - simpl. now rewrite app_nil_r.
  - cbn [for_up zmap]. unfold weight_body at 1.
    rewrite aget_in by (specialize (Hr i ltac:(lia)); lia).
    cbn [bind]. rewrite IH by (intros s Hs; apply Hr; lia).
    rewrite Hb by (apply Hr; lia). now rewrite <- app_assoc.
Qed.

(** ** Packing and unpacking *)

Lemma pack_byte (a b : Z) :
  0 <= a < 16 -> 0 <= b < 16 ->
  Z.shiftr (BYTE (Z.shiftl a 4 + b)) 4 = a /\ Z.land (BYTE (Z.shiftl a 4 + b)) 15 = b.
Proof.
  intros Ha Hb. rewrite Z.shiftl_mul_pow2 by lia. change (2^4) with 16.
  rewrite BYTE_small by lia. split.
  - rewrite Z.shiftr_div_pow2 by lia. change (2^4) with 16.
    rewrite Z.add_comm, Z.div_add by lia. rewrite Z.div_small by lia. lia.
  - change 15 with (Z.ones 4). rewrite Z.land_ones by lia. change (2^4) with 16.
    rewrite Z.add_comm, Z.mod_add by lia. apply Z.mod_small. lia.
Qed.

Lemma pack_unpack_pairs :
  forall w, nibbles w ->
    (firstn (length w) (unpack_weights (pack_weights w)) = w
     /\ length (pack_weights w) = Nat.div2 (S (length w)))
    /\ forall a, 0 <= a < 16 ->
         firstn (S (length w)) (unpack_weights (pack_weights (a :: w))) = a :: w
         /\ length (pack_weights (a :: w)) = Nat.div2 (S (S (length w))).
Proof.
  induction w as [|b w IH]; intros Hw.
  - split; [split; reflexivity|]. intros a Ha. cbn [pack_weights unpack_weights flat_map].
    destruct (pack_byte a 0 Ha ltac:(lia)) as [E1 E2]. rewrite E1. split; reflexivity.
  - assert (Hb : 0 <= b < 16) by (apply Hw; now left).
    assert (Hw' : nibbles w) by (intros x Hx; apply Hw; now right).
    destruct (IH Hw') as [[IH1 IH1'] IH2]. split.
    + apply IH2. exact Hb.
    + intros a Ha. cbn [pack_weights unpack_weights flat_map length].
      destruct (pack_byte a b Ha Hb) as [E1 E2]. rewrite E1, E2.
      cbn [app firstn]. fold (unpack_weights (pack_weights w)).
      rewrite IH1. split; [reflexivity|]. now rewrite IH1'.
Qed.

Lemma unpack_pack (w rest : list Z) :
  nibbles w ->
  firstn (length w)
    (unpack_weights (firstn (Nat.div2 (S (length w))) (pack_weights w ++ rest))) = w
  /\ length (pack_weights w) = Nat.div2 (S (length w)).
Proof.
  intros Hw. destruct (pack_unpack_pairs w Hw) as [[E1 E2] _].
  split; [|exact E2].
  rewrite <- E2. rewrite firstn_app, Nat.sub_diag, firstn_all. cbn [firstn].
  rewrite app_nil_r. exact E1.
Qed.

(** ** Kraft completion *)

Lemma weight_sum_cons (x : Z) (l : list Z) :
  weight_sum (x :: l) = (if 0 <? x then 2 ^ x else 0) + weight_sum l.
Proof. reflexivity. Qed.

Lemma weight_sum_kraft (CTable : HUF_CTable) (L : Z) :
  forall k i,
    (forall s, i <= s < i + Z.of_nat k -> 0 <= nbBits (CTable s) <= L) ->
    weight_sum (zmap (fun s => weight_of L (nbBits (CTable s))) k i)
    = 2 * zsum (fun s => kraft_term L (nbBits (CTable s))) k i.
Proof.
  induction k as [|k IH]; intros i Hr; [reflexivity|].
  cbn [zmap zsum]. rewrite weight_sum_cons, IH by (intros s Hs; apply Hr; lia).
  specialize (Hr i ltac:(lia)). unfold weight_of, kraft_term.
  destruct (Z.eqb_spec (nbBits (CTable i)) 0) as [E|E].
  - cbn. lia.
  - rewrite (proj2 (Z.ltb_lt 0 _)) by lia.
    replace (L + 1 - nbBits (CTable i)) with (Z.succ (L - nbBits (CTable i))) by lia.
    rewrite Z.pow_succ_r by lia. lia.
Qed.

Lemma kraft_partial (CTable : HUF_CTable) (M L : Z) :
  valid_table CTable M L ->
  weight_sum (weights_of CTable L (Z.to_nat M))
  = 2 ^ (L + 1) - 2 ^ (L + 1 - nbBits (CTable M)).
Proof.
  intros V. destruct V as [HL HM Hlen Hk Hlast _].
  unfold weights_of. rewrite weight_sum_kraft by (intros s Hs; apply Hlen; lia).
  unfold kraft_sum in Hk.
  replace (Z.to_nat (M + 1)) with (S (Z.to_nat M)) in Hk by lia.
  rewrite zsum_snoc in Hk. rewrite Z2Nat.id, Z.add_0_l in Hk by lia.
  unfold kraft_term at 2 in Hk.
  rewrite (proj2 (Z.eqb_neq _ _) Hlast) in Hk.
  pose proof (Hlen M ltac:(lia)) as HlM.
  replace (L + 1) with (Z.succ L) at 1 by lia. rewrite Z.pow_succ_r by lia.
  replace (L + 1 - nbBits (CTable M)) with (Z.succ (L - nbBits (CTable M))) by lia.
  rewrite Z.pow_succ_r by lia. lia.
Qed.

Lemma log2_completion (L n : Z) :
  1 <= n <= L ->
  Z.log2 (2 ^ (L + 1) - 2 ^ (L + 1 - n)) = L /\ 0 < 2 ^ (L + 1) - 2 ^ (L + 1 - n).
Proof.
  intros Hn.
  assert (H1 : 2 ^ (L + 1 - n) <= 2 ^ L) by (apply Z.pow_le_mono_r; lia).
  assert (H2 : 0 < 2 ^ (L + 1 - n)) by (apply Z.pow_pos_nonneg; lia).
  assert (H3 : 2 ^ (L + 1) = 2 * 2 ^ L).
  { replace (L + 1) with (Z.succ L) by lia. apply Z.pow_succ_r. lia. }
  assert (H4 : 0 < 2 ^ L) by (apply Z.pow_pos_nonneg; lia).
  split; [|lia].
  apply Z.log2_unique; [lia|]. replace (Z.succ L) with (L + 1) by lia. lia.
Qed.

Lemma div2_half (n : nat) : Z.of_nat (Nat.div2 n) = Z.of_nat n / 2.
Proof. rewrite Nat.div2_div. now rewrite Nat2Z.inj_div. Qed.

Lemma weights_nibbles (CTable : HUF_CTable) (L : Z) (k : nat) :
  1 <= L <= HUF_TABLELOG_MAX ->
  (forall s, 0 <= s < Z.of_nat k -> 0 <= nbBits (CTable s) <= L) ->
  nibbles (weights_of CTable L k).
Proof.
  intros HL Hr x Hx. unfold HUF_TABLELOG_MAX in HL.
  apply (In_nth _ _ 0) in Hx as (n & Hn & <-).
  unfold weights_of in *. rewrite zmap_length in Hn. rewrite zmap_nth by assumption.
  rewrite Z.add_0_l. specialize (Hr (Z.of_nat n) ltac:(lia)). unfold weight_of.
  destruct (_ =? 0); lia.
Qed.

Section ReadStats.

Context {ext : Collaborators}.

(** What [HUF_readStats] makes of the transmitted weights of a valid table. *)
Lemma readStats_completion (CTable : HUF_CTable) (M L : Z) :
  valid_table CTable M L ->
  let partial := weight_sum (weights_of CTable L (Z.to_nat M)) in
  (partial =? 0) = false
  /\ Z.log2 partial = L
  /\ Z.log2 (2 ^ (L + 1) - partial) = weight_of L (nbBits (CTable M))
  /\ 2 ^ weight_of L (nbBits (CTable M)) = 2 ^ (L + 1) - partial.
Proof.
  intros V partial. unfold partial. rewrite (kraft_partial _ _ _ V).
  destruct V as [HL HM Hlen Hk Hlast _].
  pose proof (Hlen M ltac:(lia)) as HlM.
  destruct (log2_completion L (nbBits (CTable M)) ltac:(lia)) as [E1 E2].
  split; [apply Z.eqb_neq; lia|]. split; [exact E1|].
  replace (2 ^ (L + 1) - (2 ^ (L + 1) - 2 ^ (L + 1 - nbBits (CTable M))))
    with (2 ^ (L + 1 - nbBits (CTable M))) by lia.
  unfold weight_of. rewrite (proj2 (Z.eqb_neq _ _) Hlast).
  split; [apply Z.log2_pow2; lia | reflexivity].
Qed.

Lemma readStats_tail (CTable : HUF_CTable) (M L iSize : Z) :
  valid_table CTable M L ->
  let transmitted := weights_of CTable L (Z.to_nat M) in
  (let partial := weight_sum transmitted in
   if partial =? 0 then Err corruption_detected
   else
     let tableLog := Z.log2 partial in
     let P := 2 ^ (tableLog + 1) in
     let lastWeight := Z.log2 (P - partial) in
     if negb (2 ^ lastWeight =? P - partial) then Err corruption_detected
     else if HUF_TABLELOG_MAX <? tableLog then Err corruption_detected
     else
       Ret (transmitted ++ [lastWeight], Z.of_nat (length transmitted) + 1,
            tableLog, iSize + 1))
  = Ret (weights_of CTable L (Z.to_nat (M + 1)), M + 1, L, iSize + 1).
Proof.
  intros V transmitted.
  destruct (readStats_completion _ _ _ V) as (E0 & E1 & E2 & E3).
  fold transmitted in E0, E1, E2, E3.
  cbv zeta. rewrite E0, E1, E2, E3, Z.eqb_refl. cbn [negb].
  destruct V as [HL HM Hlen Hk Hlast _].
  rewrite (proj2 (Z.ltb_ge _ _)) by lia.
  unfold transmitted, weights_of. rewrite zmap_length.
  replace (Z.to_nat (M + 1)) with (S (Z.to_nat M)) by lia.
  rewrite zmap_snoc. rewrite Z2Nat.id, Z.add_0_l by lia. reflexivity.
Qed.

Lemma readStats_raw (CTable : HUF_CTable) (M L : Z) (rest : list Z) :
  valid_table CTable M L ->
  M <= 128 ->
  HUF_readStats (HUF_SYMBOLVALUE_MAX + 1)
    ((128 + (M - 1)) :: pack_weights (weights_of CTable L (Z.to_nat M)) ++ rest)
  = Ret (weights_of CTable L (Z.to_nat (M + 1)), M + 1, L, (M + 1) / 2 + 1).
Proof.
  intros V HM128. pose proof V as [HL HM Hlen Hk Hlast _].
  unfold HUF_SYMBOLVALUE_MAX in *.
  set (w := weights_of CTable L (Z.to_nat M)).
  assert (Hw : nibbles w).
  { apply weights_nibbles; [exact HL|]. intros s Hs. apply Hlen. lia. }
  assert (Hlw : length w = Z.to_nat M) by apply zmap_length.
  destruct (unpack_pack w rest Hw) as [Eu El].
  unfold HUF_readStats.
  rewrite (proj2 (Z.leb_le 128 _)) by lia.
  replace (128 + (M - 1) - 127) with M by lia.
  assert (Ei : Z.to_nat ((M + 1) / 2) = Nat.div2 (S (length w))).
  { apply Nat2Z.inj. rewrite div2_half, Z2Nat.id by (apply Z.div_pos; lia).
    rewrite Hlw. f_equal. lia. }
  cbn [length]. rewrite length_app, El.
  rewrite (proj2 (Z.ltb_ge _ _)).
  2:{ rewrite <- Ei. rewrite Nat2Z.inj_succ, Nat2Z.inj_add, Z2Nat.id by (apply Z.div_pos; lia).
      lia. }
  rewrite (proj2 (Z.leb_gt _ _)) by lia.
  rewrite Ei. rewrite <- Hlw. rewrite Eu.
  cbn [bind]. apply (readStats_tail CTable M L ((M + 1) / 2) V).
Qed.

Lemma readStats_fse (CTable : HUF_CTable) (M L h : Z) (payload rest : list Z) :
  valid_table CTable M L ->
  0 <= h < 128 ->
  Z.of_nat (length payload) = h ->
  FSE_decompress_wksp HUF_SYMBOLVALUE_MAX payload = Ret (weights_of CTable L (Z.to_nat M)) ->
  HUF_readStats (HUF_SYMBOLVALUE_MAX + 1) (h :: payload ++ rest)
  = Ret (weights_of CTable L (Z.to_nat (M + 1)), M + 1, L, h + 1).
Proof.
  intros V Hh Hlen Hdec.
  unfold HUF_readStats.
  rewrite (proj2 (Z.leb_gt 128 _)) by lia.
  cbn [length]. rewrite length_app.
  rewrite (proj2 (Z.ltb_ge _ _)) by lia.
  replace (Z.to_nat h) with (length payload) by lia.
  rewrite firstn_app, Nat.sub_diag, firstn_all. cbn [firstn]. rewrite app_nil_r.
  replace (HUF_SYMBOLVALUE_MAX + 1 - 1) with HUF_SYMBOLVALUE_MAX by lia.
  rewrite Hdec. cbn [bind]. apply (readStats_tail CTable M L h V).
Qed.

End ReadStats.

(** ** The loops of [HUF_readCTable] *)

Lemma read_bits_loop (T0 : HUF_CTable) (M0 L : Z) (hw : list Z) (k : nat) :
  Z.of_nat k <= Z.of_nat (length hw) ->
  Z.of_nat k <= M0 + 1 ->
  exists T1,
    for_up k 0 (read_bits_body M0 L hw) T0 = Ret T1
    /\ (forall s, 0 <= s < Z.of_nat k ->
                  T1 s = mkCElt (val (T0 s)) (BYTE (L + 1 - count_at hw s)))
    /\ (forall s, ~ 0 <= s < Z.of_nat k -> T1 s = T0 s).
Proof.
  intros Hk HM.
  destruct (for_up_inv
              (fun j T => (forall s, 0 <= s < j ->
                             T s = mkCElt (val (T0 s)) (BYTE (L + 1 - count_at hw s)))
                          /\ (forall s, ~ 0 <= s < j -> T s = T0 s))
              (read_bits_body M0 L hw) k 0 T0) as (T1 & E & I1 & I2).
  - split; [intros; lia | reflexivity].
  - intros j T Hj (Ha & Hb). unfold read_bits_body, tree_get, tree_set.
    rewrite count_get_at by lia. cbn [bind].
    rewrite aget_in by lia. cbn [bind]. rewrite aset_in by lia.
    eexists. split; [reflexivity|]. split.
    + intros s Hs. destruct (Z.eq_dec s j) as [->|Hne].
      * rewrite upd_same. unfold set_bits. rewrite (Hb j) by lia. reflexivity.
      * rewrite upd_other by assumption. apply Ha. lia.
    + intros s Hs. rewrite upd_other by lia. apply Hb. lia.
  - exists T1. rewrite Z.add_0_l in I1, I2. auto.
Qed.

Lemma rank_indicator_range (T : HUF_CTable) (r s : Z) : 0 <= rank_indicator T r s <= 1.
Proof. unfold rank_indicator. destruct (_ =? _); lia. Qed.

Lemma rank_count_bounds (T : HUF_CTable) (r : Z) (k : nat) (i : Z) :
  0 <= zsum (rank_indicator T r) k i <= Z.of_nat k.
Proof.
  pose proof (zsum_bounds (rank_indicator T r) 1 k i
                (fun j _ => rank_indicator_range T r j)). lia.
Qed.

Lemma read_count_loop (T : HUF_CTable) (M0 : Z) (k : nat) :
  Z.of_nat k <= M0 + 1 -> Z.of_nat k <= 256 ->
  (forall s, 0 <= s < Z.of_nat k -> 0 <= nbBits (T s) <= HUF_TABLELOG_MAX + 1) ->
  exists nb,
    for_up k 0 (read_count_body M0 T) (fun _ => 0) = Ret nb
    /\ forall r, nb r = zsum (rank_indicator T r) k 0.
Proof.
  intros HM Hk Hr.
  destruct (for_up_inv
              (fun j a => forall r, a r = zsum (rank_indicator T r) (Z.to_nat j) 0)
              (read_count_body M0 T) k 0 (fun _ => 0)) as (nb & E & I).
  - intros r. reflexivity.
  - intros j a Hj Ha. unfold read_count_body, tree_get, pr2_get, pr2_set.
    rewrite aget_in by lia. cbn [bind].
    rewrite aget_in by (apply Hr; lia). cbn [bind].
    rewrite aset_in by (apply Hr; lia).
    eexists. split; [reflexivity|]. intros r.
    replace (Z.to_nat (j + 1)) with (S (Z.to_nat j)) by lia.
    rewrite zsum_snoc, Z.add_0_l, Z2Nat.id by lia.
    unfold rank_indicator at 2.
    destruct (Z.eqb_spec (nbBits (T j)) r) as [<-|Hne].
    + rewrite upd_same, Ha. apply U16_small.
      pose proof (rank_count_bounds T (nbBits (T j)) (Z.to_nat j) 0). lia.
    + rewrite upd_other by congruence. rewrite Ha. lia.
  - exists nb. split; [exact E|]. intros r. rewrite I. f_equal. lia.
Qed.

Lemma rank_start_bounds (nb : Z -> Z) (L B : Z) :
  (forall r, 0 <= nb r <= B) -> forall k, 0 <= rank_start nb L k <= B.
Proof.
  intros Hnb. induction k as [|k IH]; cbn [rank_start].
  - specialize (Hnb 0). lia.
  - specialize (Hnb (L - Z.of_nat k)).
    split; [apply Z.div_pos; lia | apply Z.div_le_upper_bound; lia].
Qed.

Lemma read_start_loop (nb : Z -> Z) (L : Z) (vpr0 : Z -> Z) :
  0 <= L <= HUF_TABLELOG_MAX ->
  (forall r, 0 <= nb r <= 256) ->
  exists vpr min,
    for_down (Z.to_nat L) L (read_start_body nb) (vpr0, 0) = Ret (vpr, min)
    /\ (forall r, 1 <= r <= L -> vpr r = rank_start nb L (Z.to_nat (L - r)))
    /\ (forall r, ~ 1 <= r <= L -> vpr r = vpr0 r).
Proof.
  intros HL Hnb. unfold HUF_TABLELOG_MAX in HL.
  destruct (for_down_inv
              (fun j (s : (Z -> Z) * Z) =>
                 snd s = rank_start nb L (Z.to_nat (L - j))
                 /\ (forall r, j < r <= L -> fst s r = rank_start nb L (Z.to_nat (L - r)))
                 /\ (forall r, ~ j < r <= L -> fst s r = vpr0 r))
              (read_start_body nb) (Z.to_nat L) L (vpr0, 0)) as ([vpr min] & E & I1 & I2 & I3).
  - cbn [fst snd]. rewrite Z.sub_diag. split; [reflexivity|].
    split; [intros; lia | reflexivity].
  - intros j [vpr min] Hj (Hm & Ha & Hb). cbn [fst snd] in *.
    unfold read_start_body, pr2_get, pr2_set.
    rewrite aset_in by (unfold HUF_TABLELOG_MAX; lia). cbn [bind].
    rewrite aget_in by (unfold HUF_TABLELOG_MAX; lia). cbn [bind].
    eexists. split; [reflexivity|]. cbn [fst snd]. split; [|split].
    + replace (Z.to_nat (L - (j - 1))) with (S (Z.to_nat (L - j))) by lia.
      cbn [rank_start]. rewrite Z2Nat.id by lia.
      replace (L - (L - j)) with j by lia. rewrite <- Hm.
      pose proof (rank_start_bounds nb L 256 Hnb (Z.to_nat (L - j))).
      pose proof (Hnb j).
      rewrite U16_small by lia. rewrite Z.shiftr_div_pow2 by lia. reflexivity.
    + intros r Hr. destruct (Z.eq_dec r j) as [->|Hne].
      * rewrite upd_same. exact Hm.
      * rewrite upd_other by assumption. apply Ha. lia.
    + intros r Hr. rewrite upd_other by lia. apply Hb. lia.
  - cbn [fst snd] in *. exists vpr, min. split; [exact E|].
    replace (L - Z.of_nat (Z.to_nat L)) with 0 in * by lia.
    split; [intros r Hr; apply I2; lia | intros r Hr; apply I3; lia].
Qed.

Lemma read_val_loop (T : HUF_CTable) (M0 : Z) (vpr : Z -> Z) (k : nat) :
  Z.of_nat k <= M0 + 1 -> Z.of_nat k <= 256 ->
  (forall s, 0 <= s < Z.of_nat k -> 0 <= nbBits (T s) <= HUF_TABLELOG_MAX + 1) ->
  (forall r, 0 <= vpr r <= 256) ->
  exists T2 vpr',
    for_up k 0 (read_val_body M0) (T, vpr) = Ret (T2, vpr')
    /\ (forall s, 0 <= s < Z.of_nat k ->
          T2 s = mkCElt (vpr (nbBits (T s))
                         + zsum (rank_indicator T (nbBits (T s))) (Z.to_nat s) 0)
                   (nbBits (T s)))
    /\ (forall s, ~ 0 <= s < Z.of_nat k -> T2 s = T s).
Proof.
  intros HM Hk Hr Hv.
  destruct (for_up_inv
              (fun j (st : HUF_CTable * (Z -> Z)) =>
                 (forall r, snd st r = vpr r + zsum (rank_indicator T r) (Z.to_nat j) 0)
                 /\ (forall s, 0 <= s < j ->
                       fst st s = mkCElt (vpr (nbBits (T s))
                                  + zsum (rank_indicator T (nbBits (T s))) (Z.to_nat s) 0)
                                    (nbBits (T s)))
                 /\ (forall s, ~ 0 <= s < j -> fst st s = T s))
              (read_val_body M0) k 0 (T, vpr)) as ([T2 vpr'] & E & I1 & I2 & I3).
  - cbn [fst snd]. split; [intros r; simpl; lia|]. split; [intros; lia | reflexivity].
  - intros j [T' v] Hj (Ha & Hb & Hc). cbn [fst snd] in *.
    unfold read_val_body, tree_get, tree_set, pr2_get, pr2_set.
    rewrite aget_in by lia. cbn [bind].
    rewrite (Hc j) by lia.
    rewrite aget_in by (apply Hr; lia). cbn [bind].
    rewrite aset_in by (apply Hr; lia). cbn [bind].
    rewrite aset_in by lia. cbn [bind].
    eexists. split; [reflexivity|]. cbn [fst snd]. split; [|split].
    + intros r. replace (Z.to_nat (j + 1)) with (S (Z.to_nat j)) by lia.
      rewrite zsum_snoc, Z.add_0_l, Z2Nat.id by lia.
      unfold rank_indicator at 2.
      destruct (Z.eqb_spec (nbBits (T j)) r) as [<-|Hne].
      * rewrite upd_same, Ha.
        pose proof (rank_count_bounds T (nbBits (T j)) (Z.to_nat j) 0).
        pose proof (Hv (nbBits (T j))).
        rewrite U16_small by lia. lia.
      * rewrite upd_other by congruence. rewrite Ha. lia.
    + intros s Hs. destruct (Z.eq_dec s j) as [->|Hne].
      * rewrite upd_same. unfold set_val. rewrite Ha. reflexivity.
      * rewrite upd_other by assumption. apply Hb. lia.
    + intros s Hs. rewrite upd_other by lia. apply Hc. lia.
  - cbn [fst snd] in *. rewrite Z.add_0_l in I2, I3. exists T2, vpr'. auto.
Qed.

Lemma rank_start_ext (nb1 nb2 : Z -> Z) (L : Z) :
  forall k, (forall j, (j < k)%nat -> nb1 (L - Z.of_nat j) = nb2 (L - Z.of_nat j)) ->
            rank_start nb1 L k = rank_start nb2 L k.
Proof.
  induction k as [|k IH]; intros H; [reflexivity|].
  cbn [rank_start]. rewrite IH by (intros j Hj; apply H; lia).
  rewrite (H k) by lia. reflexivity.
Qed.

Lemma CElt_eq (a b : HUF_CElt) : val a = val b -> nbBits a = nbBits b -> a = b.
Proof. destruct a, b; cbn; intros -> ->; reflexivity. Qed.

(** ** The roundtrip *)

Section TableRoundTrip.

Context {ext : Collaborators}.

(** The table [HUF_readCTable] builds from the weights of a valid table. *)
Lemma readCTable_of_weights (CTable T0 : HUF_CTable) (M L M0 n : Z) (src : list Z) :
  valid_table CTable M L ->
  M <= M0 <= HUF_SYMBOLVALUE_MAX ->
  HUF_readStats (HUF_SYMBOLVALUE_MAX + 1) src
    = Ret (weights_of CTable L (Z.to_nat (M + 1)), M + 1, L, n) ->
  exists T',
    HUF_readCTable T0 M0 src = Ret (T', M, n)
    /\ (forall s, 0 <= s <= M -> nbBits (CTable s) <> 0 -> T' s = CTable s)
    /\ (forall s, 0 <= s <= M -> nbBits (CTable s) = 0 -> nbBits (T' s) = L + 1).
Proof.
  intros V HM0 Hstats. pose proof V as [HL HM Hlen Hk Hlast Hcan].
  unfold HUF_SYMBOLVALUE_MAX, HUF_TABLELOG_MAX in *.
  set (hw := weights_of CTable L (Z.to_nat (M + 1))) in *.
  assert (Hhw : forall s, 0 <= s <= M -> count_at hw s = weight_of L (nbBits (CTable s))).
  { intros s Hs. unfold hw, weights_of.
    apply (count_at_zmap (fun s => weight_of L (nbBits (CTable s)))). lia. }
  assert (Hlhw : length hw = Z.to_nat (M + 1)) by apply zmap_length.
  (* the lengths that are read *)
  assert (Hnb1 : forall s, 0 <= s <= M ->
                   BYTE (L + 1 - count_at hw s)
                   = if nbBits (CTable s) =? 0 then L + 1 else nbBits (CTable s)).
  { intros s Hs. rewrite Hhw by assumption. unfold weight_of.
    pose proof (Hlen s Hs). destruct (Z.eqb_spec (nbBits (CTable s)) 0);
      rewrite BYTE_small by lia; lia. }
  unfold HUF_readCTable. unfold HUF_SYMBOLVALUE_MAX, HUF_TABLELOG_MAX.
  rewrite Hstats. cbn [bind].
  rewrite (proj2 (Z.ltb_ge _ _)) by lia.
  rewrite U32_small by lia.
  rewrite (proj2 (Z.ltb_ge _ _)) by lia.
  destruct (read_bits_loop T0 M0 L hw (Z.to_nat (M + 1))) as (T1 & E1 & Ha1 & Hb1);
    try lia.
  rewrite E1. cbn [bind]. rewrite Z2Nat.id in Ha1, Hb1 by lia.
  assert (HT1 : forall s, 0 <= s <= M ->
                  nbBits (T1 s) = if nbBits (CTable s) =? 0 then L + 1 else nbBits (CTable s)).
  { intros s Hs. rewrite Ha1 by lia. cbn [nbBits]. apply Hnb1. assumption. }
  assert (HT1r : forall s, 0 <= s < Z.of_nat (Z.to_nat (M + 1)) ->
                   0 <= nbBits (T1 s) <= 12 + 1).
  { intros s Hs. rewrite HT1 by lia. pose proof (Hlen s ltac:(lia)).
    destruct (_ =? 0); lia. }
  destruct (read_count_loop T1 M0 (Z.to_nat (M + 1))) as (nb & E2 & Hnb); try lia.
  { exact HT1r. }
  rewrite E2. cbn [bind]. unfold pr2_set. rewrite aset_in by (unfold HUF_TABLELOG_MAX; lia).
  cbn [bind].
  assert (Hnbr : forall r, 0 <= nb r <= 256).
  { intros r. rewrite Hnb.
    pose proof (rank_count_bounds T1 r (Z.to_nat (M + 1)) 0). lia. }
  destruct (read_start_loop nb L (upd (fun _ => 0) (L + 1) 0)) as (vpr & mn & E3 & Hv1 & Hv2);
    [unfold HUF_TABLELOG_MAX; lia | exact Hnbr |].
  rewrite E3. cbn [bind].
  assert (Hvr : forall r, 0 <= vpr r <= 256).
  { intros r. destruct (Z_le_dec 1 r) as [H1|H1]; [destruct (Z_le_dec r L) as [H2|H2]|].
    - rewrite Hv1 by lia. apply rank_start_bounds. exact Hnbr.
    - rewrite Hv2 by lia. unfold upd. destruct (_ =? _); lia.
    - rewrite Hv2 by lia. unfold upd. destruct (_ =? _); lia. }
  destruct (read_val_loop T1 M0 vpr (Z.to_nat (M + 1))) as (T2 & vpr' & E4 & Ha4 & Hb4);
    try lia; try assumption.
  rewrite E4. cbn [bind]. rewrite Z2Nat.id in Ha4 by lia.
  exists T2. split; [replace (M + 1 - 1) with M by lia; reflexivity|]. split.
  - intros s Hs Hnz. rewrite Ha4 by lia. rewrite (HT1 s Hs).
    rewrite (proj2 (Z.eqb_neq _ _) Hnz).
    pose proof (Hlen s Hs) as Hls.
    apply CElt_eq; cbn [val nbBits]; [|reflexivity].
    rewrite (Hcan s Hs Hnz). unfold canonical_val.
    rewrite Hv1 by lia. f_equal.
    + apply rank_start_ext. intros j Hj. rewrite Hnb. unfold nb_per_rank.
      apply zsum_ext. intros s' Hs'. unfold rank_indicator.
      rewrite HT1 by lia. pose proof (Hlen s' ltac:(lia)) as Hls'.
      destruct (Z.eqb_spec (nbBits (CTable s')) 0) as [E0|E0].
      * rewrite E0. destruct (Z.eqb_spec (L + 1) (L - Z.of_nat j)); [lia|].
        destruct (Z.eqb_spec 0 (L - Z.of_nat j)); [lia | reflexivity].
      * reflexivity.
    + apply zsum_ext. intros s' Hs'. unfold rank_indicator.
      rewrite HT1 by lia. pose proof (Hlen s' ltac:(lia)) as Hls'.
      destruct (Z.eqb_spec (nbBits (CTable s')) 0) as [E0|E0].
      * rewrite E0. destruct (Z.eqb_spec (L + 1) (nbBits (CTable s))); [lia|].
        destruct (Z.eqb_spec 0 (nbBits (CTable s))); [lia | reflexivity].
      * reflexivity.
  - intros s Hs Hz. rewrite Ha4 by lia. cbn [nbBits]. rewrite (HT1 s Hs), Hz. reflexivity.
Qed.

(** C3: a valid table that [HUF_writeCTable] has serialized is read back by
    [HUF_readCTable] from these bytes (whatever follows them): the same
    number of bytes, the same largest symbol, and the same entry for every
    symbol with a code length that is not 0.  (A symbol of length 0 comes
    back with the length [L + 1].)  The FSE coder is assumed to decode what
    it has encoded. *)
Theorem C3_table_roundtrip :
  FSE_roundtrip ->
  forall CTable M L maxDstSize n bytes rest T0 M0,
    valid_table CTable M L ->
    M <= M0 <= HUF_SYMBOLVALUE_MAX ->
    HUF_writeCTable maxDstSize CTable M L = Ret (n, bytes) ->
    exists T',
      HUF_readCTable T0 M0 (bytes ++ rest) = Ret (T', M, n)
      /\ (forall s, 0 <= s <= M -> nbBits (CTable s) <> 0 -> T' s = CTable s)
      /\ (forall s, 0 <= s <= M -> nbBits (CTable s) = 0 -> nbBits (T' s) = L + 1).
Proof.
  intros Hfse T M L maxDst n bytes rest T0 M0 V HM0 Hw.
  pose proof V as [HL HM Hlen Hk Hlast Hcan].
  unfold HUF_writeCTable in Hw.
  rewrite (proj2 (Z.ltb_ge _ _)) in Hw by lia.
  destruct (bitsToWeight_loop L ltac:(lia)) as (b2w & Eb & Hb).
  rewrite Eb in Hw. cbn [bind] in Hw.
  rewrite (weight_loop T L b2w) in Hw; [| lia | exact Hb | intros s Hs; apply Hlen; lia].
  cbn [bind app] in Hw. fold (weights_of T L (Z.to_nat M)) in Hw.
  set (w := weights_of T L (Z.to_nat M)) in *.
  apply bind_Ret in Hw as ([h payload] & Hcw & Hw).
  unfold HUF_SYMBOLVALUE_MAX in *.
  destruct ((1 <? h) && (h <? M / 2)) eqn:Hsel.
  - (* FSE compressed *)
    apply andb_prop in Hsel as [H1 H2]. apply Z.ltb_lt in H1. apply Z.ltb_lt in H2.
    destruct (maxDst <? h + 1); [discriminate|].
    assert (M / 2 < 128) by (apply Z.div_lt_upper_bound; lia).
    rewrite BYTE_small in Hw by lia. injection Hw as <- <-.
    pose proof (HUF_compressWeights_length _ _ _ _ _ Hcw H1) as Hpl.
    assert (Hlw : Z.of_nat (length w) = M).
    { unfold w, weights_of. rewrite zmap_length. lia. }
    rewrite <- Hlw in Hcw. pose proof (Hfse _ _ _ _ Hcw H1) as Hdec.
    apply (readCTable_of_weights T T0 M L M0 (h + 1)); [exact V | exact HM0 |].
    cbn [app]. apply readStats_fse; try assumption; lia.
  - (* raw *)
    destruct (256 - 128 <? M) eqn:Hraw; [discriminate|]. apply Z.ltb_ge in Hraw.
    destruct (maxDst <? (M + 1) / 2 + 1); [discriminate|].
    rewrite U32_small in Hw by lia. rewrite BYTE_small in Hw by lia.
    injection Hw as <- <-.
    apply (readCTable_of_weights T T0 M L M0 ((M + 1) / 2 + 1)); [exact V | exact HM0 |].
    cbn [app]. apply readStats_raw; [exact V | lia].
Qed.

End TableRoundTrip.

Lemma simple_ext_roundtrip : FSE_roundtrip (ext := simple_ext).
Proof.
  intros dstSize w h payload H Hh. exfalso.
  unfold HUF_compressWeights in H.
  destruct (Z.of_nat (length w) <=? 1); [injection H as <- _; lia|].
  cbn [FSE_count_simple simple_ext] in H. unfold simple_count in H. cbn [bind] in H.
  destruct (_ =? Z.of_nat (length w)); [injection H as <- _; lia|].
  destruct (_ =? 1); [injection H as <- _; lia|].
  cbn in H. injection H as <- _. lia.
Qed.

Lemma valid_table_example :
  valid_table (table_of_list [(1, 1); (1, 2); (0, 3); (1, 3)]) 3 3.
Proof.
  assert (Hs : forall s, 0 <= s <= 3 -> s = 0 \/ s = 1 \/ s = 2 \/ s = 3) by (intros; lia).
  constructor.
  - unfold HUF_TABLELOG_MAX. lia.
  - unfold HUF_SYMBOLVALUE_MAX. lia.
  - intros s H. destruct (Hs s H) as [-> | [-> | [-> | ->]]];
      split; apply Z.leb_le; reflexivity.
  - reflexivity.
  - apply Z.eqb_neq. reflexivity.
  - intros s H _. destruct (Hs s H) as [-> | [-> | [-> | ->]]]; reflexivity.
Qed.

Lemma C3_witness :
  exists T',
    HUF_readCTable (ext := simple_ext) zero_CTable 255 ([130; 50; 16] ++ [7; 7])
      = Ret (T', 3, 3)
    /\ (forall s, 0 <= s <= 3 ->
                  nbBits (table_of_list [(1, 1); (1, 2); (0, 3); (1, 3)] s) <> 0 ->
                  T' s = table_of_list [(1, 1); (1, 2); (0, 3); (1, 3)] s)
    /\ (forall s, 0 <= s <= 3 ->
                  nbBits (table_of_list [(1, 1); (1, 2); (0, 3); (1, 3)] s) = 0 ->
                  nbBits (T' s) = 3 + 1).
Proof.
  apply (C3_table_roundtrip (ext := simple_ext) simple_ext_roundtrip
           (table_of_list [(1, 1); (1, 2); (0, 3); (1, 3)]) 3 3 10 3 [130; 50; 16] [7; 7]
           zero_CTable 255 valid_table_example).
  - unfold HUF_SYMBOLVALUE_MAX. lia.
  - vm_compute. reflexivity.
Defined.

(** * Sums over a permutation of a range *)

Lemma In_zmap {A : Type} (f : Z -> A) (x : A) :
  forall k i, In x (zmap f k i) <-> exists j, i <= j < i + Z.of_nat k /\ f j = x.
Proof.
  induction k as [|k IH]; intros i; cbn [zmap In].
  - split; [tauto | intros (j & Hj & _); lia].
  - rewrite IH. split.
    + intros [H | (j & Hj & H)]; [exists i | exists j]; split; try assumption; lia.
    + intros (j & Hj & H). destruct (Z.eq_dec j i) as [->|Hne]; [now left | right].
      exists j. split; [lia | assumption].
Qed.

Lemma NoDup_zmap {A : Type} (f : Z -> A) :
  forall k i, (forall j j', i <= j < i + Z.of_nat k -> i <= j' < i + Z.of_nat k ->
                            f j = f j' -> j = j') ->
              NoDup (zmap f k i).
Proof.
  induction k as [|k IH]; intros i Hinj; cbn [zmap]; constructor.
  - rewrite In_zmap. intros (j & Hj & E). apply Hinj in E; lia.
  - apply IH. intros j j' Hj Hj'. apply Hinj; lia.
Qed.

Lemma map_zmap {A B : Type} (g : A -> B) (f : Z -> A) :
  forall k i, map g (zmap f k i) = zmap (fun j => g (f j)) k i.
Proof. induction k as [|k IH]; intros i; cbn [zmap map]; [reflexivity | now rewrite IH]. Qed.

Lemma zsum_zmap (f : Z -> Z) :
  forall k i, zsum f k i = fold_right Z.add 0 (zmap f k i).
Proof. induction k as [|k IH]; intros i; cbn [zmap zsum fold_right]; [reflexivity | now rewrite IH]. Qed.

Lemma fold_add_perm (l l' : list Z) :
  Permutation l l' -> fold_right Z.add 0 l = fold_right Z.add 0 l'.
Proof. induction 1; cbn [fold_right]; lia. Qed.

Section Reindex.

Variable h : Z -> Z.
Variable n : nat.
Hypothesis Hrange : forall i, 0 <= i < Z.of_nat n -> 0 <= h i < Z.of_nat n.
Hypothesis Hinj : forall i j, 0 <= i < Z.of_nat n -> 0 <= j < Z.of_nat n -> h i = h j -> i = j.

Lemma range_permutation : Permutation (zmap h n 0) (zmap (fun i => i) n 0).
Proof.
  rewrite <- (map_zmap h (fun i => i)). apply Permutation_map_same_l.
  - rewrite map_zmap. apply NoDup_zmap. intros j j' Hj Hj'. apply Hinj; lia.
  - intros x Hx. rewrite map_zmap in Hx. apply In_zmap in Hx. destruct Hx as (j & Hj & <-).
    apply In_zmap. exists (h j). split; [|reflexivity].
    specialize (Hrange j ltac:(lia)). lia.
Qed.

Lemma reindex_sum (g : Z -> Z) : zsum g n 0 = zsum (fun i => g (h i)) n 0.
Proof.
  rewrite !zsum_zmap. rewrite <- (map_zmap g h).
  replace (zmap g n 0) with (map g (zmap (fun i => i) n 0)) by apply map_zmap.
  apply fold_add_perm. apply Permutation_map. symmetry. apply range_permutation.
Qed.

Lemma reindex_onto (s : Z) : 0 <= s < Z.of_nat n -> exists i, 0 <= i < Z.of_nat n /\ h i = s.
Proof.
  intros Hs.
  assert (H : In s (zmap h n 0)).
  { apply (Permutation_in s (Permutation_sym range_permutation)).
    apply In_zmap. exists s. split; [lia | reflexivity]. }
  apply In_zmap in H. destruct H as (j & Hj & E). exists j. split; [lia | exact E].
Qed.

End Reindex.

(** * HUF_sort *)

Lemma rd_in (t : nodeTable) (i : Z) : -1 <= i <= 510 -> rd t i = Ret (t i).
Proof. intros H. unfold rd. apply aget_in. exact H. Qed.

Lemma wr_in (t : nodeTable) (i : Z) (e : nodeElt) :
  -1 <= i <= 510 -> wr t i e = Ret (upd t i e).
Proof. intros H. unfold wr. apply aset_in. exact H. Qed.

Lemma indicator_range (b : bool) : 0 <= indicator b <= 1.
Proof. destruct b; cbn; lia. Qed.

Lemma indicator_sum_bounds (p : Z -> bool) (k : nat) (i : Z) :
  0 <= zsum (fun s => indicator (p s)) k i <= Z.of_nat k.
Proof.
  pose proof (zsum_bounds (fun s => indicator (p s)) 1 k i
                (fun j _ => indicator_range (p j))). lia.
Qed.

Section SortProof.

Variable count : list Z.
Variable M : Z.
Hypothesis HM : 0 <= M <= 255.
Hypothesis Hlen : Z.of_nat (length count) = M + 1.
Hypothesis Hcount : forall s, 0 <= s <= M -> 0 <= count_at count s < 2^30.

Lemma bucket_range (s : Z) : 0 <= s <= M -> 0 <= bucket count s <= 30.
Proof.
  intros Hs. specialize (Hcount s Hs). unfold bucket. split; [apply Z.log2_nonneg|].
  destruct (Z.eq_dec (count_at count s + 1) (2^30)) as [E|E].
  - rewrite E. rewrite Z.log2_pow2 by lia. lia.
  - assert (Z.log2 (count_at count s + 1) < 30); [|lia].
    apply Z.log2_lt_pow2; lia.
Qed.

Lemma highbit_bucket (s : Z) :
  0 <= s <= M -> BIT_highbit32 (U32 (count_at count s + 1)) = Ret (bucket count s).
Proof.
  intros Hs. specialize (Hcount s Hs). change (2^30) with 1073741824 in Hcount.
  rewrite U32_small by lia. unfold BIT_highbit32.
  rewrite (proj2 (Z.ltb_lt _ _)) by lia. reflexivity.
Qed.

Lemma bucket_size_range (h : Z) : 0 <= bucket_size count M h <= M + 1.
Proof.
  unfold bucket_size.
  pose proof (indicator_sum_bounds (fun s => bucket count s =? h) (Z.to_nat (M + 1)) 0). lia.
Qed.

Lemma bucket_base_range (r : Z) : 0 <= bucket_base count M r <= M + 1.
Proof.
  unfold bucket_base.
  pose proof (indicator_sum_bounds (fun s => r <=? bucket count s) (Z.to_nat (M + 1)) 0). lia.
Qed.

Lemma bucket_base_step (r : Z) :
  bucket_base count M r = bucket_size count M r + bucket_base count M (r + 1).
Proof.
  unfold bucket_base, bucket_size. rewrite <- zsum_plus. apply zsum_ext.
  intros s _. destruct (Z.eqb_spec (bucket count s) r), (Z.leb_spec r (bucket count s)),
    (Z.leb_spec (r + 1) (bucket count s)); cbn; lia.
Qed.

Lemma bucket_base_top (r : Z) : 30 < r -> bucket_base count M r = 0.
Proof.
  intros Hr. unfold bucket_base. apply zsum_zero. intros s Hs.
  pose proof (bucket_range s ltac:(lia)).
  destruct (Z.leb_spec r (bucket count s)); [lia | reflexivity].
Qed.

Lemma bucket_base_zero : bucket_base count M 0 = M + 1.
Proof.
  unfold bucket_base. rewrite (zsum_ext _ (fun _ => 1)).
  - rewrite zsum_const. lia.
  - intros s Hs. pose proof (bucket_range s ltac:(lia)).
    destruct (Z.leb_spec 0 (bucket count s)); [reflexivity | lia].
Qed.

Lemma placed_step (h n : Z) :
  0 <= n -> placed count h (n + 1) = placed count h n + indicator (bucket count n =? h).
Proof.
  intros Hn. unfold placed. replace (Z.to_nat (n + 1)) with (S (Z.to_nat n)) by lia.
  rewrite zsum_snoc, Z.add_0_l, Z2Nat.id by lia. reflexivity.
Qed.

Lemma placed_range (h n : Z) : 0 <= n -> 0 <= placed count h n <= n.
Proof.
  intros Hn. unfold placed.
  pose proof (indicator_sum_bounds (fun s => bucket count s =? h) (Z.to_nat n) 0). lia.
Qed.

Lemma placed_all (h : Z) : placed count h (M + 1) = bucket_size count M h.
Proof. reflexivity. Qed.

(** The symbols of a bucket that are still to come. *)
Lemma placed_le (h n : Z) :
  0 <= n <= M + 1 -> placed count h n <= bucket_size count M h.
Proof.
  intros Hn. unfold placed, bucket_size.
  replace (Z.to_nat (M + 1)) with (Z.to_nat n + Z.to_nat (M + 1 - n))%nat by lia.
  rewrite zsum_app.
  pose proof (indicator_sum_bounds (fun s => bucket count s =? h) (Z.to_nat (M + 1 - n))
                (0 + Z.of_nat (Z.to_nat n))). lia.
Qed.

Lemma placed_lt (n : Z) :
  0 <= n <= M -> placed count (bucket count n) n < bucket_size count M (bucket count n).
Proof.
  intros Hn. pose proof (placed_le (bucket count n) (n + 1) ltac:(lia)) as H.
  rewrite placed_step in H by lia. rewrite Z.eqb_refl in H. cbn in H. lia.
Qed.

Lemma bucket_size_outside (h : Z) : ~ 0 <= h <= 30 -> bucket_size count M h = 0.
Proof.
  intros Hh. unfold bucket_size. apply zsum_zero. intros s Hs.
  pose proof (bucket_range s ltac:(lia)).
  destruct (Z.eqb_spec (bucket count s) h); [lia | reflexivity].
Qed.

Lemma count_get_ok (s : Z) : 0 <= s <= M -> count_get count s = Ret (count_at count s).
Proof. intros Hs. apply count_get_at. lia. Qed.

(** The three loops that prepare [rank]. *)
Lemma sort_count_ranks_loop :
  exists rank1,
    for_up (Z.to_nat (M + 1)) 0 (sort_count_ranks count) zero_rank = Ret rank1
    /\ forall r, rank1 r = mkRankPos (bucket_size count M r) 0.
Proof.
  destruct (for_up_inv
              (fun j (rank : Z -> rankPos) =>
                 forall r, rank r = mkRankPos (placed count r j) 0)
              (sort_count_ranks count) (Z.to_nat (M + 1)) 0 zero_rank) as (rank1 & E & I).
  - intros r. reflexivity.
  - intros j rank Hj Hr. unfold sort_count_ranks, rank_get, rank_set.
    rewrite count_get_ok by lia. cbn [bind].
    rewrite highbit_bucket by lia. cbn [bind].
    pose proof (bucket_range j ltac:(lia)).
    rewrite aget_in by lia. cbn [bind]. rewrite aset_in by lia.
    eexists. split; [reflexivity|]. intros r.
    rewrite placed_step by lia.
    destruct (Z.eqb_spec (bucket count j) r) as [<-|Hne].
    + rewrite upd_same, Hr. cbn [base current indicator].
      pose proof (placed_range (bucket count j) j ltac:(lia)).
      rewrite U32_small by lia. reflexivity.
    + rewrite upd_other by congruence. rewrite Hr. cbn [indicator]. now rewrite Z.add_0_r.
  - exists rank1. split; [exact E|]. intros r. rewrite I.
    rewrite Z.add_0_l, Z2Nat.id by lia. reflexivity.
Qed.

Lemma sort_accumulate_loop (rank1 : Z -> rankPos) :
  (forall r, rank1 r = mkRankPos (bucket_size count M r) 0) ->
  exists rank2,
    for_down 30 30 sort_accumulate rank1 = Ret rank2
    /\ forall r, 0 <= r -> rank2 r = mkRankPos (bucket_base count M r) 0.
Proof.
  intros H1.
  destruct (for_down_inv
              (fun j (rank : Z -> rankPos) =>
                 forall r, rank r = mkRankPos (if j <=? r then bucket_base count M r
                                               else bucket_size count M r) 0)
              sort_accumulate 30 30 rank1) as (rank2 & E & I).
  - intros r. rewrite H1. f_equal.
    destruct (Z.leb_spec 30 r); [|reflexivity].
    rewrite bucket_base_step. rewrite (bucket_base_top (r + 1)) by lia. lia.
  - intros j rank Hj Hr. unfold sort_accumulate, rank_get, rank_set.
    cbn [Z.of_nat] in Hj.
    rewrite aget_in by lia. cbn [bind]. rewrite aget_in by lia. cbn [bind].
    rewrite aset_in by lia. eexists. split; [reflexivity|]. intros r.
    destruct (Z.eq_dec r (j - 1)) as [->|Hne].
    + rewrite upd_same. rewrite !Hr. cbn [base current].
      rewrite Z.leb_refl. rewrite (proj2 (Z.leb_gt j (j - 1))) by lia.
      rewrite (proj2 (Z.leb_le (j - 1) (j - 1))) by lia.
      rewrite (bucket_base_step (j - 1)). replace (j - 1 + 1) with j by lia.
      pose proof (bucket_size_range (j - 1)). pose proof (bucket_base_range j).
      rewrite U32_small by lia. reflexivity.
    + rewrite upd_other by assumption. rewrite Hr. f_equal.
      destruct (Z.leb_spec j r), (Z.leb_spec (j - 1) r); try reflexivity; lia.
  - exists rank2. split; [exact E|]. intros r Hr. rewrite I. cbn [Z.of_nat].
    rewrite (proj2 (Z.leb_le _ _)) by lia. reflexivity.
Qed.

Lemma sort_set_current_loop (rank2 : Z -> rankPos) :
  (forall r, 0 <= r -> rank2 r = mkRankPos (bucket_base count M r) 0) ->
  exists rank3,
    for_up 32 0 sort_set_current rank2 = Ret rank3
    /\ forall r, 0 <= r <= 31 ->
                 rank3 r = mkRankPos (bucket_base count M r) (bucket_base count M r).
Proof.
  intros H2.
  destruct (for_up_inv
              (fun j (rank : Z -> rankPos) =>
                 forall r, 0 <= r ->
                   rank r = mkRankPos (bucket_base count M r)
                              (if r <? j then bucket_base count M r else 0))
              sort_set_current 32 0 rank2) as (rank3 & E & I).
  - intros r Hr. rewrite H2 by assumption. rewrite (proj2 (Z.ltb_ge r 0)) by lia. reflexivity.
  - intros j rank Hj Hr. unfold sort_set_current, rank_get, rank_set.
    rewrite aget_in by lia. cbn [bind]. rewrite aset_in by lia.
    eexists. split; [reflexivity|]. intros r Hr0.
    destruct (Z.eq_dec r j) as [->|Hne].
    + rewrite upd_same, Hr by lia. cbn [base].
      rewrite (proj2 (Z.ltb_lt j (j + 1))) by lia. reflexivity.
    + rewrite upd_other by assumption. rewrite Hr by assumption. f_equal.
      destruct (Z.ltb_spec r j), (Z.ltb_spec r (j + 1)); try reflexivity; lia.
  - exists rank3. split; [exact E|]. intros r Hr. rewrite I by lia.
    rewrite (proj2 (Z.ltb_lt _ _)) by lia. reflexivity.
Qed.

Lemma sort_inv_init (rank3 : Z -> rankPos) :
  (forall r, 0 <= r <= 31 ->
             rank3 r = mkRankPos (bucket_base count M r) (bucket_base count M r)) ->
  sort_inv count M 0 zero_table rank3.
Proof.
  intros H3.
  assert (Hempty : forall h i, ~ in_bucket_cells count M 0 h i).
  { intros h i (_ & Hi). unfold placed in Hi. cbn in Hi. lia. }
  constructor.
  - intros r Hr. rewrite H3 by lia. reflexivity.
  - intros r Hr. rewrite H3 by lia. unfold placed. cbn. lia.
  - intros h i Hc. now apply Hempty in Hc.
  - reflexivity.
  - intros h i h' i' Hc. now apply Hempty in Hc.
  - intros h i j Hc. now apply Hempty in Hc.
Qed.

Lemma bucket_base_mono (r r' : Z) :
  r <= r' -> bucket_base count M r' <= bucket_base count M r.
Proof.
  intros Hr. unfold bucket_base.
  assert (H : forall k i,
             zsum (fun s => indicator (r' <=? bucket count s)) k i
             <= zsum (fun s => indicator (r <=? bucket count s)) k i).
  { induction k as [|k IH]; intros i; [reflexivity|]. cbn [zsum]. specialize (IH (i + 1)).
    destruct (Z.leb_spec r' (bucket count i)), (Z.leb_spec r (bucket count i));
      cbn [indicator]; lia. }
  apply H.
Qed.

Lemma bucket_cells_inside (n h i : Z) :
  0 <= n <= M + 1 -> in_bucket_cells count M n h i ->
  bucket_base count M (h + 1) <= i < bucket_base count M h.
Proof.
  intros Hn (Hh & Hi). pose proof (placed_le h n Hn).
  rewrite (bucket_base_step h). lia.
Qed.

Lemma bucket_cells_unique (n h h' i : Z) :
  0 <= n <= M + 1 ->
  in_bucket_cells count M n h i -> in_bucket_cells count M n h' i -> h = h'.
Proof.
  intros Hn H1 H2.
  apply bucket_cells_inside in H1; [|assumption].
  apply bucket_cells_inside in H2; [|assumption].
  destruct (Z.lt_trichotomy h h') as [Hlt | [Heq | Hgt]]; [|assumption|].
  - pose proof (bucket_base_mono (h + 1) h' ltac:(lia)). lia.
  - pose proof (bucket_base_mono (h' + 1) h ltac:(lia)). lia.
Qed.

(** The insertion loop moves the cells [p1 .. pos0 - 1] one cell up. *)
Lemma sort_shift_loop (t : nodeTable) (B pos0 c : Z) :
  0 <= B <= pos0 -> pos0 <= 510 ->
  exists t1 p1,
    while_loop (S (Z.to_nat pos0)) (sort_shift_cond B c) sort_shift_body (t, pos0)
      = Ret (t1, p1)
    /\ B <= p1 <= pos0
    /\ (forall i, t1 i = if (p1 <? i) && (i <=? pos0) then t (i - 1) else t i)
    /\ (forall i, p1 <= i < pos0 -> n_count (t i) < c)
    /\ (B < p1 -> c <= n_count (t (p1 - 1))).
Proof.
  intros HB Hpos.
  destruct (while_loop_inv
              (fun s : nodeTable * Z =>
                 B <= snd s <= pos0
                 /\ (forall i, fst s i = if (snd s <? i) && (i <=? pos0) then t (i - 1) else t i)
                 /\ (forall i, snd s <= i < pos0 -> n_count (t i) < c))
              (fun s => snd s)
              (sort_shift_cond B c) sort_shift_body) with (fuel := S (Z.to_nat pos0))
                                                          (s := (t, pos0))
    as ([t1 p1] & E & (I1 & I2 & I3) & Hexit).
  - intros [t' p] (Hp & _). cbn [snd] in *. lia.
  - intros [t' p] (Hp & Ht & Hc). cbn [fst snd] in *.
    unfold sort_shift_cond, sort_shift_body.
    destruct (Z.ltb_spec B p) as [Hlt|Hge].
    + rewrite U32_small by lia. rewrite rd_in by lia. cbn [bind].
      eexists. split; [reflexivity|]. intros Hcond.
      rewrite wr_in by lia. cbn [bind]. eexists. split; [reflexivity|].
      cbn [fst snd]. split; [|lia]. split; [lia|].
      assert (Hprev : t' (p - 1) = t (p - 1)).
      { rewrite Ht. destruct (Z.ltb_spec p (p - 1)); [lia | reflexivity]. }
      split.
      * intros i. unfold upd. destruct (Z.eqb_spec i p) as [->|Hne].
        -- rewrite Hprev. destruct (Z.ltb_spec (p - 1) p), (Z.leb_spec p pos0);
             try lia. reflexivity.
        -- rewrite Ht. destruct (Z.ltb_spec p i), (Z.ltb_spec (p - 1) i); try lia;
             reflexivity.
      * intros i Hi. destruct (Z.eq_dec i (p - 1)) as [->|Hne].
        -- rewrite <- Hprev. apply Z.ltb_lt. exact Hcond.
        -- apply Hc. lia.
    + eexists. split; [reflexivity|]. discriminate.
  - cbn [fst snd]. split; [lia|]. split.
    + intros i. destruct (Z.ltb_spec pos0 i), (Z.leb_spec i pos0); try lia; reflexivity.
    + intros; lia.
  - cbn [snd]. lia.
  - cbn [fst snd] in *. exists t1, p1. split; [exact E|]. split; [exact I1|].
    split; [exact I2|]. split; [exact I3|].
    intros Hlt. unfold sort_shift_cond in Hexit.
    rewrite (proj2 (Z.ltb_lt B p1) Hlt) in Hexit.
    rewrite U32_small in Hexit by lia. rewrite rd_in in Hexit by lia.
    cbn [bind] in Hexit. injection Hexit as Hexit. apply Z.ltb_ge in Hexit.
    rewrite I2 in Hexit. destruct (Z.ltb_spec p1 (p1 - 1)); [lia|]. exact Hexit.
Qed.

Lemma sort_insert_step (n : Z) (t : nodeTable) (rank : Z -> rankPos) :
  0 <= n <= M -> sort_inv count M n t rank ->
  exists t3 rank',
    sort_insert count n (t, rank) = Ret (t3, rank') /\ sort_inv count M (n + 1) t3 rank'.
Proof.
  intros Hn [Ibase Icur Icells Ifree Idist Isorted].
  set (h := bucket count n). set (c := count_at count n).
  set (B := bucket_base count M (h + 1)). set (pos0 := B + placed count h n).
  pose proof (bucket_range n Hn) as Hh. fold h in Hh.
  pose proof (bucket_base_range (h + 1)) as HB. fold B in HB.
  pose proof (placed_range h n ltac:(lia)) as Hpl.
  pose proof (placed_lt n Hn) as Hlt. fold h in Hlt.
  pose proof (bucket_base_step h) as Hstep. fold B in Hstep.
  pose proof (bucket_base_range h) as HBh.
  assert (Hpos : B <= pos0 <= M) by (unfold pos0; lia).
  assert (Hold : forall i, B <= i < pos0 <-> in_bucket_cells count M n h i).
  { intros i. unfold in_bucket_cells. fold B. fold pos0. intuition lia. }
  assert (Hother : forall h' i, in_bucket_cells count M n h' i -> h' <> h ->
                                ~ B <= i <= pos0).
  { intros h' i Hc Hne. apply bucket_cells_inside in Hc; [|lia].
    destruct (Z.lt_trichotomy h' h) as [H1 | [H1 | H1]]; [| contradiction |].
    - pose proof (bucket_base_mono (h' + 1) h ltac:(lia)). lia.
    - pose proof (bucket_base_mono (h + 1) h' ltac:(lia)). fold B in H. lia. }
  assert (Hnew : forall h' i, in_bucket_cells count M (n + 1) h' i <->
                   in_bucket_cells count M n h' i \/ (h' = h /\ i = pos0)).
  { intros h' i. unfold in_bucket_cells. rewrite placed_step by lia. fold h.
    destruct (Z.eqb_spec h h') as [<-|Hne]; cbn [indicator]; fold B; fold pos0.
    - intuition lia.
    - intuition lia. }
  assert (Hfree0 : t pos0 = zero_node).
  { apply Ifree. intros h' Hc. destruct (Z.eq_dec h' h) as [->|Hne].
    - apply Hold in Hc. lia.
    - apply (Hother h' pos0 Hc Hne). lia. }
  unfold sort_insert. rewrite count_get_ok by assumption. cbn [bind].
  rewrite highbit_bucket by assumption. cbn [bind]. fold h. fold c.
  rewrite U32_small by lia. unfold rank_get, rank_set.
  rewrite aget_in by lia. cbn [bind]. rewrite aset_in by lia. cbn [bind].
  rewrite (Ibase (h + 1)) by lia. rewrite (Icur (h + 1)) by lia.
  replace (h + 1 - 1) with h by lia. fold B. fold pos0.
  destruct (sort_shift_loop t B pos0 c ltac:(lia) ltac:(lia))
    as (t1 & p1 & E & Hp1 & Ht1 & Hsmall & Hbig).
  rewrite E. cbn [bind].
  rewrite rd_in by lia. cbn [bind]. rewrite wr_in by lia. cbn [bind].
  rewrite rd_in by lia. cbn [bind]. rewrite wr_in by lia. cbn [bind].
  rewrite upd_same.
  assert (Hp1t : t1 p1 = t p1).
  { rewrite Ht1. destruct (Z.ltb_spec p1 p1); [lia | reflexivity]. }
  assert (Hclean : parent (t p1) = 0 /\ n_nbBits (t p1) = 0).
  { destruct (Z.eq_dec p1 pos0) as [->|Hne].
    - rewrite Hfree0. split; reflexivity.
    - destruct (Icells h p1) as (Hl & _); [apply Hold; lia|]. rewrite Hl. split; reflexivity. }
  eexists. eexists. split; [reflexivity|].
  (* the new table, cell by cell *)
  match goal with |- sort_inv _ _ _ ?x _ => set (t3 := x) end.
  assert (Ht3 : forall i, t3 i = if i <? p1 then t i
                                 else if i =? p1 then leaf_of count n
                                      else if i <=? pos0 then t (i - 1) else t i).
  { intros i. unfold t3, upd.
    destruct (Z.eqb_spec i p1) as [->|Hne].
    - destruct (Z.ltb_spec p1 p1); [lia|].
      unfold set_byte, set_count. cbn [n_count parent byte n_nbBits].
      rewrite Hp1t. destruct Hclean as [-> ->].
      rewrite BYTE_small by lia. reflexivity.
    - rewrite Ht1. destruct (Z.ltb_spec i p1), (Z.ltb_spec p1 i), (Z.leb_spec i pos0);
        cbn [andb]; try lia; reflexivity. }
  clearbody t3.
  constructor.
  - (* base *)
    intros r Hr. unfold upd. destruct (Z.eqb_spec r (h + 1)) as [->|Hne].
    + reflexivity.
    + apply Ibase. assumption.
  - (* current *)
    intros r Hr. unfold upd. rewrite placed_step by lia. fold h.
    destruct (Z.eqb_spec r (h + 1)) as [->|Hne].
    + cbn [current]. replace (h + 1 - 1) with h by lia. rewrite Z.eqb_refl. cbn [indicator].
      fold B. rewrite U32_small by (unfold pos0 in *; lia). unfold pos0. lia.
    + rewrite Icur by assumption.
      destruct (Z.eqb_spec h (r - 1)); [lia|]. cbn [indicator]. lia.
  - (* cells *)
    intros h' i Hc. apply Hnew in Hc. rewrite Ht3.
    destruct (Z.eq_dec h' h) as [->|Hne].
    + assert (Hi : B <= i <= pos0).
      { destruct Hc as [Hc | [_ ->]]; [apply Hold in Hc|]; lia. }
      destruct (Z.ltb_spec i p1).
      * destruct (Icells h i) as (H1 & H2 & H3); [apply Hold; lia|]. repeat split; auto; lia.
      * destruct (Z.eqb_spec i p1) as [->|Hne].
        -- unfold leaf_of. cbn [byte]. repeat split; try lia; reflexivity.
        -- destruct (Z.leb_spec i pos0); [|lia].
           destruct (Icells h (i - 1)) as (H1 & H2 & H3); [apply Hold; lia|].
           repeat split; auto; lia.
    + destruct Hc as [Hc | [Heq _]]; [|contradiction].
      pose proof (Hother h' i Hc Hne) as Hout.
      destruct (Icells h' i Hc) as (H1 & H2 & H3).
      destruct (Z.ltb_spec i p1); [repeat split; auto; lia|].
      destruct (Z.eqb_spec i p1); [lia|].
      destruct (Z.leb_spec i pos0); [lia|]. repeat split; auto; lia.
  - (* free cells *)
    intros i Hfree.
    assert (Hout : ~ B <= i <= pos0).
    { intros Hi. apply (Hfree h). apply Hnew.
      destruct (Z.eq_dec i pos0) as [->|Hne]; [right; auto | left; apply Hold; lia]. }
    rewrite Ht3.
    assert (Hz : t i = zero_node).
    { apply Ifree. intros h' Hc. apply (Hfree h'). apply Hnew. now left. }
    destruct (Z.ltb_spec i p1); [exact Hz|].
    destruct (Z.eqb_spec i p1); [lia|].
    destruct (Z.leb_spec i pos0); [lia | exact Hz].
  - (* distinct *)
    assert (Hsrc : forall h' i, in_bucket_cells count M (n + 1) h' i -> i <> p1 ->
               exists j, t3 i = t j /\ in_bucket_cells count M n h' j
                         /\ (j = i /\ ~ p1 <= i <= pos0 \/ j = i - 1 /\ p1 < i <= pos0)).
    { intros h' i Hc Hne. apply Hnew in Hc. rewrite Ht3.
      destruct (Z.eq_dec h' h) as [->|Hneh].
      - assert (Hi : B <= i <= pos0).
        { destruct Hc as [Hc | [_ ->]]; [apply Hold in Hc|]; lia. }
        destruct (Z.ltb_spec i p1).
        + exists i. split; [reflexivity|]. split; [apply Hold; lia|]. left. lia.
        + destruct (Z.eqb_spec i p1); [lia|]. destruct (Z.leb_spec i pos0); [|lia].
          exists (i - 1). split; [reflexivity|]. split; [apply Hold; lia|]. right. lia.
      - destruct Hc as [Hc | [Heq _]]; [|contradiction].
        pose proof (Hother h' i Hc Hneh) as Hout.
        exists i. destruct (Z.ltb_spec i p1); [split; [reflexivity|]; split; [assumption|]; left; lia|].
        destruct (Z.eqb_spec i p1); [lia|]. destruct (Z.leb_spec i pos0); [lia|].
        split; [reflexivity|]. split; [assumption|]. left; lia. }
    assert (Hp1b : byte (t3 p1) = n).
    { rewrite Ht3. destruct (Z.ltb_spec p1 p1); [lia|]. rewrite Z.eqb_refl. reflexivity. }
    intros h1 i1 h2 i2 Hc1 Hc2 Hb.
    destruct (Z.eq_dec i1 p1) as [->|Hne1]; destruct (Z.eq_dec i2 p1) as [->|Hne2].
    + reflexivity.
    + destruct (Hsrc h2 i2 Hc2 Hne2) as (j & Ej & Hcj & _).
      destruct (Icells h2 j Hcj) as (_ & Hbj & _). rewrite Hp1b, Ej in Hb. lia.
    + destruct (Hsrc h1 i1 Hc1 Hne1) as (j & Ej & Hcj & _).
      destruct (Icells h1 j Hcj) as (_ & Hbj & _). rewrite Hp1b, Ej in Hb. lia.
    + destruct (Hsrc h1 i1 Hc1 Hne1) as (j1 & Ej1 & Hcj1 & Hj1).
      destruct (Hsrc h2 i2 Hc2 Hne2) as (j2 & Ej2 & Hcj2 & Hj2).
      rewrite Ej1, Ej2 in Hb. pose proof (Idist h1 j1 h2 j2 Hcj1 Hcj2 Hb). lia.
  - (* sorted *)
    intros h' i j Hci Hcj Hij. apply Hnew in Hci. apply Hnew in Hcj. rewrite !Ht3.
    destruct (Z.eq_dec h' h) as [->|Hneh].
    + assert (Hi : B <= i <= pos0).
      { destruct Hci as [Hc | [_ ->]]; [apply Hold in Hc|]; lia. }
      assert (Hj : B <= j <= pos0).
      { destruct Hcj as [Hc | [_ ->]]; [apply Hold in Hc|]; lia. }
      assert (Hs : forall a b, B <= a -> a <= b -> b < pos0 -> n_count (t b) <= n_count (t a)).
      { intros a b Ha Hab Hb. apply (Isorted h); [apply Hold; lia | apply Hold; lia | lia]. }
      destruct (Z.ltb_spec i p1), (Z.ltb_spec j p1); try lia.
      * apply Hs; lia.
      * assert (Hc1 : c <= n_count (t i)).
        { pose proof (Hbig ltac:(lia)). pose proof (Hs i (p1 - 1) ltac:(lia) ltac:(lia) ltac:(lia)).
          lia. }
        destruct (Z.eqb_spec j p1); [unfold leaf_of; cbn [n_count]; fold c; lia|].
        destruct (Z.leb_spec j pos0); [|lia]. apply Hs; lia.
      * destruct (Z.eqb_spec i p1) as [->|Hnei]; destruct (Z.eqb_spec j p1) as [->|Hnej];
          try lia.
        -- destruct (Z.leb_spec j pos0); [|lia].
           unfold leaf_of. cbn [n_count]. fold c.
           pose proof (Hsmall (j - 1) ltac:(lia)). lia.
        -- destruct (Z.leb_spec i pos0), (Z.leb_spec j pos0); try lia. apply Hs; lia.
    + destruct Hci as [Hci | [Heq _]]; [|contradiction].
      destruct Hcj as [Hcj | [Heq _]]; [|contradiction].
      pose proof (Hother h' i Hci Hneh). pose proof (Hother h' j Hcj Hneh).
      pose proof (Isorted h' i j Hci Hcj Hij).
      destruct (Z.ltb_spec i p1), (Z.ltb_spec j p1), (Z.eqb_spec i p1), (Z.eqb_spec j p1),
        (Z.leb_spec i pos0), (Z.leb_spec j pos0); try lia.
Qed.

Lemma bucket_cells_cover (i : Z) :
  0 <= i <= M -> exists h, in_bucket_cells count M (M + 1) h i.
Proof.
  intros Hi.
  assert (H : forall k : nat, (k <= 31)%nat -> bucket_base count M (Z.of_nat k) <= i ->
                exists h, 0 <= h < Z.of_nat k
                          /\ bucket_base count M (h + 1) <= i < bucket_base count M h).
  { induction k as [|k IH]; intros Hk Hb.
    - cbn in Hb. rewrite bucket_base_zero in Hb. lia.
    - destruct (Z_lt_dec i (bucket_base count M (Z.of_nat k))) as [Hlt|Hge].
      + exists (Z.of_nat k). split; [lia|].
        replace (Z.of_nat k + 1) with (Z.of_nat (S k)) by lia. lia.
      + destruct (IH ltac:(lia) ltac:(lia)) as (h & Hh & Hhi). exists h. split; [lia | exact Hhi]. }
  destruct (H 31%nat ltac:(lia)) as (h & Hh & Hhi).
  { rewrite bucket_base_top by lia. lia. }
  exists h. split; [lia|]. rewrite placed_all.
  rewrite (bucket_base_step h) in Hhi. lia.
Qed.

Lemma bucket_lt_count (s s' : Z) :
  0 <= s <= M -> 0 <= s' <= M ->
  bucket count s < bucket count s' -> count_at count s < count_at count s'.
Proof.
  intros Hs Hs' Hb. unfold bucket in Hb.
  destruct (Z_lt_dec (count_at count s) (count_at count s')) as [H|H]; [exact H|].
  pose proof (Z.log2_le_mono (count_at count s' + 1) (count_at count s + 1) ltac:(lia)). lia.
Qed.

Lemma sort_inv_final (t : nodeTable) (rank : Z -> rankPos) :
  sort_inv count M (M + 1) t rank -> sorted_table count M t.
Proof.
  intros [Ibase Icur Icells Ifree Idist Isorted]. constructor.
  - intros i Hi. destruct (bucket_cells_cover i Hi) as (h & Hc).
    destruct (Icells h i Hc) as (H1 & H2 & H3). split; [exact H1 | lia].
  - intros i Hi. apply Ifree. intros h Hc.
    apply bucket_cells_inside in Hc; [|lia].
    pose proof (bucket_base_range (h + 1)). pose proof (bucket_base_range h). lia.
  - intros i j Hi Hj Hb.
    destruct (bucket_cells_cover i Hi) as (h & Hc).
    destruct (bucket_cells_cover j Hj) as (h' & Hc').
    apply (Idist h i h' j Hc Hc' Hb).
  - intros i j Hi Hj.
    destruct (bucket_cells_cover i ltac:(lia)) as (h & Hc).
    destruct (bucket_cells_cover j ltac:(lia)) as (h' & Hc').
    destruct (Z.eq_dec h h') as [<-|Hne].
    + apply (Isorted h i j Hc Hc'). lia.
    + destruct (Icells h i Hc) as (E1 & B1 & K1).
      destruct (Icells h' j Hc') as (E2 & B2 & K2).
      apply bucket_cells_inside in Hc; [|lia]. apply bucket_cells_inside in Hc'; [|lia].
      assert (h' < h).
      { destruct (Z_lt_dec h' h) as [H|H]; [exact H|].
        pose proof (bucket_base_mono (h + 1) h' ltac:(lia)). lia. }
      rewrite E1, E2. unfold leaf_of. cbn [n_count].
      pose proof (bucket_lt_count (byte (t j)) (byte (t i)) ltac:(lia) ltac:(lia) ltac:(lia)).
      lia.
Qed.

Theorem HUF_sort_spec :
  exists t, HUF_sort zero_table count M = Ret t /\ sorted_table count M t.
Proof.
  destruct sort_count_ranks_loop as (rank1 & E1 & H1).
  destruct (sort_accumulate_loop rank1 H1) as (rank2 & E2 & H2).
  destruct (sort_set_current_loop rank2 H2) as (rank3 & E3 & H3).
  pose proof (sort_inv_init rank3 H3) as Hinit.
  destruct (for_up_inv
              (fun j (s : nodeTable * (Z -> rankPos)) => sort_inv count M j (fst s) (snd s))
              (sort_insert count) (Z.to_nat (M + 1)) 0 (zero_table, rank3))
    as ([t rank] & E4 & I4).
  - exact Hinit.
  - intros j [t rank] Hj Hinv. cbn [fst snd] in Hinv.
    destruct (sort_insert_step j t rank ltac:(lia) Hinv) as (t3 & rank' & E & Hinv').
    exists (t3, rank'). split; [exact E | exact Hinv'].
  - cbn [fst snd] in I4. rewrite Z.add_0_l, Z2Nat.id in I4 by lia.
    exists t. split; [| apply (sort_inv_final t rank I4)].
    unfold HUF_sort. cbv zeta.
    rewrite (bind_eq _ _ _ E1), (bind_eq _ _ _ E2), (bind_eq _ _ _ E3), (bind_eq _ _ _ E4).
    reflexivity.
Qed.

End SortProof.

(** * The tree of unlimited height *)

Section TreeProof.

Variable t0 : nodeTable.
Variable K : Z.
Variable total : Z.

Hypothesis HK : 1 <= K <= 255.
Hypothesis Hsorted : forall i j, 0 <= i -> i <= j -> j <= K -> n_count (t0 j) <= n_count (t0 i).
Hypothesis Hpos : forall i, 0 <= i <= K -> 1 <= n_count (t0 i).
Hypothesis Htotal : zsum (fun i => n_count (t0 i)) (Z.to_nat (K + 1)) 0 = total.
Hypothesis Hblock : total <= HUF_BLOCKSIZE_MAX.
Hypothesis Hclean : forall x, parent (t0 x) = 0 /\ n_nbBits (t0 x) = 0.

Lemma leaf_count_le_total (i : Z) : 0 <= i <= K -> n_count (t0 i) <= total.
Proof.
  intros Hi. rewrite <- Htotal.
  replace (Z.to_nat (K + 1)) with (Z.to_nat i + (1 + Z.to_nat (K - i)))%nat by lia.
  rewrite zsum_app. cbn [Nat.add zsum]. rewrite Z.add_0_l, Z2Nat.id by lia.
  assert (0 <= zsum (fun i0 => n_count (t0 i0)) (Z.to_nat i) 0).
  { apply zsum_nonneg. intros j Hj. specialize (Hpos j ltac:(lia)). lia. }
  assert (0 <= zsum (fun i0 => n_count (t0 i0)) (Z.to_nat (K - i)) (i + 1)).
  { apply zsum_nonneg. intros j Hj. specialize (Hpos j ltac:(lia)). lia. }
  lia.
Qed.

(** One pick: the node with the lowest count among those that are available. *)
Lemma pick_lowest_spec (t : nodeTable) (lowS lowN nodeNb : Z) :
  -1 <= lowS <= K -> 256 <= lowN -> lowN <= nodeNb -> nodeNb <= 255 + K ->
  (forall y, available lowS lowN nodeNb y -> 1 <= n_count (t y) < 2^30) ->
  (forall i j, 0 <= i -> i <= j -> j <= lowS -> n_count (t j) <= n_count (t i)) ->
  (forall j j', lowN <= j -> j <= j' -> j' < nodeNb -> n_count (t j) <= n_count (t j')) ->
  n_count (t (-1)) = 2^31 ->
  n_count (t nodeNb) = 2^30 ->
  (0 <= lowS \/ lowN < nodeNb) ->
  exists n lowS' lowN',
    pick_lowest t lowS lowN = Ret (n, lowS', lowN')
    /\ ((n = lowS /\ 0 <= lowS /\ lowS' = lowS - 1 /\ lowN' = lowN)
        \/ (n = lowN /\ lowN < nodeNb /\ lowS' = lowS /\ lowN' = lowN + 1))
    /\ (forall y, available lowS lowN nodeNb y -> n_count (t n) <= n_count (t y))
    /\ avail_sum t lowS' lowN' nodeNb = avail_sum t lowS lowN nodeNb - n_count (t n).
Proof.
  intros HlowS HlowN HlowN' HnodeNb Hav Hls Hns Hsent Hfut Hne.
  change (2^30) with 1073741824 in *. change (2^31) with 2147483648 in *.
  unfold pick_lowest. rewrite rd_in by lia. cbn [bind]. rewrite rd_in by lia. cbn [bind].
  assert (Hleaf : 0 <= lowS -> n_count (t lowS) < 1073741824).
  { intros H. apply Hav. left. lia. }
  assert (Hint : lowN < nodeNb -> n_count (t lowN) < 1073741824).
  { intros H. apply Hav. right. lia. }
  destruct (Z.ltb_spec (n_count (t lowS)) (n_count (t lowN))) as [Hlt|Hge].
  - (* the leaf *)
    assert (H0 : 0 <= lowS).
    { destruct (Z_le_dec 0 lowS) as [H|H]; [exact H|].
      replace lowS with (-1) in Hlt by lia. rewrite Hsent in Hlt.
      destruct Hne as [Hne|Hne]; [lia|]. specialize (Hint Hne). lia. }
    exists lowS, (lowS - 1), lowN. rewrite U32_small, S32_small by lia.
    split; [reflexivity|]. split; [left; lia|]. split.
    + intros y [Hy|Hy].
      * apply Hls; lia.
      * specialize (Hns lowN y ltac:(lia) ltac:(lia) ltac:(lia)). lia.
    + unfold avail_sum. replace (Z.to_nat (lowS + 1)) with (S (Z.to_nat (lowS - 1 + 1))) by lia.
      rewrite zsum_snoc. rewrite Z.add_0_l, Z2Nat.id by lia.
      replace (lowS - 1 + 1) with lowS by lia. lia.
  - (* the internal node *)
    assert (H0 : lowN < nodeNb).
    { destruct (Z_lt_dec lowN nodeNb) as [H|H]; [exact H|].
      replace lowN with nodeNb in Hge by lia. rewrite Hfut in Hge.
      destruct Hne as [Hne|Hne]; [|lia]. specialize (Hleaf Hne). lia. }
    exists lowN, lowS, (lowN + 1). rewrite U32_small, S32_small by lia.
    split; [reflexivity|]. split; [right; lia|]. split.
    + intros y [Hy|Hy].
      * specialize (Hls y lowS ltac:(lia) ltac:(lia) ltac:(lia)). lia.
      * apply Hns; lia.
    + unfold avail_sum.
      replace (Z.to_nat (nodeNb - lowN)) with (S (Z.to_nat (nodeNb - (lowN + 1)))) by lia.
      cbn [zsum]. lia.
Qed.

Lemma avail_le_total (ch1 ch2 : Z -> Z) (t : nodeTable) (lowS lowN nodeNb y : Z) :
  parents_inv t0 K total ch1 ch2 t lowS lowN nodeNb ->
  available lowS lowN nodeNb y -> 1 <= n_count (t y) < 2^30.
Proof.
  intros I Hy. pose proof (pi_positive _ _ _ _ _ _ _ _ _ I) as Hp.
  pose proof (pi_avail _ _ _ _ _ _ _ _ _ I) as Ha.
  pose proof (pi_lowS _ _ _ _ _ _ _ _ _ I). pose proof (pi_lowN _ _ _ _ _ _ _ _ _ I).
  split; [apply Hp; now right|].
  assert (Hle : n_count (t y) <= total); [| unfold HUF_BLOCKSIZE_MAX in Hblock;
                                           change (2^30) with 1073741824; lia].
  rewrite <- Ha. unfold avail_sum.
  assert (H1 : 0 <= zsum (fun i => n_count (t i)) (Z.to_nat (lowS + 1)) 0).
  { apply zsum_nonneg. intros j Hj.
    assert (1 <= n_count (t j)); [apply Hp; right; left; lia | lia]. }
  assert (H2 : 0 <= zsum (fun j => n_count (t j)) (Z.to_nat (nodeNb - lowN)) lowN).
  { apply zsum_nonneg. intros j Hj.
    assert (1 <= n_count (t j)); [apply Hp; right; right; lia | lia]. }
  destruct Hy as [Hy|Hy].
  - assert (n_count (t y) <= zsum (fun i => n_count (t i)) (Z.to_nat (lowS + 1)) 0); [|lia].
    apply (zsum_term_le (fun i => n_count (t i))); [|lia]. intros j Hj.
    assert (1 <= n_count (t j)); [apply Hp; right; left; lia | lia].
  - assert (n_count (t y) <= zsum (fun j => n_count (t j)) (Z.to_nat (nodeNb - lowN)) lowN);
      [|lia].
    apply (zsum_term_le (fun i => n_count (t i))); [|lia]. intros j Hj.
    assert (1 <= n_count (t j)); [apply Hp; right; right; lia | lia].
Qed.

(** One round of the loop: two picks and their parent. *)
Lemma parents_step (ch1 ch2 : Z -> Z) (t : nodeTable) (lowS lowN nodeNb : Z) :
  parents_inv t0 K total ch1 ch2 t lowS lowN nodeNb ->
  nodeNb <= 255 + K ->
  exists ch1' ch2' t' lowS' lowN',
    parents_body (t, lowS, lowN, nodeNb) = Ret (t', lowS', lowN', nodeNb + 1)
    /\ parents_inv t0 K total ch1' ch2' t' lowS' lowN' (nodeNb + 1).
Proof.
  intros I Hnb. pose proof I as
    [InodeNb IlowS IlowN Ibal Icount Isent Ifut Inb Ibyte Itodo Idist Icons Ipar Icnt Ionly
       Ibelow Ilmono Iimono Iavail Ipos Iorder Isorted Iuncle].
  pose proof (fun y => avail_le_total ch1 ch2 t lowS lowN nodeNb y I) as Hbound.
  assert (Hls : forall i j, 0 <= i -> i <= j -> j <= lowS -> n_count (t j) <= n_count (t i)).
  { intros i j Hi Hij Hj. rewrite !Icount by lia. apply Hsorted; lia. }
  (* first pick *)
  destruct (pick_lowest_spec t lowS lowN nodeNb) as (n1 & lowS1 & lowN1 & E1 & P1 & Hmin1 & Hsum1);
    try lia; try assumption.
  { intros j j' Hj Hjj Hj'. apply Isorted; lia. }
  { apply Ifut. lia. }
  assert (Hav1 : forall y, available lowS1 lowN1 nodeNb y <->
                           available lowS lowN nodeNb y /\ y <> n1).
  { intros y. unfold available. destruct P1 as [(-> & ? & -> & ->) | (-> & ? & -> & ->)]; lia. }
  (* second pick *)
  destruct (pick_lowest_spec t lowS1 lowN1 nodeNb) as (n2 & lowS2 & lowN2 & E2 & P2 & Hmin2 & Hsum2);
    try assumption.
  { destruct P1 as [(_ & ? & -> & _) | (_ & ? & -> & _)]; lia. }
  { destruct P1 as [(_ & ? & _ & ->) | (_ & ? & _ & ->)]; lia. }
  { destruct P1 as [(_ & ? & _ & ->) | (_ & ? & _ & ->)]; lia. }
  { intros y Hy. apply Hbound. apply Hav1 in Hy. tauto. }
  { intros i j Hi Hij Hj. apply Hls; lia. }
  { intros j j' Hj Hjj Hj'. apply Isorted; lia. }
  { apply Ifut. lia. }
  { destruct P1 as [(_ & ? & -> & ->) | (_ & ? & -> & ->)]; lia. }
  (* what the picks are *)
  assert (Hn1 : available lowS lowN nodeNb n1).
  { unfold available. destruct P1 as [(-> & ? & _) | (-> & ? & _)]; lia. }
  assert (Hn2 : available lowS lowN nodeNb n2 /\ n2 <> n1).
  { apply Hav1. unfold available.
    destruct P2 as [(-> & ? & _) | (-> & ? & _)]; lia. }
  destruct Hn2 as [Hn2 Hne].
  assert (Hcons : forall x, consumed K lowS2 lowN2 x <->
                            consumed K lowS lowN x \/ x = n1 \/ x = n2).
  { intros x. unfold consumed.
    destruct P1 as [(-> & ? & -> & ->) | (-> & ? & -> & ->)];
      destruct P2 as [(-> & ? & -> & ->) | (-> & ? & -> & ->)]; lia. }
  assert (Hav2 : forall y, available lowS2 lowN2 (nodeNb + 1) y <->
                   (available lowS lowN nodeNb y /\ y <> n1 /\ y <> n2) \/ y = nodeNb).
  { intros y. unfold available.
    destruct P1 as [(-> & ? & -> & ->) | (-> & ? & -> & ->)];
      destruct P2 as [(-> & ? & -> & ->) | (-> & ? & -> & ->)]; lia. }
  assert (Hnc1 : ~ consumed K lowS lowN n1) by (unfold consumed, available in *; lia).
  assert (Hnc2 : ~ consumed K lowS lowN n2) by (unfold consumed, available in *; lia).
  assert (Hr1 : 0 <= n1 < nodeNb) by (unfold available in Hn1; lia).
  assert (Hr2 : 0 <= n2 < nodeNb) by (unfold available in Hn2; lia).
  pose proof (Hbound n1 Hn1) as Hc1. pose proof (Hbound n2 Hn2) as Hc2.
  change (2^30) with 1073741824 in Hc1, Hc2.
  (* the round *)
  unfold parents_body. rewrite E1. cbn [bind]. rewrite E2. cbn [bind].
  rewrite !rd_in by lia. cbn [bind]. rewrite wr_in by lia. cbn [bind].
  rewrite rd_in by lia. cbn [bind]. rewrite wr_in by lia. cbn [bind].
  rewrite rd_in by lia. cbn [bind]. rewrite wr_in by lia. cbn [bind].
  rewrite U32_small by lia. rewrite U16_small by lia.
  exists (upd ch1 nodeNb n1), (upd ch2 nodeNb n2).
  eexists. exists lowS2, lowN2. split; [reflexivity|].
  match goal with |- parents_inv _ _ _ _ _ ?x _ _ _ => set (t3 := x) end.
  set (c1 := n_count (t n1)) in *. set (c2 := n_count (t n2)) in *.
  assert (T3 : forall x, t3 x = if x =? n1 then set_parent (t n1) nodeNb
                               else if x =? n2 then set_parent (t n2) nodeNb
                               else if x =? nodeNb then set_count (t nodeNb) (c1 + c2)
                               else t x).
  { intros x. unfold t3, upd.
    destruct (Z.eqb_spec x n1) as [->|X1].
    - destruct (Z.eqb_spec n1 n2); [lia|]. destruct (Z.eqb_spec n1 nodeNb); [lia|].
      destruct (Z.eqb_spec n2 nodeNb); [lia|]. reflexivity.
    - destruct (Z.eqb_spec x n2) as [->|X2].
      + destruct (Z.eqb_spec n2 nodeNb); [lia|]. reflexivity.
      + reflexivity. }
  assert (Tcount : forall x, n_count (t3 x) = if x =? nodeNb then c1 + c2 else n_count (t x)).
  { intros x. rewrite T3.
    destruct (Z.eqb_spec x n1) as [->|X1]; [destruct (Z.eqb_spec n1 nodeNb); [lia|reflexivity]|].
    destruct (Z.eqb_spec x n2) as [->|X2]; [destruct (Z.eqb_spec n2 nodeNb); [lia|reflexivity]|].
    destruct (Z.eqb_spec x nodeNb); reflexivity. }
  assert (Tparent : forall x, parent (t3 x) = if (x =? n1) || (x =? n2) then nodeNb
                                              else parent (t x)).
  { intros x. rewrite T3.
    destruct (Z.eqb_spec x n1) as [->|X1]; [reflexivity|].
    destruct (Z.eqb_spec x n2) as [->|X2]; [reflexivity|].
    destruct (Z.eqb_spec x nodeNb) as [->|]; reflexivity. }
  assert (Tbyte : forall x, byte (t3 x) = byte (t x)).
  { intros x. rewrite T3.
    destruct (Z.eqb_spec x n1) as [->|X1]; [reflexivity|].
    destruct (Z.eqb_spec x n2) as [->|X2]; [reflexivity|].
    destruct (Z.eqb_spec x nodeNb) as [->|]; reflexivity. }
  assert (Tbits : forall x, n_nbBits (t3 x) = n_nbBits (t x)).
  { intros x. rewrite T3.
    destruct (Z.eqb_spec x n1) as [->|X1]; [reflexivity|].
    destruct (Z.eqb_spec x n2) as [->|X2]; [reflexivity|].
    destruct (Z.eqb_spec x nodeNb) as [->|]; reflexivity. }
  clearbody t3.
  assert (Tcount' : forall x, x <> nodeNb -> n_count (t3 x) = n_count (t x)).
  { intros x Hx. rewrite Tcount. destruct (Z.eqb_spec x nodeNb); [lia | reflexivity]. }
  assert (Tparent' : forall x, x <> n1 -> x <> n2 -> parent (t3 x) = parent (t x)).
  { intros x H1 H2. rewrite Tparent.
    destruct (Z.eqb_spec x n1), (Z.eqb_spec x n2); try lia. reflexivity. }
  assert (Tp1 : parent (t3 n1) = nodeNb).
  { rewrite Tparent, Z.eqb_refl. reflexivity. }
  assert (Tp2 : parent (t3 n2) = nodeNb).
  { rewrite Tparent, Z.eqb_refl, orb_true_r. reflexivity. }
  assert (Tnew : n_count (t3 nodeNb) = c1 + c2).
  { rewrite Tcount, Z.eqb_refl. reflexivity. }
  assert (Hold_lt : forall x, consumed K lowS lowN x -> x < nodeNb /\ x <> n1 /\ x <> n2).
  { intros x Hx. split; [unfold consumed in Hx; lia|].
    split; intros ->; contradiction. }
  assert (HlowS2 : -1 <= lowS2 <= lowS /\ lowN <= lowN2 <= nodeNb
                   /\ (K - lowS2) + (lowN2 - 256) = 2 * (nodeNb + 1 - 256)).
  { destruct P1 as [(? & ? & -> & ->) | (? & ? & -> & ->)];
      destruct P2 as [(? & ? & -> & ->) | (? & ? & -> & ->)]; lia. }
  constructor.
  - lia.
  - lia.
  - lia.
  - lia.
  - intros x Hx. rewrite Tcount' by lia. apply Icount. exact Hx.
  - rewrite Tcount' by lia. exact Isent.
  - intros j Hj. rewrite Tcount' by lia. apply Ifut. lia.
  - intros x. rewrite Tbits. apply Inb.
  - intros x. rewrite Tbyte. apply Ibyte.
  - intros x Hx. rewrite Tparent'.
    + apply Itodo. intros Hc. apply Hx. apply Hcons. now left.
    + intros ->. apply Hx. apply Hcons. auto.
    + intros ->. apply Hx. apply Hcons. auto.
  - (* distinct children *)
    intros q Hq. unfold upd. destruct (Z.eqb_spec q nodeNb); [congruence|].
    apply Idist. lia.
  - (* children consumed *)
    intros q Hq. unfold upd. destruct (Z.eqb_spec q nodeNb).
    + split; apply Hcons; auto.
    + destruct (Icons q ltac:(lia)) as [A B]. split; apply Hcons; auto.
  - (* parent of the children *)
    intros q Hq. unfold upd. destruct (Z.eqb_spec q nodeNb) as [->|].
    + split; assumption.
    + destruct (Icons q ltac:(lia)) as [A B]. destruct (Ipar q ltac:(lia)) as [A' B'].
      apply Hold_lt in A. apply Hold_lt in B.
      rewrite !Tparent' by lia. split; assumption.
  - (* count of a parent *)
    intros q Hq. unfold upd. destruct (Z.eqb_spec q nodeNb) as [->|].
    + rewrite Tnew. rewrite !Tcount' by lia. reflexivity.
    + destruct (Ibelow q ltac:(lia)) as [A B].
      rewrite !Tcount' by lia. apply Icnt. lia.
  - (* only these children *)
    intros x Hx. apply Hcons in Hx. destruct Hx as [Hx | [-> | ->]].
    + destruct (Ionly x Hx) as (A & B). apply Hold_lt in Hx.
      rewrite Tparent' by lia. split; [lia|]. unfold upd.
      destruct (Z.eqb_spec (parent (t x)) nodeNb); [lia | exact B].
    + rewrite Tp1. split; [lia|]. left. now rewrite upd_same.
    + rewrite Tp2. split; [lia|]. right. now rewrite upd_same.
  - (* children below *)
    intros q Hq. unfold upd. destruct (Z.eqb_spec q nodeNb) as [->|]; [lia|].
    apply Ibelow. lia.
  - (* parents along the leaves *)
    intros i i' Hi Hii Hi'.
    assert (Hle : forall x, consumed K lowS2 lowN2 x -> parent (t3 x) <= nodeNb).
    { intros x Hx. apply Hcons in Hx. destruct Hx as [Hx | [-> | ->]]; try lia.
      destruct (Ionly x Hx) as (A & _). apply Hold_lt in Hx. rewrite Tparent' by lia. lia. }
    assert (Hci : consumed K lowS2 lowN2 i) by (unfold consumed; lia).
    assert (Hci' : consumed K lowS2 lowN2 i') by (unfold consumed; lia).
    apply Hcons in Hci. destruct Hci as [Hci | [-> | ->]].
    + assert (Hi0 : lowS < i) by (unfold consumed in Hci; lia).
      assert (Hci0 : consumed K lowS lowN i') by (unfold consumed; lia).
      apply Hold_lt in Hci. apply Hold_lt in Hci0.
      rewrite !Tparent' by lia. apply Ilmono; lia.
    + rewrite Tp1. apply Hle. exact Hci'.
    + rewrite Tp2. apply Hle. exact Hci'.
  - (* parents along the internal nodes *)
    intros j j' Hj Hjj Hj'.
    assert (Hle : forall x, consumed K lowS2 lowN2 x -> parent (t3 x) <= nodeNb).
    { intros x Hx. apply Hcons in Hx. destruct Hx as [Hx | [-> | ->]]; try lia.
      destruct (Ionly x Hx) as (A & _). apply Hold_lt in Hx. rewrite Tparent' by lia. lia. }
    assert (Hcj : consumed K lowS2 lowN2 j) by (unfold consumed; lia).
    assert (Hcj' : consumed K lowS2 lowN2 j') by (unfold consumed; lia).
    apply Hcons in Hcj'. destruct Hcj' as [Hcj' | [-> | ->]].
    + assert (Hj0 : j' < lowN) by (unfold consumed in Hcj'; lia).
      assert (Hcj0 : consumed K lowS lowN j) by (unfold consumed; lia).
      apply Hold_lt in Hcj'. apply Hold_lt in Hcj0.
      rewrite !Tparent' by lia. apply Iimono; lia.
    + rewrite Tp1. apply Hle. exact Hcj.
    + rewrite Tp2. apply Hle. exact Hcj.
  - (* the counts that are available *)
    unfold avail_sum in *.
    replace (Z.to_nat (nodeNb + 1 - lowN2)) with (S (Z.to_nat (nodeNb - lowN2))) by lia.
    rewrite zsum_snoc. rewrite Z2Nat.id by lia.
    replace (lowN2 + (nodeNb - lowN2)) with nodeNb by lia. rewrite Tnew.
    rewrite (zsum_ext (fun i => n_count (t3 i)) (fun i => n_count (t i)) (Z.to_nat (lowS2 + 1)))
      by (intros j Hj; apply Tcount'; lia).
    rewrite (zsum_ext (fun i => n_count (t3 i)) (fun i => n_count (t i))
               (Z.to_nat (nodeNb - lowN2)))
      by (intros j Hj; apply Tcount'; lia).
    fold c1 in Hsum1. fold c2 in Hsum2. lia.
  - (* positive counts *)
    intros x Hx. destruct (Z.eq_dec x nodeNb) as [->|Hxn]; [rewrite Tnew; lia|].
    rewrite Tcount' by assumption. apply Ipos.
    destruct Hx as [Hx|Hx].
    + apply Hcons in Hx. destruct Hx as [Hx | [-> | ->]]; auto.
    + apply Hav2 in Hx. destruct Hx as [(Hx & _) | ->]; [auto | contradiction].
  - (* the order *)
    intros x y Hx Hy. apply Hcons in Hx. apply Hav2 in Hy.
    assert (Hxn : x <> nodeNb).
    { destruct Hx as [Hx | [-> | ->]]; [apply Hold_lt in Hx|..]; lia. }
    rewrite (Tcount' x) by assumption.
    destruct Hy as [(Hy & Hy1 & Hy2) | ->].
    + assert (y <> nodeNb) by (unfold available in Hy; lia).
      rewrite Tcount' by assumption.
      destruct Hx as [Hx | [-> | ->]].
      * apply Iorder; assumption.
      * apply Hmin1. exact Hy.
      * apply Hmin2. apply Hav1. split; assumption.
    + rewrite Tnew. destruct Hx as [Hx | [-> | ->]].
      * pose proof (Iorder x n1 Hx Hn1). fold c1 in H. lia.
      * fold c1. lia.
      * fold c2. lia.
  - (* internal nodes in increasing order *)
    intros j j' Hj Hjj Hj'. destruct (Z.eq_dec j' nodeNb) as [->|Hn'].
    + rewrite Tnew. destruct (Z.eq_dec j nodeNb) as [->|Hn]; [rewrite Tnew; lia|].
      rewrite Tcount' by assumption. rewrite (Icnt j) by lia.
      destruct (Icons j ltac:(lia)) as [A B].
      pose proof (Iorder _ _ A Hn1). pose proof (Iorder _ _ B Hn2).
      fold c1 in H. fold c2 in H0. lia.
    + rewrite !Tcount' by lia. apply Isorted; lia.
  - (* uncles *)
    intros q Hq. destruct (Z.eq_dec q nodeNb) as [->|Hqn].
    + rewrite !upd_same. split; intros Hint.
      * destruct (Icons n1 ltac:(lia)) as [A B].
        destruct (Ibelow n1 ltac:(lia)) as [A' B'].
        rewrite !upd_other by lia. rewrite !Tcount' by lia.
        split; apply Iorder; assumption.
      * destruct (Icons n2 ltac:(lia)) as [A B].
        destruct (Ibelow n2 ltac:(lia)) as [A' B'].
        rewrite !upd_other by lia. rewrite !Tcount' by lia.
        split; apply Iorder; assumption.
    + destruct (Iuncle q ltac:(lia)) as [U1 U2].
      destruct (Ibelow q ltac:(lia)) as [A B].
      rewrite !(upd_other _ nodeNb q) by lia.
      split; intros Hint.
      * destruct (Ibelow (ch1 q) ltac:(lia)) as [A' B'].
        rewrite !upd_other by lia. rewrite !Tcount' by lia. apply U1. exact Hint.
      * destruct (Ibelow (ch2 q) ltac:(lia)) as [A' B'].
        rewrite !upd_other by lia. rewrite !Tcount' by lia. apply U2. exact Hint.
Qed.

(** The counts of the nodes to come are set to [1 << 30]. *)
Lemma init_future_loop (t : nodeTable) (k : nat) (i : Z) :
  0 <= i -> i + Z.of_nat k <= 511 ->
  exists t', for_up k i init_future t = Ret t'
    /\ (forall x, n_count (t' x) = if (i <=? x) && (x <? i + Z.of_nat k) then 2^30
                                   else n_count (t x))
    /\ (forall x, parent (t' x) = parent (t x) /\ byte (t' x) = byte (t x)
                  /\ n_nbBits (t' x) = n_nbBits (t x)).
Proof.
  intros Hi Hk.
  destruct (for_up_inv
    (fun j t' => (forall x, n_count (t' x) = if (i <=? x) && (x <? j) then 2^30
                                             else n_count (t x))
                 /\ (forall x, parent (t' x) = parent (t x) /\ byte (t' x) = byte (t x)
                               /\ n_nbBits (t' x) = n_nbBits (t x)))
    init_future k i t) as (t' & E & I).
  - split; [|auto]. intros x.
    destruct (Z.leb_spec i x), (Z.ltb_spec x i); try lia; reflexivity.
  - intros j t1 Hj [Ic Io]. unfold init_future. rewrite rd_in by lia. cbn [bind].
    rewrite wr_in by lia. eexists. split; [reflexivity|]. split.
    + intros x. unfold upd. destruct (Z.eqb_spec x j) as [->|Hx].
      * destruct (Z.leb_spec i j), (Z.ltb_spec j (j + 1)); try lia. reflexivity.
      * rewrite Ic.
        destruct (Z.leb_spec i x), (Z.ltb_spec x j), (Z.ltb_spec x (j + 1)); try lia;
          reflexivity.
    + intros x. unfold upd. destruct (Z.eqb_spec x j) as [->|Hx]; [|apply Io].
      cbn. apply Io.
  - exists t'. split; [exact E|]. exact I.
Qed.

(** The state before the loop: the first parent, of the two last leaves. *)
Lemma parents_inv_init (t5 : nodeTable) :
  (forall x, n_count (t5 x) =
             if x =? -1 then 2^31
             else if (257 <=? x) && (x <? 256 + K) then 2^30
             else if x =? 256 then n_count (t0 K) + n_count (t0 (K - 1))
             else n_count (t0 x)) ->
  (forall x, parent (t5 x) = if (x =? K) || (x =? K - 1) then 256 else 0) ->
  (forall x, byte (t5 x) = byte (t0 x)) ->
  (forall x, n_nbBits (t5 x) = 0) ->
  parents_inv t0 K total (fun _ => K) (fun _ => K - 1) t5 (K - 2) 256 257.
Proof.
  intros Tc Tp Tb Tn.
  assert (Tleaf : forall x, 0 <= x <= 255 -> n_count (t5 x) = n_count (t0 x)).
  { intros x Hx. rewrite Tc.
    destruct (Z.eqb_spec x (-1)); [lia|].
    destruct (Z.leb_spec 257 x); [lia|]. cbn [andb].
    destruct (Z.eqb_spec x 256); [lia|]. reflexivity. }
  assert (T256 : n_count (t5 256) = n_count (t0 K) + n_count (t0 (K - 1))).
  { rewrite Tc. reflexivity. }
  assert (TpK : parent (t5 K) = 256).
  { rewrite Tp, Z.eqb_refl. reflexivity. }
  assert (TpK1 : parent (t5 (K - 1)) = 256).
  { rewrite Tp, Z.eqb_refl, orb_true_r. reflexivity. }
  pose proof (Hpos K ltac:(lia)) as HcK. pose proof (Hpos (K - 1) ltac:(lia)) as HcK1.
  assert (Hcons : forall x, consumed K (K - 2) 256 x <-> x = K \/ x = K - 1).
  { intros x. unfold consumed. lia. }
  constructor.
  - lia.
  - lia.
  - lia.
  - lia.
  - exact Tleaf.
  - rewrite Tc. reflexivity.
  - intros j Hj. rewrite Tc. destruct (Z.eqb_spec j (-1)); [lia|].
    destruct (Z.leb_spec 257 j), (Z.ltb_spec j (256 + K)); try lia. reflexivity.
  - exact Tn.
  - exact Tb.
  - intros x Hx. rewrite Tp.
    destruct (Z.eqb_spec x K) as [->|]; [exfalso; apply Hx; apply Hcons; auto|].
    destruct (Z.eqb_spec x (K - 1)) as [->|]; [exfalso; apply Hx; apply Hcons; auto|].
    reflexivity.
  - intros p Hp. lia.
  - intros p Hp. split; apply Hcons; auto.
  - intros p Hp. replace p with 256 by lia. split; assumption.
  - intros p Hp. replace p with 256 by lia. rewrite T256, !Tleaf by lia. reflexivity.
  - intros x Hx. apply Hcons in Hx. destruct Hx as [-> | ->].
    + rewrite TpK. split; [lia | auto].
    + rewrite TpK1. split; [lia | auto].
  - intros p Hp. lia.
  - intros i i' Hi Hii Hi'.
    assert (Hp : forall x, K - 2 < x <= K -> parent (t5 x) = 256).
    { intros x Hx. assert (x = K \/ x = K - 1) as [-> | ->] by lia; assumption. }
    rewrite !Hp by lia. lia.
  - intros j j' Hj Hjj Hj'. lia.
  - unfold avail_sum. replace (Z.to_nat (257 - 256)) with 1%nat by lia.
    cbn [zsum]. rewrite T256.
    rewrite (zsum_ext (fun i => n_count (t5 i)) (fun i => n_count (t0 i)))
      by (intros j Hj; apply Tleaf; lia).
    rewrite <- Htotal.
    replace (Z.to_nat (K + 1)) with (S (S (Z.to_nat (K - 2 + 1)))) by lia.
    rewrite !zsum_snoc. rewrite !Z.add_0_l.
    replace (Z.of_nat (S (Z.to_nat (K - 2 + 1)))) with K by lia.
    replace (Z.of_nat (Z.to_nat (K - 2 + 1))) with (K - 1) by lia. lia.
  - intros x [Hx | Hx].
    + apply Hcons in Hx. rewrite Tleaf by lia. apply Hpos. lia.
    + unfold available in Hx. destruct (Z.eq_dec x 256) as [->|].
      * rewrite T256. lia.
      * rewrite Tleaf by lia. apply Hpos. lia.
  - intros x y Hx Hy. apply Hcons in Hx. unfold available in Hy.
    rewrite (Tleaf x) by lia.
    destruct (Z.eq_dec y 256) as [->|].
    + rewrite T256. destruct Hx as [-> | ->]; lia.
    + rewrite Tleaf by lia. apply Hsorted; lia.
  - intros j j' Hj Hjj Hj'. replace j with 256 by lia. replace j' with 256 by lia. lia.
  - intros q Hq. split; intros H; lia.
Qed.

(** The loop: it ends when the root, the node [255 + K], has been created. *)
Lemma parents_loop (ch1 ch2 : Z -> Z) (t : nodeTable) (lowS lowN nodeNb : Z) :
  parents_inv t0 K total ch1 ch2 t lowS lowN nodeNb ->
  exists ch1' ch2' t' lowS' lowN',
    while_loop (S (Z.to_nat (255 + K - nodeNb + 1))) (parents_cond (255 + K)) parents_body
      (t, lowS, lowN, nodeNb) = Ret (t', lowS', lowN', 256 + K)
    /\ parents_inv t0 K total ch1' ch2' t' lowS' lowN' (256 + K).
Proof.
  intros I.
  destruct (while_loop_inv
    (fun s : nodeTable * Z * Z * Z =>
       let '(t, lowS, lowN, nodeNb) := s in
       exists ch1 ch2, parents_inv t0 K total ch1 ch2 t lowS lowN nodeNb)
    (fun s : nodeTable * Z * Z * Z => let '(_, _, _, nodeNb) := s in 256 + K - nodeNb)
    (parents_cond (255 + K)) parents_body) with (fuel := S (Z.to_nat (255 + K - nodeNb + 1)))
    (s := (t, lowS, lowN, nodeNb)) as (s' & E & I' & C).
  - intros [[[t1 lowS1] lowN1] nodeNb1] (c1 & c2 & I1).
    pose proof (pi_nodeNb _ _ _ _ _ _ _ _ _ I1). lia.
  - intros [[[t1 lowS1] lowN1] nodeNb1] (c1 & c2 & I1).
    exists (nodeNb1 <=? 255 + K). split; [reflexivity|]. intros Hc.
    apply Z.leb_le in Hc.
    destruct (parents_step c1 c2 t1 lowS1 lowN1 nodeNb1 I1 Hc)
      as (c1' & c2' & t' & lowS' & lowN' & E & I').
    exists (t', lowS', lowN', nodeNb1 + 1). split; [exact E|]. split; [eauto | cbv beta iota; lia].
  - eauto.
  - pose proof (pi_nodeNb _ _ _ _ _ _ _ _ _ I). cbv beta iota. lia.
  - destruct s' as [[[t' lowS'] lowN'] nodeNb']. destruct I' as (c1 & c2 & I').
    unfold parents_cond in C.
    assert (C' : (nodeNb' <=? 255 + K) = false) by congruence. apply Z.leb_gt in C'.
    pose proof (pi_nodeNb _ _ _ _ _ _ _ _ _ I').
    assert (nodeNb' = 256 + K) by lia. subst nodeNb'.
    exists c1, c2, t', lowS', lowN'. split; [exact E | exact I'].
Qed.

End TreeProof.

(** * The depths of the tree *)

Lemma depth_inv_ext (t6 : nodeTable) (done done' : Z -> Prop) (t : nodeTable) :
  (forall x, done x <-> done' x) -> depth_inv t6 done t -> depth_inv t6 done' t.
Proof.
  intros H [A B C]. constructor.
  - exact A.
  - intros x Hx. apply B. now apply H.
  - intros x Hx. apply C. intros Hd. apply Hx. now apply H.
Qed.

(** One node gets its depth. *)
Lemma depth_step (t6 : nodeTable) (done : Z -> Prop) (t : nodeTable) (n : Z) :
  depth_inv t6 done t ->
  -1 <= n <= 510 -> -1 <= parent (t6 n) <= 510 -> parent (t6 n) <> n ->
  (forall x, done x -> parent (t6 x) <> n) ->
  exists t', depth_body n t = Ret t' /\ depth_inv t6 (fun x => done x \/ x = n) t'.
Proof.
  intros [A B C] Hn Hp Hpn Hd. unfold depth_body.
  rewrite rd_in by lia. cbn [bind].
  destruct (A n) as (_ & Ap & _). rewrite Ap.
  rewrite rd_in by lia. cbn [bind]. rewrite wr_in by lia.
  eexists. split; [reflexivity|]. constructor.
  - intros x. unfold upd. destruct (Z.eqb_spec x n) as [->|]; [|apply A].
    cbn. apply A.
  - intros x Hx. unfold upd at 1. destruct (Z.eqb_spec x n) as [->|Hxn].
    + cbn [n_nbBits set_nbBits]. rewrite upd_other by assumption. reflexivity.
    + destruct Hx as [Hx|Hx]; [|contradiction].
      rewrite upd_other by (apply Hd; exact Hx). apply B. exact Hx.
  - intros x Hx. unfold upd. destruct (Z.eqb_spec x n) as [->|Hxn].
    + exfalso. apply Hx. now right.
    + apply C. intros Hd'. apply Hx. now left.
Qed.

Lemma fib_SS (n : nat) : fib (S (S n)) = fib (S n) + fib n.
Proof. reflexivity. Qed.

Lemma fib_nonneg (n : nat) : 0 <= fib n /\ 0 <= fib (S n).
Proof.
  induction n as [|n [IH1 IH2]]; [cbn; lia|].
  split; [exact IH2|]. rewrite fib_SS. lia.
Qed.

Lemma fib_large (n : nat) : 196418 <= fib (27 + n) /\ 196418 <= fib (28 + n).
Proof.
  induction n as [|n [IH1 IH2]].
  - split; vm_compute; discriminate.
  - replace (27 + S n)%nat with (28 + n)%nat by lia.
    replace (28 + S n)%nat with (S (S (27 + n))) by lia.
    split; [exact IH2|]. rewrite fib_SS.
    replace (S (27 + n)) with (28 + n)%nat by lia. lia.
Qed.

(** A count of at most [HUF_BLOCKSIZE_MAX] is below the 27th Fibonacci number. *)
Lemma fib_bound (n : nat) : fib n <= HUF_BLOCKSIZE_MAX -> (n <= 26)%nat.
Proof.
  intros H. destruct (le_lt_dec n 26) as [|Hn]; [assumption|].
  destruct (fib_large (n - 27)) as [H1 _].
  replace (27 + (n - 27))%nat with n in H1 by lia.
  unfold HUF_BLOCKSIZE_MAX in H. lia.
Qed.

Section DepthProof.

Variable t0 : nodeTable.
Variable K : Z.
Variable total : Z.
Variables ch1 ch2 : Z -> Z.
Variable t6 : nodeTable.
Variables lowS lowN : Z.

Hypothesis HK : 1 <= K <= 255.
Hypothesis Hblock : total <= HUF_BLOCKSIZE_MAX.
Hypothesis Hinv : parents_inv t0 K total ch1 ch2 t6 lowS lowN (256 + K).

Lemma final_low : lowS = -1 /\ lowN = 255 + K.
Proof.
  pose proof (pi_lowS _ _ _ _ _ _ _ _ _ Hinv). pose proof (pi_lowN _ _ _ _ _ _ _ _ _ Hinv).
  pose proof (pi_balance _ _ _ _ _ _ _ _ _ Hinv). lia.
Qed.

Lemma below_root_consumed (x : Z) : below_root K x <-> consumed K lowS lowN x.
Proof. destruct final_low as [-> ->]. unfold below_root, consumed. lia. Qed.

Lemma node_parent (x : Z) :
  below_root K x ->
  256 <= parent (t6 x) <= 255 + K /\ x < parent (t6 x)
  /\ (x = ch1 (parent (t6 x)) \/ x = ch2 (parent (t6 x))).
Proof.
  intros Hx. apply below_root_consumed in Hx.
  destruct (pi_ch_only _ _ _ _ _ _ _ _ _ Hinv x Hx) as (Hp & Hc).
  destruct (pi_ch_below _ _ _ _ _ _ _ _ _ Hinv _ Hp) as (H1 & H2).
  split; [lia|]. split; [|exact Hc]. destruct Hc as [Hc|Hc]; rewrite Hc at 1; assumption.
Qed.

Lemma root_parent : parent (t6 (255 + K)) = 0.
Proof.
  apply (pi_parent_todo _ _ _ _ _ _ _ _ _ Hinv). rewrite <- below_root_consumed.
  unfold below_root. lia.
Qed.

Lemma root_count : n_count (t6 (255 + K)) = total.
Proof.
  pose proof (pi_avail _ _ _ _ _ _ _ _ _ Hinv) as H. destruct final_low as [El En].
  rewrite El, En in H. unfold avail_sum in H.
  replace (Z.to_nat (-1 + 1)) with 0%nat in H by lia.
  replace (Z.to_nat (256 + K - (255 + K))) with 1%nat in H by lia.
  cbn [zsum] in H. lia.
Qed.

Lemma children (p : Z) :
  256 <= p <= 255 + K ->
  below_root K (ch1 p) /\ below_root K (ch2 p) /\ ch1 p <> ch2 p
  /\ parent (t6 (ch1 p)) = p /\ parent (t6 (ch2 p)) = p
  /\ n_count (t6 p) = n_count (t6 (ch1 p)) + n_count (t6 (ch2 p)).
Proof.
  intros Hp. assert (Hp' : 256 <= p < 256 + K) by lia.
  destruct (pi_ch_consumed _ _ _ _ _ _ _ _ _ Hinv p Hp') as [A B].
  destruct (pi_ch_parent _ _ _ _ _ _ _ _ _ Hinv p Hp') as [C D].
  pose proof (pi_ch_distinct _ _ _ _ _ _ _ _ _ Hinv p Hp').
  pose proof (pi_ch_count _ _ _ _ _ _ _ _ _ Hinv p Hp').
  rewrite <- !below_root_consumed in *. tauto.
Qed.

Lemma node_positive (x : Z) : below_root K x \/ x = 255 + K -> 1 <= n_count (t6 x).
Proof.
  intros Hx. apply (pi_positive _ _ _ _ _ _ _ _ _ Hinv).
  destruct Hx as [Hx | ->].
  - left. now apply below_root_consumed.
  - right. destruct final_low as [-> ->]. unfold available. lia.
Qed.

(** The depths of the internal nodes, from the root downwards. *)
Lemma depth_internal (t7 : nodeTable) :
  depth_inv t6 (fun _ => False) t7 ->
  exists t8, for_down (Z.to_nat (K - 1)) (254 + K) depth_body t7 = Ret t8
             /\ depth_inv t6 (fun x => 256 <= x < 255 + K) t8.
Proof.
  intros I7.
  destruct (for_down_inv (fun j t => depth_inv t6 (fun x => j < x < 255 + K) t) depth_body
              (Z.to_nat (K - 1)) (254 + K) t7) as (t8 & E & I8).
  - apply (depth_inv_ext t6 (fun _ => False)); [intros x; lia | exact I7].
  - intros j t Hj I. assert (Hb : below_root K j) by (unfold below_root; lia).
    destruct (node_parent j Hb) as (Hp & Hlt & _).
    destruct (depth_step t6 _ t j I) as (t' & E & I'); try lia.
    + intros x Hx. assert (Hbx : below_root K x) by (unfold below_root; lia).
      destruct (node_parent x Hbx) as (_ & Hltx & _). lia.
    + exists t'. split; [exact E|].
      apply (depth_inv_ext t6 (fun x => j < x < 255 + K \/ x = j)); [intros x; lia | exact I'].
  - exists t8. split; [exact E|].
    apply (depth_inv_ext t6 (fun x => 254 + K - Z.of_nat (Z.to_nat (K - 1)) < x < 255 + K));
      [intros x; lia | exact I8].
Qed.

(** The depths of the leaves. *)
Lemma depth_leaves (t8 : nodeTable) :
  depth_inv t6 (fun x => 256 <= x < 255 + K) t8 ->
  exists t9, for_up (Z.to_nat (K + 1)) 0 depth_body t8 = Ret t9
             /\ depth_inv t6 (below_root K) t9.
Proof.
  intros I8.
  destruct (for_up_inv (fun j t => depth_inv t6 (fun x => 256 <= x < 255 + K \/ 0 <= x < j) t)
              depth_body (Z.to_nat (K + 1)) 0 t8) as (t9 & E & I9).
  - apply (depth_inv_ext t6 (fun x => 256 <= x < 255 + K)); [intros x; lia | exact I8].
  - intros j t Hj I. assert (Hb : below_root K j) by (unfold below_root; lia).
    destruct (node_parent j Hb) as (Hp & Hlt & _).
    destruct (depth_step t6 _ t j I) as (t' & E & I'); try lia.
    + intros x Hx. assert (Hbx : below_root K x) by (unfold below_root; lia).
      destruct (node_parent x Hbx) as (Hpx & Hltx & _). lia.
    + exists t'. split; [exact E|].
      apply (depth_inv_ext t6 (fun x => (256 <= x < 255 + K \/ 0 <= x < j) \/ x = j));
        [intros x; lia | exact I'].
  - exists t9. split; [exact E|].
    apply (depth_inv_ext t6 (fun x => 256 <= x < 255 + K \/ 0 <= x < 0 + Z.of_nat (Z.to_nat (K + 1))));
      [intros x; unfold below_root; lia | exact I9].
Qed.

(** The table after the depths are assigned. *)
Variable t9 : nodeTable.
Hypothesis Hdepth : depth_inv t6 (below_root K) t9.

Lemma depth_root : n_nbBits (t9 (255 + K)) = 0.
Proof. apply (di_todo _ _ _ Hdepth). unfold below_root. lia. Qed.

Lemma fib_step (F1 F2 a b u T : Z) :
  0 <= F1 -> a <= u -> b <= u -> F2 * (a + b) + F1 * u <= T ->
  (F2 + F1) * a + F2 * b <= T /\ (F2 + F1) * b + F2 * a <= T.
Proof.
  intros HF Ha Hb HT.
  pose proof (Z.mul_le_mono_nonneg_l a u F1 HF Ha).
  pose proof (Z.mul_le_mono_nonneg_l b u F1 HF Hb). lia.
Qed.

(** The count of the root is at least a Fibonacci number times the count of
    a node, so the internal nodes are at depth 23 at most. *)
Lemma depth_fib (n : nat) :
  forall p, 255 + K - p <= Z.of_nat n -> 256 <= p <= 255 + K ->
    0 <= n_nbBits (t9 p) <= 23
    /\ fib (Z.to_nat (n_nbBits (t9 p)) + 2) * n_count (t6 (ch1 p))
       + fib (Z.to_nat (n_nbBits (t9 p)) + 1) * n_count (t6 (ch2 p)) <= total
    /\ fib (Z.to_nat (n_nbBits (t9 p)) + 2) * n_count (t6 (ch2 p))
       + fib (Z.to_nat (n_nbBits (t9 p)) + 1) * n_count (t6 (ch1 p)) <= total.
Proof.
  assert (Hbound : forall (N : nat) (a b : Z), 1 <= a -> 1 <= b ->
            fib (N + 2) * a + fib (N + 1) * b <= total -> Z.of_nat N <= 23).
  { intros N a b Ha Hb H.
    destruct (fib_nonneg (N + 1)) as [F1 F2].
    replace (S (N + 1)) with (N + 2)%nat in F2 by lia.
    assert (fib (N + 3) <= total).
    { replace (N + 3)%nat with (S (S (N + 1))) by lia. rewrite fib_SS.
      replace (S (N + 1)) with (N + 2)%nat by lia. nia. }
    assert (N + 3 <= 26)%nat by (apply fib_bound; lia). lia. }
  induction n as [|n IH]; intros p Hn Hp.
  - assert (p = 255 + K) by lia. subst p. rewrite depth_root.
    destruct (children (255 + K) ltac:(lia)) as (_ & _ & _ & _ & _ & Hc).
    rewrite root_count in Hc.
    change (fib (Z.to_nat 0 + 2)) with 1. change (fib (Z.to_nat 0 + 1)) with 1. lia.
  - destruct (Z.eq_dec p (255 + K)) as [->|Hne]; [apply IH; lia|].
    assert (Hb : below_root K p) by (unfold below_root; lia).
    destruct (node_parent p Hb) as (Hq & Hlt & Hch).
    set (q := parent (t6 p)) in *.
    destruct (IH q ltac:(lia) ltac:(lia)) as (Hnq & Q1 & Q2).
    assert (Enb : n_nbBits (t9 p) = n_nbBits (t9 q) + 1).
    { rewrite (di_done _ _ _ Hdepth p Hb). fold q. apply BYTE_small. lia. }
    destruct (children p ltac:(lia)) as (B1 & B2 & _ & _ & _ & Hc).
    destruct (children q ltac:(lia)) as (_ & _ & _ & _ & _ & Hcq).
    pose proof (node_positive _ (or_introl B1)) as P1.
    pose proof (node_positive _ (or_introl B2)) as P2.
    destruct (pi_uncle _ _ _ _ _ _ _ _ _ Hinv q ltac:(lia)) as [U1 U2].
    rewrite Enb.
    replace (Z.to_nat (n_nbBits (t9 q) + 1) + 2)%nat
      with (S (S (Z.to_nat (n_nbBits (t9 q)) + 1))) by lia.
    replace (Z.to_nat (n_nbBits (t9 q) + 1) + 1)%nat
      with (S (Z.to_nat (n_nbBits (t9 q)) + 1)) by lia.
    rewrite fib_SS.
    replace (S (Z.to_nat (n_nbBits (t9 q)) + 1)) with (Z.to_nat (n_nbBits (t9 q)) + 2)%nat
      by lia.
    destruct (fib_nonneg (Z.to_nat (n_nbBits (t9 q)) + 1)) as [F1 _].
    assert (Hfib : (fib (Z.to_nat (n_nbBits (t9 q)) + 2) + fib (Z.to_nat (n_nbBits (t9 q)) + 1))
                     * n_count (t6 (ch1 p))
                   + fib (Z.to_nat (n_nbBits (t9 q)) + 2) * n_count (t6 (ch2 p)) <= total
                   /\ (fib (Z.to_nat (n_nbBits (t9 q)) + 2)
                       + fib (Z.to_nat (n_nbBits (t9 q)) + 1)) * n_count (t6 (ch2 p))
                   + fib (Z.to_nat (n_nbBits (t9 q)) + 2) * n_count (t6 (ch1 p)) <= total).
    { destruct Hch as [Hch|Hch].
      - rewrite <- Hch in U1. destruct (U1 ltac:(lia)) as [Ua Ub].
        apply (fib_step _ _ _ _ (n_count (t6 (ch2 q)))); try assumption.
        rewrite <- Hc. rewrite Hch at 1. exact Q1.
      - rewrite <- Hch in U2. destruct (U2 ltac:(lia)) as [Ua Ub].
        apply (fib_step _ _ _ _ (n_count (t6 (ch1 q)))); try assumption.
        rewrite <- Hc. rewrite Hch at 1. exact Q2. }
    destruct Hfib as [G1 G2]. split; [|split; assumption].
    assert (Z.of_nat (Z.to_nat (n_nbBits (t9 q)) + 1) <= 23); [|lia].
    apply (Hbound _ (n_count (t6 (ch1 p))) (n_count (t6 (ch2 p)))); try assumption.
    replace (Z.to_nat (n_nbBits (t9 q)) + 1 + 2)%nat
      with (S (S (Z.to_nat (n_nbBits (t9 q)) + 1))) by lia.
    replace (Z.to_nat (n_nbBits (t9 q)) + 1 + 1)%nat
      with (S (Z.to_nat (n_nbBits (t9 q)) + 1)) by lia.
    rewrite fib_SS.
    replace (S (Z.to_nat (n_nbBits (t9 q)) + 1)) with (Z.to_nat (n_nbBits (t9 q)) + 2)%nat
      by lia.
    exact G1.
Qed.

(** Every node but the root is one level below its parent, at depth 24 at most. *)
Lemma depth_exact (x : Z) :
  below_root K x ->
  n_nbBits (t9 x) = n_nbBits (t9 (parent (t6 x))) + 1 /\ 1 <= n_nbBits (t9 x) <= 24.
Proof.
  intros Hb. destruct (node_parent x Hb) as (Hq & _ & _).
  destruct (depth_fib (Z.to_nat (255 + K - parent (t6 x))) (parent (t6 x)) ltac:(lia) Hq)
    as (Hn & _).
  rewrite (di_done _ _ _ Hdepth x Hb). rewrite BYTE_small by lia. lia.
Qed.

(** The internal nodes that were created later are higher in the tree. *)
Lemma depth_int_mono (n : nat) :
  forall p p', 255 + K - p <= Z.of_nat n -> 256 <= p -> p <= p' -> p' <= 255 + K ->
               n_nbBits (t9 p') <= n_nbBits (t9 p).
Proof.
  induction n as [|n IH]; intros p p' Hn Hp Hpp Hp'.
  - assert (p = 255 + K) by lia. assert (p' = 255 + K) by lia. subst. lia.
  - destruct (Z.eq_dec p' (255 + K)) as [->|Hne].
    + rewrite depth_root.
      destruct (depth_fib (Z.to_nat (255 + K - p)) p ltac:(lia) ltac:(lia)) as (H & _). lia.
    + assert (Hb : below_root K p) by (unfold below_root; lia).
      assert (Hb' : below_root K p') by (unfold below_root; lia).
      destruct (depth_exact p Hb) as [E _]. destruct (depth_exact p' Hb') as [E' _].
      destruct (node_parent p Hb) as (Hq & Hlt & _).
      destruct (node_parent p' Hb') as (Hq' & Hlt' & _).
      assert (Hmono : parent (t6 p) <= parent (t6 p')).
      { apply (pi_int_mono _ _ _ _ _ _ _ _ _ Hinv); try lia.
        destruct final_low as [_ ->]. lia. }
      specialize (IH (parent (t6 p)) (parent (t6 p')) ltac:(lia) ltac:(lia) Hmono ltac:(lia)).
      lia.
Qed.

(** The leaves are deeper as their count decreases. *)
Lemma depth_leaf_mono (i i' : Z) :
  0 <= i -> i <= i' -> i' <= K -> n_nbBits (t9 i) <= n_nbBits (t9 i').
Proof.
  intros Hi Hii Hi'.
  assert (Hb : below_root K i) by (unfold below_root; lia).
  assert (Hb' : below_root K i') by (unfold below_root; lia).
  destruct (depth_exact i Hb) as [E _]. destruct (depth_exact i' Hb') as [E' _].
  destruct (node_parent i Hb) as (Hq & _). destruct (node_parent i' Hb') as (Hq' & _).
  assert (Hmono : parent (t6 i') <= parent (t6 i)).
  { apply (pi_leaf_mono _ _ _ _ _ _ _ _ _ Hinv); try lia.
    destruct final_low as [-> _]. lia. }
  pose proof (depth_int_mono (Z.to_nat (255 + K - parent (t6 i'))) (parent (t6 i'))
                (parent (t6 i)) ltac:(lia) ltac:(lia) Hmono ltac:(lia)).
  lia.
Qed.

(** *** Kraft equality of the tree *)

Lemma frontier_spec (m x : Z) :
  frontier t6 K m x = true <->
  (0 <= x <= K \/ 256 <= x <= 255 + K) /\ x < m /\ (m <= parent (t6 x) \/ x = 255 + K).
Proof.
  unfold frontier, in_tree.
  rewrite !andb_true_iff, !orb_true_iff, !andb_true_iff, !Z.leb_le, Z.ltb_lt, Z.eqb_eq.
  tauto.
Qed.

Lemma frontier_false (m x : Z) :
  ~ ((0 <= x <= K \/ 256 <= x <= 255 + K) /\ x < m /\ (m <= parent (t6 x) \/ x = 255 + K)) ->
  frontier t6 K m x = false.
Proof.
  intros H. destruct (frontier t6 K m x) eqn:E; [|reflexivity].
  apply frontier_spec in E. contradiction.
Qed.

(** Cutting the tree one node lower replaces the node by its two children. *)
Lemma frontier_step (m : Z) :
  256 <= m <= 255 + K -> frontier_sum t6 t9 K m = frontier_sum t6 t9 K (m + 1).
Proof.
  intros Hm. unfold frontier_sum.
  destruct (children m Hm) as (B1 & B2 & Hd & P1 & P2 & _).
  destruct (node_parent _ B1) as (_ & L1 & _). destruct (node_parent _ B2) as (_ & L2 & _).
  rewrite P1 in L1. rewrite P2 in L2.
  destruct (depth_exact _ B1) as [E1 R1]. destruct (depth_exact _ B2) as [E2 R2].
  rewrite P1 in E1. rewrite P2 in E2.
  set (w := fun x => 2^(24 - n_nbBits (t9 x))).
  assert (Hw : w (ch1 m) + w (ch2 m) = w m).
  { unfold w. rewrite E1, E2.
    replace (24 - n_nbBits (t9 m)) with (Z.succ (24 - (n_nbBits (t9 m) + 1))) by lia.
    rewrite Z.pow_succ_r by lia. lia. }
  assert (Hpt : forall x, 0 <= x < 0 + Z.of_nat 512 ->
            (if frontier t6 K m x then w x else 0) + (if x =? m then w m else 0)
            = (if frontier t6 K (m + 1) x then w x else 0)
              + ((if x =? ch1 m then w (ch1 m) else 0) + (if x =? ch2 m then w (ch2 m) else 0))).
  { intros x Hx. destruct (Z.eq_dec x m) as [->|Hxm].
    - rewrite Z.eqb_refl.
      rewrite (frontier_false m m) by lia.
      assert (F : frontier t6 K (m + 1) m = true).
      { apply frontier_spec. split; [lia|]. split; [lia|].
        destruct (Z.eq_dec m (255 + K)); [now right | left].
        assert (Hb : below_root K m) by (unfold below_root; lia).
        destruct (node_parent m Hb) as (_ & H & _). lia. }
      rewrite F.
      destruct (Z.eqb_spec m (ch1 m)); [lia|]. destruct (Z.eqb_spec m (ch2 m)); [lia|]. lia.
    - destruct (Z.eqb_spec x m); [contradiction|].
      destruct (Z.eq_dec x (ch1 m)) as [->|Hx1].
      + rewrite Z.eqb_refl. destruct (Z.eqb_spec (ch1 m) (ch2 m)); [contradiction|].
        assert (F : frontier t6 K m (ch1 m) = true).
        { apply frontier_spec. rewrite P1. unfold below_root in B1. lia. }
        rewrite F. rewrite (frontier_false (m + 1) (ch1 m)) by (rewrite P1; lia). lia.
      + destruct (Z.eqb_spec x (ch1 m)); [contradiction|].
        destruct (Z.eq_dec x (ch2 m)) as [->|Hx2].
        * rewrite Z.eqb_refl.
          assert (F : frontier t6 K m (ch2 m) = true).
          { apply frontier_spec. rewrite P2. unfold below_root in B2. lia. }
          rewrite F. rewrite (frontier_false (m + 1) (ch2 m)) by (rewrite P2; lia). lia.
        * destruct (Z.eqb_spec x (ch2 m)); [contradiction|].
          destruct (frontier t6 K m x) eqn:F.
          -- apply frontier_spec in F.
             assert (F' : frontier t6 K (m + 1) x = true).
             { apply frontier_spec. assert (Hb : below_root K x) by (unfold below_root; lia).
               destruct (node_parent x Hb) as (_ & _ & Hc).
               assert (parent (t6 x) <> m) by (intros Hp; rewrite Hp in Hc; lia). lia. }
             rewrite F'. lia.
          -- rewrite frontier_false; [lia|]. intros F'.
             assert (F'' : frontier t6 K m x = true); [|congruence].
             apply frontier_spec. lia. }
  pose proof (zsum_ext _ _ 512 0 Hpt) as Hsum.
  rewrite !zsum_plus in Hsum.
  rewrite !zsum_delta in Hsum by (unfold below_root in B1, B2; lia).
  change (zsum (fun x => if frontier t6 K m x then w x else 0) 512 0
          = zsum (fun x => if frontier t6 K (m + 1) x then w x else 0) 512 0).
  lia.
Qed.

Lemma frontier_top : frontier_sum t6 t9 K (256 + K) = 2^24.
Proof.
  unfold frontier_sum.
  rewrite (zsum_ext _ (fun x => if x =? 255 + K then 2^24 else 0)).
  - apply zsum_delta. lia.
  - intros x Hx. destruct (Z.eqb_spec x (255 + K)) as [->|Hne].
    + assert (F : frontier t6 K (256 + K) (255 + K) = true) by (apply frontier_spec; lia).
      rewrite F, depth_root. reflexivity.
    + rewrite frontier_false; [reflexivity|]. intros (Hn & _ & [Hp | Hr]); [|contradiction].
      assert (Hb : below_root K x) by (unfold below_root; lia).
      destruct (node_parent x Hb) as (Hq & _). lia.
Qed.

Lemma frontier_const (n : nat) :
  Z.of_nat n <= K -> frontier_sum t6 t9 K (256 + K - Z.of_nat n) = 2^24.
Proof.
  induction n as [|n IH]; intros Hn.
  - replace (256 + K - Z.of_nat 0) with (256 + K) by lia. apply frontier_top.
  - rewrite frontier_step by lia.
    replace (256 + K - Z.of_nat (S n) + 1) with (256 + K - Z.of_nat n) by lia.
    apply IH. lia.
Qed.

Lemma frontier_bottom :
  frontier_sum t6 t9 K 256 = zsum (fun i => 2^(24 - n_nbBits (t9 i))) (Z.to_nat (K + 1)) 0.
Proof.
  unfold frontier_sum.
  replace 512%nat with (Z.to_nat (K + 1) + Z.to_nat (511 - K))%nat by lia.
  rewrite zsum_app.
  rewrite (zsum_zero _ (Z.to_nat (511 - K))).
  - rewrite Z.add_0_r. apply zsum_ext. intros x Hx.
    assert (Hb : below_root K x) by (unfold below_root; lia).
    destruct (node_parent x Hb) as (Hq & _).
    assert (F : frontier t6 K 256 x = true) by (apply frontier_spec; lia).
    rewrite F. reflexivity.
  - intros x Hx. rewrite frontier_false; [reflexivity | lia].
Qed.

(** The leaves satisfy Kraft equality. *)
Lemma tree_kraft : zsum (fun i => 2^(24 - n_nbBits (t9 i))) (Z.to_nat (K + 1)) 0 = 2^24.
Proof.
  rewrite <- frontier_bottom. pose proof (frontier_const (Z.to_nat K) ltac:(lia)) as H.
  replace (256 + K - Z.of_nat (Z.to_nat K)) with 256 in H by lia. exact H.
Qed.

End DepthProof.

(** * HUF_buildTree *)

(** A property that holds on a prefix of a range holds as many times as the
    prefix is long. *)
Lemma prefix_count (P : Z -> bool) :
  forall n : nat,
    (forall i j, 0 <= j -> j <= i -> i < Z.of_nat n -> P i = true -> P j = true) ->
    forall i, 0 <= i < Z.of_nat n ->
      (P i = true <-> i < zsum (fun x => indicator (P x)) n 0).
Proof.
  induction n as [|n IH]; intros Hdown i Hi; [lia|].
  rewrite zsum_snoc, Z.add_0_l.
  pose proof (indicator_sum_bounds P n 0) as Hb.
  assert (IH' : forall i, 0 <= i < Z.of_nat n ->
                  (P i = true <-> i < zsum (fun x => indicator (P x)) n 0)).
  { apply IH. intros i0 j Hj Hji Hi0. apply Hdown; lia. }
  destruct (P (Z.of_nat n)) eqn:E; cbn [indicator].
  - assert (Hall : forall j, 0 <= j <= Z.of_nat n -> P j = true).
    { intros j Hj. apply (Hdown (Z.of_nat n)); try lia. exact E. }
    assert (zsum (fun x => indicator (P x)) n 0 = Z.of_nat n).
    { destruct n as [|n]; [reflexivity|].
      pose proof (proj1 (IH' (Z.of_nat n) ltac:(lia)) (Hall (Z.of_nat n) ltac:(lia))). lia. }
    split; [lia|]. intros _. apply Hall. lia.
  - destruct (Z.eq_dec i (Z.of_nat n)) as [->|Hne].
    + rewrite E. split; [discriminate | lia].
    + rewrite IH' by lia. lia.
Qed.

Section BuildTreeProof.

Variable count : list Z.
Variable M : Z.
Hypothesis Hvalid : valid_count count M.
Hypothesis Hpresent : 2 <= nb_present count M.

Lemma count_range (s : Z) : 0 <= s <= M -> 0 <= count_at count s <= HUF_BLOCKSIZE_MAX.
Proof.
  intros Hs. destruct Hvalid as [HM Hlen Hnn Htot]. split; [apply Hnn; exact Hs|].
  etransitivity; [|exact Htot].
  apply (zsum_term_le (count_at count)); [|lia].
  intros j Hj. apply Hnn. lia.
Qed.

Variable t0 : nodeTable.
Hypothesis Hsort : sorted_table count M t0.

Lemma sorted_count (i : Z) : 0 <= i <= M -> n_count (t0 i) = count_at count (byte (t0 i)).
Proof. intros Hi. destruct (st_cells _ _ _ Hsort i Hi) as [E _]. rewrite E at 1. reflexivity. Qed.

Lemma sorted_reindex (g : Z -> Z) :
  zsum g (Z.to_nat (M + 1)) 0 = zsum (fun i => g (byte (t0 i))) (Z.to_nat (M + 1)) 0.
Proof.
  destruct Hvalid as [HM _ _ _]. unfold HUF_SYMBOLVALUE_MAX in HM.
  apply (reindex_sum (fun i => byte (t0 i))).
  - intros i Hi. destruct (st_cells _ _ _ Hsort i ltac:(lia)) as [_ H]. lia.
  - intros i j Hi Hj. apply (st_distinct _ _ _ Hsort); lia.
Qed.

Lemma sorted_present :
  zsum (fun i => indicator (negb (n_count (t0 i) =? 0))) (Z.to_nat (M + 1)) 0
  = nb_present count M.
Proof.
  unfold nb_present.
  rewrite (sorted_reindex (fun s => indicator (negb (count_at count s =? 0)))).
  apply zsum_ext. intros i Hi.
  destruct Hvalid as [HM _ _ _]. rewrite sorted_count by lia. reflexivity.
Qed.

Lemma sorted_nonneg (i : Z) : 0 <= i <= M -> 0 <= n_count (t0 i) <= HUF_BLOCKSIZE_MAX.
Proof.
  intros Hi. rewrite sorted_count by exact Hi. apply count_range.
  apply (st_cells _ _ _ Hsort i Hi).
Qed.

Lemma sorted_prefix (i : Z) :
  0 <= i <= M -> (1 <= n_count (t0 i) <-> i < nb_present count M).
Proof.
  intros Hi. destruct Hvalid as [HM _ _ _].
  rewrite <- sorted_present.
  rewrite <- (prefix_count (fun i => negb (n_count (t0 i) =? 0)) (Z.to_nat (M + 1))); try lia.
  - pose proof (sorted_nonneg i Hi). rewrite negb_true_iff, Z.eqb_neq. lia.
  - intros i0 j Hj Hji Hi0. rewrite !negb_true_iff, !Z.eqb_neq.
    pose proof (st_sorted _ _ _ Hsort j i0 ltac:(lia) ltac:(lia)).
    pose proof (sorted_nonneg i0 ltac:(lia)). lia.
Qed.

Lemma present_range : nb_present count M <= M + 1.
Proof.
  destruct Hvalid as [HM _ _ _]. unfold nb_present.
  pose proof (indicator_sum_bounds (fun s => negb (count_at count s =? 0)) (Z.to_nat (M + 1)) 0).
  lia.
Qed.

Lemma sorted_total :
  zsum (fun i => n_count (t0 i)) (Z.to_nat (nb_present count M - 1 + 1)) 0
  = zsum (count_at count) (Z.to_nat (M + 1)) 0.
Proof.
  destruct Hvalid as [HM _ _ _]. pose proof present_range as Hp.
  rewrite (sorted_reindex (count_at count)).
  replace (Z.to_nat (M + 1))
    with (Z.to_nat (nb_present count M - 1 + 1) + Z.to_nat (M + 1 - nb_present count M))%nat
    by lia.
  rewrite zsum_app. rewrite (zsum_zero _ (Z.to_nat (M + 1 - nb_present count M))).
  - rewrite Z.add_0_r. apply zsum_ext. intros i Hi. apply sorted_count. lia.
  - intros i Hi. rewrite <- sorted_count by lia.
    pose proof (sorted_prefix i ltac:(lia)). pose proof (sorted_nonneg i ltac:(lia)). lia.
Qed.

(** The rank of the last symbol that occurs. *)
Lemma nonNull_loop :
  while_loop (S (S (Z.to_nat M))) (nonNull_cond t0) skip_body M
  = Ret (nb_present count M - 1).
Proof.
  destruct Hvalid as [HM _ _ _]. unfold HUF_SYMBOLVALUE_MAX in HM.
  pose proof present_range as Hp.
  destruct (while_loop_inv (fun n => nb_present count M - 1 <= n <= M) (fun n => n)
              (nonNull_cond t0) skip_body) with (fuel := S (S (Z.to_nat M))) (s := M)
    as (n & E & I & C); try lia.
  - intros n Hn. unfold nonNull_cond. rewrite rd_in by lia. rewrite bind_ret.
    eexists. split; [reflexivity|]. intros Hc. apply Z.eqb_eq in Hc.
    pose proof (sorted_prefix n ltac:(lia)).
    unfold skip_body. rewrite U32_small by lia. eexists. split; [reflexivity|]. lia.
  - rewrite E. f_equal. unfold nonNull_cond in C. rewrite rd_in in C by lia.
    rewrite bind_ret in C.
    assert (C' : (n_count (t0 n) =? 0) = false) by congruence. apply Z.eqb_neq in C'.
    pose proof (sorted_prefix n ltac:(lia)). pose proof (sorted_nonneg n ltac:(lia)). lia.
Qed.

End BuildTreeProof.

Section BuildTreeSpec.

Variable count : list Z.
Variable M : Z.
Hypothesis Hvalid : valid_count count M.
Hypothesis Hpresent : 2 <= nb_present count M.

Theorem HUF_buildTree_spec :
  exists t, HUF_buildTree count M = Ret (t, nb_present count M - 1)
            /\ built_tree count M (nb_present count M - 1) t.
Proof.
  pose proof Hvalid as [HM Hlen Hnn Htot]. unfold HUF_SYMBOLVALUE_MAX in HM.
  assert (Hcount : forall s, 0 <= s <= M -> 0 <= count_at count s < 2^30).
  { intros s Hs. pose proof (count_range count M Hvalid s Hs) as H.
    unfold HUF_BLOCKSIZE_MAX in H. change (2^30) with 1073741824. lia. }
  destruct (HUF_sort_spec count M HM Hlen Hcount) as (t0 & Esort & Hsort).
  pose proof (present_range count M Hvalid) as Hp.
  pose proof (nonNull_loop count M Hvalid Hpresent t0 Hsort) as Enn.
  pose proof (sorted_total count M Hvalid Hpresent t0 Hsort) as Htotal.
  pose proof (sorted_prefix count M Hvalid t0 Hsort) as Hprefix.
  set (K := nb_present count M - 1) in *.
  set (total := zsum (count_at count) (Z.to_nat (M + 1)) 0) in *.
  assert (HK : 1 <= K <= 255) by lia.
  assert (Hsorted : forall i j, 0 <= i -> i <= j -> j <= K ->
                                n_count (t0 j) <= n_count (t0 i)).
  { intros i j Hi Hij Hj. apply (st_sorted _ _ _ Hsort); lia. }
  assert (Hpos : forall i, 0 <= i <= K -> 1 <= n_count (t0 i)).
  { intros i Hi. apply Hprefix; lia. }
  assert (Hclean : forall x, parent (t0 x) = 0 /\ n_nbBits (t0 x) = 0).
  { intros x. destruct (Z_le_dec 0 x) as [H0|H0]; [destruct (Z_le_dec x M) as [H1|H1]|].
    - destruct (st_cells _ _ _ Hsort x ltac:(lia)) as [E _]. rewrite E. split; reflexivity.
    - rewrite (st_free _ _ _ Hsort x) by lia. split; reflexivity.
    - rewrite (st_free _ _ _ Hsort x) by lia. split; reflexivity. }
  assert (Hleaf : forall i, 0 <= i <= K -> 1 <= n_count (t0 i) <= 131072).
  { intros i Hi. split; [apply Hpos; exact Hi|].
    pose proof (sorted_nonneg count M Hvalid t0 Hsort i ltac:(lia)) as H.
    unfold HUF_BLOCKSIZE_MAX in H. lia. }
  pose proof (Hleaf K ltac:(lia)) as HcK. pose proof (Hleaf (K - 1) ltac:(lia)) as HcK1.
  unfold HUF_buildTree. cbv zeta.
  rewrite (bind_eq _ _ _ Esort). cbv beta.
  rewrite (bind_eq _ _ _ Enn). cbv beta.
  unfold STARTNODE, HUF_SYMBOLVALUE_MAX. change (255 + 1) with 256.
  rewrite (S32_small K) by lia.
  replace (U32 (256 + K - 1)) with (255 + K) by (rewrite U32_small; lia).
  change (U16 (256 + 1)) with 257.
  rewrite (S32_small (K - 2)) by lia.
  (* the first parent *)
  rewrite (rd_in t0 K) by lia. rewrite bind_ret.
  rewrite (rd_in t0 (K - 1)) by lia. rewrite bind_ret.
  rewrite (rd_in t0 256) by lia. rewrite bind_ret.
  rewrite wr_in by lia. rewrite bind_ret.
  rewrite rd_in by lia. rewrite bind_ret.
  rewrite wr_in by lia. rewrite bind_ret.
  rewrite rd_in by lia. rewrite bind_ret.
  rewrite wr_in by lia. rewrite bind_ret.
  rewrite (U32_small (n_count (t0 K) + n_count (t0 (K - 1)))) by lia.
  match goal with |- context [for_up _ 257 init_future ?x] => set (t3 := x) end.
  assert (T3 : forall x, t3 x = if x =? K then set_parent (t0 K) 256
                               else if x =? K - 1 then set_parent (t0 (K - 1)) 256
                               else if x =? 256
                                    then set_count (t0 256) (n_count (t0 K) + n_count (t0 (K - 1)))
                               else t0 x).
  { intros x. unfold t3, upd.
    destruct (Z.eqb_spec x K) as [->|X1].
    - destruct (Z.eqb_spec K (K - 1)); [lia|]. destruct (Z.eqb_spec K 256); [lia|]. reflexivity.
    - destruct (Z.eqb_spec x (K - 1)) as [->|X2].
      + destruct (Z.eqb_spec (K - 1) 256); [lia|]. reflexivity.
      + reflexivity. }
  clearbody t3.
  destruct (init_future_loop t3 (Z.to_nat (255 + K - 257 + 1)) 257 ltac:(lia) ltac:(lia))
    as (t4 & E4 & T4c & T4o).
  rewrite (bind_eq _ _ _ E4). cbv beta.
  rewrite rd_in by lia. rewrite bind_ret. rewrite wr_in by lia. rewrite bind_ret.
  match goal with |- context [while_loop _ _ parents_body (?x, _, _, _)] => set (t5 := x) end.
  assert (I5 : parents_inv t0 K total (fun _ => K) (fun _ => K - 1) t5 (K - 2) 256 257).
  { apply parents_inv_init; try assumption.
    - intros x. unfold t5, upd. destruct (Z.eqb_spec x (-1)) as [->|Hx]; [reflexivity|].
      rewrite T4c. replace (257 + Z.of_nat (Z.to_nat (255 + K - 257 + 1))) with (256 + K) by lia.
      destruct ((257 <=? x) && (x <? 256 + K)) eqn:Er; [reflexivity|].
      rewrite T3. destruct (Z.eqb_spec x 256) as [->|].
      + destruct (Z.eqb_spec 256 K); [lia|]. destruct (Z.eqb_spec 256 (K - 1)); [lia|].
        reflexivity.
      + destruct (Z.eqb_spec x K) as [->|]; [reflexivity|].
        destruct (Z.eqb_spec x (K - 1)) as [->|]; reflexivity.
    - intros x. unfold t5, upd.
      assert (E : parent (t4 x) = if (x =? K) || (x =? K - 1) then 256 else 0).
      { destruct (T4o x) as (-> & _). rewrite T3.
        destruct (Z.eqb_spec x K) as [->|]; [reflexivity|].
        destruct (Z.eqb_spec x (K - 1)) as [->|]; [reflexivity|].
        destruct (Z.eqb_spec x 256) as [->|]; apply Hclean. }
      destruct (Z.eqb_spec x (-1)) as [->|Hx]; [|exact E]. exact E.
    - intros x. unfold t5, upd.
      assert (E : byte (t4 x) = byte (t0 x)).
      { destruct (T4o x) as (_ & -> & _). rewrite T3.
        destruct (Z.eqb_spec x K) as [->|]; [reflexivity|].
        destruct (Z.eqb_spec x (K - 1)) as [->|]; [reflexivity|].
        destruct (Z.eqb_spec x 256) as [->|]; reflexivity. }
      destruct (Z.eqb_spec x (-1)) as [->|Hx]; [|exact E]. exact E.
    - intros x. unfold t5, upd.
      assert (E : n_nbBits (t4 x) = 0).
      { destruct (T4o x) as (_ & _ & ->). rewrite T3.
        destruct (Z.eqb_spec x K) as [->|]; [apply Hclean|].
        destruct (Z.eqb_spec x (K - 1)) as [->|]; [apply Hclean|].
        destruct (Z.eqb_spec x 256) as [->|]; apply Hclean. }
      destruct (Z.eqb_spec x (-1)) as [->|Hx]; [|exact E]. exact E. }
  clearbody t5.
  (* the parents *)
  destruct (parents_loop t0 K total HK Hsorted Htot _ _ t5 _ _ _ I5)
    as (c1 & c2 & t6 & lowS & lowN & E6 & I6).
  rewrite (bind_eq _ _ _ E6). cbv beta iota.
  (* the depths *)
  rewrite rd_in by lia. rewrite bind_ret. rewrite wr_in by lia. rewrite bind_ret.
  replace (U32 (255 + K - 1)) with (254 + K) by (rewrite U32_small; lia).
  replace (Z.to_nat (254 + K - 256 + 1)) with (Z.to_nat (K - 1)) by lia.
  match goal with |- context [for_down _ _ depth_body ?x] => set (t7 := x) end.
  assert (I7 : depth_inv t6 (fun _ => False) t7).
  { constructor.
    - intros x. unfold t7, upd. destruct (Z.eqb_spec x (255 + K)) as [->|]; auto.
    - intros x [].
    - intros x _. unfold t7, upd. destruct (Z.eqb_spec x (255 + K)) as [->|]; [reflexivity|].
      apply (pi_nbBits _ _ _ _ _ _ _ _ _ I6). }
  clearbody t7.
  destruct (depth_internal t0 K total c1 c2 t6 lowS lowN HK I6 t7 I7) as (t8 & E8 & I8).
  rewrite (bind_eq _ _ _ E8). cbv beta.
  destruct (depth_leaves t0 K total c1 c2 t6 lowS lowN HK I6 t8 I8) as (t9 & E9 & I9).
  rewrite (bind_eq _ _ _ E9). cbv beta.
  exists t9. split; [reflexivity|].
  assert (Hsame : forall i, 0 <= i <= 255 ->
            n_count (t9 i) = n_count (t0 i) /\ byte (t9 i) = byte (t0 i)).
  { intros i Hi. destruct (di_same _ _ _ I9 i) as (-> & _ & ->).
    rewrite (pi_count _ _ _ _ _ _ _ _ _ I6) by lia.
    rewrite (pi_byte _ _ _ _ _ _ _ _ _ I6). split; reflexivity. }
  constructor.
  - unfold K. lia.
  - intros i Hi. destruct (Hsame i ltac:(lia)) as [-> ->].
    split; [apply (sorted_count count M t0 Hsort); exact Hi|].
    apply (st_cells _ _ _ Hsort i Hi).
  - intros i j Hi Hj. destruct (Hsame i ltac:(lia)) as [_ ->].
    destruct (Hsame j ltac:(lia)) as [_ ->]. apply (st_distinct _ _ _ Hsort); assumption.
  - intros i j Hi Hij Hj. destruct (Hsame i ltac:(lia)) as [-> _].
    destruct (Hsame j ltac:(lia)) as [-> _]. apply (st_sorted _ _ _ Hsort); lia.
  - intros i Hi. destruct (Hsame i ltac:(lia)) as [-> _]. rewrite Hprefix by exact Hi. lia.
  - intros i Hi. apply (di_todo _ _ _ I9). unfold below_root. lia.
  - intros i Hi. apply (depth_exact t0 K total c1 c2 t6 lowS lowN HK Htot I6 t9 I9).
    unfold below_root. lia.
  - apply (depth_leaf_mono t0 K total c1 c2 t6 lowS lowN HK Htot I6 t9 I9).
  - apply (tree_kraft t0 K total c1 c2 t6 lowS lowN HK Htot I6 t9 I9).
Qed.

End BuildTreeSpec.

(** * HUF_setMaxHeight *)

Lemma pow2_split (a b : Z) : 0 <= a -> 0 <= b -> 2^(a + b) = 2^a * 2^b.
Proof. intros. apply Z.pow_add_r; assumption. Qed.

Lemma pow2_pos (a : Z) : 0 <= a -> 1 <= 2^a.
Proof. intros H. pose proof (Z.pow_pos_nonneg 2 a ltac:(lia) H). lia. Qed.

Lemma pow2_le (a b : Z) : 0 <= a <= b -> 2^a <= 2^b.
Proof. intros H. apply Z.pow_le_mono_r; lia. Qed.

Lemma pow2_lt (a b : Z) : 0 <= a < b -> 2^a < 2^b.
Proof. intros H. apply Z.pow_lt_mono_r; lia. Qed.

Lemma pow2_double (a : Z) : 1 <= a -> 2^a = 2 * 2^(a - 1).
Proof.
  intros H. replace a with (Z.succ (a - 1)) at 1 by lia. rewrite Z.pow_succ_r by lia. lia.
Qed.

Lemma shl1_pow2 (k : Z) : 0 <= k < 31 -> shl1 k = Ret (2^k).
Proof.
  intros H. unfold shl1.
  rewrite (proj2 (Z.leb_le 0 k)), (proj2 (Z.ltb_lt k 31)) by lia.
  cbn [andb]. rewrite Z.shiftl_1_l. reflexivity.
Qed.

Lemma pow2_small (k : Z) : 0 <= k <= 24 -> 1 <= 2^k <= 16777216.
Proof.
  intros H. split; [apply pow2_pos; lia|].
  change 16777216 with (2^24). apply pow2_le. lia.
Qed.

(** The same lengths with a larger denominator. *)
Lemma kraft_rescale (nb : Z -> Z) (K D D' : Z) :
  0 <= K -> (forall i, 0 <= i <= K -> nb i <= D) -> D <= D' ->
  kraft_at nb K D' = 2^(D' - D) * kraft_at nb K D.
Proof.
  intros HK Hnb HD. unfold kraft_at. rewrite <- zsum_scale. apply zsum_ext.
  intros i Hi. specialize (Hnb i ltac:(lia)).
  rewrite <- pow2_split by lia. f_equal. lia.
Qed.

(** One length changes. *)
Lemma kraft_upd (nb nb' : Z -> Z) (K D p : Z) :
  0 <= p <= K -> (forall i, i <> p -> nb' i = nb i) ->
  kraft_at nb' K D = kraft_at nb K D - 2^(D - nb p) + 2^(D - nb' p).
Proof.
  intros Hp H. unfold kraft_at.
  rewrite (zsum_upd (fun i => 2^(D - nb i)) (fun i => 2^(D - nb' i)) p) by
    (first [lia | intros j _ Hj; rewrite H by exact Hj; reflexivity]).
  reflexivity.
Qed.

Lemma kraft_ext (nb nb' : Z -> Z) (K D : Z) :
  (forall i, 0 <= i <= K -> nb' i = nb i) -> kraft_at nb' K D = kraft_at nb K D.
Proof.
  intros H. unfold kraft_at. apply zsum_ext. intros i Hi. rewrite H by lia. reflexivity.
Qed.

Section SetMaxProof.

Variable t0 : nodeTable.
Variables K L : Z.

Hypothesis HK : 1 <= K <= 255.
Hypothesis HL : 1 <= L <= 12.
Hypothesis Hfeas : K + 1 <= 2^L.
Hypothesis Hrange : forall i, 0 <= i <= K -> 1 <= nbf t0 i <= 24.
Hypothesis Hmono : forall i j, 0 <= i -> i <= j -> j <= K -> nbf t0 i <= nbf t0 j.
Hypothesis Hkraft : kraft_at (nbf t0) K 24 = 2^24.

(** The largest length is the one of the last leaf. *)
Lemma kraft_largest : kraft_at (nbf t0) K (nbf t0 K) = 2^(nbf t0 K).
Proof.
  pose proof (Hrange K ltac:(lia)) as HlK.
  pose proof (kraft_rescale (nbf t0) K (nbf t0 K) 24 ltac:(lia)
                ltac:(intros i Hi; apply Hmono; lia) ltac:(lia)) as H.
  rewrite Hkraft in H.
  replace 24 with ((24 - nbf t0 K) + nbf t0 K) in H at 1 by lia.
  rewrite pow2_split in H by lia.
  pose proof (pow2_pos (24 - nbf t0 K) ltac:(lia)).
  apply (Z.mul_reg_l _ _ (2^(24 - nbf t0 K))); lia.
Qed.

Lemma same_nodes_refl : same_nodes t0 t0 K.
Proof. constructor; auto. Qed.

(** No length exceeds the limit: nothing to do. *)
Lemma setMaxHeight_early :
  nbf t0 K <= L ->
  HUF_setMaxHeight t0 K L = Ret (t0, nbf t0 K) /\ length_limited t0 t0 K (nbf t0 K).
Proof.
  intros Hle. split.
  - unfold HUF_setMaxHeight. rewrite rd_in by lia. rewrite bind_ret. cbv zeta.
    fold (nbf t0 K). rewrite (proj2 (Z.leb_le _ _) Hle). reflexivity.
  - constructor.
    + apply same_nodes_refl.
    + intros i Hi. pose proof (Hrange i Hi). pose proof (Hmono i K ltac:(lia) ltac:(lia) ltac:(lia)).
      unfold nbf in *. lia.
    + exact Hmono.
    + apply kraft_largest.
Qed.

(** From here on the tree is too high. *)
Hypothesis Hhigh : L < nbf t0 K.

(** As there are at most [2^L] leaves, the first one is shorter than [L]. *)
Lemma first_short : nbf t0 0 < L.
Proof.
  destruct (Z_lt_dec (nbf t0 0) L) as [|Hge]; [assumption | exfalso].
  pose proof (Hrange K ltac:(lia)) as HlK.
  set (lg := nbf t0 K) in *.
  pose proof kraft_largest as Hk. fold lg in Hk. unfold kraft_at in Hk.
  replace (Z.to_nat (K + 1)) with (S (Z.to_nat K)) in Hk by lia.
  rewrite zsum_snoc in Hk. rewrite Z.add_0_l, Z2Nat.id in Hk by lia.
  fold lg in Hk. rewrite Z.sub_diag in Hk. change (2^0) with 1 in Hk.
  assert (Hb : 0 <= zsum (fun i => 2^(lg - nbf t0 i)) (Z.to_nat K) 0
               <= Z.of_nat (Z.to_nat K) * 2^(lg - L)).
  { apply zsum_bounds. intros j Hj.
    pose proof (Hmono 0 j ltac:(lia) ltac:(lia) ltac:(lia)).
    pose proof (Hmono j K ltac:(lia) ltac:(lia) ltac:(lia)). fold lg in H0.
    split; [pose proof (pow2_pos (lg - nbf t0 j) ltac:(lia)); lia|].
    apply pow2_le. lia. }
  rewrite Z2Nat.id in Hb by lia.
  assert (Hp : 2^lg = 2^L * 2^(lg - L)).
  { rewrite <- pow2_split by lia. f_equal. lia. }
  pose proof (pow2_lt 0 (lg - L) ltac:(lia)) as H1. change (2^0) with 1 in H1.
  nia.
Qed.

Lemma nbf_upd (t : nodeTable) (p v : Z) (i : Z) :
  nbf (upd t p (set_nbBits (t p) v)) i = if i =? p then v else nbf t i.
Proof. unfold nbf, upd. destruct (Z.eqb_spec i p); reflexivity. Qed.

Lemma same_nodes_upd (t : nodeTable) (p v : Z) :
  same_nodes t0 t K -> 0 <= p <= K -> same_nodes t0 (upd t p (set_nbBits (t p) v)) K.
Proof.
  intros [A B] Hp. constructor.
  - intros x. unfold upd. destruct (Z.eqb_spec x p) as [->|]; [|apply A]. cbn. apply A.
  - intros x Hx. unfold upd. destruct (Z.eqb_spec x p) as [->|]; [lia | apply B; exact Hx].
Qed.

(** The first loop: the lengths above [L] become [L]; [totalCost] is what
    the Kraft sum (denominator [2^largestBits]) gains. *)
Lemma clamp_loop :
  exists t1 T1 n1,
    while_loop (S (S (Z.to_nat K))) (clamp_cond L)
      (clamp_body (nbf t0 K) L (2^(nbf t0 K - L))) (t0, 0, K) = Ret (t1, T1, n1)
    /\ same_nodes t0 t1 K
    /\ 0 <= n1 < K
    /\ (forall i, n1 < i <= K -> nbf t1 i = L)
    /\ (forall i, 0 <= i <= n1 -> nbf t1 i = nbf t0 i /\ nbf t0 i <= L)
    /\ kraft_at (nbf t1) K (nbf t0 K) = 2^(nbf t0 K) + T1
    /\ 0 <= T1 /\ T1 + (K - n1) <= (K - n1) * 2^(nbf t0 K - L).
Proof.
  pose proof (Hrange K ltac:(lia)) as HlK. pose proof first_short as Hfirst.
  set (lg := nbf t0 K) in *.
  pose proof (pow2_small (lg - L) ltac:(lia)) as Hbase.
  assert (Hbase' : 2^(lg - L) <= 8388608).
  { change 8388608 with (2^23). apply pow2_le. lia. }
  destruct (while_loop_inv
    (fun s : nodeTable * Z * Z =>
       let '(t, T, n) := s in
       same_nodes t0 t K /\ 0 <= n <= K
       /\ (forall i, n < i <= K -> nbf t i = L)
       /\ (forall i, 0 <= i <= n -> nbf t i = nbf t0 i)
       /\ kraft_at (nbf t) K lg = 2^lg + T
       /\ 0 <= T /\ T + (K - n) <= (K - n) * 2^(lg - L))
    (fun s : nodeTable * Z * Z => let '(_, _, n) := s in n)
    (clamp_cond L) (clamp_body lg L (2^(lg - L))))
    with (fuel := S (S (Z.to_nat K))) (s := (t0, 0, K)) as (s' & E & I & C).
  - intros [[t T] n] (_ & Hn & _). lia.
  - intros [[t T] n] (Hs & Hn & Hhi & Hlo & Hkr & HT0 & HT).
    unfold clamp_cond. rewrite rd_in by lia. rewrite bind_ret.
    eexists. split; [reflexivity|]. intros Hc. apply Z.ltb_lt in Hc. fold (nbf t n) in Hc.
    rewrite (Hlo n ltac:(lia)) in Hc.
    assert (Hn1 : 1 <= n).
    { destruct (Z.eq_dec n 0) as [->|]; [lia | lia]. }
    pose proof (Hmono n K ltac:(lia) ltac:(lia) ltac:(lia)) as Hle. fold lg in Hle.
    pose proof (Hrange n ltac:(lia)) as Hrn.
    unfold clamp_body. rewrite rd_in by lia. rewrite bind_ret.
    fold (nbf t n). rewrite (Hlo n ltac:(lia)).
    rewrite (U32_small (lg - nbf t0 n)) by lia.
    rewrite shl1_pow2 by lia. rewrite bind_ret. cbv zeta.
    rewrite bind_ret. rewrite wr_in by lia. rewrite bind_ret.
    pose proof (pow2_small (lg - nbf t0 n) ltac:(lia)) as Hsh.
    assert (Hlt : 2^(lg - nbf t0 n) < 2^(lg - L)) by (apply pow2_lt; lia).
    rewrite (U32_small (2^(lg - L) - 2^(lg - nbf t0 n))) by lia.
    assert (HTb : T + 2^(lg - L) <= 255 * 8388608) by nia.
    rewrite S32_small by lia. rewrite (U32_small (n - 1)) by lia.
    rewrite BYTE_small by lia.
    eexists. split; [reflexivity|]. split; [|lia].
    split; [apply same_nodes_upd; [exact Hs | lia]|].
    split; [lia|]. split.
    { intros i Hi. rewrite nbf_upd. destruct (Z.eqb_spec i n); [reflexivity|].
      apply Hhi. lia. }
    split.
    { intros i Hi. rewrite nbf_upd. destruct (Z.eqb_spec i n); [lia|]. apply Hlo. lia. }
    split.
    { rewrite (kraft_upd (nbf t) _ K lg n) by
        (first [lia | intros i Hi; rewrite nbf_upd; destruct (Z.eqb_spec i n); [lia | reflexivity]]).
      rewrite nbf_upd, Z.eqb_refl. rewrite (Hlo n ltac:(lia)). lia. }
    split; [lia | nia].
  - split; [apply same_nodes_refl|]. split; [lia|]. split; [intros i Hi; lia|].
    split; [reflexivity|]. split; [unfold lg; rewrite kraft_largest; lia|]. lia.
  - cbv beta iota. lia.
  - destruct s' as [[t1 T1] n1]. destruct I as (Hs & Hn & Hhi & Hlo & Hkr & HT0 & HT).
    unfold clamp_cond in C. rewrite rd_in in C by lia. rewrite bind_ret in C.
    assert (C' : (L <? n_nbBits (t1 n1)) = false) by congruence.
    apply Z.ltb_ge in C'. fold (nbf t1 n1) in C'. rewrite (Hlo n1 ltac:(lia)) in C'.
    exists t1, T1, n1. split; [exact E|]. split; [exact Hs|].
    assert (n1 <> K) by (intros ->; fold lg in C'; lia).
    split; [lia|]. split; [exact Hhi|]. split.
    { intros i Hi. split; [apply Hlo; lia|].
      pose proof (Hmono i n1 ltac:(lia) ltac:(lia) ltac:(lia)). lia. }
    split; [exact Hkr|]. split; assumption.
Qed.

(** [while (huffNode[n].nbBits == maxNbBits) n--;] stops at the last leaf
    that is shorter. *)
Lemma skip_loop (t : nodeTable) (n m : Z) :
  0 <= m -> m <= n -> n <= 510 ->
  (forall i, m < i <= n -> nbf t i = L) -> nbf t m <> L ->
  while_loop (S (S (Z.to_nat n))) (skip_cond t L) skip_body n = Ret m.
Proof.
  intros Hm Hmn Hn Hhi Hlo.
  destruct (while_loop_inv (fun n' => m <= n' <= n) (fun n' => n')
              (skip_cond t L) skip_body) with (fuel := S (S (Z.to_nat n))) (s := n)
    as (n' & E & I & C); try lia.
  - intros n' Hn'. unfold skip_cond. rewrite rd_in by lia. rewrite bind_ret.
    eexists. split; [reflexivity|]. intros Hc. apply Z.eqb_eq in Hc. fold (nbf t n') in Hc.
    assert (n' <> m) by (intros ->; contradiction).
    unfold skip_body. rewrite U32_small by lia. eexists. split; [reflexivity|]. lia.
  - rewrite E. f_equal. unfold skip_cond in C. rewrite rd_in in C by lia.
    rewrite bind_ret in C.
    assert (C' : (n_nbBits (t n') =? L) = false) by congruence.
    apply Z.eqb_neq in C'. fold (nbf t n') in C'.
    destruct (Z.eq_dec n' m) as [|Hne]; [assumption|].
    exfalso. apply C'. apply Hhi. lia.
Qed.

(** The last leaf that is shorter than [L]. *)
Lemma last_short (nb : Z -> Z) (n : nat) :
  nb 0 < L -> (forall i, 0 <= i <= Z.of_nat n -> nb i <= L) ->
  exists m, 0 <= m <= Z.of_nat n /\ nb m < L /\ forall i, m < i <= Z.of_nat n -> nb i = L.
Proof.
  intros H0. induction n as [|n IH]; intros Hle.
  - exists 0. split; [lia|]. split; [exact H0|]. intros i Hi. lia.
  - destruct (Z.eq_dec (nb (Z.of_nat (S n))) L) as [E|E].
    + destruct IH as (m & Hm & Hlt & Hhi); [intros i Hi; apply Hle; lia|].
      exists m. split; [lia|]. split; [exact Hlt|]. intros i Hi.
      destruct (Z.eq_dec i (Z.of_nat (S n))) as [->|]; [exact E | apply Hhi; lia].
    + exists (Z.of_nat (S n)). split; [lia|].
      split; [specialize (Hle (Z.of_nat (S n)) ltac:(lia)); lia|]. intros i Hi. lia.
Qed.

(** The state after the first two loops and the renormalization. *)
Lemma after_clamp (t1 : nodeTable) (T1 n1 : Z) :
  0 <= n1 < K ->
  (forall i, n1 < i <= K -> nbf t1 i = L) ->
  (forall i, 0 <= i <= n1 -> nbf t1 i = nbf t0 i /\ nbf t0 i <= L) ->
  kraft_at (nbf t1) K (nbf t0 K) = 2^(nbf t0 K) + T1 ->
  0 <= T1 -> T1 + (K - n1) <= (K - n1) * 2^(nbf t0 K - L) ->
  exists m, 0 <= m <= n1
    /\ lengths_inv (nbf t1) K L m (Z.shiftr T1 (nbf t0 K - L))
    /\ 0 <= Z.shiftr T1 (nbf t0 K - L) < K - m.
Proof.
  intros Hn1 Hhi Hlo Hkr HT0 HT.
  pose proof (Hrange K ltac:(lia)) as HlK. pose proof first_short as Hfirst.
  set (lg := nbf t0 K) in *.
  assert (Hle : forall i, 0 <= i <= K -> nbf t1 i <= L).
  { intros i Hi. destruct (Z_le_dec i n1) as [H|H].
    - destruct (Hlo i ltac:(lia)) as [-> ?]. assumption.
    - rewrite Hhi by lia. lia. }
  destruct (last_short (nbf t1) (Z.to_nat n1)) as (m & Hm & Hlt & Hlast).
  { destruct (Hlo 0 ltac:(lia)) as [-> _]. exact Hfirst. }
  { intros i Hi. apply Hle. lia. }
  rewrite Z2Nat.id in Hm, Hlast by lia.
  assert (Hhigh' : forall i, m < i <= K -> nbf t1 i = L).
  { intros i Hi. destruct (Z_le_dec i n1); [apply Hlast; lia | apply Hhi; lia]. }
  pose proof (kraft_rescale (nbf t1) K L lg ltac:(lia) Hle ltac:(lia)) as Hres.
  rewrite Hkr in Hres.
  assert (Hp : 2^lg = 2^(lg - L) * 2^L).
  { rewrite <- pow2_split by lia. f_equal. lia. }
  pose proof (pow2_pos (lg - L) ltac:(lia)) as Hpos.
  assert (HT1 : T1 = (kraft_at (nbf t1) K L - 2^L) * 2^(lg - L)) by lia.
  assert (HT2 : Z.shiftr T1 (lg - L) = kraft_at (nbf t1) K L - 2^L).
  { rewrite Z.shiftr_div_pow2 by lia. rewrite HT1. apply Z.div_mul. lia. }
  exists m. split; [lia|]. split.
  - constructor.
    + lia.
    + intros i Hi. destruct (Hlo i ltac:(lia)) as [E _]. rewrite E.
      pose proof (Hrange i ltac:(lia)).
      destruct (Hlo m ltac:(lia)) as [Em _]. rewrite Em in Hlt.
      pose proof (Hmono i m ltac:(lia) ltac:(lia) ltac:(lia)). lia.
    + exact Hhigh'.
    + intros i j Hi Hij Hj. destruct (Z_le_dec j n1) as [H|H].
      * destruct (Hlo i ltac:(lia)) as [-> _]. destruct (Hlo j ltac:(lia)) as [-> _].
        apply Hmono; lia.
      * rewrite (Hhi j) by lia. apply Hle. lia.
    + rewrite HT2. lia.
  - rewrite HT2. rewrite HT1 in HT0, HT. nia.
Qed.

Lemma rl_get_in (rl : Z -> Z) (i : Z) : 0 <= i <= 13 -> rl_get rl i = Ret (rl i).
Proof. intros H. unfold rl_get. apply aget_in. unfold HUF_TABLELOG_MAX. lia. Qed.

Lemma rl_set_in (rl : Z -> Z) (i v : Z) : 0 <= i <= 13 -> rl_set rl i v = Ret (upd rl i v).
Proof. intros H. unfold rl_set. apply aset_in. unfold HUF_TABLELOG_MAX. lia. Qed.

(** The position of the last leaf of every length below [L]. *)
Lemma rankLast_loop (t : nodeTable) (m T : Z) :
  lengths_inv (nbf t) K L m T -> 0 <= m ->
  exists cur rl,
    for_down (Z.to_nat (m + 1)) m (rankLast_body t L) (L, fun _ => noSymbol) = Ret (cur, rl)
    /\ rank_last_ok (nbf t) K L (-1) rl.
Proof.
  intros [Hm Hlow Hhi Hmon _] Hm0.
  destruct (for_down_inv
    (fun pos (s : Z * (Z -> Z)) =>
       ((pos = m /\ fst s = L) \/ (pos < m /\ fst s = nbf t (pos + 1)))
       /\ rank_last_ok (nbf t) K L pos (snd s))
    (rankLast_body t L) (Z.to_nat (m + 1)) m (L, fun _ => noSymbol)) as ([cur rl] & E & I).
  - split; [left; split; reflexivity|]. intros d Hd. left. split; [reflexivity|].
    intros i Hi. rewrite Hhi by lia. lia.
  - intros j [cur rl] Hj (Hcur & Hrl). cbn [fst snd] in Hcur, Hrl.
    pose proof (Hlow j ltac:(lia)) as Hnj.
    assert (Habove : forall i, j < i <= K -> cur <= nbf t i).
    { intros i Hi. destruct Hcur as [[-> ->] | [Hlt ->]].
      - rewrite Hhi by lia. lia.
      - apply Hmon; lia. }
    unfold rankLast_body. rewrite rd_in by lia. rewrite bind_ret. fold (nbf t j).
    destruct (Z.leb_spec cur (nbf t j)) as [Hle|Hgt].
    + exists (cur, rl). split; [reflexivity|]. cbn [fst snd].
      assert (Hjm : j < m /\ cur = nbf t (j + 1)).
      { destruct Hcur as [[-> ->] | H]; [lia | exact H]. }
      destruct Hjm as [Hjm Ecur].
      pose proof (Hmon j (j + 1) ltac:(lia) ltac:(lia) ltac:(lia)) as Hstep.
      assert (Eq : nbf t j = nbf t (j + 1)) by lia.
      split; [right; split; [lia | replace (j - 1 + 1) with j by lia; lia]|].
      intros d Hd. destruct (Hrl d Hd) as [[A B] | (A & B & C)].
      * left. split; [exact A|]. intros i Hi.
        destruct (Z.eq_dec i j) as [->|]; [rewrite Eq; apply B; lia | apply B; lia].
      * right. split; [lia|]. split; assumption.
    + rewrite (U32_small (L - nbf t j)) by lia. rewrite (U32_small j) by lia.
      rewrite rl_set_in by lia. rewrite bind_ret.
      eexists. split; [reflexivity|]. cbn [fst snd].
      split; [right; split; [lia | replace (j - 1 + 1) with j by lia; reflexivity]|].
      intros d Hd. unfold upd. destruct (Z.eqb_spec d (L - nbf t j)) as [->|Hne].
      * right. split; [lia|]. split; [lia|]. intros i Hi. specialize (Habove i Hi). lia.
      * destruct (Hrl d Hd) as [[A B] | (A & B & C)].
        -- left. split; [exact A|]. intros i Hi.
           destruct (Z.eq_dec i j) as [->|]; [lia | apply B; lia].
        -- right. split; [lia|]. split; assumption.
  - exists cur, rl. split; [exact E|]. cbn [fst snd] in I. destruct I as [_ I].
    replace (m - Z.of_nat (Z.to_nat (m + 1))) with (-1) in I by lia. exact I.
Qed.

Lemma rank_last_pos (nb rl : Z -> Z) (lo d : Z) :
  rank_last_ok nb K L lo rl -> 1 <= d <= 12 -> rl d <> noSymbol ->
  lo < rl d <= K /\ nb (rl d) = L - d /\ forall i, rl d < i <= K -> nb i <> L - d.
Proof. intros H Hd Hne. destruct (H d Hd) as [[A _] | A]; [contradiction | exact A]. Qed.

(** The search for a rank to take a leaf from: it ends at the rank 1 or at
    a rank that is not empty. *)
Lemma scan_spec (t : nodeTable) (rl : Z -> Z) :
  rank_last_ok (nbf t) K L (-1) rl ->
  forall (fuel : nat) (d : Z), 1 <= d <= 12 -> d <= Z.of_nat fuel ->
    exists d1, scan_ranks fuel t rl d = Ret d1 /\ 1 <= d1 <= d
               /\ (d1 = 1 \/ rl d1 <> noSymbol).
Proof.
  intros Hrl. induction fuel as [|fuel IH]; intros d Hd Hf; [lia|].
  cbn [scan_ranks]. destruct (Z.ltb_spec 1 d) as [H1|H1].
  - rewrite rl_get_in by lia. rewrite bind_ret.
    rewrite (U32_small (d - 1)) by lia. rewrite rl_get_in by lia. rewrite bind_ret.
    assert (Hrec : exists d1, scan_ranks fuel t rl (d - 1) = Ret d1 /\ 1 <= d1 <= d
                              /\ (d1 = 1 \/ rl d1 <> noSymbol)).
    { destruct (IH (d - 1) ltac:(lia) ltac:(lia)) as (d1 & E & Hd1 & Hor).
      exists d1. split; [exact E|]. split; [lia | exact Hor]. }
    destruct (Z.eqb_spec (rl d) noSymbol) as [Eh|Nh]; [exact Hrec|].
    destruct (Z.eqb_spec (rl (d - 1)) noSymbol) as [El|Nl].
    + exists d. split; [reflexivity|]. split; [lia | now right].
    + destruct (rank_last_pos _ _ _ d Hrl ltac:(lia) Nh) as (Hp & _).
      destruct (rank_last_pos _ _ _ (d - 1) Hrl ltac:(lia) Nl) as (Hq & _).
      rewrite !rd_in by lia. rewrite !bind_ret. cbv zeta.
      destruct (n_count (t (rl d)) <=? U32 (2 * n_count (t (rl (d - 1))))).
      * exists d. split; [reflexivity|]. split; [lia | now right].
      * exact Hrec.
  - exists d. split; [reflexivity|]. split; [lia | left; lia].
Qed.

(** The search upwards for a rank that is not empty. *)
Lemma bump_spec (rl : Z -> Z) (d1 dmax : Z) :
  1 <= d1 -> d1 <= dmax -> dmax <= 12 -> rl dmax <> noSymbol ->
  exists d, while_loop 16 (bump_cond rl) bump_body d1 = Ret d
            /\ d1 <= d <= dmax /\ rl d <> noSymbol
            /\ forall e, d1 <= e < d -> rl e = noSymbol.
Proof.
  intros H1 Hle Hmax Hne.
  destruct (while_loop_inv
              (fun d => d1 <= d <= dmax /\ forall e, d1 <= e < d -> rl e = noSymbol)
              (fun d => dmax - d) (bump_cond rl) bump_body)
    with (fuel := 16%nat) (s := d1) as (d & E & (Hd & Hempty) & C).
  - intros d [Hd _]. lia.
  - intros d [Hd Hempty]. unfold bump_cond, HUF_TABLELOG_MAX.
    rewrite (proj2 (Z.leb_le d 12)) by lia. rewrite rl_get_in by lia. rewrite bind_ret.
    eexists. split; [reflexivity|]. intros Hc. apply Z.eqb_eq in Hc.
    assert (d <> dmax) by (intros ->; contradiction).
    unfold bump_body. rewrite U32_small by lia. eexists. split; [reflexivity|].
    split; [|lia]. split; [lia|]. intros e He.
    destruct (Z.eq_dec e d) as [->|]; [exact Hc | apply Hempty; lia].
  - split; [lia|]. intros e He. lia.
  - lia.
  - exists d. split; [exact E|]. split; [exact Hd|]. split; [|exact Hempty].
    unfold bump_cond, HUF_TABLELOG_MAX in C. rewrite (proj2 (Z.leb_le d 12)) in C by lia.
    rewrite rl_get_in in C by lia. rewrite bind_ret in C.
    assert (C' : (rl d =? noSymbol) = false) by congruence.
    apply Z.eqb_neq in C'. exact C'.
Qed.

(** The last leaf of the length [L - d] gets one bit more. *)
Lemma lengths_move (nb nb' : Z -> Z) (m T p d : Z) :
  lengths_inv nb K L m T -> 1 <= d -> 0 <= p <= K -> nb p = L - d ->
  (forall i, p < i <= K -> nb i <> L - d) ->
  nb' p = L - d + 1 -> (forall i, i <> p -> nb' i = nb i) ->
  p <= m /\ (d = 1 -> p = m)
  /\ lengths_inv nb' K L (if d =? 1 then m - 1 else m) (T - 2^(d - 1)).
Proof.
  intros [Hm Hlow Hhi Hmon Hkr] Hd Hp Enb Hlast Enb' Hoth.
  assert (Hpm : p <= m).
  { destruct (Z_le_dec p m) as [|H]; [assumption|]. rewrite Hhi in Enb by lia. lia. }
  assert (Hd1 : d = 1 -> p = m).
  { intros ->. destruct (Z.eq_dec p m) as [|Hne]; [assumption | exfalso].
    pose proof (Hlow m ltac:(lia)). pose proof (Hmon p m ltac:(lia) ltac:(lia) ltac:(lia)).
    apply (Hlast m); lia. }
  split; [exact Hpm|]. split; [exact Hd1|].
  pose proof (Hlow p ltac:(lia)) as Hlp.
  assert (Hnext : forall j, p < j <= K -> L - d + 1 <= nb j).
  { intros j Hj. pose proof (Hmon p j ltac:(lia) ltac:(lia) ltac:(lia)).
    pose proof (Hlast j Hj). lia. }
  destruct (Z.eqb_spec d 1) as [E1|N1].
  - specialize (Hd1 E1). subst d. subst p. constructor.
    + lia.
    + intros i Hi. rewrite Hoth by lia. apply Hlow. lia.
    + intros i Hi. destruct (Z.eq_dec i m) as [->|]; [lia|]. rewrite Hoth by lia.
      apply Hhi. lia.
    + intros i j Hi Hij Hj.
      destruct (Z.eq_dec i m) as [->|Hi'], (Z.eq_dec j m) as [->|Hj']; try lia.
      * rewrite Enb', (Hoth j) by lia. specialize (Hnext j ltac:(lia)). lia.
      * rewrite Enb', (Hoth i) by lia. pose proof (Hlow i ltac:(lia)). lia.
      * rewrite !Hoth by lia. apply Hmon; lia.
    + rewrite (kraft_upd nb nb' K L m) by (first [lia | exact Hoth]).
      rewrite Hkr, Enb, Enb'. replace (L - (L - 1)) with 1 by lia.
      replace (L - (L - 1 + 1)) with 0 by lia. change (1 - 1) with 0.
      change (2^1) with 2. change (2^0) with 1. lia.
  - constructor.
    + lia.
    + intros i Hi. destruct (Z.eq_dec i p) as [->|]; [lia|]. rewrite Hoth by lia.
      apply Hlow. lia.
    + intros i Hi. rewrite Hoth by lia. apply Hhi. lia.
    + intros i j Hi Hij Hj.
      destruct (Z.eq_dec i p) as [->|Hi'], (Z.eq_dec j p) as [->|Hj']; try lia.
      * rewrite Enb', (Hoth j) by lia. specialize (Hnext j ltac:(lia)). lia.
      * rewrite Enb', (Hoth i) by lia.
        pose proof (Hmon i p ltac:(lia) ltac:(lia) ltac:(lia)). lia.
      * rewrite !Hoth by lia. apply Hmon; lia.
    + rewrite (kraft_upd nb nb' K L p) by (first [lia | exact Hoth]).
      rewrite Hkr, Enb, Enb'. replace (L - (L - d)) with d by lia.
      replace (L - (L - d + 1)) with (d - 1) by lia.
      rewrite (pow2_double d) by lia. lia.
Qed.

Lemma noSymbol_large : noSymbol = 4042322160.
Proof. reflexivity. Qed.

(** What becomes of [rankLast] when the last leaf of a rank moves to the
    rank below. *)
Lemma ranks_move (nb nb' rl rl' : Z -> Z) (p d : Z) :
  rank_last_ok nb K L (-1) rl ->
  (forall i j, 0 <= i -> i <= j -> j <= K -> nb i <= nb j) ->
  1 <= d <= 12 -> 0 <= p <= K -> nb p = L - d ->
  (forall i, p < i <= K -> nb i <> L - d) ->
  nb' p = L - d + 1 -> (forall i, i <> p -> nb' i = nb i) ->
  rl' d = (if p =? 0 then noSymbol else if nb (p - 1) =? L - d then p - 1 else noSymbol) ->
  (2 <= d -> rl' (d - 1) = if rl (d - 1) =? noSymbol then p else rl (d - 1)) ->
  (forall e, 1 <= e <= 12 -> e <> d -> e <> d - 1 -> rl' e = rl e) ->
  rank_last_ok nb' K L (-1) rl'.
Proof.
  intros Hrl Hmon Hd Hp Enb Hlast Enb' Hoth Rd Rd1 Re e He.
  pose proof noSymbol_large as HnoS.
  destruct (Z.eq_dec e d) as [->|Ned].
  - rewrite Rd. destruct (Z.eqb_spec p 0) as [E0|N0].
    + left. split; [reflexivity|]. intros i Hi.
      destruct (Z.eq_dec i p) as [->|]; [lia|]. rewrite Hoth by assumption. apply Hlast. lia.
    + destruct (Z.eqb_spec (nb (p - 1)) (L - d)) as [Eq|Nq].
      * right. split; [lia|]. split; [rewrite Hoth by lia; exact Eq|]. intros i Hi.
        destruct (Z.eq_dec i p) as [->|]; [lia|]. rewrite Hoth by assumption.
        apply Hlast. lia.
      * left. split; [reflexivity|]. intros i Hi.
        destruct (Z.eq_dec i p) as [->|]; [lia|]. rewrite Hoth by assumption.
        destruct (Z_lt_dec p i) as [|Hge]; [apply Hlast; lia|].
        pose proof (Hmon i (p - 1) ltac:(lia) ltac:(lia) ltac:(lia)).
        pose proof (Hmon (p - 1) p ltac:(lia) ltac:(lia) ltac:(lia)). lia.
  - destruct (Z.eq_dec e (d - 1)) as [->|Ned1].
    + rewrite Rd1 by lia. destruct (Z.eqb_spec (rl (d - 1)) noSymbol) as [El|Nl].
      * right. split; [lia|]. split; [lia|]. intros i Hi. rewrite Hoth by lia.
        destruct (Hrl (d - 1) He) as [[_ B] | (A & _)]; [apply B; lia | lia].
      * destruct (rank_last_pos _ _ _ (d - 1) Hrl He Nl) as (A & B & C).
        assert (Hrp : rl (d - 1) <> p) by (intros Hx; rewrite Hx in B; lia).
        right. split; [exact A|]. split; [rewrite Hoth by exact Hrp; exact B|].
        intros i Hi. destruct (Z.eq_dec i p) as [->|].
        -- pose proof (Hmon (rl (d - 1)) p ltac:(lia) ltac:(lia) ltac:(lia)). lia.
        -- rewrite Hoth by assumption. apply C. exact Hi.
    + rewrite Re by assumption.
      assert (Hsame : forall i, nb i <> L - e -> nb' i <> L - e).
      { intros i Hi. destruct (Z.eq_dec i p) as [->|]; [lia|]. rewrite Hoth by assumption.
        exact Hi. }
      destruct (Hrl e He) as [[A B] | (A & B & C)].
      * left. split; [exact A|]. intros i Hi. apply Hsame. apply B. exact Hi.
      * right. split; [exact A|].
        assert (Hrp : rl e <> p) by (intros Hx; rewrite Hx in B; lia).
        split; [rewrite Hoth by exact Hrp; exact B|].
        intros i Hi. apply Hsame. apply C. exact Hi.
Qed.

(** When all the leaves have the length [L] the Kraft sum is their number. *)
Lemma all_long (nb : Z -> Z) (m T : Z) : lengths_inv nb K L m T -> 0 < T -> 0 <= m.
Proof.
  intros [Hm Hlow Hhi Hmon Hkr] HT.
  destruct (Z_le_dec 0 m) as [|Hneg]; [assumption | exfalso].
  unfold kraft_at in Hkr.
  rewrite (zsum_ext _ (fun _ => 1)) in Hkr.
  - rewrite zsum_const in Hkr. lia.
  - intros i Hi. rewrite Hhi by lia. rewrite Z.sub_diag. reflexivity.
Qed.

(** When no leaf has a length between [L - d] and [L], the Kraft sum is the
    number of leaves of length [L] up to a multiple of [2^d]. *)
Lemma kraft_split (nb : Z -> Z) (m T d : Z) :
  lengths_inv nb K L m T -> 0 <= d ->
  (forall i, 0 <= i <= m -> nb i <= L - d) ->
  exists X, kraft_at nb K L = 2^d * X + (K - m).
Proof.
  intros [Hm Hlow Hhi Hmon Hkr] Hd Hshort.
  exists (zsum (fun i => 2^(L - d - nb i)) (Z.to_nat (m + 1)) 0).
  unfold kraft_at.
  replace (Z.to_nat (K + 1)) with (Z.to_nat (m + 1) + Z.to_nat (K - m))%nat by lia.
  rewrite zsum_app. f_equal.
  - rewrite <- zsum_scale. apply zsum_ext. intros i Hi.
    specialize (Hshort i ltac:(lia)). rewrite <- pow2_split by lia. f_equal. lia.
  - rewrite (zsum_ext _ (fun _ => 1)).
    + rewrite zsum_const. lia.
    + intros i Hi. rewrite Hhi by lia. rewrite Z.sub_diag. reflexivity.
Qed.

(** The cost after one repayment: it stays below the number of leaves of
    length [L], and an overshoot is at most this number. *)
Lemma repay_cost (nb : Z -> Z) (m T d : Z) :
  lengths_inv nb K L m T -> 0 < T -> T < K - m -> 1 <= d <= L - 1 ->
  (2^(d - 1) <= T \/ forall i, 0 <= i <= m -> nb i <= L - d) ->
  (0 < T - 2^(d - 1) -> T - 2^(d - 1) < K - (if d =? 1 then m - 1 else m))
  /\ (T - 2^(d - 1) <= 0 ->
      0 <= K - (if d =? 1 then m - 1 else m) + (T - 2^(d - 1))
      /\ (T - 2^(d - 1) < 0 -> 0 <= (if d =? 1 then m - 1 else m))).
Proof.
  intros Hinv HT HTm Hd Hcase.
  pose proof (all_long nb m T Hinv HT) as Hm0.
  pose proof (li_m _ _ _ _ _ Hinv) as Hm.
  pose proof (pow2_pos (d - 1) ltac:(lia)) as Hp1.
  destruct (Z_le_dec (2^(d - 1)) T) as [Hle|Hgt].
  - destruct (Z.eqb_spec d 1); split; intros; try split; intros; lia.
  - destruct Hcase as [Hc|Hshort]; [lia|].
    assert (Hd2 : 2 <= d).
    { destruct (Z.eq_dec d 1) as [->|]; [change (2^(1 - 1)) with 1 in Hgt; lia | lia]. }
    destruct (Z.eqb_spec d 1) as [|_]; [lia|].
    destruct (kraft_split nb m T d Hinv ltac:(lia) Hshort) as (X & HX).
    rewrite (li_kraft _ _ _ _ _ Hinv) in HX.
    assert (HL2 : 2^L = 2^d * 2^(L - d)).
    { rewrite <- pow2_split by lia. f_equal. lia. }
    pose proof (pow2_double d ltac:(lia)) as Hdd.
    assert (Hdiff : K - m - T = 2^d * (2^(L - d) - X)) by lia.
    assert (1 <= 2^(L - d) - X) by nia.
    assert (2^d <= K - m - T) by nia.
    split; intros; try split; intros; lia.
Qed.

(** The rank the code takes a leaf from. *)
Lemma repay_choice (t : nodeTable) (n2 m T : Z) (rl : Z -> Z) :
  repay_inv t0 t K L n2 m T rl -> 0 < T ->
  exists d1 d,
    BIT_highbit32 (U32 T) = Ret (Z.log2 T)
    /\ U32 (Z.log2 T + 1) = Z.log2 T + 1
    /\ scan_ranks (Z.to_nat (Z.log2 T + 1)) t rl (Z.log2 T + 1) = Ret d1
    /\ while_loop 16 (bump_cond rl) bump_body d1 = Ret d
    /\ 1 <= d <= L - 1 /\ rl d <> noSymbol
    /\ (2^(d - 1) <= T \/ forall i, 0 <= i <= m -> nbf t i <= L - d).
Proof.
  intros [Hs Hlen Hn Hrl Hpos Hneg] HT. specialize (Hpos HT).
  pose proof (all_long _ m T Hlen HT) as Hm0.
  pose proof (li_m _ _ _ _ _ Hlen) as Hm.
  pose proof (li_low _ _ _ _ _ Hlen) as Hlow.
  assert (HT8 : T < 2^8) by (change (2^8) with 256; lia).
  pose proof (Z.log2_nonneg T) as Hl0.
  assert (Hl8 : Z.log2 T < 8) by (apply Z.log2_lt_pow2; lia).
  destruct (Z.log2_spec T HT) as [Hlo Hhi'].
  destruct (scan_spec t rl Hrl (Z.to_nat (Z.log2 T + 1)) (Z.log2 T + 1) ltac:(lia) ltac:(lia))
    as (d1 & E1 & Hd1 & Hor).
  (* a rank that is not empty *)
  pose proof (Hlow m ltac:(lia)) as Hnm.
  assert (Hstar : rl (L - nbf t m) <> noSymbol).
  { intros Hx. destruct (Hrl (L - nbf t m) ltac:(lia)) as [[_ B] | (A & _)].
    - apply (B m); lia.
    - pose proof noSymbol_large. lia. }
  assert (Hb : exists d, while_loop 16 (bump_cond rl) bump_body d1 = Ret d
                 /\ d1 <= d <= 12 /\ rl d <> noSymbol
                 /\ (d1 < d -> forall e, 1 <= e < d -> rl e = noSymbol)).
  { destruct (Z.eq_dec (rl d1) noSymbol) as [Ee|Ne].
    - assert (d1 = 1) by (destruct Hor; [assumption | contradiction]). subst d1.
      destruct (bump_spec rl 1 (L - nbf t m)) as (d & E & Hd & Hne & Hempty);
        [lia | lia | lia | exact Hstar |].
      exists d. split; [exact E|]. split; [lia|]. split; [exact Hne|]. intros _. exact Hempty.
    - destruct (bump_spec rl d1 d1) as (d & E & Hd & Hne & Hempty);
        [lia | lia | lia | exact Ne |].
      exists d. split; [exact E|]. split; [lia|]. split; [exact Hne|]. intros Hlt. lia. }
  destruct Hb as (d & E & Hd & Hne & Hempty).
  destruct (rank_last_pos _ _ _ d Hrl ltac:(lia) Hne) as (Hp & Hnp & _).
  assert (Hpm : rl d <= m).
  { destruct (Z_le_dec (rl d) m) as [|H]; [assumption|].
    rewrite (li_high _ _ _ _ _ Hlen) in Hnp by lia. lia. }
  pose proof (Hlow (rl d) ltac:(lia)) as Hnpr.
  exists d1, d. split.
  { rewrite U32_small by lia. unfold BIT_highbit32.
    rewrite (proj2 (Z.ltb_lt 0 T) HT). reflexivity. }
  split; [apply U32_small; lia|]. split; [exact E1|]. split; [exact E|].
  split; [lia|]. split; [exact Hne|].
  destruct (Z_lt_dec d1 d) as [Hlt|Hge].
  - right. intros i Hi. specialize (Hempty Hlt).
    pose proof (Hlow i Hi) as Hni.
    destruct (Z_le_dec (nbf t i) (L - d)) as [|Hbig]; [assumption | exfalso].
    assert (He : rl (L - nbf t i) = noSymbol) by (apply Hempty; lia).
    destruct (Hrl (L - nbf t i) ltac:(lia)) as [[_ B] | (A & _)].
    + apply (B i); lia.
    + pose proof noSymbol_large. lia.
  - left. assert (d = d1) by lia. subst d.
    apply Z.le_trans with (2^(Z.log2 T)); [apply pow2_le; lia | exact Hlo].
Qed.

(** One round of the repayment. *)
Lemma repay_step (t : nodeTable) (n2 m T : Z) (rl : Z -> Z) :
  repay_inv t0 t K L n2 m T rl -> 0 < T ->
  exists t' T' rl' m',
    repay_body L (t, T, rl) = Ret (t', T', rl')
    /\ repay_inv t0 t' K L n2 m' T' rl' /\ T' < T.
Proof.
  intros I HT.
  destruct (repay_choice t n2 m T rl I HT) as (d1 & d & Eh & Eu & Es & Eb & Hd & Hne & Hcase).
  destruct I as [Hs Hlen Hn Hrl Hpos Hneg]. specialize (Hpos HT).
  destruct (rank_last_pos _ _ _ d Hrl ltac:(lia) Hne) as (Hp & Hnp & Hlast).
  set (p := rl d) in *.
  pose proof (pow2_small (d - 1) ltac:(lia)) as Hsh.
  assert (Hsh' : 2^(d - 1) <= 1024).
  { change 1024 with (2^10). apply pow2_le. lia. }
  set (nb' := fun i => if i =? p then L - d + 1 else nbf t i).
  set (m' := if d =? 1 then m - 1 else m).
  destruct (lengths_move (nbf t) nb' m T p d Hlen ltac:(lia) ltac:(lia) Hnp Hlast)
    as (Hpm & Hd1 & Hlen').
  { unfold nb'. rewrite Z.eqb_refl. reflexivity. }
  { intros i Hi. unfold nb'. destruct (Z.eqb_spec i p); [contradiction | reflexivity]. }
  fold m' in Hlen'.
  destruct (repay_cost (nbf t) m T d Hlen HT Hpos Hd Hcase) as [Hpos' Hneg'].
  fold m' in Hpos', Hneg'.
  set (rl1 := if rl (d - 1) =? noSymbol then upd rl (d - 1) p else rl).
  assert (E1 : (if rl (d - 1) =? noSymbol then rl_set rl (d - 1) p else Ret rl) = Ret rl1).
  { unfold rl1. destruct (rl (d - 1) =? noSymbol); [apply rl_set_in; lia | reflexivity]. }
  assert (R1a : rl1 d = p).
  { unfold rl1. destruct (rl (d - 1) =? noSymbol); [apply upd_other; lia | reflexivity]. }
  assert (R1b : rl1 (d - 1) = if rl (d - 1) =? noSymbol then p else rl (d - 1)).
  { unfold rl1. destruct (rl (d - 1) =? noSymbol); [apply upd_same | reflexivity]. }
  assert (R1c : forall e, e <> d - 1 -> rl1 e = rl e).
  { intros e He. unfold rl1. destruct (rl (d - 1) =? noSymbol); [apply upd_other; lia|].
    reflexivity. }
  set (t' := upd t p (set_nbBits (t p) (L - d + 1))).
  assert (Enb' : forall i, nbf t' i = nb' i).
  { intros i. unfold t'. rewrite nbf_upd. reflexivity. }
  assert (Hfin : forall rl',
            rl' d = (if p =? 0 then noSymbol
                     else if nbf t (p - 1) =? L - d then p - 1 else noSymbol) ->
            (forall e, e <> d -> rl' e = rl1 e) ->
            repay_inv t0 t' K L n2 m' (T - 2^(d - 1)) rl').
  { intros rl' Rd Re. constructor.
    - apply same_nodes_upd; [exact Hs | lia].
    - destruct Hlen' as [A B C D E]. constructor; try assumption.
      + intros i Hi. rewrite Enb'. apply B. exact Hi.
      + intros i Hi. rewrite Enb'. apply C. exact Hi.
      + intros i j Hi Hij Hj. rewrite !Enb'. apply D; assumption.
      + rewrite (kraft_ext nb' (nbf t')); [exact E|]. intros i _. apply Enb'.
    - unfold m'. destruct (d =? 1); lia.
    - apply (ranks_move (nbf t) (nbf t') rl rl' p d Hrl (li_mono _ _ _ _ _ Hlen));
        try assumption; try lia.
      + rewrite Enb'. unfold nb'. rewrite Z.eqb_refl. reflexivity.
      + intros i Hi. rewrite Enb'. unfold nb'.
        destruct (Z.eqb_spec i p); [contradiction | reflexivity].
      + intros Hd2. rewrite Re by lia. exact R1b.
      + intros e He Hed Hed1. rewrite Re by exact Hed. apply R1c. exact Hed1.
    - exact Hpos'.
    - exact Hneg'. }
  (* the code *)
  unfold repay_body. rewrite Eh, bind_ret. cbv zeta. rewrite Eu.
  rewrite Es, bind_ret. rewrite Eb, bind_ret.
  rewrite (U32_small (d - 1)) by lia. rewrite shl1_pow2 by lia. rewrite bind_ret.
  rewrite S32_small by lia.
  rewrite (rl_get_in rl (d - 1)) by lia. rewrite bind_ret.
  rewrite (rl_get_in rl d) by lia. rewrite bind_ret. fold p.
  rewrite E1, bind_ret.
  rewrite (rl_get_in rl1 d) by lia. rewrite !bind_ret. rewrite R1a.
  rewrite (rd_in t p) by lia. rewrite bind_ret.
  fold (nbf t p). rewrite Hnp. rewrite BYTE_small by lia.
  rewrite wr_in by lia. rewrite bind_ret. fold t'. rewrite bind_ret.
  destruct (Z.eqb_spec p 0) as [E0|N0].
  - rewrite rl_set_in by lia. rewrite bind_ret.
    eexists _, _, _, m'. split; [reflexivity|]. split; [|lia].
    apply Hfin.
    + rewrite upd_same. reflexivity.
    + intros e He. apply upd_other. exact He.
  - rewrite (U32_small (p - 1)) by lia. rewrite rl_set_in by lia. rewrite bind_ret.
    rewrite rl_get_in by lia. rewrite bind_ret. rewrite upd_same.
    rewrite rd_in by lia. rewrite bind_ret.
    fold (nbf t' (p - 1)). rewrite Enb'. unfold nb' at 1.
    destruct (Z.eqb_spec (p - 1) p) as [|_]; [lia|].
    rewrite (U32_small (L - d)) by lia.
    destruct (Z.eqb_spec (nbf t (p - 1)) (L - d)) as [Eq|Nq]; cbn [negb].
    + eexists _, _, _, m'. split; [reflexivity|]. split; [|lia].
      apply Hfin.
      * rewrite upd_same. reflexivity.
      * intros e He. apply upd_other. exact He.
    + rewrite rl_set_in by lia. rewrite bind_ret.
      eexists _, _, _, m'. split; [reflexivity|]. split; [|lia].
      apply Hfin.
      * rewrite upd_same. reflexivity.
      * intros e He. rewrite upd_other by exact He. apply upd_other. exact He.
Qed.

(** The repayment ends, with a cost that is null or negative. *)
Lemma repay_loop (t : nodeTable) (n2 m T : Z) (rl : Z -> Z) :
  repay_inv t0 t K L n2 m T rl ->
  exists t' T' rl' m',
    while_loop (S (Z.to_nat T)) repay_cond (repay_body L) (t, T, rl) = Ret (t', T', rl')
    /\ repay_inv t0 t' K L n2 m' T' rl' /\ T' <= 0.
Proof.
  intros I.
  destruct (while_loop_inv
    (fun s : nodeTable * Z * (Z -> Z) =>
       let '(t, T, rl) := s in exists m, repay_inv t0 t K L n2 m T rl)
    (fun s : nodeTable * Z * (Z -> Z) => let '(_, T, _) := s in Z.max 0 T)
    repay_cond (repay_body L)) with (fuel := S (Z.to_nat T)) (s := (t, T, rl))
    as (s' & E & I' & C).
  - intros [[t1 T1] rl1] _. lia.
  - intros [[t1 T1] rl1] (m1 & I1). unfold repay_cond.
    eexists. split; [reflexivity|]. intros Hc. apply Z.ltb_lt in Hc.
    destruct (repay_step t1 n2 m1 T1 rl1 I1 Hc) as (t' & T' & rl' & m' & E & I' & Hlt).
    exists (t', T', rl'). split; [exact E|]. split; [exists m'; exact I' | lia].
  - exists m. exact I.
  - cbv beta iota. lia.
  - destruct s' as [[t' T'] rl']. destruct I' as (m' & I').
    unfold repay_cond in C. assert (C' : (0 <? T') = false) by congruence.
    apply Z.ltb_ge in C'.
    exists t', T', rl', m'. split; [exact E|]. split; [exact I' | exact C'].
Qed.

Lemma over_inv_init (t : nodeTable) (n2 m T : Z) (rl : Z -> Z) :
  repay_inv t0 t K L n2 m T rl -> T <= 0 -> over_inv t0 t K L m T n2 rl.
Proof.
  intros [Hs Hlen Hn Hrl Hpos Hneg] HT. destruct (Hneg HT) as [Hc Hsh].
  constructor; try assumption.
  destruct (Hrl 1 ltac:(lia)) as [[A B] | (A & B & C)].
  - left. split; [exact A | exact Hn].
  - right. set (r := rl 1) in *.
    assert (Hrm : r <= m).
    { destruct (Z_le_dec r m) as [|H]; [assumption|].
      rewrite (li_high _ _ _ _ _ Hlen) in B by lia. lia. }
    split; [|lia]. destruct (Z.eq_dec r m) as [|Hne]; [assumption | exfalso].
    pose proof (li_low _ _ _ _ _ Hlen m ltac:(lia)).
    pose proof (li_mono _ _ _ _ _ Hlen r m ltac:(lia) ltac:(lia) ltac:(lia)).
    apply (C m); lia.
Qed.

(** One correction: the first leaf of length [L] loses one bit. *)
Lemma over_step (t : nodeTable) (m T n : Z) (rl : Z -> Z) :
  over_inv t0 t K L m T n rl -> T < 0 ->
  exists t' n' rl',
    overshoot_body L (t, T, n, rl) = Ret (t', T + 1, n', rl')
    /\ over_inv t0 t' K L (m + 1) (T + 1) n' rl'.
Proof.
  intros [Hs Hlen HT Hc Hsh Hrk] Hneg. specialize (Hsh Hneg).
  pose proof (li_m _ _ _ _ _ Hlen) as Hm.
  pose proof (li_low _ _ _ _ _ Hlen) as Hlow.
  pose proof (li_high _ _ _ _ _ Hlen) as Hhi.
  pose proof (li_mono _ _ _ _ _ Hlen) as Hmon.
  pose proof (Hlow m ltac:(lia)) as Hnm. pose proof (Hlow 0 ltac:(lia)) as Hn0.
  pose proof (Hhi (m + 1) ltac:(lia)) as Hnext.
  pose proof noSymbol_large as HnoS.
  set (t' := upd t (m + 1) (set_nbBits (t (m + 1)) (L - 1))).
  assert (Enb' : forall i, nbf t' i = if i =? m + 1 then L - 1 else nbf t i).
  { intros i. unfold t'. apply nbf_upd. }
  assert (Hfin : forall n' rl', rl' 1 = m + 1 -> over_inv t0 t' K L (m + 1) (T + 1) n' rl').
  { intros n' rl' Hr. constructor.
    - apply same_nodes_upd; [exact Hs | lia].
    - constructor.
      + lia.
      + intros i Hi. rewrite Enb'. destruct (Z.eqb_spec i (m + 1)); [lia | apply Hlow; lia].
      + intros i Hi. rewrite Enb'. destruct (Z.eqb_spec i (m + 1)); [lia | apply Hhi; lia].
      + intros i j Hi Hij Hj. rewrite !Enb'.
        destruct (Z.eqb_spec i (m + 1)) as [->|Hi'], (Z.eqb_spec j (m + 1)) as [->|Hj'];
          try lia.
        * rewrite Hhi by lia. lia.
        * pose proof (Hlow i ltac:(lia)). lia.
        * apply Hmon; lia.
      + rewrite (kraft_upd (nbf t) (nbf t') K L (m + 1)) by
          (first [lia | intros i Hi; rewrite Enb';
                        destruct (Z.eqb_spec i (m + 1)); [contradiction | reflexivity]]).
        rewrite (li_kraft _ _ _ _ _ Hlen), Hnext, Enb', Z.eqb_refl.
        rewrite Z.sub_diag. replace (L - (L - 1)) with 1 by lia.
        change (2^0) with 1. change (2^1) with 2. lia.
    - lia.
    - lia.
    - intros _. lia.
    - right. split; [exact Hr | lia]. }
  unfold overshoot_body. rewrite rl_get_in by lia. rewrite bind_ret.
  destruct Hrk as [[Er Hn] | [Er _]].
  - rewrite Er, Z.eqb_refl.
    rewrite (skip_loop t n m) by (first [lia | assumption | intros i Hi; apply Hhi; lia]).
    rewrite bind_ret. rewrite (U32_small (m + 1)) by lia.
    rewrite rd_in by lia. rewrite bind_ret. fold (nbf t (m + 1)). rewrite Hnext.
    rewrite BYTE_small by lia. rewrite wr_in by lia. rewrite bind_ret. fold t'.
    rewrite rl_set_in by lia. rewrite bind_ret. rewrite S32_small by lia.
    eexists _, _, _. split; [reflexivity|]. apply Hfin. apply upd_same.
  - rewrite Er. destruct (Z.eqb_spec m noSymbol) as [|_]; [lia|].
    rewrite (U32_small (m + 1)) by lia.
    rewrite rd_in by lia. rewrite bind_ret. fold (nbf t (m + 1)). rewrite Hnext.
    rewrite BYTE_small by lia. rewrite wr_in by lia. rewrite bind_ret. fold t'.
    rewrite rl_set_in by lia. rewrite bind_ret. rewrite S32_small by lia.
    eexists _, _, _. split; [reflexivity|]. apply Hfin. apply upd_same.
Qed.

(** The corrections end with a null cost. *)
Lemma over_loop (t : nodeTable) (m T n : Z) (rl : Z -> Z) :
  over_inv t0 t K L m T n rl ->
  exists t' n' rl' m',
    while_loop (S (Z.to_nat (- T))) overshoot_cond (overshoot_body L) (t, T, n, rl)
    = Ret (t', 0, n', rl')
    /\ over_inv t0 t' K L m' 0 n' rl'.
Proof.
  intros I.
  destruct (while_loop_inv
    (fun s : nodeTable * Z * Z * (Z -> Z) =>
       let '(t, T, n, rl) := s in exists m, over_inv t0 t K L m T n rl)
    (fun s : nodeTable * Z * Z * (Z -> Z) => let '(_, T, _, _) := s in - T)
    overshoot_cond (overshoot_body L)) with (fuel := S (Z.to_nat (- T))) (s := (t, T, n, rl))
    as (s' & E & I' & C).
  - intros [[[t1 T1] n1] rl1] (m1 & I1). pose proof (oi_T _ _ _ _ _ _ _ _ I1). lia.
  - intros [[[t1 T1] n1] rl1] (m1 & I1). unfold overshoot_cond.
    eexists. split; [reflexivity|]. intros Hc. apply Z.ltb_lt in Hc.
    destruct (over_step t1 m1 T1 n1 rl1 I1 Hc) as (t' & n' & rl' & E & I').
    exists (t', T1 + 1, n', rl'). split; [exact E|]. split; [exists (m1 + 1); exact I' | lia].
  - exists m. exact I.
  - pose proof (oi_T _ _ _ _ _ _ _ _ I). cbv beta iota. lia.
  - destruct s' as [[[t' T'] n'] rl']. destruct I' as (m' & I').
    unfold overshoot_cond in C. assert (C' : (T' <? 0) = false) by congruence.
    apply Z.ltb_ge in C'. pose proof (oi_T _ _ _ _ _ _ _ _ I').
    assert (T' = 0) by lia. subst T'.
    exists t', n', rl', m'. split; [exact E | exact I'].
Qed.

(** The tree is too high: the lengths are cut to [L] and the cost is repaid. *)
Lemma setMaxHeight_clamped :
  exists t', HUF_setMaxHeight t0 K L = Ret (t', L) /\ length_limited t0 t' K L.
Proof.
  pose proof (Hrange K ltac:(lia)) as HlK.
  destruct clamp_loop as (t1 & T1 & n1 & E1 & Hs1 & Hn1 & Hhi1 & Hlo1 & Hkr1 & HT0 & HT1).
  destruct (after_clamp t1 T1 n1 Hn1 Hhi1 Hlo1 Hkr1 HT0 HT1) as (m & Hm & Hlen & HT2).
  set (lg := nbf t0 K) in *. set (T2 := Z.shiftr T1 (lg - L)) in *.
  pose proof (li_low _ _ _ _ _ Hlen m ltac:(lia)) as Hnm.
  destruct (rankLast_loop t1 m T2 Hlen ltac:(lia)) as (cur & rl & Erl & Hrl).
  assert (I2 : repay_inv t0 t1 K L m m T2 rl).
  { constructor; try assumption; lia. }
  destruct (repay_loop t1 m m T2 rl I2) as (t3 & T3 & rl3 & m3 & E3 & I3 & HT3).
  pose proof (over_inv_init t3 m m3 T3 rl3 I3 HT3) as I3'.
  destruct (over_loop t3 m3 T3 m rl3 I3') as (t4 & n4 & rl4 & m4 & E4 & I4).
  exists t4. split.
  - unfold HUF_setMaxHeight. rewrite rd_in by lia. rewrite bind_ret. cbv zeta.
    fold (nbf t0 K). fold lg. rewrite (proj2 (Z.leb_gt lg L)) by lia.
    rewrite (U32_small (lg - L)) by lia. rewrite shl1_pow2 by lia. rewrite !bind_ret.
    pose proof (pow2_small (lg - L) ltac:(lia)).
    rewrite (U32_small (2^(lg - L))) by lia.
    rewrite (bind_eq _ _ _ E1). cbv beta iota.
    rewrite (skip_loop t1 n1 m) by
      (first [lia | intros i Hi; apply (li_high _ _ _ _ _ Hlen); lia]).
    rewrite bind_ret. rewrite (S32_small m) by lia. fold T2.
    rewrite (bind_eq _ _ _ Erl). cbv beta iota.
    rewrite (bind_eq _ _ _ E3). cbv beta iota.
    rewrite (bind_eq _ _ _ E4). cbv beta iota. reflexivity.
  - destruct I4 as [Hs4 Hlen4 _ _ _ _]. destruct Hlen4 as [A B C D E].
    constructor.
    + exact Hs4.
    + intros i Hi. destruct (Z_le_dec i m4) as [H|H].
      * pose proof (B i ltac:(lia)). unfold nbf in *. lia.
      * pose proof (C i ltac:(lia)). unfold nbf in *. lia.
    + exact D.
    + rewrite E. lia.
Qed.

End SetMaxProof.

(** [HUF_setMaxHeight] on a tree that satisfies Kraft equality, has its
    lengths in increasing order and at most [2^L] leaves: it completes; the
    lengths are then at most the value it returns, which is at most [L], are
    still in increasing order and still satisfy Kraft equality. *)
Lemma HUF_setMaxHeight_spec (t0 : nodeTable) (K L : Z) :
  1 <= K <= 255 -> 1 <= L <= 12 -> K + 1 <= 2^L ->
  (forall i, 0 <= i <= K -> 1 <= nbf t0 i <= 24) ->
  (forall i j, 0 <= i -> i <= j -> j <= K -> nbf t0 i <= nbf t0 j) ->
  kraft_at (nbf t0) K 24 = 2^24 ->
  exists t' L', HUF_setMaxHeight t0 K L = Ret (t', L')
                /\ 1 <= L' <= L /\ length_limited t0 t' K L'.
Proof.
  intros HK HL Hfeas Hrange Hmono Hkraft.
  destruct (Z_le_dec (nbf t0 K) L) as [Hle|Hgt].
  - destruct (setMaxHeight_early t0 K L) as [E H]; try assumption.
    exists t0, (nbf t0 K). split; [exact E|]. split; [|exact H].
    pose proof (Hrange K ltac:(lia)). lia.
  - destruct (setMaxHeight_clamped t0 K L) as (t' & E & H); try assumption; try lia.
    exists t', L. split; [exact E|]. split; [lia | exact H].
Qed.

(** * HUF_fillCTable *)

Lemma pr_get_in (a : Z -> Z) (i : Z) : 0 <= i <= 12 -> pr_get a i = Ret (a i).
Proof. intros H. unfold pr_get. apply aget_in. unfold HUF_TABLELOG_MAX. lia. Qed.

Lemma pr_set_in (a : Z -> Z) (i v : Z) : 0 <= i <= 12 -> pr_set a i v = Ret (upd a i v).
Proof. intros H. unfold pr_set. apply aset_in. unfold HUF_TABLELOG_MAX. lia. Qed.

(** The number of leaves of every length. *)
Lemma count_rank_loop (t : nodeTable) (K : Z) :
  0 <= K <= 255 ->
  (forall i, 0 <= i <= K -> 0 <= nbf t i <= 12) ->
  exists nb, for_up (Z.to_nat (K + 1)) 0 (count_rank_body t) (fun _ => 0) = Ret nb
             /\ forall r, nb r = rank_count t K r.
Proof.
  intros HK Hr.
  destruct (for_up_inv
              (fun j a => forall r, a r = zsum (fun i => indicator (nbf t i =? r)) (Z.to_nat j) 0)
              (count_rank_body t) (Z.to_nat (K + 1)) 0 (fun _ => 0)) as (nb & E & I).
  - intros r. reflexivity.
  - intros j a Hj Ha. unfold count_rank_body.
    rewrite rd_in by lia. rewrite bind_ret. fold (nbf t j).
    rewrite pr_get_in by (apply Hr; lia). rewrite bind_ret.
    rewrite pr_set_in by (apply Hr; lia).
    eexists. split; [reflexivity|]. intros r.
    replace (Z.to_nat (j + 1)) with (S (Z.to_nat j)) by lia.
    rewrite zsum_snoc, Z.add_0_l, Z2Nat.id by lia.
    destruct (Z.eqb_spec (nbf t j) r) as [<-|Hne]; cbn [indicator].
    + rewrite upd_same, Ha. apply U16_small.
      pose proof (indicator_sum_bounds (fun i => nbf t i =? nbf t j) (Z.to_nat j) 0). lia.
    + rewrite upd_other by congruence. rewrite Ha. lia.
  - exists nb. split; [exact E|]. intros r. rewrite I. unfold rank_count. f_equal. lia.
Qed.

(** The first value of every rank. *)
Lemma start_val_loop (nb : Z -> Z) (L : Z) (vpr0 : Z -> Z) :
  0 <= L <= 12 ->
  (forall r, 0 <= nb r <= 256) ->
  exists vpr min,
    for_down (Z.to_nat L) L (start_val_body nb) (vpr0, 0) = Ret (vpr, min)
    /\ (forall r, 1 <= r <= L -> vpr r = rank_start nb L (Z.to_nat (L - r)))
    /\ (forall r, ~ 1 <= r <= L -> vpr r = vpr0 r).
Proof.
  intros HL Hnb.
  destruct (for_down_inv
              (fun j (s : (Z -> Z) * Z) =>
                 snd s = rank_start nb L (Z.to_nat (L - j))
                 /\ (forall r, j < r <= L -> fst s r = rank_start nb L (Z.to_nat (L - r)))
                 /\ (forall r, ~ j < r <= L -> fst s r = vpr0 r))
              (start_val_body nb) (Z.to_nat L) L (vpr0, 0)) as ([vpr min] & E & I1 & I2 & I3).
  - cbn [fst snd]. rewrite Z.sub_diag. split; [reflexivity|].
    split; [intros; lia | reflexivity].
  - intros j [vpr min] Hj (Hm & Ha & Hb). cbn [fst snd] in *.
    unfold start_val_body.
    rewrite pr_set_in by lia. rewrite bind_ret.
    rewrite pr_get_in by lia. rewrite bind_ret.
    eexists. split; [reflexivity|]. cbn [fst snd]. split; [|split].
    + replace (Z.to_nat (L - (j - 1))) with (S (Z.to_nat (L - j))) by lia.
      cbn [rank_start]. rewrite Z2Nat.id by lia.
      replace (L - (L - j)) with j by lia. rewrite <- Hm.
      pose proof (rank_start_bounds nb L 256 Hnb (Z.to_nat (L - j))).
      pose proof (Hnb j).
      rewrite U16_small by lia. rewrite Z.shiftr_div_pow2 by lia. reflexivity.
    + intros r Hr. destruct (Z.eq_dec r j) as [->|Hne].
      * rewrite upd_same. exact Hm.
      * rewrite upd_other by assumption. apply Ha. lia.
    + intros r Hr. rewrite upd_other by lia. apply Hb. lia.
  - cbn [fst snd] in *. exists vpr, min. split; [exact E|].
    replace (L - Z.of_nat (Z.to_nat L)) with 0 in * by lia.
    split; [intros r Hr; apply I2; lia | intros r Hr; apply I3; lia].
Qed.

(** The lengths go to the symbols. *)
Lemma push_bits_loop (t : nodeTable) (M : Z) (tree : HUF_CTable) :
  0 <= M <= 255 ->
  (forall i, 0 <= i <= M -> 0 <= byte (t i) <= M) ->
  (forall i j, 0 <= i <= M -> 0 <= j <= M -> byte (t i) = byte (t j) -> i = j) ->
  exists tree1,
    for_up (Z.to_nat (M + 1)) 0 (push_bits_body M t) tree = Ret tree1
    /\ forall i, 0 <= i <= M ->
         tree1 (byte (t i)) = mkCElt (val (tree (byte (t i)))) (nbf t i).
Proof.
  intros HM Hb Hinj.
  destruct (for_up_inv
              (fun j tr => (forall i, 0 <= i < j ->
                             tr (byte (t i)) = mkCElt (val (tree (byte (t i)))) (nbf t i))
                           /\ (forall i, j <= i <= M -> tr (byte (t i)) = tree (byte (t i))))
              (push_bits_body M t) (Z.to_nat (M + 1)) 0 tree) as (tree1 & E & I1 & I2).
  - split; [intros; lia | reflexivity].
  - intros j tr Hj (Ha & Hc). unfold push_bits_body, tree_get, tree_set.
    rewrite rd_in by lia. rewrite bind_ret.
    pose proof (Hb j ltac:(lia)) as Hbj.
    rewrite aget_in by lia. rewrite bind_ret. rewrite aset_in by lia.
    eexists. split; [reflexivity|]. split.
    + intros i Hi. destruct (Z.eq_dec i j) as [->|Hne].
      * rewrite upd_same. unfold set_bits. rewrite (Hc j) by lia. reflexivity.
      * rewrite upd_other by (intros Hx; apply Hne; apply Hinj; [lia | lia | exact Hx]).
        apply Ha. lia.
    + intros i Hi.
      rewrite upd_other by (intros Hx; apply Hinj in Hx; lia). apply Hc. lia.
  - exists tree1. split; [exact E|]. intros i Hi. apply I1. lia.
Qed.

(** The values, in the order of the symbols. *)
Lemma assign_val_loop (T : HUF_CTable) (M : Z) (vpr : Z -> Z) :
  0 <= M <= 255 ->
  (forall s, 0 <= s <= M -> 0 <= nbBits (T s) <= 12) ->
  (forall r, 0 <= vpr r <= 256) ->
  exists T2 vpr',
    for_up (Z.to_nat (M + 1)) 0 (assign_val_body M) (T, vpr) = Ret (T2, vpr')
    /\ (forall s, 0 <= s <= M ->
          T2 s = mkCElt (vpr (nbBits (T s))
                         + zsum (rank_indicator T (nbBits (T s))) (Z.to_nat s) 0)
                   (nbBits (T s)))
    /\ (forall s, ~ 0 <= s <= M -> T2 s = T s).
Proof.
  intros HM Hr Hv.
  destruct (for_up_inv
              (fun j (st : HUF_CTable * (Z -> Z)) =>
                 (forall r, snd st r = vpr r + zsum (rank_indicator T r) (Z.to_nat j) 0)
                 /\ (forall s, 0 <= s < j ->
                       fst st s = mkCElt (vpr (nbBits (T s))
                                  + zsum (rank_indicator T (nbBits (T s))) (Z.to_nat s) 0)
                                    (nbBits (T s)))
                 /\ (forall s, ~ 0 <= s < j -> fst st s = T s))
              (assign_val_body M) (Z.to_nat (M + 1)) 0 (T, vpr)) as ([T2 vpr'] & E & I1 & I2 & I3).
  - cbn [fst snd]. split; [intros r; simpl; lia|]. split; [intros; lia | reflexivity].
  - intros j [T' v] Hj (Ha & Hb & Hc). cbn [fst snd] in *.
    unfold assign_val_body, tree_get, tree_set.
    rewrite aget_in by lia. rewrite bind_ret.
    rewrite (Hc j) by lia.
    rewrite pr_get_in by (apply Hr; lia). rewrite bind_ret.
    rewrite pr_set_in by (apply Hr; lia). rewrite bind_ret.
    rewrite aset_in by lia. rewrite bind_ret.
    eexists. split; [reflexivity|]. cbn [fst snd]. split; [|split].
    + intros r. replace (Z.to_nat (j + 1)) with (S (Z.to_nat j)) by lia.
      rewrite zsum_snoc, Z.add_0_l, Z2Nat.id by lia.
      unfold rank_indicator at 2.
      destruct (Z.eqb_spec (nbBits (T j)) r) as [<-|Hne].
      * rewrite upd_same, Ha.
        pose proof (rank_count_bounds T (nbBits (T j)) (Z.to_nat j) 0).
        pose proof (Hv (nbBits (T j))).
        rewrite U16_small by lia. lia.
      * rewrite upd_other by congruence. rewrite Ha. lia.
    + intros s Hs. destruct (Z.eq_dec s j) as [->|Hne].
      * rewrite upd_same. unfold set_val. rewrite Ha. reflexivity.
      * rewrite upd_other by assumption. apply Hb. lia.
    + intros s Hs. rewrite upd_other by lia. apply Hc. lia.
  - cbn [fst snd] in *. exists T2, vpr'. split; [exact E|]. split.
    + intros s Hs. apply I2. lia.
    + intros s Hs. apply I3. lia.
Qed.

Section FillProof.

Variable t : nodeTable.
Variables M K L : Z.
Variable tree0 : HUF_CTable.

Hypothesis HM : 0 <= K <= M /\ M <= 255.
Hypothesis HL : 1 <= L <= 12.
Hypothesis Hbyte : forall i, 0 <= i <= M -> 0 <= byte (t i) <= M.
Hypothesis Hinj : forall i j, 0 <= i <= M -> 0 <= j <= M -> byte (t i) = byte (t j) -> i = j.
Hypothesis Hlen : forall i, 0 <= i <= K -> 1 <= nbf t i <= L.
Hypothesis Habsent : forall i, K < i <= M -> nbf t i = 0.

Lemma leaf_of_symbol (s : Z) : 0 <= s <= M -> exists i, 0 <= i <= M /\ byte (t i) = s.
Proof.
  intros Hs.
  destruct (reindex_onto (fun i => byte (t i)) (Z.to_nat (M + 1))) with (s := s)
    as (i & Hi & E).
  - intros i Hi. specialize (Hbyte i ltac:(lia)). lia.
  - intros i j Hi Hj. apply Hinj; lia.
  - lia.
  - exists i. split; [lia | exact E].
Qed.

Lemma symbol_sum (g : Z -> Z) :
  zsum g (Z.to_nat (M + 1)) 0 = zsum (fun i => g (byte (t i))) (Z.to_nat (M + 1)) 0.
Proof.
  apply (reindex_sum (fun i => byte (t i))).
  - intros i Hi. specialize (Hbyte i ltac:(lia)). lia.
  - intros i j Hi Hj. apply Hinj; lia.
Qed.

Lemma nbf_range (i : Z) : 0 <= i <= M -> 0 <= nbf t i <= L.
Proof.
  intros Hi. destruct (Z_le_dec i K) as [H|H].
  - specialize (Hlen i ltac:(lia)). lia.
  - rewrite Habsent by lia. lia.
Qed.

(** The number of symbols of a length is the number of leaves of this length. *)
Lemma per_rank_count (tree : HUF_CTable) (r : Z) :
  (forall i, 0 <= i <= M -> nbBits (tree (byte (t i))) = nbf t i) ->
  1 <= r -> nb_per_rank tree M r = rank_count t K r.
Proof.
  intros Htree Hr. unfold nb_per_rank, rank_count.
  rewrite (symbol_sum (rank_indicator tree r)).
  replace (Z.to_nat (M + 1)) with (Z.to_nat (K + 1) + Z.to_nat (M - K))%nat by lia.
  rewrite zsum_app. rewrite (zsum_zero _ (Z.to_nat (M - K))).
  - rewrite Z.add_0_r. apply zsum_ext. intros i Hi. unfold rank_indicator.
    rewrite Htree by lia. destruct (nbf t i =? r); reflexivity.
  - intros i Hi. unfold rank_indicator. rewrite Htree by lia. rewrite Habsent by lia.
    destruct (Z.eqb_spec 0 r); [lia | reflexivity].
Qed.

Lemma HUF_fillCTable_spec :
  exists tree,
    HUF_fillCTable tree0 t M K L = Ret tree
    /\ (forall i, 0 <= i <= M -> nbBits (tree (byte (t i))) = nbf t i)
    /\ (forall s, 0 <= s <= M -> nbBits (tree s) <> 0 ->
                  val (tree s) = canonical_val tree M L s).
Proof.
  destruct (count_rank_loop t K ltac:(lia)) as (nb & Enb & Hnb).
  { intros i Hi. specialize (Hlen i Hi). lia. }
  assert (Hnbr : forall r, 0 <= nb r <= 256).
  { intros r. rewrite Hnb. unfold rank_count.
    pose proof (indicator_sum_bounds (fun i => nbf t i =? r) (Z.to_nat (K + 1)) 0). lia. }
  destruct (start_val_loop nb L (fun _ => 0) ltac:(lia) Hnbr) as (vpr & mn & Evpr & Hvpr & Hvpr0).
  assert (Hvr : forall r, 0 <= vpr r <= 256).
  { intros r. destruct (Z_le_dec 1 r) as [H1|H1]; [destruct (Z_le_dec r L) as [H2|H2]|].
    - rewrite Hvpr by lia. apply rank_start_bounds. exact Hnbr.
    - rewrite Hvpr0 by lia. lia.
    - rewrite Hvpr0 by lia. lia. }
  destruct (push_bits_loop t M tree0 ltac:(lia) Hbyte Hinj) as (tree1 & E1 & H1).
  assert (Hb1 : forall i, 0 <= i <= M -> nbBits (tree1 (byte (t i))) = nbf t i).
  { intros i Hi. rewrite H1 by exact Hi. reflexivity. }
  assert (Hr1 : forall s, 0 <= s <= M -> 0 <= nbBits (tree1 s) <= 12).
  { intros s Hs. destruct (leaf_of_symbol s Hs) as (i & Hi & <-).
    rewrite Hb1 by exact Hi. pose proof (nbf_range i Hi). lia. }
  destruct (assign_val_loop tree1 M vpr ltac:(lia) Hr1 Hvr) as (tree2 & vpr' & E2 & H2 & _).
  assert (Hb2 : forall s, 0 <= s <= M -> nbBits (tree2 s) = nbBits (tree1 s)).
  { intros s Hs. rewrite H2 by exact Hs. reflexivity. }
  exists tree2. split; [|split].
  - unfold HUF_fillCTable. cbv zeta. unfold HUF_TABLELOG_MAX.
    rewrite (proj2 (Z.ltb_ge 12 L)) by lia.
    rewrite (bind_eq _ _ _ Enb). cbv beta.
    rewrite (bind_eq _ _ _ Evpr). cbv beta iota.
    rewrite (bind_eq _ _ _ E1). cbv beta.
    rewrite (bind_eq _ _ _ E2). cbv beta iota. reflexivity.
  - intros i Hi. rewrite Hb2 by (apply Hbyte; exact Hi). apply Hb1. exact Hi.
  - intros s Hs Hnz. unfold canonical_val. rewrite Hb2 in * by exact Hs.
    rewrite (H2 s Hs). cbn [val].
    pose proof (Hr1 s Hs) as Hrs.
    destruct (leaf_of_symbol s Hs) as (i & Hi & Ei).
    assert (HrL : 1 <= nbBits (tree1 s) <= L).
    { rewrite <- Ei. rewrite Hb1 by exact Hi. pose proof (nbf_range i Hi).
      rewrite <- Ei in Hnz. rewrite Hb1 in Hnz by exact Hi. lia. }
    rewrite Hvpr by exact HrL. f_equal.
    + apply rank_start_ext. intros j Hj. rewrite Hnb. symmetry.
      apply per_rank_count; [|lia].
      intros i0 Hi0. rewrite Hb2 by (apply Hbyte; exact Hi0). apply Hb1. exact Hi0.
    + apply zsum_ext. intros j Hj. unfold rank_indicator. rewrite Hb2 by lia. reflexivity.
Qed.

End FillProof.

(** * HUF_buildCTable_wksp *)

Section BuildCTableProof.

Variable count : list Z.
Variables M maxNbBits wkspSize : Z.
Variable tree0 : HUF_CTable.

Hypothesis Hvalid : valid_count count M.
Hypothesis Hpresent : 2 <= nb_present count M.
Hypothesis Hlog : 0 <= maxNbBits <= HUF_TABLELOG_MAX.
Hypothesis Hfeasible : nb_present count M <= 2^(effective_log maxNbBits).
Hypothesis Hwksp : sizeof_huffNodeTable <= wkspSize.

Lemma effective_log_range : 1 <= effective_log maxNbBits <= 12.
Proof.
  unfold effective_log, HUF_TABLELOG_DEFAULT, HUF_TABLELOG_MAX in *.
  destruct (Z.eqb_spec maxNbBits 0); lia.
Qed.

Lemma HUF_buildCTable_wksp_spec :
  exists tree L,
    HUF_buildCTable_wksp tree0 count M maxNbBits wkspSize = Ret (tree, L)
    /\ 1 <= L <= effective_log maxNbBits
    /\ built_table count M L tree.
Proof.
  pose proof Hvalid as [HM _ Hnn _]. unfold HUF_SYMBOLVALUE_MAX in HM.
  pose proof effective_log_range as HL.
  destruct (HUF_buildTree_spec count M Hvalid Hpresent) as (t & Et & Ht).
  set (K := nb_present count M - 1) in *.
  destruct Ht as [[HK HKp] Hcells Hdist Hsorted Hpres Habs Hdepth Hmon Hkr].
  destruct (HUF_setMaxHeight_spec t K (effective_log maxNbBits)) as (t' & L & Es & HLr & Hlim);
    try assumption; try lia.
  destruct Hlim as [[Hfields Hout] Hrange Hmono' Hkr'].
  assert (Hbyte : forall i, 0 <= i <= M -> 0 <= byte (t' i) <= M).
  { intros i Hi. destruct (Hfields i) as (_ & _ & ->). apply Hcells. exact Hi. }
  assert (Hinj : forall i j, 0 <= i <= M -> 0 <= j <= M -> byte (t' i) = byte (t' j) -> i = j).
  { intros i j Hi Hj. destruct (Hfields i) as (_ & _ & ->).
    destruct (Hfields j) as (_ & _ & ->). apply Hdist; assumption. }
  assert (Hcnt : forall i, 0 <= i <= M -> n_count (t i) = count_at count (byte (t' i))).
  { intros i Hi. destruct (Hfields i) as (_ & _ & ->). apply Hcells. exact Hi. }
  assert (Habs' : forall i, K < i <= M -> nbf t' i = 0).
  { intros i Hi. unfold nbf. rewrite Hout by lia. apply Habs. exact Hi. }
  assert (HKM : 0 <= K <= M /\ M <= 255) by lia.
  destruct (HUF_fillCTable_spec t' M K L tree0 HKM ltac:(lia) Hbyte Hinj Hrange Habs')
    as (tree & Ef & Hbits & Hcanon).
  exists tree, L. split; [|split; [lia|]].
  - unfold HUF_buildCTable_wksp.
    rewrite (proj2 (Z.ltb_ge wkspSize sizeof_huffNodeTable)) by lia.
    cbv zeta. fold (effective_log maxNbBits). unfold HUF_SYMBOLVALUE_MAX.
    rewrite (proj2 (Z.ltb_ge 255 M)) by lia.
    rewrite (bind_eq _ _ _ Et). cbv beta iota.
    rewrite (bind_eq _ _ _ Es). cbv beta iota.
    rewrite (bind_eq _ _ _ Ef). cbv beta. reflexivity.
  - assert (Hsym : forall s, 0 <= s <= M ->
              exists i, 0 <= i <= M /\ byte (t' i) = s /\ nbBits (tree s) = nbf t' i
                        /\ count_at count s = n_count (t i)).
    { intros s Hs. destruct (leaf_of_symbol t' M K HKM Hbyte Hinj s Hs) as (i & Hi & E).
      exists i. split; [exact Hi|]. split; [exact E|]. split.
      - rewrite <- E. apply Hbits. exact Hi.
      - rewrite Hcnt by exact Hi. rewrite E. reflexivity. }
    constructor.
    + intros s Hs Hz. destruct (Hsym s Hs) as (i & Hi & _ & -> & Hc).
      apply Habs'. pose proof (Hpres i Hi). lia.
    + intros s Hs Hp. destruct (Hsym s Hs) as (i & Hi & _ & -> & Hc).
      apply Hrange. pose proof (Hpres i Hi). lia.
    + unfold kraft_sum.
      rewrite (symbol_sum t' M K HKM Hbyte Hinj (fun s => kraft_term L (nbBits (tree s)))).
      replace (Z.to_nat (M + 1)) with (Z.to_nat (K + 1) + Z.to_nat (M - K))%nat by lia.
      rewrite zsum_app. rewrite (zsum_zero _ (Z.to_nat (M - K))).
      * rewrite Z.add_0_r. rewrite <- Hkr'. unfold kraft_at. apply zsum_ext.
        intros i Hi. rewrite Hbits by lia. unfold kraft_term.
        pose proof (Hrange i ltac:(lia)). unfold nbf.
        destruct (Z.eqb_spec (n_nbBits (t' i)) 0); [lia | reflexivity].
      * intros i Hi. rewrite Hbits by lia. rewrite Habs' by lia. reflexivity.
    + intros a b Ha Hb Hcb Hab.
      destruct (Hsym a Ha) as (ia & Hia & _ & -> & Hca).
      destruct (Hsym b Hb) as (ib & Hib & _ & -> & Hcb').
      pose proof (Hpres ia Hia). pose proof (Hpres ib Hib).
      destruct (Z_le_dec ia ib) as [Hle|Hgt]; [apply Hmono'; lia|].
      pose proof (Hsorted ib ia ltac:(lia) ltac:(lia) ltac:(lia)). lia.
    + exact Hcanon.
Qed.

End BuildCTableProof.

(** * Properties of the table builder *)

(** X1 (HUF_sort): on a zeroed node table and a vector of [M + 1] counts
    below [2^30], [HUF_sort] completes, and the cells [0 .. M] of the table
    then hold the symbols [0 .. M], each once and with its count, in
    decreasing order of count; the other cells are untouched. *)
Theorem HUF_sort_sorts (count : list Z) (M : Z) :
  0 <= M <= 255 ->
  Z.of_nat (length count) = M + 1 ->
  (forall s, 0 <= s <= M -> 0 <= count_at count s < 2^30) ->
  exists t, HUF_sort zero_table count M = Ret t /\ sorted_table count M t.
Proof. apply HUF_sort_spec. Qed.

Lemma HUF_sort_sorts_witness :
  exists t, HUF_sort zero_table [3; 1; 2] 2 = Ret t /\ sorted_table [3; 1; 2] 2 t.
Proof.
  apply (HUF_sort_sorts [3; 1; 2] 2); [lia | reflexivity |].
  intros s Hs. assert (s = 0 \/ s = 1 \/ s = 2) as [-> | [-> | ->]] by lia;
    vm_compute; split; congruence.
Defined.

Lemma valid_count_example : valid_count [3; 1; 2] 2.
Proof.
  constructor.
  - unfold HUF_SYMBOLVALUE_MAX. lia.
  - reflexivity.
  - intros s Hs. assert (s = 0 \/ s = 1 \/ s = 2) as [-> | [-> | ->]] by lia;
      vm_compute; congruence.
  - vm_compute. congruence.
Defined.

(** X2 (HUF_buildCTable_wksp, the tree of unlimited height): for the counts
    of a block of at most [HUF_BLOCKSIZE_MAX] bytes in which at least two
    symbols occur, the code up to the call of [HUF_setMaxHeight] completes
    with [nonNullRank] one less than the number of symbols that occur; the
    leaves [0 .. nonNullRank] are these symbols in decreasing order of
    count, their depths are between 1 and 24, do not decrease along the
    table, and satisfy Kraft equality; the symbols that do not occur keep
    the depth 0. *)
Theorem HUF_buildTree_unlimited (count : list Z) (M : Z) :
  valid_count count M ->
  2 <= nb_present count M ->
  exists t, HUF_buildTree count M = Ret (t, nb_present count M - 1)
            /\ built_tree count M (nb_present count M - 1) t.
Proof. apply HUF_buildTree_spec. Qed.

Lemma HUF_buildTree_unlimited_witness :
  exists t, HUF_buildTree [3; 1; 2] 2 = Ret (t, nb_present [3; 1; 2] 2 - 1)
            /\ built_tree [3; 1; 2] 2 (nb_present [3; 1; 2] 2 - 1) t.
Proof.
  apply (HUF_buildTree_unlimited [3; 1; 2] 2); [exact valid_count_example |].
  vm_compute. congruence.
Defined.

(** * The table of a histogram *)

Lemma valid_count_skewed : valid_count [1; 1; 2; 3; 5; 8; 13; 21] 7.
Proof.
  constructor.
  - unfold HUF_SYMBOLVALUE_MAX. lia.
  - reflexivity.
  - intros s Hs.
    assert (s = 0 \/ s = 1 \/ s = 2 \/ s = 3 \/ s = 4 \/ s = 5 \/ s = 6 \/ s = 7)
      as [-> | [-> | [-> | [-> | [-> | [-> | [-> | ->]]]]]]] by lia;
      vm_compute; congruence.
  - vm_compute. congruence.
Defined.

(** X3 (HUF_setMaxHeight): on a node table whose leaves [0 .. K] have
    depths between 1 and 24 that do not decrease along the table and
    satisfy Kraft equality, with a limit [1 <= L <= 12] that leaves room for
    the [K + 1] leaves ([K + 1 <= 2^L]), [HUF_setMaxHeight] completes: its
    loops end and every access is inside its array.  The value [L'] it
    returns is at most [L]; the lengths are then between 1 and [L'], still
    do not decrease along the table and satisfy Kraft equality with the
    denominator [2^L']; counts, parents and symbols are untouched. *)
Theorem HUF_setMaxHeight_limits (t0 : nodeTable) (K L : Z) :
  1 <= K <= 255 -> 1 <= L <= 12 -> K + 1 <= 2^L ->
  (forall i, 0 <= i <= K -> 1 <= n_nbBits (t0 i) <= 24) ->
  (forall i j, 0 <= i -> i <= j -> j <= K -> n_nbBits (t0 i) <= n_nbBits (t0 j)) ->
  zsum (fun i => 2^(24 - n_nbBits (t0 i))) (Z.to_nat (K + 1)) 0 = 2^24 ->
  exists t' L',
    HUF_setMaxHeight t0 K L = Ret (t', L')
    /\ 1 <= L' <= L
    /\ (forall i, 0 <= i <= K -> 1 <= n_nbBits (t' i) <= L')
    /\ (forall i j, 0 <= i -> i <= j -> j <= K -> n_nbBits (t' i) <= n_nbBits (t' j))
    /\ zsum (fun i => 2^(L' - n_nbBits (t' i))) (Z.to_nat (K + 1)) 0 = 2^L'
    /\ same_nodes t0 t' K.
Proof.
  intros HK HL Hfeas Hrange Hmono Hkraft.
  destruct (HUF_setMaxHeight_spec t0 K L HK HL Hfeas Hrange Hmono Hkraft)
    as (t' & L' & E & HL' & [Hs Hr Hm Hk]).
  exists t', L'. split; [exact E|]. split; [exact HL'|]. split; [exact Hr|].
  split; [exact Hm|]. split; [exact Hk | exact Hs].
Qed.

Lemma HUF_setMaxHeight_limits_witness :
  let t0 := fun i : Z => mkNode 0 0 0 (if i <=? 0 then 1 else if i <=? 1 then 2 else 3) in
  exists t' L',
    HUF_setMaxHeight t0 3 2 = Ret (t', L')
    /\ 1 <= L' <= 2
    /\ (forall i, 0 <= i <= 3 -> 1 <= n_nbBits (t' i) <= L')
    /\ (forall i j, 0 <= i -> i <= j -> j <= 3 -> n_nbBits (t' i) <= n_nbBits (t' j))
    /\ zsum (fun i => 2^(L' - n_nbBits (t' i))) (Z.to_nat (3 + 1)) 0 = 2^L'
    /\ same_nodes t0 t' 3.
Proof.
  intros t0.
  assert (Hs : forall i, 0 <= i <= 3 -> i = 0 \/ i = 1 \/ i = 2 \/ i = 3) by (intros; lia).
  apply (HUF_setMaxHeight_limits t0 3 2).
  - lia.
  - lia.
  - vm_compute. congruence.
  - intros i Hi. destruct (Hs i Hi) as [-> | [-> | [-> | ->]]]; vm_compute; split; congruence.
  - intros i j Hi Hij Hj.
    destruct (Hs i ltac:(lia)) as [-> | [-> | [-> | ->]]];
      destruct (Hs j ltac:(lia)) as [-> | [-> | [-> | ->]]]; try lia;
      vm_compute; congruence.
  - vm_compute. reflexivity.
Defined.

Section BuildCTable.

Variable count : list Z.
Variables M maxNbBits wkspSize : Z.
Variable tree0 : HUF_CTable.

(** The domain of [HUF_buildCTable_wksp]: the counts of a block of at most
    [HUF_BLOCKSIZE_MAX] bytes with at least two symbols, a limit of at most
    [HUF_TABLELOG_MAX] (0 standing for the default) that leaves room for the
    symbols that occur, and the workspace of a node table. *)
Hypothesis Hvalid : valid_count count M.
Hypothesis Hpresent : 2 <= nb_present count M.
Hypothesis Hlog : 0 <= maxNbBits <= HUF_TABLELOG_MAX.
Hypothesis Hfeasible : nb_present count M <= 2^(effective_log maxNbBits).
Hypothesis Hwksp : sizeof_huffNodeTable <= wkspSize.

(** X4 (HUF_buildCTable_wksp, the lengths): on its domain the function
    completes and returns a table log between 1 and the limit; a symbol
    that does not occur gets the length 0, a symbol that occurs a length
    between 1 and the table log returned. *)
Theorem HUF_buildCTable_wksp_lengths :
  exists tree L,
    HUF_buildCTable_wksp tree0 count M maxNbBits wkspSize = Ret (tree, L)
    /\ 1 <= L <= effective_log maxNbBits
    /\ forall s, 0 <= s <= M ->
         (count_at count s = 0 -> nbBits (tree s) = 0)
         /\ (0 < count_at count s -> 1 <= nbBits (tree s) <= L).
Proof.
  destruct (HUF_buildCTable_wksp_spec count M maxNbBits wkspSize tree0
              Hvalid Hpresent Hlog Hfeasible Hwksp) as (tree & L & E & HL & H).
  exists tree, L. split; [exact E|]. split; [exact HL|]. intros s Hs. split.
  - apply (tb_absent _ _ _ _ H). exact Hs.
  - apply (tb_present _ _ _ _ H). exact Hs.
Qed.

(** X5 (HUF_buildCTable_wksp, Kraft equality): on its domain the lengths
    of the symbols that occur satisfy Kraft equality, the sum of
    [2^(L - nbBits)] over them being [2^L] for the table log [L] returned,
    whether or not the height had to be limited. *)
Theorem HUF_buildCTable_wksp_kraft :
  exists tree L,
    HUF_buildCTable_wksp tree0 count M maxNbBits wkspSize = Ret (tree, L)
    /\ kraft_sum tree M L = 2^L.
Proof.
  destruct (HUF_buildCTable_wksp_spec count M maxNbBits wkspSize tree0
              Hvalid Hpresent Hlog Hfeasible Hwksp) as (tree & L & E & HL & H).
  exists tree, L. split; [exact E|]. apply (tb_kraft _ _ _ _ H).
Qed.

(** X6 (HUF_buildCTable_wksp, order): on its domain a symbol that occurs
    more often than another symbol that occurs has a code that is not
    longer; the sort, the merge of the two queues and the limit of the
    height keep this. *)
Theorem HUF_buildCTable_wksp_monotone :
  exists tree L,
    HUF_buildCTable_wksp tree0 count M maxNbBits wkspSize = Ret (tree, L)
    /\ forall a b, 0 <= a <= M -> 0 <= b <= M ->
         0 < count_at count b -> count_at count b < count_at count a ->
         nbBits (tree a) <= nbBits (tree b).
Proof.
  destruct (HUF_buildCTable_wksp_spec count M maxNbBits wkspSize tree0
              Hvalid Hpresent Hlog Hfeasible Hwksp) as (tree & L & E & HL & H).
  exists tree, L. split; [exact E|]. apply (tb_mono _ _ _ _ H).
Qed.

(** X7 (HUF_buildCTable_wksp, the values): on its domain the value of a
    symbol that occurs is the canonical one: the first value of the longest
    rank is 0, the first value of a rank is half of what follows the last
    value of the rank below, and within a rank the values go up with the
    symbols. *)
Theorem HUF_buildCTable_wksp_canonical :
  exists tree L,
    HUF_buildCTable_wksp tree0 count M maxNbBits wkspSize = Ret (tree, L)
    /\ forall s, 0 <= s <= M -> 0 < count_at count s ->
         val (tree s) = canonical_val tree M L s.
Proof.
  destruct (HUF_buildCTable_wksp_spec count M maxNbBits wkspSize tree0
              Hvalid Hpresent Hlog Hfeasible Hwksp) as (tree & L & E & HL & H).
  exists tree, L. split; [exact E|]. intros s Hs Hc.
  apply (tb_canonical _ _ _ _ H); [exact Hs|].
  pose proof (tb_present _ _ _ _ H s Hs Hc). lia.
Qed.

End BuildCTable.

Lemma HUF_buildCTable_wksp_lengths_witness :
  exists tree L,
    HUF_buildCTable_wksp zero_CTable [1; 1; 2; 3; 5; 8; 13; 21] 7 4 4096 = Ret (tree, L)
    /\ 1 <= L <= effective_log 4
    /\ forall s, 0 <= s <= 7 ->
         (count_at [1; 1; 2; 3; 5; 8; 13; 21] s = 0 -> nbBits (tree s) = 0)
         /\ (0 < count_at [1; 1; 2; 3; 5; 8; 13; 21] s -> 1 <= nbBits (tree s) <= L).
Proof.
  apply (HUF_buildCTable_wksp_lengths [1; 1; 2; 3; 5; 8; 13; 21] 7 4 4096 zero_CTable
           valid_count_skewed).
  - vm_compute. congruence.
  - unfold HUF_TABLELOG_MAX. lia.
  - vm_compute. congruence.
  - vm_compute. congruence.
Defined.

Lemma HUF_buildCTable_wksp_kraft_witness :
  exists tree L,
    HUF_buildCTable_wksp zero_CTable [1; 1; 2; 3; 5; 8; 13; 21] 7 4 4096 = Ret (tree, L)
    /\ kraft_sum tree 7 L = 2^L.
Proof.
  apply (HUF_buildCTable_wksp_kraft [1; 1; 2; 3; 5; 8; 13; 21] 7 4 4096 zero_CTable
           valid_count_skewed).
  - vm_compute. congruence.
  - unfold HUF_TABLELOG_MAX. lia.
  - vm_compute. congruence.
  - vm_compute. congruence.
Defined.

Lemma HUF_buildCTable_wksp_monotone_witness :
  exists tree L,
    HUF_buildCTable_wksp zero_CTable [1; 1; 2; 3; 5; 8; 13; 21] 7 4 4096 = Ret (tree, L)
    /\ forall a b, 0 <= a <= 7 -> 0 <= b <= 7 ->
         0 < count_at [1; 1; 2; 3; 5; 8; 13; 21] b ->
         count_at [1; 1; 2; 3; 5; 8; 13; 21] b < count_at [1; 1; 2; 3; 5; 8; 13; 21] a ->
         nbBits (tree a) <= nbBits (tree b).
Proof.
  apply (HUF_buildCTable_wksp_monotone [1; 1; 2; 3; 5; 8; 13; 21] 7 4 4096 zero_CTable
           valid_count_skewed).
  - vm_compute. congruence.
  - unfold HUF_TABLELOG_MAX. lia.
  - vm_compute. congruence.
  - vm_compute. congruence.
Defined.

Lemma HUF_buildCTable_wksp_canonical_witness :
  exists tree L,
    HUF_buildCTable_wksp zero_CTable [1; 1; 2; 3; 5; 8; 13; 21] 7 4 4096 = Ret (tree, L)
    /\ forall s, 0 <= s <= 7 -> 0 < count_at [1; 1; 2; 3; 5; 8; 13; 21] s ->
         val (tree s) = canonical_val tree 7 L s.
Proof.
  apply (HUF_buildCTable_wksp_canonical [1; 1; 2; 3; 5; 8; 13; 21] 7 4 4096 zero_CTable
           valid_count_skewed).
  - vm_compute. congruence.
  - unfold HUF_TABLELOG_MAX. lia.
  - vm_compute. congruence.
  - vm_compute. congruence.
Defined.

(** * The table and its users *)

Lemma validate_loop (CTable : HUF_CTable) (count : list Z) (M : Z) :
  0 <= M -> M < Z.of_nat (length count) ->
  exists bad,
    for_up (Z.to_nat (M + 1)) 0 (validate_body CTable count) false = Ret bad
    /\ (bad = true <->
        exists s, 0 <= s <= M /\ count_at count s <> 0 /\ nbBits (CTable s) = 0).
Proof.
  intros HM Hlen.
  destruct (for_up_inv
              (fun j (bad : bool) =>
                 bad = true <->
                 exists s, 0 <= s < j /\ count_at count s <> 0 /\ nbBits (CTable s) = 0)
              (validate_body CTable count) (Z.to_nat (M + 1)) 0 false) as (bad & E & I).
  - split; [discriminate | intros (s & Hs & _); lia].
  - intros j bad Hj Hbad. unfold validate_body.
    rewrite count_get_at by lia. rewrite bind_ret.
    eexists. split; [reflexivity|].
    rewrite orb_true_iff, andb_true_iff, negb_true_iff, Z.eqb_neq, Z.eqb_eq, Hbad.
    split.
    + intros [(s & Hs & H) | [H1 H2]].
      * exists s. split; [lia | exact H].
      * exists j. split; [lia|]. split; assumption.
    + intros (s & Hs & H1 & H2). destruct (Z.eq_dec s j) as [->|Hne].
      * right. split; assumption.
      * left. exists s. split; [lia|]. split; assumption.
  - exists bad. split; [exact E|]. rewrite I. split.
    + intros (s & Hs & H). exists s. split; [lia | exact H].
    + intros (s & Hs & H). exists s. split; [lia | exact H].
Qed.

(** X9 (HUF_validateCTable): for a vector of more than [M] counts the
    function accepts a table exactly when every symbol up to [M] that occurs
    has a code, that is a length that is not 0. *)
Theorem HUF_validateCTable_accepts (CTable : HUF_CTable) (count : list Z) (M : Z) :
  0 <= M -> M < Z.of_nat (length count) ->
  exists ok,
    HUF_validateCTable CTable count M = Ret ok
    /\ (ok = true <->
        forall s, 0 <= s <= M -> count_at count s <> 0 -> nbBits (CTable s) <> 0).
Proof.
  intros HM Hlen. destruct (validate_loop CTable count M HM Hlen) as (bad & E & Hbad).
  exists (negb bad). split.
  - unfold HUF_validateCTable. rewrite (bind_eq _ _ _ E). reflexivity.
  - rewrite negb_true_iff. split.
    + intros Hf s Hs Hc Hn. assert (bad = true); [|congruence].
      apply Hbad. exists s. split; [exact Hs|]. split; assumption.
    + intros Hall. destruct bad; [|reflexivity]. exfalso.
      destruct (proj1 Hbad eq_refl) as (s & Hs & Hc & Hn). exact (Hall s Hs Hc Hn).
Qed.

Lemma HUF_validateCTable_accepts_witness :
  exists ok,
    HUF_validateCTable (table_of_lengths [1; 0; 2; 2]) [5; 0; 1; 1] 3 = Ret ok
    /\ (ok = true <->
        forall s, 0 <= s <= 3 -> count_at [5; 0; 1; 1] s <> 0 ->
                  nbBits (table_of_lengths [1; 0; 2; 2] s) <> 0).
Proof.
  apply (HUF_validateCTable_accepts (table_of_lengths [1; 0; 2; 2]) [5; 0; 1; 1] 3).
  - lia.
  - vm_compute. reflexivity.
Defined.

Section BuiltTable.

Variable count : list Z.
Variables M maxNbBits wkspSize : Z.
Variable tree0 : HUF_CTable.

Hypothesis Hvalid : valid_count count M.
Hypothesis Hpresent : 2 <= nb_present count M.
Hypothesis Hlog : 0 <= maxNbBits <= HUF_TABLELOG_MAX.
Hypothesis Hfeasible : nb_present count M <= 2^(effective_log maxNbBits).
Hypothesis Hwksp : sizeof_huffNodeTable <= wkspSize.

(** X8 (HUF_buildCTable_wksp, a table to serialize): on the domain of the
    function, when the largest symbol [M] occurs (as it does when [M] comes
    from the histogram), the table and the table log returned form a valid
    table: lengths from 0 to the table log, Kraft equality, the last symbol
    in use, canonical values.  This is what [HUF_writeCTable] and
    [HUF_readCTable] need to give the table back. *)
Theorem HUF_buildCTable_wksp_valid :
  0 < count_at count M ->
  exists tree L,
    HUF_buildCTable_wksp tree0 count M maxNbBits wkspSize = Ret (tree, L)
    /\ valid_table tree M L.
Proof.
  intros Hlast.
  destruct (HUF_buildCTable_wksp_spec count M maxNbBits wkspSize tree0
              Hvalid Hpresent Hlog Hfeasible Hwksp) as (tree & L & E & HL & H).
  assert (Hr : 1 <= effective_log maxNbBits <= 12).
  { unfold effective_log, HUF_TABLELOG_DEFAULT, HUF_TABLELOG_MAX in *.
    destruct (Z.eqb_spec maxNbBits 0); lia. }
  pose proof Hvalid as [HM _ Hnn _].
  exists tree, L. split; [exact E|]. constructor.
  - unfold HUF_TABLELOG_MAX. lia.
  - pose proof (present_range count M Hvalid). lia.
  - intros s Hs. destruct (Z.eq_dec (count_at count s) 0) as [Hz|Hnz].
    + rewrite (tb_absent _ _ _ _ H s Hs Hz). lia.
    + pose proof (Hnn s Hs). pose proof (tb_present _ _ _ _ H s Hs ltac:(lia)). lia.
  - apply (tb_kraft _ _ _ _ H).
  - pose proof (tb_present _ _ _ _ H M ltac:(lia) Hlast). lia.
  - apply (tb_canonical _ _ _ _ H).
Qed.

(** X10 (HUF_buildCTable_wksp, then HUF_validateCTable): on the domain of
    the builder, the table it returns is accepted by [HUF_validateCTable]
    for the histogram it was built from. *)
Theorem built_table_validates :
  exists tree L,
    HUF_buildCTable_wksp tree0 count M maxNbBits wkspSize = Ret (tree, L)
    /\ HUF_validateCTable tree count M = Ret true.
Proof.
  destruct (HUF_buildCTable_wksp_spec count M maxNbBits wkspSize tree0
              Hvalid Hpresent Hlog Hfeasible Hwksp) as (tree & L & E & HL & H).
  pose proof Hvalid as [HM Hlen Hnn _].
  exists tree, L. split; [exact E|].
  destruct (validate_loop tree count M ltac:(lia) ltac:(lia)) as (bad & Eb & Hbad).
  unfold HUF_validateCTable. rewrite (bind_eq _ _ _ Eb).
  destruct bad; [exfalso | reflexivity].
  destruct (proj1 Hbad eq_refl) as (s & Hs & Hc & Hn).
  pose proof (Hnn s Hs). pose proof (tb_present _ _ _ _ H s Hs ltac:(lia)). lia.
Qed.

End BuiltTable.

Lemma HUF_buildCTable_wksp_valid_witness :
  exists tree L,
    HUF_buildCTable_wksp zero_CTable [1; 1; 2; 3; 5; 8; 13; 21] 7 4 4096 = Ret (tree, L)
    /\ valid_table tree 7 L.
Proof.
  apply (HUF_buildCTable_wksp_valid [1; 1; 2; 3; 5; 8; 13; 21] 7 4 4096 zero_CTable
           valid_count_skewed).
  - vm_compute. congruence.
  - unfold HUF_TABLELOG_MAX. lia.
  - vm_compute. congruence.
  - vm_compute. congruence.
  - vm_compute. reflexivity.
Defined.

Lemma built_table_validates_witness :
  exists tree L,
    HUF_buildCTable_wksp zero_CTable [1; 1; 2; 3; 5; 8; 13; 21] 7 4 4096 = Ret (tree, L)
    /\ HUF_validateCTable tree [1; 1; 2; 3; 5; 8; 13; 21] 7 = Ret true.
Proof.
  apply (built_table_validates [1; 1; 2; 3; 5; 8; 13; 21] 7 4 4096 zero_CTable
           valid_count_skewed).
  - vm_compute. congruence.
  - unfold HUF_TABLELOG_MAX. lia.
  - vm_compute. congruence.
  - vm_compute. congruence.
Defined.

(** * The block compressor and its destination buffer *)

Section Paths.

Context {ext : Collaborators}.

(** The results of [HUF_compressCTable_internal]. *)
Lemma HUF_compressCTable_internal_cases (dst : list Z) (op : Z) (src : list Z)
  (single : bool) (T : option HUF_CTable) (code : ret_code) (dst' : list Z) :
  HUF_compressCTable_internal dst op src single T = Ret (code, dst') ->
  (dst' = dst /\ (code = Size 0 \/ exists e, code = ERROR e))
  \/ exists CTable stream,
       T = Some CTable
       /\ stream_writer single (Z.of_nat (length dst) - op) src CTable = Ret stream
       /\ 0 < Z.of_nat (length stream)
       /\ dst' = store dst op stream
       /\ (code = Size 0
           \/ code = Size (op + Z.of_nat (length stream))
              /\ op + Z.of_nat (length stream) < size_t (Z.of_nat (length src) - 1)).
Proof.
  unfold HUF_compressCTable_internal. cbv zeta. intros H.
  destruct T as [CTable|]; [|discriminate].
  replace (if single
           then HUF_compress1X_usingCTable_internal (Z.of_nat (length dst) - op) src CTable
           else HUF_compress4X_usingCTable_internal (Z.of_nat (length dst) - op) src CTable)
    with (stream_writer single (Z.of_nat (length dst) - op) src CTable) in H
    by (unfold stream_writer; now destruct single).
  destruct (stream_writer single (Z.of_nat (length dst) - op) src CTable)
    as [stream| e |] eqn:Ew; [| |discriminate].
  - destruct (Z.of_nat (length stream) =? 0) eqn:E0.
    + injection H as <- <-. left. split; [reflexivity | now left].
    + apply Z.eqb_neq in E0. right. exists CTable, stream.
      split; [reflexivity|]. split; [exact Ew|]. split; [lia|].
      destruct (size_t (Z.of_nat (length src) - 1) <=? op + Z.of_nat (length stream)) eqn:Ec;
        injection H as <- <-.
      * split; [reflexivity | now left].
      * apply Z.leb_gt in Ec. split; [reflexivity|]. right. split; [reflexivity | exact Ec].
  - injection H as <- <-. left. split; [reflexivity|]. right. now exists e.
Qed.

(** The paths through [HUF_compress_internal]: a call that returns has
    written nothing that counts, or the byte of a block of one symbol, or
    has gone through [HUF_compressCTable_internal], with the previous table
    or after the header of a new one.  [dst1] is the buffer with the header
    in place. *)
Lemma HUF_compress_internal_paths (dst src : list Z) (M L : Z) (single : bool)
  (wksp : Z) (old : option HUF_CTable) (rep : option HUF_repeat) (prefer : bool)
  (code : ret_code) (st : HUF_state) :
  HUF_compress_internal dst src M L single wksp old rep prefer = Ret (code, st) ->
  (length (st_dst st) = length dst /\ (code = Size 0 \/ exists e, code = ERROR e))
  \/ (1 <= Z.of_nat (length src) <= HUF_BLOCKSIZE_MAX /\ 1 <= Z.of_nat (length dst))
     /\ ((code = Size 1 /\ st_dst st = store dst 0 [nth 0 src 0])
         \/ (rep <> None
             /\ HUF_compressCTable_internal dst 0 src single old = Ret (code, st_dst st))
         \/ exists count M' largest CTable maxBits hSize header dst1,
              FSE_count_wksp (effective_symbol M) src = Ret (count, M', largest)
              /\ HUF_buildCTable_wksp zero_CTable count M'
                   (HUF_optimalTableLog (effective_log L) (Z.of_nat (length src)) M')
                   (wksp - sizeof_count - sizeof_CTable) = Ret (CTable, maxBits)
              /\ HUF_writeCTable (Z.of_nat (length dst)) (zero_unused M' CTable) M'
                   (U32 maxBits) = Ret (hSize, header)
              /\ length dst1 = length dst
              /\ hSize = Z.of_nat (length header)
              /\ 1 <= hSize <= Z.of_nat (length dst)
              /\ firstn (Z.to_nat hSize) dst1 = header
              /\ ((code = Size 0 /\ st_dst st = dst1)
                  \/ (rep <> None
                      /\ HUF_compressCTable_internal dst1 0 src single old
                         = Ret (code, st_dst st))
                  \/ (hSize + 12 < Z.of_nat (length src)
                      /\ HUF_compressCTable_internal dst1 hSize src single
                           (Some (zero_unused M' CTable)) = Ret (code, st_dst st)))).
Proof.
  unfold HUF_compress_internal. cbv zeta. intros H.
  destruct (wksp <? sizeof_huffNodeTable + sizeof_count + sizeof_CTable);
    [injection H as <- <-; left; split; [reflexivity | right; eauto]|].
  destruct (Z.of_nat (length src) =? 0) eqn:Es;
    [injection H as <- <-; left; split; [reflexivity | now left]|].
  destruct (Z.of_nat (length dst) =? 0) eqn:Ed;
    [injection H as <- <-; left; split; [reflexivity | now left]|].
  destruct (HUF_BLOCKSIZE_MAX <? Z.of_nat (length src)) eqn:Eb;
    [injection H as <- <-; left; split; [reflexivity | right; eauto]|].
  destruct (HUF_TABLELOG_MAX <? L);
    [injection H as <- <-; left; split; [reflexivity | right; eauto]|].
  apply Z.eqb_neq in Es, Ed. apply Z.ltb_ge in Eb.
  assert (Hsz : 1 <= Z.of_nat (length src) <= HUF_BLOCKSIZE_MAX /\ 1 <= Z.of_nat (length dst))
    by lia.
  destruct (prefer && is_repeat rep HUF_repeat_valid) eqn:Ep.
  { apply andb_prop in Ep as [_ Ep].
    unfold finish in H. apply bind_Ret in H as ([c d] & Hc & H). injection H as <- <-.
    right. split; [exact Hsz|]. right. left.
    split; [destruct rep; [discriminate | discriminate Ep] | exact Hc]. }
  fold (effective_symbol M) in H. fold (effective_log L) in H.
  destruct (FSE_count_wksp (effective_symbol M) src) as [[[count M'] largest]| e |] eqn:Ec;
    [| injection H as <- <-; left; split; [reflexivity | right; eauto] | discriminate].
  destruct (largest =? Z.of_nat (length src)).
  { injection H as <- <-. right. split; [exact Hsz|]. left. split; reflexivity. }
  destruct (largest <=? Z.shiftr (Z.of_nat (length src)) 7 + 1).
  { injection H as <- <-. left. split; [reflexivity | now left]. }
  apply bind_Ret in H as (rep1 & Hrep & H).
  assert (Hrep1 : repeat_usable rep1 = true -> rep <> None).
  { intros Hu Hn. subst rep.
    destruct (check_previous_cases _ _ _ _ _ Hrep) as [E | [E _]];
      [subst rep1; discriminate Hu | discriminate E]. }
  destruct (prefer && repeat_usable rep1) eqn:Ep1.
  { apply andb_prop in Ep1 as [_ Ep1].
    unfold finish in H. apply bind_Ret in H as ([c d] & Hc & H). injection H as <- <-.
    right. split; [exact Hsz|]. right. left. split; [auto | exact Hc]. }
  destruct (HUF_buildCTable_wksp zero_CTable count M' _ _) as [[CTable maxBits]| e |] eqn:Eb';
    [| injection H as <- <-; left; split; [reflexivity | right; eauto] | discriminate].
  fold (zero_unused M' CTable) in H.
  destruct (_ <? _) eqn:Efit in H; [discriminate|]. apply Z.ltb_ge in Efit.
  destruct (HUF_writeCTable _ _ _ _) as [[hSize header]| e |] eqn:Ew;
    [| injection H as <- <-; left; split; [apply store_length; lia | right; eauto]
     | discriminate].
  pose proof (HUF_buildCTable_wksp_nonneg _ _ _ _ _ _ Eb') as HM'.
  destruct (header_written _ _ _ _ _ _ _ HM' Efit Ew) as (Eh & Hh & _ & Hlen & Hpre).
  apply bind_Ret in H as (reuse & Hreuse & H).
  right. split; [exact Hsz|]. right. right.
  exists count, M', largest, CTable, maxBits, hSize, header.
  eexists.
  split; [reflexivity|]. split; [exact Eb'|]. split; [exact Ew|].
  split; [exact Hlen|]. split; [exact Eh|]. split; [exact Hh|]. split; [exact Hpre|].
  destruct reuse.
  - unfold finish in H. apply bind_Ret in H as ([c d] & Hc & H). injection H as <- <-.
    right. left. split; [|exact Hc]. apply Hrep1.
    unfold previous_is_beneficial in Hreuse.
    destruct (repeat_usable rep1); [reflexivity | discriminate].
  - destruct (Z.of_nat (length src) <=? hSize + 12) eqn:E12.
    + injection H as <- <-. left. split; reflexivity.
    + apply Z.leb_gt in E12.
      unfold finish in H. apply bind_Ret in H as ([c d] & Hc & H). injection H as <- <-.
      right. right. split; [exact E12 | exact Hc].
Qed.

End Paths.

Section Block.

Context {ext : Collaborators}.

(** X11 (HUF_compress_internal): a call never reports an expansion.  The
    size it returns is 0 (not compressible), 1 (a block of one repeated
    byte, or a one-byte stream written with the previous table), or lies
    strictly between 1 and [srcSize - 1]; this holds for every
    implementation of the histogram, the FSE coder and the bitstream
    writers. *)
Theorem HUF_compress_internal_never_expands (dst src : list Z) (M L : Z) (single : bool)
  (wksp : Z) (old : option HUF_CTable) (rep : option HUF_repeat) (prefer : bool)
  (n : Z) (st : HUF_state) :
  HUF_compress_internal dst src M L single wksp old rep prefer = Ret (Size n, st) ->
  n = 0 \/ n = 1 \/ 1 < n < Z.of_nat (length src) - 1.
Proof.
  intros H. apply HUF_compress_internal_paths in H.
  assert (Hc : forall d op T d',
             1 <= Z.of_nat (length src) <= HUF_BLOCKSIZE_MAX -> 0 <= op ->
             HUF_compressCTable_internal d op src single T = Ret (Size n, d') ->
             n = 0 \/ n = 1 \/ 1 < n < Z.of_nat (length src) - 1).
  { intros d op T d' Hs Hop Hc'.
    apply HUF_compressCTable_internal_cases in Hc'
      as [[_ [E | [e E]]] | (CT & stream & _ & _ & Hpos & _ & [E | [E Hlt]])];
      try discriminate E; injection E as ->; try (now left).
    unfold HUF_BLOCKSIZE_MAX in Hs. rewrite size_t_small in Hlt by lia. lia. }
  destruct H as [[_ [E | [e E]]] | [[Hs Hd] H]];
    [injection E as ->; now left | discriminate E |].
  destruct H as [[E _] | [[_ H] | H]].
  - injection E as ->. right. now left.
  - eapply (Hc dst 0); [exact Hs | lia | exact H].
  - destruct H as (count & M' & largest & CTable & maxBits & hSize & header & dst1
                   & _ & _ & _ & _ & _ & Hh & _ & H).
    destruct H as [[E _] | [[_ H] | [_ H]]].
    + injection E as ->. now left.
    + eapply (Hc _ 0); [exact Hs | lia | exact H].
    + eapply (Hc _ hSize); [exact Hs | lia | exact H].
Qed.

(** X12 (HUF_writeCTable): the size the serializer returns is the number of
    bytes it has written; it lies between 1 and [maxDstSize] and is never
    more than [(maxSymbolValue + 1) / 2 + 1], the size of the raw encoding:
    the FSE-compressed encoding is chosen only when it is shorter. *)
Theorem HUF_writeCTable_returns_size (maxDstSize : Z) (CTable : HUF_CTable)
  (maxSymbolValue huffLog n : Z) (bytes : list Z) :
  0 <= maxSymbolValue ->
  HUF_writeCTable maxDstSize CTable maxSymbolValue huffLog = Ret (n, bytes) ->
  n = Z.of_nat (length bytes)
  /\ 1 <= n <= maxDstSize
  /\ n <= (maxSymbolValue + 1) / 2 + 1.
Proof. apply HUF_writeCTable_size. Qed.

(** X13 (HUF_compress1X_wksp, HUF_compress4X_wksp): when an entry point
    without a previous table returns a size [n > 1], the first [n] bytes of
    the destination are the serialized table followed by the bitstream: the
    table is the one [HUF_buildCTable_wksp] has built from the histogram of
    the source, with the entries of the unused symbols zeroed, the header is
    what [HUF_writeCTable] writes for it, the stream is what the selected
    writer produces with that table in the room left after the header, and
    [n] is the sum of the two sizes. *)
Theorem HUF_compress_wksp_layout (single : bool) (dst src : list Z) (M L wksp n : Z)
  (st : HUF_state) :
  (if single then HUF_compress1X_wksp dst src M L wksp
   else HUF_compress4X_wksp dst src M L wksp) = Ret (Size n, st) ->
  1 < n ->
  exists count M' largest CTable maxBits header stream,
    FSE_count_wksp (effective_symbol M) src = Ret (count, M', largest)
    /\ HUF_buildCTable_wksp zero_CTable count M'
         (HUF_optimalTableLog (effective_log L) (Z.of_nat (length src)) M')
         (wksp - sizeof_count - sizeof_CTable) = Ret (CTable, maxBits)
    /\ HUF_writeCTable (Z.of_nat (length dst)) (zero_unused M' CTable) M' (U32 maxBits)
       = Ret (Z.of_nat (length header), header)
    /\ stream_writer single (Z.of_nat (length dst) - Z.of_nat (length header)) src
         (zero_unused M' CTable) = Ret stream
    /\ n = Z.of_nat (length header) + Z.of_nat (length stream)
    /\ firstn (Z.to_nat n) (st_dst st) = header ++ stream.
Proof.
  intros H Hn.
  assert (H' : HUF_compress_internal dst src M L single wksp None None false
               = Ret (Size n, st)) by (destruct single; exact H).
  clear H. apply HUF_compress_internal_paths in H'.
  destruct H' as [[_ [E | [e E]]] | [[Hs Hd] H]];
    [injection E as ->; lia | discriminate E |].
  destruct H as [[E _] | [[Hr _] | H]];
    [injection E as ->; lia | now elim Hr |].
  destruct H as (count & M' & largest & CTable & maxBits & hSize & header & dst1
                 & Hc & Hb & Hw & Hlen & Eh & Hh & Hpre & H).
  destruct H as [[E _] | [[Hr _] | [_ H]]];
    [injection E as ->; lia | now elim Hr |].
  apply HUF_compressCTable_internal_cases in H
    as [[_ [E | [e E]]] | (CT & stream & ET & Hst & Hpos & Ed & [E | [E _]])];
    try discriminate E; try (injection E as ->; lia).
  injection ET as <-. injection E as ->.
  exists count, M', largest, CTable, maxBits, header, stream.
  rewrite Hlen in Hst. subst hSize.
  split; [exact Hc|]. split; [exact Hb|]. split; [exact Hw|]. split; [exact Hst|].
  split; [reflexivity|].
  rewrite Ed, store_prefix by (rewrite Hlen; lia). now rewrite Hpre.
Qed.

(** X14 (HUF_compress_internal): with bitstream writers that respect the
    capacity they are given, the byte, the header and the stream a call
    stores all lie inside the destination buffer: the buffer keeps its
    length, and a size the call returns is at most that length.  (An
    attempt to compress the weights that writes more than the [dstSize - 1]
    bytes it is given has no defined behaviour, so that no such call
    returns.) *)
Theorem HUF_compress_internal_within_dst (dst src : list Z) (M L : Z) (single : bool)
  (wksp : Z) (old : option HUF_CTable) (rep : option HUF_repeat) (prefer : bool)
  (code : ret_code) (st : HUF_state) :
  writer_bounded HUF_compress1X_usingCTable_internal_default ->
  writer_bounded HUF_compress4X_usingCTable_internal_default ->
  HUF_compress_internal dst src M L single wksp old rep prefer = Ret (code, st) ->
  length (st_dst st) = length dst
  /\ forall n, code = Size n -> 0 <= n <= Z.of_nat (length dst).
Proof.
  intros W1 W4 H. apply HUF_compress_internal_paths in H.
  assert (Hc : forall d op T d',
             length d = length dst -> 0 <= op <= Z.of_nat (length dst) ->
             HUF_compressCTable_internal d op src single T = Ret (code, d') ->
             length d' = length dst
             /\ forall n, code = Size n -> 0 <= n <= Z.of_nat (length dst)).
  { intros d op T d' Hd Hop Hc.
    apply HUF_compressCTable_internal_cases in Hc
      as [[-> [E | [e E]]] | (CT & stream & _ & Hst & Hpos & -> & E)].
    - split; [exact Hd|]. intros n En. rewrite E in En. injection En as <-. lia.
    - split; [exact Hd|]. intros n En. rewrite E in En. discriminate En.
    - assert (Hb : Z.of_nat (length stream) <= Z.of_nat (length d) - op)
        by (unfold stream_writer in Hst;
            destruct single; [eapply W1 | eapply W4]; try exact Hst; lia).
      split; [rewrite store_length; [exact Hd | lia | lia]|].
      intros n En. destruct E as [E | [E _]]; rewrite E in En; injection En as <-; lia. }
  destruct H as [[Ed [E | [e E]]] | [[Hs Hd] H]].
  - split; [now rewrite Ed|]. intros n En. rewrite E in En. injection En as <-. lia.
  - split; [now rewrite Ed|]. intros n En. rewrite E in En. discriminate En.
  - destruct H as [[E Ed] | [[_ H] | H]].
    + split; [rewrite Ed; apply store_length; simpl; lia|].
      intros n En. rewrite E in En. injection En as <-. lia.
    + eapply (Hc dst 0); [reflexivity | lia | exact H].
    + destruct H as (count & M' & largest & CTable & maxBits & hSize & header & dst1
                     & _ & _ & _ & Hlen & _ & Hh & _ & H).
      destruct H as [[E Ed] | [[_ H] | [_ H]]].
      * split; [now rewrite Ed|]. intros n En. rewrite E in En. injection En as <-. lia.
      * eapply (Hc _ 0); [exact Hlen | lia | exact H].
      * eapply (Hc _ hSize); [exact Hlen | lia | exact H].
Qed.

End Block.

Lemma HUF_compress_internal_never_expands_witness :
  8 = 0 \/ 8 = 1 \/ 1 < 8 < Z.of_nat (length (List.repeat 0 30 ++ List.repeat 1 10)) - 1.
Proof.
  apply (HUF_compress_internal_never_expands (ext := simple_ext)
           (List.repeat 9 16) (List.repeat 0 30 ++ List.repeat 1 10) 255 11 true 8192
           None None false 8
           (mkState ([128; 16] ++ List.repeat 0 6 ++ List.repeat 9 8) None None)).
  vm_compute. reflexivity.
Defined.

Lemma HUF_writeCTable_returns_size_witness :
  3 = Z.of_nat (length [131; 50; 17]) /\ 1 <= 3 <= 16 /\ 3 <= (4 + 1) / 2 + 1.
Proof.
  apply (HUF_writeCTable_returns_size (ext := simple_ext) 16
           (table_of_lengths [1; 2; 3; 3; 0]) 4 3 3 [131; 50; 17]).
  - lia.
  - vm_compute. reflexivity.
Defined.

Lemma HUF_compress_wksp_layout_witness :
  let dst := List.repeat 9 16 in
  let src := List.repeat 0 30 ++ List.repeat 1 10 in
  let st := mkState ([128; 16] ++ List.repeat 0 6 ++ List.repeat 9 8) None None in
  exists count M' largest CTable maxBits header stream,
    FSE_count_wksp (Collaborators := simple_ext) (effective_symbol 255) src
    = Ret (count, M', largest)
    /\ HUF_buildCTable_wksp zero_CTable count M'
         (HUF_optimalTableLog (ext := simple_ext) (effective_log 11)
            (Z.of_nat (length src)) M')
         (8192 - sizeof_count - sizeof_CTable) = Ret (CTable, maxBits)
    /\ HUF_writeCTable (ext := simple_ext) (Z.of_nat (length dst))
         (zero_unused M' CTable) M' (U32 maxBits)
       = Ret (Z.of_nat (length header), header)
    /\ stream_writer (ext := simple_ext) false
         (Z.of_nat (length dst) - Z.of_nat (length header)) src (zero_unused M' CTable)
       = Ret stream
    /\ 8 = Z.of_nat (length header) + Z.of_nat (length stream)
    /\ firstn (Z.to_nat 8) (st_dst st) = header ++ stream.
Proof.
  apply (HUF_compress_wksp_layout (ext := simple_ext) false
           (List.repeat 9 16) (List.repeat 0 30 ++ List.repeat 1 10) 255 11 8192 8
           (mkState ([128; 16] ++ List.repeat 0 6 ++ List.repeat 9 8) None None)).
  - vm_compute. reflexivity.
  - lia.
Defined.

Lemma bounded_writer_bounded : writer_bounded bounded_writer.
Proof.
  intros dstSize src CTable bytes Hd. unfold bounded_writer.
  generalize (length src / 8)%nat. intros k.
  destruct (dstSize <? Z.of_nat (S k)) eqn:E; intros H.
  - assert (bytes = []) as -> by congruence. simpl length. lia.
  - apply Z.ltb_ge in E.
    assert (bytes = List.repeat 0 (S k)) as -> by congruence.
    rewrite repeat_length. exact E.
Qed.

Lemma HUF_compress_internal_within_dst_witness :
  let st := mkState ([128; 16] ++ List.repeat 0 6 ++ List.repeat 9 8) None None in
  length (st_dst st) = length (List.repeat 9 16)
  /\ forall n, Size 8 = Size n -> 0 <= n <= Z.of_nat (length (List.repeat 9 16)).
Proof.
  apply (HUF_compress_internal_within_dst (ext := bounded_ext)
           (List.repeat 9 16) (List.repeat 0 30 ++ List.repeat 1 10) 255 11 false 8192
           None None false (Size 8)
           (mkState ([128; 16] ++ List.repeat 0 6 ++ List.repeat 9 8) None None)).
  - exact bounded_writer_bounded.
  - exact bounded_writer_bounded.
  - vm_compute. reflexivity.
Defined.

(** ** A call that may not use the previous table *)

Section RepeatNone.

Context {ext : Collaborators}.

Lemma observed_finish (r : outcome (ret_code * list Z)) (table table' : option HUF_CTable)
  (rep rep' : option HUF_repeat) :
  observed (finish r table rep) = observed (finish r table' rep').
Proof. destruct r as [[code d]| |]; reflexivity. Qed.

Lemma HUF_compress_internal_repeat_none (dst src : list Z) (M L : Z) (single : bool)
  (wksp : Z) (old : option HUF_CTable) (prefer : bool) :
  observed (HUF_compress_internal dst src M L single wksp old (Some HUF_repeat_none) prefer)
  = observed (HUF_compress_internal dst src M L single wksp None None false).
Proof.
  unfold HUF_compress_internal. cbv zeta.
  destruct (wksp <? sizeof_huffNodeTable + sizeof_count + sizeof_CTable); [reflexivity|].
  destruct (Z.of_nat (length src) =? 0); [reflexivity|].
  destruct (Z.of_nat (length dst) =? 0); [reflexivity|].
  destruct (HUF_BLOCKSIZE_MAX <? Z.of_nat (length src)); [reflexivity|].
  destruct (HUF_TABLELOG_MAX <? L); [reflexivity|].
  replace (prefer && is_repeat (Some HUF_repeat_none) HUF_repeat_valid) with false
    by (now destruct prefer).
  cbn [andb].
  destruct (FSE_count_wksp _ src) as [[[count M'] largest]| e |]; [|reflexivity..].
  destruct (largest =? Z.of_nat (length src)); [reflexivity|].
  destruct (largest <=? Z.shiftr (Z.of_nat (length src)) 7 + 1); [reflexivity|].
  unfold check_previous. cbn [is_repeat]. rewrite !bind_ret.
  replace (prefer && repeat_usable (Some HUF_repeat_none)) with false
    by (now destruct prefer).
  cbn [andb].
  destruct (HUF_buildCTable_wksp zero_CTable count M' _ _) as [[CTable maxBits]| e |];
    [|reflexivity..].
  destruct (_ <? _); [reflexivity|].
  destruct (HUF_writeCTable _ _ _ _) as [[hSize header]| e |]; [|reflexivity..].
  unfold previous_is_beneficial. cbn [repeat_usable]. rewrite !bind_ret.
  destruct (Z.of_nat (length src) <=? hSize + 12); [reflexivity|].
  apply observed_finish.
Qed.

(** X17 (HUF_compress1X_repeat, HUF_compress4X_repeat): called with the
    repeat state [HUF_repeat_none], an entry point with a previous table
    returns what the entry point without one returns, and leaves the same
    bytes in the destination, whatever the previous table holds and whatever
    [preferRepeat] is. *)
Theorem HUF_compress_repeat_none_as_wksp (dst src : list Z) (M L wksp : Z)
  (hufTable : option HUF_CTable) (prefer : bool) :
  observed (HUF_compress1X_repeat dst src M L wksp hufTable (Some HUF_repeat_none) prefer)
  = observed (HUF_compress1X_wksp dst src M L wksp)
  /\ observed (HUF_compress4X_repeat dst src M L wksp hufTable (Some HUF_repeat_none) prefer)
     = observed (HUF_compress4X_wksp dst src M L wksp).
Proof. split; apply HUF_compress_internal_repeat_none. Qed.

End RepeatNone.

(** * A histogram with one symbol *)

Section SingleSymbol.

Variable count : list Z.
Variables M maxNbBits wkspSize : Z.
Variable tree0 : HUF_CTable.

Hypothesis Hvalid : valid_count count M.
Hypothesis Hone : nb_present count M = 1.
Hypothesis Hlog : 0 <= maxNbBits.
Hypothesis Hwksp : sizeof_huffNodeTable <= wkspSize.

(** The rank of the only symbol that occurs is 0. *)
Lemma nonNull_loop_single (t0 : nodeTable) :
  sorted_table count M t0 ->
  while_loop (S (S (Z.to_nat M))) (nonNull_cond t0) skip_body M = Ret 0.
Proof.
  intros Hsort. destruct Hvalid as [HM _ _ _]. unfold HUF_SYMBOLVALUE_MAX in HM.
  destruct (while_loop_inv (fun n => 0 <= n <= M) (fun n => n)
              (nonNull_cond t0) skip_body) with (fuel := S (S (Z.to_nat M))) (s := M)
    as (n & E & I & C); try lia.
  - intros n Hn. unfold nonNull_cond. rewrite rd_in by lia. rewrite bind_ret.
    eexists. split; [reflexivity|]. intros Hc. apply Z.eqb_eq in Hc.
    pose proof (sorted_prefix count M Hvalid t0 Hsort n ltac:(lia)).
    unfold skip_body. rewrite U32_small by lia. eexists. split; [reflexivity|]. lia.
  - rewrite E. f_equal. unfold nonNull_cond in C. rewrite rd_in in C by lia.
    rewrite bind_ret in C.
    assert (C' : (n_count (t0 n) =? 0) = false) by congruence. apply Z.eqb_neq in C'.
    pose proof (sorted_prefix count M Hvalid t0 Hsort n ltac:(lia)).
    pose proof (sorted_nonneg count M Hvalid t0 Hsort n ltac:(lia)). lia.
Qed.

(** The unlimited tree of one symbol: the leaf 0 hangs from the node 256,
    whose depth stays 0, and gets the depth 1. *)
Lemma HUF_buildTree_single :
  exists t0 t,
    sorted_table count M t0
    /\ HUF_buildTree count M = Ret (t, 0)
    /\ (forall i, 0 <= i <= M -> byte (t i) = byte (t0 i))
    /\ (forall i, 0 <= i <= M -> nbf t i = if i =? 0 then 1 else 0).
Proof.
  pose proof Hvalid as [HM Hlen Hnn Htot]. unfold HUF_SYMBOLVALUE_MAX in HM.
  assert (Hcount : forall s, 0 <= s <= M -> 0 <= count_at count s < 2^30).
  { intros s Hs. pose proof (count_range count M Hvalid s Hs) as H.
    unfold HUF_BLOCKSIZE_MAX in H. change (2^30) with 1073741824. lia. }
  destruct (HUF_sort_spec count M HM Hlen Hcount) as (t0 & Esort & Hsort).
  pose proof (nonNull_loop_single t0 Hsort) as Enn.
  assert (Hclean : forall x, parent (t0 x) = 0 /\ n_nbBits (t0 x) = 0).
  { intros x. destruct (Z_le_dec 0 x) as [H0|H0]; [destruct (Z_le_dec x M) as [H1|H1]|].
    - destruct (st_cells _ _ _ Hsort x ltac:(lia)) as [E _]. rewrite E. split; reflexivity.
    - rewrite (st_free _ _ _ Hsort x) by lia. split; reflexivity.
    - rewrite (st_free _ _ _ Hsort x) by lia. split; reflexivity. }
  pose proof (sorted_nonneg count M Hvalid t0 Hsort 0 ltac:(lia)) as Hc0.
  unfold HUF_BLOCKSIZE_MAX in Hc0.
  assert (Hfree : t0 (-1) = zero_node) by (apply (st_free _ _ _ Hsort); lia).
  exists t0.
  remember (HUF_buildTree count M) as r eqn:Er.
  unfold HUF_buildTree in Er. cbv zeta in Er.
  rewrite (bind_eq _ _ _ Esort) in Er. cbv beta in Er.
  rewrite (bind_eq _ _ _ Enn) in Er. cbv beta in Er.
  unfold STARTNODE, HUF_SYMBOLVALUE_MAX in Er. change (255 + 1) with 256 in Er.
  change (S32 0) with 0 in Er. change (U32 (256 + 0 - 1)) with 255 in Er.
  change (U16 (256 + 1)) with 257 in Er. change (S32 (0 - 2)) with (-2) in Er.
  change (0 - 1) with (-1) in Er.
  (* the first parent *)
  rewrite (rd_in t0 0) in Er by lia. rewrite bind_ret in Er.
  rewrite (rd_in t0 (-1)) in Er by lia. rewrite bind_ret in Er.
  rewrite (rd_in t0 256) in Er by lia. rewrite bind_ret in Er.
  rewrite wr_in in Er by lia. rewrite bind_ret in Er.
  rewrite rd_in in Er by lia. rewrite bind_ret in Er.
  rewrite wr_in in Er by lia. rewrite bind_ret in Er.
  rewrite rd_in in Er by lia. rewrite bind_ret in Er.
  rewrite wr_in in Er by lia. rewrite bind_ret in Er.
  (* no other node *)
  change (Z.to_nat (255 - 257 + 1)) with 0%nat in Er. cbn [for_up] in Er.
  rewrite bind_ret in Er.
  rewrite rd_in in Er by lia. rewrite bind_ret in Er.
  rewrite wr_in in Er by lia. rewrite bind_ret in Er.
  cbn [while_loop] in Er. unfold parents_cond at 1 in Er. rewrite bind_ret in Er.
  change (257 <=? 255) with false in Er. cbv beta iota in Er.
  rewrite bind_ret in Er. cbv beta iota in Er.
  (* the depths *)
  rewrite rd_in in Er by lia. rewrite bind_ret in Er.
  rewrite wr_in in Er by lia. rewrite bind_ret in Er.
  change (Z.to_nat (U32 (255 - 1) - 256 + 1)) with 0%nat in Er. cbn [for_down] in Er.
  rewrite bind_ret in Er.
  change (Z.to_nat (0 + 1)) with 1%nat in Er. cbn [for_up] in Er.
  unfold depth_body at 1 in Er.
  rewrite rd_in in Er by lia. rewrite bind_ret in Er.
  match type of Er with context [rd ?t (parent (?t 0))] => set (t8 := t) in Er end.
  assert (T8 : (forall x, byte (t8 x) = byte (t0 x) /\ n_nbBits (t8 x) = 0)
               /\ parent (t8 0) = 256).
  { split; [intros x|]; unfold t8.
    - destruct (Z.eq_dec x 255) as [->|X1]; [|destruct (Z.eq_dec x (-1)) as [->|X2];
        [|destruct (Z.eq_dec x 0) as [->|X3]; [|destruct (Z.eq_dec x 256) as [->|X4]]]];
        repeat first [rewrite upd_same | rewrite upd_other by lia
                     | progress cbn [set_nbBits set_count set_parent byte parent
                                       n_nbBits n_count]];
        (split; [reflexivity | try reflexivity; apply Hclean]).
    - repeat first [rewrite upd_same | rewrite upd_other by lia
                   | progress cbn [set_nbBits set_count set_parent byte parent
                                     n_nbBits n_count]].
      reflexivity. }
  clearbody t8. destruct T8 as [T8 T8p].
  rewrite T8p in Er.
  rewrite rd_in in Er by lia. rewrite bind_ret in Er.
  rewrite wr_in in Er by lia. rewrite bind_ret in Er.
  destruct (T8 256) as (_ & E256). rewrite E256 in Er. change (BYTE (0 + 1)) with 1 in Er.
  eexists. split; [exact Hsort|]. split; [exact Er|].
  split; intros i Hi; unfold nbf, upd.
  - destruct (Z.eqb_spec i 0) as [->|]; [cbn [set_nbBits byte] | ]; apply T8.
  - destruct (Z.eqb_spec i 0) as [->|]; [reflexivity | apply T8].
Qed.

(** The table of one symbol. *)
Lemma single_symbol_table :
  exists tree,
    HUF_buildCTable_wksp tree0 count M maxNbBits wkspSize = Ret (tree, 1)
    /\ (forall s, 0 <= s <= M ->
          nbBits (tree s) = if count_at count s =? 0 then 0 else 1)
    /\ kraft_sum tree M 1 = 1.
Proof.
  pose proof Hvalid as [HM _ Hnn _]. unfold HUF_SYMBOLVALUE_MAX in HM.
  destruct HUF_buildTree_single as (t0 & t & Hsort & Et & Hbyte & Hnb).
  assert (HL : 1 <= effective_log maxNbBits).
  { unfold effective_log, HUF_TABLELOG_DEFAULT. destruct (Z.eqb_spec maxNbBits 0); lia. }
  assert (Es : HUF_setMaxHeight t 0 (effective_log maxNbBits) = Ret (t, 1)).
  { unfold HUF_setMaxHeight. rewrite rd_in by lia. rewrite bind_ret. cbv zeta.
    pose proof (Hnb 0 ltac:(lia)) as H0. unfold nbf in H0. cbn [Z.eqb] in H0. rewrite H0.
    rewrite (proj2 (Z.leb_le 1 (effective_log maxNbBits))) by exact HL. reflexivity. }
  assert (Hbyte' : forall i, 0 <= i <= M -> 0 <= byte (t i) <= M).
  { intros i Hi. rewrite Hbyte by exact Hi. apply (st_cells _ _ _ Hsort i Hi). }
  assert (Hinj : forall i j, 0 <= i <= M -> 0 <= j <= M -> byte (t i) = byte (t j) -> i = j).
  { intros i j Hi Hj. rewrite !Hbyte by assumption. apply (st_distinct _ _ _ Hsort); assumption. }
  assert (Hrange : forall i, 0 <= i <= 0 -> 1 <= nbf t i <= 1).
  { intros i Hi. rewrite Hnb by lia. replace i with 0 by lia. cbn [Z.eqb]. lia. }
  assert (Habs : forall i, 0 < i <= M -> nbf t i = 0).
  { intros i Hi. rewrite Hnb by lia. destruct (Z.eqb_spec i 0); [lia | reflexivity]. }
  assert (HKM : 0 <= 0 <= M /\ M <= 255) by lia.
  destruct (HUF_fillCTable_spec t M 0 1 tree0 HKM ltac:(lia) Hbyte' Hinj Hrange Habs)
    as (tree & Ef & Hbits & _).
  assert (Hlen : forall s, 0 <= s <= M ->
            nbBits (tree s) = if count_at count s =? 0 then 0 else 1).
  { intros s Hs. destruct (leaf_of_symbol t M 0 HKM Hbyte' Hinj s Hs) as (i & Hi & E).
    rewrite <- E at 1. rewrite Hbits, Hnb by exact Hi.
    rewrite <- E, Hbyte by exact Hi.
    rewrite <- (sorted_count count M t0 Hsort i Hi).
    pose proof (sorted_prefix count M Hvalid t0 Hsort i Hi) as Hp.
    pose proof (sorted_nonneg count M Hvalid t0 Hsort i Hi) as Hc.
    destruct (Z.eqb_spec i 0); destruct (Z.eqb_spec (n_count (t0 i)) 0); lia || reflexivity. }
  exists tree. split; [|split; [exact Hlen|]].
  - unfold HUF_buildCTable_wksp.
    rewrite (proj2 (Z.ltb_ge wkspSize sizeof_huffNodeTable)) by lia.
    cbv zeta. fold (effective_log maxNbBits). unfold HUF_SYMBOLVALUE_MAX.
    rewrite (proj2 (Z.ltb_ge 255 M)) by lia.
    rewrite (bind_eq _ _ _ Et). cbv beta iota.
    rewrite (bind_eq _ _ _ Es). cbv beta iota.
    rewrite (bind_eq _ _ _ Ef). cbv beta. reflexivity.
  - transitivity (nb_present count M); [|exact Hone].
    unfold kraft_sum, nb_present. apply zsum_ext.
    intros s Hs. rewrite Hlen by lia. unfold kraft_term.
    destruct (count_at count s =? 0); reflexivity.
Qed.

(** X15 (HUF_buildCTable_wksp): for a histogram in which exactly one symbol
    occurs, the builder completes and returns the table log 1, whatever the
    requested limit; the symbol that occurs gets the length 1 and the others
    the length 0, so that the Kraft sum of the table is 1, half of [2^1]:
    the code is not complete. *)
Theorem HUF_buildCTable_wksp_single_symbol :
  exists tree,
    HUF_buildCTable_wksp tree0 count M maxNbBits wkspSize = Ret (tree, 1)
    /\ (forall s, 0 <= s <= M ->
          nbBits (tree s) = if count_at count s =? 0 then 0 else 1)
    /\ kraft_sum tree M 1 = 1.
Proof. exact single_symbol_table. Qed.

End SingleSymbol.

Lemma HUF_buildCTable_wksp_single_symbol_witness :
  exists tree,
    HUF_buildCTable_wksp zero_CTable [0; 7; 0] 2 5 4096 = Ret (tree, 1)
    /\ (forall s, 0 <= s <= 2 ->
          nbBits (tree s) = if count_at [0; 7; 0] s =? 0 then 0 else 1)
    /\ kraft_sum tree 2 1 = 1.
Proof.
  apply (HUF_buildCTable_wksp_single_symbol [0; 7; 0] 2 5 4096 zero_CTable).
  - constructor.
    + unfold HUF_SYMBOLVALUE_MAX. lia.
    + reflexivity.
    + intros s Hs. assert (s = 0 \/ s = 1 \/ s = 2) as [-> | [-> | ->]] by lia;
        vm_compute; discriminate.
    + vm_compute. discriminate.
  - reflexivity.
  - lia.
  - vm_compute. discriminate.
Defined.

(** * From the histogram to the table a decoder reads *)

Section WriteRead.

Context {ext : Collaborators}.

(** A valid table goes through [HUF_writeCTable] and [HUF_readCTable]. *)
Lemma written_table_read (CTable : HUF_CTable) (M L maxDstSize n : Z)
  (bytes rest : list Z) (T0 : HUF_CTable) (M0 : Z) :
  FSE_roundtrip ->
  valid_table CTable M L ->
  M <= M0 <= HUF_SYMBOLVALUE_MAX ->
  HUF_writeCTable maxDstSize CTable M L = Ret (n, bytes) ->
  exists T',
    HUF_readCTable T0 M0 (bytes ++ rest) = Ret (T', M, n)
    /\ (forall s, 0 <= s <= M -> nbBits (CTable s) <> 0 -> T' s = CTable s).
Proof.
  intros Hfse V HM0 Hw.
  enough (H : exists T',
             HUF_readCTable T0 M0 (bytes ++ rest) = Ret (T', M, n)
             /\ (forall s, 0 <= s <= M -> nbBits (CTable s) <> 0 -> T' s = CTable s)
             /\ (forall s, 0 <= s <= M -> nbBits (CTable s) = 0 -> nbBits (T' s) = L + 1))
    by (destruct H as (T' & E & H1 & _); exists T'; split; assumption).
  pose proof V as [HL HM Hlen Hk Hlast Hcan].
  unfold HUF_SYMBOLVALUE_MAX in *.
  unfold HUF_writeCTable in Hw. unfold HUF_SYMBOLVALUE_MAX in Hw.
  destruct (255 <? M) eqn:E255; [apply Z.ltb_lt in E255; lia|].
  destruct (bitsToWeight_loop L ltac:(lia)) as (b2w & Eb & Hb).
  rewrite (bind_eq _ _ _ Eb) in Hw.
  rewrite (weight_loop CTable L b2w) in Hw; [| lia | exact Hb | intros s Hs; apply Hlen; lia].
  rewrite bind_ret in Hw. cbn [app] in Hw. fold (weights_of CTable L (Z.to_nat M)) in Hw.
  assert (Hlw : Z.of_nat (length (weights_of CTable L (Z.to_nat M))) = M)
    by (unfold weights_of; rewrite zmap_length; lia).
  set (w := weights_of CTable L (Z.to_nat M)) in *.
  apply bind_Ret in Hw as ([h payload] & Hcw & Hw).
  destruct ((1 <? h) && (h <? M / 2)) eqn:Hsel.
  - apply andb_prop in Hsel as [H1 H2]. apply Z.ltb_lt in H1. apply Z.ltb_lt in H2.
    destruct (maxDstSize <? h + 1); [discriminate|].
    assert (M / 2 < 128) by (apply Z.div_lt_upper_bound; lia).
    rewrite BYTE_small in Hw by lia. injection Hw as <- <-.
    pose proof (HUF_compressWeights_length _ _ _ _ _ Hcw H1) as Hpl.
    rewrite <- Hlw in Hcw. pose proof (Hfse _ _ _ _ Hcw H1) as Hdec.
    apply (readCTable_of_weights CTable T0 M L M0 (h + 1));
      [exact V | unfold HUF_SYMBOLVALUE_MAX; exact HM0 |].
    cbn [app]. apply readStats_fse; try assumption; lia.
  - destruct (256 - 128 <? M) eqn:Hraw; [discriminate|]. apply Z.ltb_ge in Hraw.
    destruct (maxDstSize <? (M + 1) / 2 + 1); [discriminate|].
    rewrite U32_small in Hw by lia. rewrite BYTE_small in Hw by lia.
    injection Hw as <- <-.
    apply (readCTable_of_weights CTable T0 M L M0 ((M + 1) / 2 + 1));
      [exact V | unfold HUF_SYMBOLVALUE_MAX; exact HM0 |].
    cbn [app]. apply readStats_raw; [exact V | lia].
Qed.

Variable count : list Z.
Variables M maxNbBits wkspSize : Z.
Variable tree0 : HUF_CTable.

Hypothesis Hvalid : valid_count count M.
Hypothesis Hpresent : 2 <= nb_present count M.
Hypothesis Hlog : 0 <= maxNbBits <= HUF_TABLELOG_MAX.
Hypothesis Hfeasible : nb_present count M <= 2^(effective_log maxNbBits).
Hypothesis Hwksp : sizeof_huffNodeTable <= wkspSize.
Hypothesis Hlast : 0 < count_at count M.

(** X16 (HUF_buildCTable_wksp, HUF_writeCTable, HUF_readCTable): on the
    domain of the builder (where it always returns) and with the largest
    symbol in use, whatever [HUF_writeCTable] writes for the table the
    builder returns is read back by [HUF_readCTable], from these bytes and
    whatever follows them, as the same number of bytes, the same largest
    symbol and the same length and value for every symbol that occurs.  The
    FSE coder is assumed to decode what it has encoded. *)
Theorem built_table_roundtrip (tree : HUF_CTable) (L maxDstSize n : Z)
  (bytes rest : list Z) (T0 : HUF_CTable) (M0 : Z) :
  FSE_roundtrip ->
  M <= M0 <= HUF_SYMBOLVALUE_MAX ->
  HUF_buildCTable_wksp tree0 count M maxNbBits wkspSize = Ret (tree, L) ->
  HUF_writeCTable maxDstSize tree M L = Ret (n, bytes) ->
  exists T',
    HUF_readCTable T0 M0 (bytes ++ rest) = Ret (T', M, n)
    /\ forall s, 0 <= s <= M -> 0 < count_at count s -> T' s = tree s.
Proof.
  intros Hfse HM0 Hb Hw.
  destruct (HUF_buildCTable_wksp_spec count M maxNbBits wkspSize tree0
              Hvalid Hpresent Hlog Hfeasible Hwksp) as (tree' & L' & E & HL & H).
  rewrite Hb in E. injection E as <- <-.
  assert (Hr : 1 <= effective_log maxNbBits <= 12).
  { unfold effective_log, HUF_TABLELOG_DEFAULT, HUF_TABLELOG_MAX in *.
    destruct (Z.eqb_spec maxNbBits 0); lia. }
  pose proof Hvalid as [HM _ Hnn _].
  assert (V : valid_table tree M L).
  { constructor.
    - unfold HUF_TABLELOG_MAX. lia.
    - pose proof (present_range count M Hvalid). lia.
    - intros s Hs. destruct (Z.eq_dec (count_at count s) 0) as [Hz|Hnz].
      + rewrite (tb_absent _ _ _ _ H s Hs Hz). lia.
      + pose proof (Hnn s Hs). pose proof (tb_present _ _ _ _ H s Hs ltac:(lia)). lia.
    - apply (tb_kraft _ _ _ _ H).
    - pose proof (tb_present _ _ _ _ H M ltac:(lia) Hlast). lia.
    - apply (tb_canonical _ _ _ _ H). }
  destruct (written_table_read tree M L maxDstSize n bytes rest T0 M0 Hfse V HM0 Hw)
    as (T' & Er & HT).
  exists T'. split; [exact Er|]. intros s Hs Hc. apply HT; [exact Hs|].
  pose proof (tb_present _ _ _ _ H s Hs Hc). lia.
Qed.

End WriteRead.

Lemma built_table_roundtrip_witness :
  let count := [1; 1; 2; 3; 5; 8; 13; 21] in
  let tree := match HUF_buildCTable_wksp zero_CTable count 7 4 4096 with
              | Ret (t, _) => t
              | _ => zero_CTable
              end in
  exists T',
    HUF_readCTable (ext := simple_ext) zero_CTable 255 ([134; 17; 17; 17; 32] ++ [9; 9])
    = Ret (T', 7, 5)
    /\ forall s, 0 <= s <= 7 -> 0 < count_at count s -> T' s = tree s.
Proof.
  apply (built_table_roundtrip (ext := simple_ext) [1; 1; 2; 3; 5; 8; 13; 21] 7 4 4096
           zero_CTable valid_count_skewed) with (L := 4) (maxDstSize := 16).
  - vm_compute. congruence.
  - unfold HUF_TABLELOG_MAX. lia.
  - vm_compute. congruence.
  - vm_compute. congruence.
  - vm_compute. reflexivity.
  - exact simple_ext_roundtrip.
  - unfold HUF_SYMBOLVALUE_MAX. lia.
  - vm_compute. reflexivity.
  - vm_compute. reflexivity.
Defined.

(** * The table builder on its domain

    The domain of [HUF_buildCTable_wksp]: the counts of a block of at most
    128 KiB over the symbols [0 .. M], [M <= 255]; a bound of at most 12, 0
    standing for the default 11, that leaves room for a code, that is with
    [2^bound] at least the number of symbols that occur; a workspace that
    holds the node table. *)

Section Builder.

Variable count : list Z.
Variables M maxNbBits wkspSize : Z.
Variable tree0 : HUF_CTable.

Hypothesis Hvalid : valid_count count M.
Hypothesis Hlog : 0 <= maxNbBits <= HUF_TABLELOG_MAX.
Hypothesis Hfeasible : nb_present count M <= 2^(effective_log maxNbBits).
Hypothesis Hwksp : sizeof_huffNodeTable <= wkspSize.

Lemma kraft_present_sum (tree : HUF_CTable) (L : Z) :
  (forall s, 0 <= s <= M -> count_at count s = 0 -> nbBits (tree s) = 0) ->
  (forall s, 0 <= s <= M -> 0 < count_at count s -> 1 <= nbBits (tree s) <= L) ->
  kraft_present count tree M L = kraft_sum tree M L.
Proof.
  intros Habs Hpres. pose proof Hvalid as [HM _ Hnn _].
  unfold kraft_present, kraft_sum. apply zsum_ext. intros s Hs. unfold kraft_term.
  destruct (Z.eqb_spec (count_at count s) 0) as [Hz|Hnz].
  - rewrite (Habs s ltac:(lia) Hz). reflexivity.
  - pose proof (Hnn s ltac:(lia)). pose proof (Hpres s ltac:(lia) ltac:(lia)).
    destruct (Z.eqb_spec (nbBits (tree s)) 0); [lia | reflexivity].
Qed.

Lemma kraft_present_scale (tree : HUF_CTable) (L L' : Z) :
  (forall s, 0 <= s <= M -> 0 < count_at count s -> 1 <= nbBits (tree s) <= L) ->
  L <= L' ->
  kraft_present count tree M L' = 2^(L' - L) * kraft_present count tree M L.
Proof.
  intros Hpres HL. pose proof Hvalid as [HM _ Hnn _].
  unfold kraft_present. rewrite <- zsum_scale. apply zsum_ext. intros s Hs.
  destruct (Z.eqb_spec (count_at count s) 0) as [Hz|Hnz]; [lia|].
  pose proof (Hnn s ltac:(lia)). pose proof (Hpres s ltac:(lia) ltac:(lia)).
  rewrite <- Z.pow_add_r by lia. f_equal. lia.
Qed.

(** C1: for the counts of a block in which at least two symbols occur and a
    bound that leaves room for a code, [HUF_buildCTable_wksp], height limit
    included, returns a table whose lengths satisfy Kraft equality over the
    symbols that occur: the sum of [2^(L - nbBits[s])] over the symbols with
    [count[s] > 0] is [2^L], with the table log [L] it returns and with the
    bound itself. *)
Theorem C1_kraft_equality :
  2 <= nb_present count M ->
  exists tree L,
    HUF_buildCTable_wksp tree0 count M maxNbBits wkspSize = Ret (tree, L)
    /\ 1 <= L <= effective_log maxNbBits
    /\ kraft_present count tree M L = 2^L
    /\ kraft_present count tree M (effective_log maxNbBits)
       = 2^(effective_log maxNbBits).
Proof.
  intros Hpresent.
  destruct (HUF_buildCTable_wksp_spec count M maxNbBits wkspSize tree0
              Hvalid Hpresent Hlog Hfeasible Hwksp) as (tree & L & E & HL & H).
  exists tree, L. split; [exact E|]. split; [exact HL|].
  assert (EL : kraft_present count tree M L = 2^L).
  { rewrite (kraft_present_sum tree L (tb_absent _ _ _ _ H) (tb_present _ _ _ _ H)).
    apply (tb_kraft _ _ _ _ H). }
  split; [exact EL|].
  rewrite (kraft_present_scale tree L _ (tb_present _ _ _ _ H)) by lia.
  rewrite EL, <- Z.pow_add_r by lia. f_equal. lia.
Qed.

(** The table on the whole domain, one symbol included. *)
Lemma built_lengths :
  1 <= nb_present count M ->
  exists tree L,
    HUF_buildCTable_wksp tree0 count M maxNbBits wkspSize = Ret (tree, L)
    /\ 1 <= L <= effective_log maxNbBits
    /\ (forall s, 0 <= s <= M -> count_at count s = 0 -> nbBits (tree s) = 0)
    /\ (forall s, 0 <= s <= M -> 0 < count_at count s -> 1 <= nbBits (tree s) <= L)
    /\ (forall a b, 0 <= a <= M -> 0 <= b <= M ->
          0 < count_at count b -> count_at count b < count_at count a ->
          nbBits (tree a) <= nbBits (tree b)).
Proof.
  intros Hpresent.
  assert (Hr : 1 <= effective_log maxNbBits).
  { unfold effective_log, HUF_TABLELOG_DEFAULT. destruct (Z.eqb_spec maxNbBits 0); lia. }
  destruct (Z.eq_dec (nb_present count M) 1) as [Hone|Hmore].
  - destruct (single_symbol_table count M maxNbBits wkspSize tree0 Hvalid Hone
                ltac:(lia) Hwksp) as (tree & E & Hlen & _).
    exists tree, 1. split; [exact E|]. split; [lia|].
    split; [|split].
    + intros s Hs Hz. rewrite (Hlen s Hs), Hz. reflexivity.
    + intros s Hs Hp. rewrite (Hlen s Hs).
      destruct (Z.eqb_spec (count_at count s) 0); lia.
    + intros a b Ha Hb Hcb Hab. rewrite (Hlen a Ha), (Hlen b Hb).
      destruct (Z.eqb_spec (count_at count a) 0); [lia|].
      destruct (Z.eqb_spec (count_at count b) 0); lia.
  - destruct (HUF_buildCTable_wksp_spec count M maxNbBits wkspSize tree0
                Hvalid ltac:(lia) Hlog Hfeasible Hwksp) as (tree & L & E & HL & H).
    exists tree, L. split; [exact E|]. split; [exact HL|].
    split; [exact (tb_absent _ _ _ _ H)|].
    split; [exact (tb_present _ _ _ _ H) | exact (tb_mono _ _ _ _ H)].
Qed.


(** C4: for the counts of a block in which a symbol occurs and a bound that
    leaves room for a code, in the table [HUF_buildCTable_wksp] returns,
    after the sort, the merge and the height limit, a symbol [a] that occurs
    more often than a symbol [b] that occurs has no longer code. *)
Theorem C4_monotone_lengths :
  1 <= nb_present count M ->
  exists tree L,
    HUF_buildCTable_wksp tree0 count M maxNbBits wkspSize = Ret (tree, L)
    /\ forall a b, 0 <= a <= M -> 0 <= b <= M ->
         0 < count_at count b -> count_at count b < count_at count a ->
         nbBits (tree a) <= nbBits (tree b).
Proof.
  intros Hpresent.
  destruct (built_lengths Hpresent) as (tree & L & E & _ & _ & _ & Hmono).
  exists tree, L. split; [exact E | exact Hmono].
Qed.

End Builder.

Lemma C1_witness :
  exists tree L,
    HUF_buildCTable_wksp zero_CTable [1; 1; 2; 3; 5; 8; 13; 21] 7 3 4096 = Ret (tree, L)
    /\ 1 <= L <= effective_log 3
    /\ kraft_present [1; 1; 2; 3; 5; 8; 13; 21] tree 7 L = 2^L
    /\ kraft_present [1; 1; 2; 3; 5; 8; 13; 21] tree 7 (effective_log 3)
       = 2^(effective_log 3).
Proof.
  apply (C1_kraft_equality [1; 1; 2; 3; 5; 8; 13; 21] 7 3 4096 zero_CTable
           valid_count_skewed).
  - unfold HUF_TABLELOG_MAX. lia.
  - vm_compute. congruence.
  - vm_compute. congruence.
  - vm_compute. congruence.
Defined.


Lemma C4_witness :
  exists tree L,
    HUF_buildCTable_wksp zero_CTable [1; 1; 2; 3; 5; 8; 13; 21] 7 4 4096 = Ret (tree, L)
    /\ forall a b, 0 <= a <= 7 -> 0 <= b <= 7 ->
         0 < count_at [1; 1; 2; 3; 5; 8; 13; 21] b ->
         count_at [1; 1; 2; 3; 5; 8; 13; 21] b < count_at [1; 1; 2; 3; 5; 8; 13; 21] a ->
         nbBits (tree a) <= nbBits (tree b).
Proof.
  apply (C4_monotone_lengths [1; 1; 2; 3; 5; 8; 13; 21] 7 4 4096 zero_CTable
           valid_count_skewed).
  - unfold HUF_TABLELOG_MAX. lia.
  - vm_compute. congruence.
  - vm_compute. congruence.
  - vm_compute. congruence.
Defined.
